(** * A Rocq model of the Python-sublanguage interpreter

    The development follows the pipeline of the program: the error
    taxonomy ([error.h]), the tokens ([token.h], [token.cpp]), the lexer
    ([lexer.cpp]), the syntax tree ([syntax.h], [syntax.cpp]), the parser
    ([parser.cpp]), the symbol table ([semantics.cpp]), the visitor
    ([visitor.cpp]) and the driver ([main.cpp]).

    Conventions of the embedding.
    - A C++ [int] is a [Z].  Counters of the lexer and the parser never
      leave the range of [int] on inputs shorter than 2^31 bytes and are
      left unbounded; the arithmetic of the interpreted language is
      reduced to 32 bits two's complement ([wrap32]).
    - A thrown [Error] is the outcome [Throw]; an element access that
      C++ leaves undefined (the back of an empty vector, an index past
      the end), an exception that is not an [Error], and the exhaustion
      of the fuel of a loop are the outcome [Crash].
    - A [std::vector] used as a stack is a list whose head is [back()];
      the token vector, which the parser indexes, is a list in the order
      of [push_back]. *)

From stdpp Require Import gmap strings list.
From Stdlib Require Import ZArith Ascii String DecimalString Lia.

(** ** Errors ([error.h]) *)

Inductive ErrorCode :=
  | MISSING_FILE_ERROR
  | FILE_OPEN_ERROR
  | INDENTATION_ERROR
  | LEXICAL_ERROR
  | RESERVED_KEYWORD_ERROR
  | SYNTAX_ERROR
  | INTERNAL_ERROR
  | SEMANTIC_ERROR
  | INDEX_ERROR
  | EVALUATION_ERROR
  | ZERO_DIVISION
  | TYPE_ERROR.

#[global] Instance ErrorCode_eq_dec : EqDecision ErrorCode.
Proof. solve_decision. Defined.

Record Error := mkError {
  getLine : Z;
  getColumn : Z;
  getErrorCode : ErrorCode;
  what : string
}.

Definition MissingFileError l c m := mkError l c MISSING_FILE_ERROR m.
Definition FileOpenError l c m := mkError l c FILE_OPEN_ERROR m.
Definition IndentationError l c m := mkError l c INDENTATION_ERROR m.
Definition LexicalError l c m := mkError l c LEXICAL_ERROR m.
Definition ReservedKeywordError l c m := mkError l c RESERVED_KEYWORD_ERROR m.
Definition SyntaxError l c m := mkError l c SYNTAX_ERROR m.
Definition InternalError l c m := mkError l c INTERNAL_ERROR m.
Definition SemanticError l c m := mkError l c SEMANTIC_ERROR m.
Definition IndexError l c m := mkError l c INDEX_ERROR m.
Definition EvaluationError l c m := mkError l c EVALUATION_ERROR m.
Definition ZeroDivisionError l c m := mkError l c ZERO_DIVISION m.
Definition TypeError l c m := mkError l c TYPE_ERROR m.

Definition ErrorName (error_code : ErrorCode) : string :=
  match error_code with
  | MISSING_FILE_ERROR => "MISSING_FILE_ERROR"
  | FILE_OPEN_ERROR => "FILE_OPEN_ERROR"
  | INDENTATION_ERROR => "INDENTATION_ERROR"
  | LEXICAL_ERROR => "LEXICAL_ERROR"
  | RESERVED_KEYWORD_ERROR => "RESERVED_KEYWORD_ERROR"
  | SYNTAX_ERROR => "SYNTAX_ERROR"
  | INTERNAL_ERROR => "INTERNAL_ERROR"
  | SEMANTIC_ERROR => "SEMANTIC_ERROR"
  | INDEX_ERROR => "INDEX_ERROR"
  | EVALUATION_ERROR => "EVALUATION_ERROR"
  | ZERO_DIVISION => "ZERO_DIVISION"
  | TYPE_ERROR => "TYPE_ERROR"
  end.

(** What lies outside the defined behaviour of the program. *)
Inductive Fault :=
  | UncheckedAccess     (* element access outside a vector *)
  | UncaughtException   (* std::out_of_range escaping std::stoi *)
  | ArithmeticTrap      (* INT_MIN / -1: the quotient is no int, the division traps *)
  | OutOfFuel.          (* a loop that outlives the fuel of the model *)

Inductive Outcome (A : Type) :=
  | Ok (a : A)
  | Throw (e : Error)
  | Crash (f : Fault).
Arguments Ok {A} a.
Arguments Throw {A} e.
Arguments Crash {A} f.

Definition bindO {A B} (m : Outcome A) (k : A → Outcome B) : Outcome B :=
  match m with
  | Ok a => k a
  | Throw e => Throw e
  | Crash f => Crash f
  end.

(** The error classes that the taxonomy declares. *)
Definition raises {A} (m : Outcome A) (c : ErrorCode) : Prop :=
  ∃ e, m = Throw e ∧ getErrorCode e = c.

(** ** Tokens ([token.h], [token.cpp]) *)

Inductive TokenType :=
  | NUMBER_TOKEN
  | BOOL_TOKEN
  | ID_TOKEN
  | NEWLINE_TOKEN
  | EOF_TOKEN
  | ARITHMETIC_TOKEN
  | RELATIONAL_TOKEN
  | BOOLOP_TOKEN
  | RESERVEDKEYWORD_TOKEN
  | INDENTATION_TOKEN
  | ASSIGNMENT_TOKEN
  | PUNCTUATION_TOKEN.

#[global] Instance TokenType_eq_dec : EqDecision TokenType.
Proof. solve_decision. Defined.

Module ArithmeticToken.
Definition ADD : Z := 0.
Definition SUB : Z := 1.
Definition MUL : Z := 2.
Definition DIV : Z := 3.
End ArithmeticToken.

Module RelationalToken.
Definition EQ : Z := 0.
Definition LT : Z := 1.
Definition GT : Z := 2.
Definition LE : Z := 3.
Definition GE : Z := 4.
Definition NEQ : Z := 5.
End RelationalToken.

Module BoolOpToken.
Definition AND : Z := 0.
Definition OR : Z := 1.
Definition NOT : Z := 2.
End BoolOpToken.

Module ReservedKeywordToken.
Definition IF : Z := 0.
Definition ELIF : Z := 1.
Definition ELSE : Z := 2.
Definition WHILE : Z := 3.
Definition CONTINUE : Z := 4.
Definition BREAK : Z := 5.
Definition LIST : Z := 6.
Definition APPEND : Z := 7.
Definition PRINT : Z := 8.
End ReservedKeywordToken.

Module PunctuationToken.
Definition COL : Z := 0.
Definition LPAR : Z := 1.
Definition RPAR : Z := 2.
Definition PERIOD : Z := 3.
Definition LBRACK : Z := 4.
Definition RBRACK : Z := 5.
End PunctuationToken.

(** The derived classes of [Token], with the member each one adds. *)
Inductive TokenData :=
  | NumberToken (value_ : Z)
  | BoolToken (value_ : bool)
  | IdToken (value_ : string)
  | NewLineToken
  | EndOfFileToken
  | ArithmeticToken (value_ : Z)
  | RelationalToken (value_ : Z)
  | BoolOpToken (value_ : Z)
  | ReservedKeywordToken (value_ : Z)
  | IndentationToken (isIndent_ : bool)
  | AssignmentToken
  | PunctuationToken (value_ : Z).

Record Token := mkToken {
  tok_line : Z;
  tok_column : Z;
  tok_data : TokenData
}.

Definition getType (t : Token) : TokenType :=
  match tok_data t with
  | NumberToken _ => NUMBER_TOKEN
  | BoolToken _ => BOOL_TOKEN
  | IdToken _ => ID_TOKEN
  | NewLineToken => NEWLINE_TOKEN
  | EndOfFileToken => EOF_TOKEN
  | ArithmeticToken _ => ARITHMETIC_TOKEN
  | RelationalToken _ => RELATIONAL_TOKEN
  | BoolOpToken _ => BOOLOP_TOKEN
  | ReservedKeywordToken _ => RESERVEDKEYWORD_TOKEN
  | IndentationToken _ => INDENTATION_TOKEN
  | AssignmentToken => ASSIGNMENT_TOKEN
  | PunctuationToken _ => PUNCTUATION_TOKEN
  end.

(** The three virtual getters: the base class throws, the derived
    classes that hold a value of that type override. *)
Definition getIntValue (t : Token) : Outcome Z :=
  match tok_data t with
  | NumberToken v | ArithmeticToken v | RelationalToken v
  | BoolOpToken v | ReservedKeywordToken v | PunctuationToken v => Ok v
  | _ => Throw (InternalError (tok_line t) (tok_column t)
                  "This token does not have an integer value")
  end.

Definition getBoolValue (t : Token) : Outcome bool :=
  match tok_data t with
  | BoolToken b | IndentationToken b => Ok b
  | _ => Throw (InternalError (tok_line t) (tok_column t)
                  "This token does not have a boolean value")
  end.

Definition getStringValue (t : Token) : Outcome string :=
  match tok_data t with
  | IdToken s => Ok s
  | _ => Throw (InternalError (tok_line t) (tok_column t)
                  "This token does not have a string value")
  end.

Definition INT_MAX : Z := 2147483647.

(** [std::stoi] on a string of decimal digits. *)
Definition digitValue (c : ascii) : Z := Z.of_nat (nat_of_ascii c) - 48.

Fixpoint decimalValue (acc : Z) (s : string) : Z :=
  match s with
  | EmptyString => acc
  | String c s' => decimalValue (10 * acc + digitValue c) s'
  end.

(** The constructor [NumberToken(std::string, int, int)] only catches
    [std::invalid_argument]; a literal above [INT_MAX] makes [std::stoi]
    throw [std::out_of_range], which nothing catches. *)
Definition newNumberToken (s : string) (line column : Z) : Outcome Token :=
  let v := decimalValue 0 s in
  if (v <=? INT_MAX)%Z then Ok (mkToken line column (NumberToken v))
  else Crash UncaughtException.

Definition newBoolOpToken (s : string) (line column : Z) : Outcome Token :=
  if String.eqb s "and" then Ok (mkToken line column (BoolOpToken BoolOpToken.AND))
  else if String.eqb s "or" then Ok (mkToken line column (BoolOpToken BoolOpToken.OR))
  else if String.eqb s "not" then Ok (mkToken line column (BoolOpToken BoolOpToken.NOT))
  else Throw (InternalError line column ("Invalid Boolean Operator '" +:+ s +:+ "'")).

Definition newReservedKeywordToken (word : string) (line column : Z)
  : Outcome Token :=
  let kw v := Ok (mkToken line column (ReservedKeywordToken v)) in
  if String.eqb word "if" then kw ReservedKeywordToken.IF
  else if String.eqb word "elif" then kw ReservedKeywordToken.ELIF
  else if String.eqb word "else" then kw ReservedKeywordToken.ELSE
  else if String.eqb word "while" then kw ReservedKeywordToken.WHILE
  else if String.eqb word "continue" then kw ReservedKeywordToken.CONTINUE
  else if String.eqb word "break" then kw ReservedKeywordToken.BREAK
  else if String.eqb word "list" then kw ReservedKeywordToken.LIST
  else if String.eqb word "append" then kw ReservedKeywordToken.APPEND
  else if String.eqb word "print" then kw ReservedKeywordToken.PRINT
  else Throw (InternalError line column ("Invalid reserved keyword '" +:+ word +:+ "'")).

(** ** Lexer ([lexer.h], [lexer.cpp]) *)

Module Lexer.

Local Open Scope Z_scope.

(** The members of the class; [indentStack_] starts as [{0}]. *)
Record Lexer := mkLexer {
  indentStack_ : list Z;
  parStack_ : list Z;
  line_ : Z;
  column_ : Z
}.

Definition newLexer : Lexer := mkLexer [0] [] 1 0.

(** The counter update of [Lexer::getChar]. *)
Definition advance (lx : Lexer) (ch : ascii) : Lexer :=
  if Ascii.eqb ch "010"
  then mkLexer (indentStack_ lx) (parStack_ lx) (line_ lx + 1) 0
  else mkLexer (indentStack_ lx) (parStack_ lx) (line_ lx) (column_ lx + 1).

Definition getChar (lx : Lexer) (file : list ascii)
  : option (ascii * Lexer * list ascii) :=
  match file with
  | [] => None
  | ch :: rest => Some (ch, advance lx ch, rest)
  end.

Definition inRange (lo hi ch : ascii) : bool :=
  (nat_of_ascii lo <=? nat_of_ascii ch)%nat
  && (nat_of_ascii ch <=? nat_of_ascii hi)%nat.

Definition isLetter (ch : ascii) : bool :=
  inRange "a" "z" ch || inRange "A" "Z" ch.
Definition isDigit (ch : ascii) : bool := inRange "0" "9" ch.
Definition isWordChar (ch : ascii) : bool := isLetter ch || isDigit ch.

(** [file.peek()] compared with characters; at end of file it is [EOF],
    which no test accepts. *)
Definition peekIs (p : ascii → bool) (file : list ascii) : bool :=
  match file with
  | [] => false
  | c :: _ => p c
  end.

(** The locals of [tokenizeInputFile] together with the lexer. *)
Record Scan := mkScan {
  lx : Lexer;
  res : list Token;
  n_t : Z;
  indent : bool
}.

Definition stamp (s : Scan) (d : TokenData) : Token :=
  mkToken (line_ (lx s)) (column_ (lx s)) d.

(** [res.push_back(new ...Token(..., line_, column_))] *)
Definition emit (s : Scan) (d : TokenData) : Scan :=
  mkScan (lx s) (res s ++ [stamp s d]) (n_t s) (indent s).

Definition push (s : Scan) (t : Token) : Scan :=
  mkScan (lx s) (res s ++ [t]) (n_t s) (indent s).

(** A call [getChar(file, ch)] whose result is not looked at. *)
Definition consume (s : Scan) (file : list ascii) : Scan * list ascii :=
  match getChar (lx s) file with
  | None => (s, file)
  | Some (_, lx', rest) => (mkScan lx' (res s) (n_t s) (indent s), rest)
  end.

(** The inner loops [while (file.peek() ...) { getChar(file, ch); word += ch; }] *)
Fixpoint readWhile (p : ascii → bool) (l : Lexer) (file : list ascii)
    (word : string) : Lexer * list ascii * string :=
  match file with
  | [] => (l, file, word)
  | c :: rest =>
      if p c then readWhile p (advance l c) rest (word +:+ String c EmptyString)
      else (l, file, word)
  end.

Definition backIsNewline (r : list Token) : bool :=
  match last r with
  | Some t => bool_decide (getType t = NEWLINE_TOKEN)
  | None => false
  end.

Definition isEmpty {A} (v : list A) : bool :=
  match v with [] => true | _ => false end.

(** [while (n_t < indentStack_.back()) { pop_back(); push Dedent }] *)
Fixpoint dedentLoop (n : Z) (l c : Z) (stack : list Z) (r : list Token)
  : Outcome (list Z * list Token) :=
  match stack with
  | [] => Crash UncheckedAccess
  | top :: below =>
      if n <? top
      then dedentLoop n l c below (r ++ [mkToken l c (IndentationToken false)])
      else Ok (stack, r)
  end.

Inductive Flow :=
  | Continue (s : Scan)      (* the iteration ends with [continue] *)
  | Fallthrough (s : Scan).  (* the token recognition follows *)

Definition isBlank (ch : ascii) : bool := Ascii.eqb ch " " || Ascii.eqb ch "009".
Definition isNewline (ch : ascii) : bool := Ascii.eqb ch "010" || Ascii.eqb ch "013".

(** Lines 34-67: the indentation handling that opens every iteration. *)
Definition handleIndentation (s : Scan) (ch : ascii) : Outcome Flow :=
  if isBlank ch && (isEmpty (res s) || (backIsNewline (res s) && indent s)) then
    let n := n_t s + 1 in
    let n := if Ascii.eqb ch "009" then n + 3 else n in
    Ok (Continue (mkScan (lx s) (res s) n (indent s)))
  else if (negb (isBlank ch) && negb (isNewline ch)) && indent s then
    let l := lx s in
    match indentStack_ l with
    | [] => Crash UncheckedAccess
    | top :: _ =>
        if n_t s >? top then
          Ok (Fallthrough
                (mkScan (mkLexer (n_t s :: indentStack_ l) (parStack_ l) (line_ l) (column_ l))
                        (res s ++ [stamp s (IndentationToken true)]) 0 false))
        else if n_t s <? top then
          match dedentLoop (n_t s) (line_ l) (column_ l) (indentStack_ l) (res s) with
          | Ok (stack', r') =>
              match stack' with
              | [] => Crash UncheckedAccess
              | top' :: _ =>
                  if negb (n_t s =? top')
                  then Throw (IndentationError (line_ l) (column_ l) "Invalid indentation level")
                  else Ok (Fallthrough
                             (mkScan (mkLexer stack' (parStack_ l) (line_ l) (column_ l)) r' 0 false))
              end
          | Throw e => Throw e
          | Crash f => Crash f
          end
        else Ok (Fallthrough (mkScan l (res s) 0 false))
    end
  else if isNewline ch then Ok (Fallthrough (mkScan (lx s) (res s) 0 true))
  else Ok (Fallthrough s).

Definition isReservedWord (word : string) : bool :=
  String.eqb word "if" || String.eqb word "elif" || String.eqb word "else"
  || String.eqb word "while" || String.eqb word "continue"
  || String.eqb word "break" || String.eqb word "list"
  || String.eqb word "append" || String.eqb word "print".

Definition isBoolOperator (word : string) : bool :=
  String.eqb word "and" || String.eqb word "or" || String.eqb word "not".

Definition setLexer (s : Scan) (l : Lexer) : Scan :=
  mkScan l (res s) (n_t s) (indent s).

Definition setParStack (s : Scan) (p : list Z) : Scan :=
  let l := lx s in
  mkScan (mkLexer (indentStack_ l) p (line_ l) (column_ l)) (res s) (n_t s) (indent s).

Definition lexicalError (s : Scan) (m : string) : Error :=
  LexicalError (line_ (lx s)) (column_ (lx s)) m.

(** Lines 69-277: the recognition of the token that starts with [ch];
    [file] is what follows [ch]. *)
Definition scanToken (s : Scan) (ch : ascii) (file : list ascii)
  : Outcome (Scan * list ascii) :=
  if isLetter ch then
    let '(l, file, word) := readWhile isWordChar (lx s) file (String ch EmptyString) in
    let s := setLexer s l in
    if isReservedWord word then
      bindO (newReservedKeywordToken word (line_ l) (column_ l))
            (λ t, Ok (push s t, file))
    else if isBoolOperator word then
      bindO (newBoolOpToken word (line_ l) (column_ l))
            (λ t, Ok (push s t, file))
    else if String.eqb word "True" then Ok (emit s (BoolToken true), file)
    else if String.eqb word "False" then Ok (emit s (BoolToken false), file)
    else Ok (emit s (IdToken word), file)
  else if inRange "1" "9" ch then
    let '(l, file, numStr) := readWhile isDigit (lx s) file (String ch EmptyString) in
    let s := setLexer s l in
    bindO (newNumberToken numStr (line_ l) (column_ l))
          (λ t, Ok (push s t, file))
  else if isNewline ch then
    let s := emit s NewLineToken in
    Ok (mkScan (lx s) (res s) (n_t s) true, file)
  else if Ascii.eqb ch "0" then
    if peekIs isDigit file then
      Throw (lexicalError s "Invalid integer value: leading zeros are not allowed")
    else
      bindO (newNumberToken "0" (line_ (lx s)) (column_ (lx s)))
            (λ t, Ok (push s t, file))
  else if Ascii.eqb ch "=" then
    if peekIs (Ascii.eqb "=") file then
      let '(s, file) := consume s file in
      Ok (emit s (RelationalToken RelationalToken.EQ), file)
    else Ok (emit s AssignmentToken, file)
  else if Ascii.eqb ch "!" && peekIs (Ascii.eqb "=") file then
    let '(s, file) := consume s file in
    Ok (emit s (RelationalToken RelationalToken.NEQ), file)
  else if Ascii.eqb ch "<" then
    if peekIs (Ascii.eqb "=") file then
      let '(s, file) := consume s file in
      Ok (emit s (RelationalToken RelationalToken.LE), file)
    else Ok (emit s (RelationalToken RelationalToken.LT), file)
  else if Ascii.eqb ch ">" then
    if peekIs (Ascii.eqb "=") file then
      let '(s, file) := consume s file in
      Ok (emit s (RelationalToken RelationalToken.GE), file)
    else Ok (emit s (RelationalToken RelationalToken.GT), file)
  else if Ascii.eqb ch "+" then Ok (emit s (ArithmeticToken ArithmeticToken.ADD), file)
  else if Ascii.eqb ch "-" then Ok (emit s (ArithmeticToken ArithmeticToken.SUB), file)
  else if Ascii.eqb ch "*" then Ok (emit s (ArithmeticToken ArithmeticToken.MUL), file)
  else if Ascii.eqb ch "/" then
    if peekIs (Ascii.eqb "/") file then
      let '(s, file) := consume s file in
      Ok (emit s (ArithmeticToken ArithmeticToken.DIV), file)
    else
      Throw (lexicalError s "Invalid character '/' (did you mean '//' for integer division?)")
  else if Ascii.eqb ch ":" then Ok (emit s (PunctuationToken PunctuationToken.COL), file)
  else if Ascii.eqb ch "." then Ok (emit s (PunctuationToken PunctuationToken.PERIOD), file)
  else if Ascii.eqb ch "(" then
    let s := emit s (PunctuationToken PunctuationToken.LPAR) in
    Ok (setParStack s (1 :: parStack_ (lx s)), file)
  else if Ascii.eqb ch ")" then
    let s := emit s (PunctuationToken PunctuationToken.RPAR) in
    (* if (parStack_.empty() || (parStack_.back() == 0)) *)
    match parStack_ (lx s) with
    | [] => Throw (lexicalError s "Mismatched parenthesis")
    | top :: below =>
        if top =? 0 then Throw (lexicalError s "Mismatched parenthesis")
        else Ok (setParStack s below, file)
    end
  else if Ascii.eqb ch "[" then
    let s := emit s (PunctuationToken PunctuationToken.LBRACK) in
    Ok (setParStack s (0 :: parStack_ (lx s)), file)
  else if Ascii.eqb ch "]" then
    let s := emit s (PunctuationToken PunctuationToken.RBRACK) in
    (* if ((parStack_.back() == 1) || (parStack_.empty())): the back of
       the stack is read before the stack is known to hold anything *)
    match parStack_ (lx s) with
    | [] => Crash UncheckedAccess
    | top :: below =>
        if (top =? 1) || isEmpty (parStack_ (lx s))
        then Throw (lexicalError s "Mismatched brackets")
        else Ok (setParStack s below, file)
    end
  else if negb (Ascii.eqb ch " ") then
    Throw (lexicalError s ("Invalid character '" +:+ String ch EmptyString +:+ "'"))
  else Ok (s, file).

(** One iteration of [while (getChar(file, ch))], after the read. *)
Definition lexStep (s : Scan) (ch : ascii) (file : list ascii)
  : Outcome (Scan * list ascii) :=
  match handleIndentation s ch with
  | Ok (Continue s') => Ok (s', file)
  | Ok (Fallthrough s') => scanToken s' ch file
  | Throw e => Throw e
  | Crash f => Crash f
  end.

Fixpoint lexLoop (fuel : nat) (s : Scan) (file : list ascii) : Outcome Scan :=
  match fuel with
  | O => Crash OutOfFuel
  | S fuel' =>
      match getChar (lx s) file with
      | None => Ok s
      | Some (ch, l, rest) =>
          match lexStep (setLexer s l) ch rest with
          | Ok (s', rest') => lexLoop fuel' s' rest'
          | Throw e => Throw e
          | Crash f => Crash f
          end
      end
  end.

(** [while (indentStack_.size() > 1) { pop_back(); push Dedent }] *)
Fixpoint drain (l c : Z) (stack : list Z) (r : list Token) : list Z * list Token :=
  match stack with
  | [] => (stack, r)
  | _ :: below =>
      match below with
      | [] => (stack, r)
      | _ :: _ => drain l c below (r ++ [mkToken l c (IndentationToken false)])
      end
  end.

(** Lines 280-296: what follows the loop. *)
Definition finish (s : Scan) : Outcome (list Token) :=
  if negb (isEmpty (parStack_ (lx s))) then
    Throw (lexicalError s "Mismatched parenthesis or brackets")
  else
    let '(_, r) := drain (line_ (lx s)) (column_ (lx s)) (indentStack_ (lx s)) (res s) in
    (* the read that ended the loop has set the end-of-file bit *)
    Ok (r ++ [mkToken (line_ (lx s)) (column_ (lx s)) EndOfFileToken]).

Definition tokenizeInputFile (file : list ascii) : Outcome (list Token) :=
  bindO (lexLoop (S (List.length file)) (mkScan newLexer [] 0 true) file) finish.

Definition tokenize (source : string) : Outcome (list Token) :=
  tokenizeInputFile (list_ascii_of_string source).

End Lexer.

(** ** Syntax tree ([syntax.h], [syntax.cpp])

    Every class below [Expression] is reached by a chain of type tags
    ([getExprType], [getJoinType], ..., [getLocationType]) that its
    constructor fixes; a constructor of [Expression] stands for one
    concrete class together with its chain.  The operands are declared
    with narrower static types in C++ ([Join*], [Equality*], ...); the
    visitor takes them as [Expression*], as here.  [position_] is the
    index of a token in the token vector, from which [getLine] and
    [getColumn] read the place of the node. *)

Inductive EqualExprType := EQ_EXPR | NEQ_EXPR.
Inductive ComparativeRelationType := LT_REL | LE_REL | GT_REL | GE_REL.
Inductive AritExprType := ADD_EXPR | SUB_EXPR.
Inductive MulDivTermType := MUL_TERM | DIV_TERM.

Inductive Expression :=
  | OrExpr (left_ right_ : Expression) (position_ : nat)
  | AndExpr (left_ right_ : Expression) (position_ : nat)
  | EqualExpr (left_ : Expression) (type_ : EqualExprType)
              (right_ : Expression) (position_ : nat)
  | ComparativeRelation (left_ : Expression) (type_ : ComparativeRelationType)
                        (right_ : Expression) (position_ : nat)
  | AritExpr (left_ : Expression) (type_ : AritExprType)
             (right_ : Expression) (position_ : nat)
  | MulDivTerm (left_ : Expression) (type_ : MulDivTermType)
               (right_ : Expression) (position_ : nat)
  | NotUnary (unary_ : Expression) (position_ : nat)
  | MinusUnary (unary_ : Expression) (position_ : nat)
  | ExpressionFactor (expr_ : Expression) (position_ : nat)
  | NumberFactor (number_ : Z) (position_ : nat)
  | BoolFactor (boolean_ : bool) (position_ : nat)
  | IdLocation (id_ : string) (position_ : nat)
  | ListElementLocation (id_ : string) (expr_ : Expression) (position_ : nat).

Definition exprPosition (e : Expression) : nat :=
  match e with
  | OrExpr _ _ p | AndExpr _ _ p | EqualExpr _ _ _ p
  | ComparativeRelation _ _ _ p | AritExpr _ _ _ p | MulDivTerm _ _ _ p
  | NotUnary _ p | MinusUnary _ p | ExpressionFactor _ p
  | NumberFactor _ p | BoolFactor _ p | IdLocation _ p
  | ListElementLocation _ _ p => p
  end.

Inductive StatementType :=
  | ASSIGNMENT_STMT
  | LIST_DECL_STMT
  | LIST_APP_STMT
  | BREAK_STMT
  | CONTINUE_STMT
  | PRINT_STMT
  | IF_STMT
  | WHILE_STMT.

#[global] Instance StatementType_eq_dec : EqDecision StatementType.
Proof. solve_decision. Defined.

Inductive BlockType := SIMPLE_BLOCK | IF_BLOCK | ELIF_BLOCK | ELSE_BLOCK.

Inductive Statement :=
  | AssignmentStatement (loc_ expression_ : Expression) (position_ : nat)
  | ListDeclarationStatement (id_ : string) (position_ : nat)
  | ListAppendStatement (id_ : string) (expr_ : Expression) (position_ : nat)
  | BreakStatement (position_ : nat)
  | ContinueStatement (position_ : nat)
  | PrintStatement (expr_ : Expression) (position_ : nat)
  | CompoundStatement (stype : StatementType) (expr_ : Expression)
                      (blocks_ : list Block) (position_ : nat)
with Block :=
  | SimpleBlock (stmts_ : list Statement) (position_ : nat)
  | ElifBlock (condition_ : Expression) (block_ : Block) (position_ : nat)
  | ElseBlock (block_ : Block) (position_ : nat).

Definition getStatementType (s : Statement) : StatementType :=
  match s with
  | AssignmentStatement _ _ _ => ASSIGNMENT_STMT
  | ListDeclarationStatement _ _ => LIST_DECL_STMT
  | ListAppendStatement _ _ _ => LIST_APP_STMT
  | BreakStatement _ => BREAK_STMT
  | ContinueStatement _ => CONTINUE_STMT
  | PrintStatement _ _ => PRINT_STMT
  | CompoundStatement stype _ _ _ => stype
  end.

Definition stmtPosition (s : Statement) : nat :=
  match s with
  | AssignmentStatement _ _ p | ListDeclarationStatement _ p
  | ListAppendStatement _ _ p | BreakStatement p | ContinueStatement p
  | PrintStatement _ p | CompoundStatement _ _ _ p => p
  end.

Definition getBlockType (b : Block) : BlockType :=
  match b with
  | SimpleBlock _ _ => SIMPLE_BLOCK
  | ElifBlock _ _ _ => ELIF_BLOCK
  | ElseBlock _ _ => ELSE_BLOCK
  end.

Definition blockPosition (b : Block) : nat :=
  match b with
  | SimpleBlock _ p | ElifBlock _ _ p | ElseBlock _ p => p
  end.

Record Program := mkProgram { getStatements : list Statement }.

(** The constructors that read their operator from a token. *)
Definition newEqualExpr (l : Expression) (op : Token) (r : Expression)
    (position : nat) : Outcome Expression :=
  bindO (getIntValue op) (λ v,
    if (v =? RelationalToken.EQ)%Z then Ok (EqualExpr l EQ_EXPR r position)
    else if (v =? RelationalToken.NEQ)%Z then Ok (EqualExpr l NEQ_EXPR r position)
    else Throw (InternalError (tok_line op) (tok_column op)
                  "Invalid relational operator for EqualExpr")).

Definition newComparativeRelation (l : Expression) (op : Token) (r : Expression)
    (position : nat) : Outcome Expression :=
  bindO (getIntValue op) (λ v,
    if (v =? RelationalToken.LT)%Z then Ok (ComparativeRelation l LT_REL r position)
    else if (v =? RelationalToken.LE)%Z then Ok (ComparativeRelation l LE_REL r position)
    else if (v =? RelationalToken.GT)%Z then Ok (ComparativeRelation l GT_REL r position)
    else if (v =? RelationalToken.GE)%Z then Ok (ComparativeRelation l GE_REL r position)
    else Throw (InternalError (tok_line op) (tok_column op)
                  "Invalid relational operator for ComparativeRelation")).

Definition newAritExpr (l : Expression) (op : Token) (r : Expression)
    (position : nat) : Outcome Expression :=
  bindO (getIntValue op) (λ v,
    if (v =? ArithmeticToken.ADD)%Z then Ok (AritExpr l ADD_EXPR r position)
    else if (v =? ArithmeticToken.SUB)%Z then Ok (AritExpr l SUB_EXPR r position)
    else Throw (InternalError (tok_line op) (tok_column op)
                  "Invalid arithmetic operator for AritExpr")).

Definition newMulDivTerm (l : Expression) (op : Token) (r : Expression)
    (position : nat) : Outcome Expression :=
  bindO (getIntValue op) (λ v,
    if (v =? ArithmeticToken.MUL)%Z then Ok (MulDivTerm l MUL_TERM r position)
    else if (v =? ArithmeticToken.DIV)%Z then Ok (MulDivTerm l DIV_TERM r position)
    else Throw (InternalError (tok_line op) (tok_column op)
                  "Invalid arithmetic operator for MulDivTerm")).

(** ** Parser ([parser.h], [parser.cpp])

    The member [index_] is threaded as a state; [tokens_] is fixed.  An
    element access [tokens_[i]] past the end is a [Crash].  The handlers
    [catch (const TypeError&)] never run, because nothing that the
    parser calls throws a [TypeError], and the tests [if (!x) throw ...]
    on the result of a parsing function never fire, because each of
    them returns a fresh node or throws; both are left out.  The
    functions on which the recursion of the grammar closes take a fuel
    that each nested call reduces by one; the recursive calls are passed
    as abstractions over the index, so that evaluation by value unfolds
    them only where the parse reaches them. *)

Module Parser.

Definition P (A : Type) : Type := nat → Outcome (A * nat).

#[global] Instance P_ret : MRet P := λ A a i, Ok (a, i).
#[global] Instance P_bind : MBind P := λ A B k m i,
  match m i with
  | Ok (a, j) => k a j
  | Throw e => Throw e
  | Crash f => Crash f
  end.

#[global] Instance P_fmap : FMap P := λ A B f m i,
  match m i with
  | Ok (a, j) => Ok (f a, j)
  | Throw e => Throw e
  | Crash f => Crash f
  end.

Definition throw {A} (e : Error) : P A := λ _, Throw e.
Definition crash {A} (f : Fault) : P A := λ _, Crash f.
Definition lift {A} (m : Outcome A) : P A := λ i,
  match m with
  | Ok a => Ok (a, i)
  | Throw e => Throw e
  | Crash f => Crash f
  end.

(** [index_] *)
Definition index : P nat := λ i, Ok (i, i).
(** [index_++] *)
Definition next : P unit := λ i, Ok (tt, S i).
(** [index_ - 1], the position given to the node under construction; a
    node is built after at least one token was passed, so that the index
    is positive there *)
Definition position : P nat := λ i, Ok (i - 1, i).

Definition isType (ty : TokenType) (t : Token) : bool :=
  bool_decide (getType t = ty).

(** [t->getType() == ty && t->getIntValue() == v] *)
Definition tokenIs (ty : TokenType) (v : Z) (t : Token) : bool :=
  isType ty t &&
  match getIntValue t with
  | Ok x => (x =? v)%Z
  | _ => false
  end.

(** [t->getType() == INDENTATION_TOKEN && t->getBoolValue() == b] *)
Definition indentationIs (b : bool) (t : Token) : bool :=
  isType INDENTATION_TOKEN t &&
  match getBoolValue t with
  | Ok x => bool_decide (x = b)
  | _ => false
  end.

Definition isLineEnd (t : Token) : bool :=
  isType NEWLINE_TOKEN t || isType EOF_TOKEN t.

Section WithTokens.

Variable tokens_ : list Token.

(** [tokens_[index_ + k]] *)
Definition tokenAt (k : nat) : P Token := λ i,
  match tokens_ !! (i + k) with
  | Some t => Ok (t, i)
  | None => Crash UncheckedAccess
  end.

Definition syntaxErrorAt {A} (t : Token) (m : string) : P A :=
  throw (SyntaxError (tok_line t) (tok_column t) m).

(** [if (!ok(tokens_[index_])) throw SyntaxError(...); index_++;] *)
Definition expect (ok : Token → bool) (m : string) : P Token :=
  t ← tokenAt 0;
  if ok t then next;; mret t else syntaxErrorAt t m.

Section Expressions.

Variables recExpression recTerm recUnary : P Expression.

Definition parseListElementLocation (idToken : string) : P Expression :=
  expect (tokenIs PUNCTUATION_TOKEN PunctuationToken.LBRACK)
         "Expected '[' in list element location";;
  expr ← recExpression;
  expect (tokenIs PUNCTUATION_TOKEN PunctuationToken.RBRACK)
         "Expected ']' in list element location";;
  pos ← position;
  mret (ListElementLocation idToken expr pos).

Definition parseLocation : P Expression :=
  t ← tokenAt 0;
  match tok_data t with
  | IdToken idToken =>
      next;;
      t' ← tokenAt 0;
      if tokenIs PUNCTUATION_TOKEN PunctuationToken.LBRACK t'
      then parseListElementLocation idToken
      else pos ← position; mret (IdLocation idToken pos)
  | _ => syntaxErrorAt t "Expected identifier in location"
  end.

Definition parseBoolFactor : P Expression :=
  t ← tokenAt 0;
  match tok_data t with
  | BoolToken b => next;; pos ← position; mret (BoolFactor b pos)
  | _ => syntaxErrorAt t "Expected boolean in boolean factor"
  end.

Definition parseNumberFactor : P Expression :=
  t ← tokenAt 0;
  match tok_data t with
  | NumberToken v => next;; pos ← position; mret (NumberFactor v pos)
  | _ => syntaxErrorAt t "Expected number in number factor"
  end.

Definition parseExpressionFactor : P Expression :=
  expect (tokenIs PUNCTUATION_TOKEN PunctuationToken.LPAR)
         "Expected '(' in expression factor";;
  expr ← recExpression;
  expect (tokenIs PUNCTUATION_TOKEN PunctuationToken.RPAR)
         "Expected ')' in expression factor";;
  pos ← position;
  mret (ExpressionFactor expr pos).

Definition parseFactor : P Expression :=
  t ← tokenAt 0;
  if tokenIs PUNCTUATION_TOKEN PunctuationToken.LPAR t then parseExpressionFactor
  else if isType NUMBER_TOKEN t then parseNumberFactor
  else if isType BOOL_TOKEN t then parseBoolFactor
  else if isType ID_TOKEN t then parseLocation
  else syntaxErrorAt t "Expected factor".

Definition parseMinusUnary : P Expression :=
  expect (tokenIs ARITHMETIC_TOKEN ArithmeticToken.SUB)
         "Expected '-' in minus unary expression";;
  expr ← recUnary;
  pos ← position;
  mret (MinusUnary expr pos).

Definition parseNotUnary : P Expression :=
  expect (tokenIs BOOLOP_TOKEN BoolOpToken.NOT)
         "Expected 'not' in not unary expression";;
  expr ← recUnary;
  pos ← position;
  mret (NotUnary expr pos).

Definition parseUnaryBody : P Expression :=
  t ← tokenAt 0;
  if tokenIs BOOLOP_TOKEN BoolOpToken.NOT t then parseNotUnary
  else if tokenIs ARITHMETIC_TOKEN ArithmeticToken.SUB t then parseMinusUnary
  else parseFactor.

Definition isMulDiv (t : Token) : bool :=
  tokenIs ARITHMETIC_TOKEN ArithmeticToken.MUL t
  || tokenIs ARITHMETIC_TOKEN ArithmeticToken.DIV t.

Definition parseMulDivTerm (left : Expression) : P Expression :=
  mulDivToken ← expect isMulDiv
    "Expected '*' or '/' in multiplication/division expression";
  right ← recTerm;
  pos ← position;
  lift (newMulDivTerm left mulDivToken right pos).

Definition parseTermBody : P Expression :=
  unary ← recUnary;
  t ← tokenAt 0;
  if isMulDiv t then parseMulDivTerm unary else mret unary.

Definition isAddSub (t : Token) : bool :=
  tokenIs ARITHMETIC_TOKEN ArithmeticToken.ADD t
  || tokenIs ARITHMETIC_TOKEN ArithmeticToken.SUB t.

Definition parseAritExpr (left : Expression) : P Expression :=
  aritToken ← expect isAddSub "Expected '+' or '-' in arithmetic expression";
  right ← recTerm;
  pos ← position;
  lift (newAritExpr left aritToken right pos).

Definition parseNumExpr : P Expression :=
  term ← recTerm;
  t ← tokenAt 0;
  if isAddSub t then parseAritExpr term else mret term.

Definition isComparison (t : Token) : bool :=
  tokenIs RELATIONAL_TOKEN RelationalToken.LE t
  || tokenIs RELATIONAL_TOKEN RelationalToken.GT t
  || tokenIs RELATIONAL_TOKEN RelationalToken.GE t
  || tokenIs RELATIONAL_TOKEN RelationalToken.LT t.

Definition parseComparativeRelation (left : Expression) : P Expression :=
  compToken ← expect isComparison
    "Expected '<', '<=', '>', '>=' in comparative relation";
  right ← parseNumExpr;
  pos ← position;
  lift (newComparativeRelation left compToken right pos).

Definition parseRelation : P Expression :=
  numExpr ← parseNumExpr;
  t ← tokenAt 0;
  if isComparison t then parseComparativeRelation numExpr else mret numExpr.

Definition isEqNeq (t : Token) : bool :=
  tokenIs RELATIONAL_TOKEN RelationalToken.EQ t
  || tokenIs RELATIONAL_TOKEN RelationalToken.NEQ t.

Definition parseEqualExpr (left : Expression) : P Expression :=
  eqToken ← expect isEqNeq "Expected '==' or '!=' in equality expression";
  right ← parseRelation;
  pos ← position;
  lift (newEqualExpr left eqToken right pos).

Definition parseEquality : P Expression :=
  relation ← parseRelation;
  t ← tokenAt 0;
  if isEqNeq t then parseEqualExpr relation else mret relation.

(** The index is advanced first, past the token that [parseJoin] has
    seen to be [and]; the test that follows rejects a second [and], and
    the right operand is an equality, not a join. *)
Definition parseAndExpr (left : Expression) : P Expression :=
  next;;
  t ← tokenAt 0;
  if tokenIs BOOLOP_TOKEN BoolOpToken.AND t
  then syntaxErrorAt t "Expected 'and' in and expression"
  else
    right ← parseEquality;
    pos ← position;
    mret (AndExpr left right pos).

Definition parseJoin : P Expression :=
  equality ← parseEquality;
  t ← tokenAt 0;
  if tokenIs BOOLOP_TOKEN BoolOpToken.AND t
  then parseAndExpr equality
  else mret equality.

Definition parseOrExpr (left : Expression) : P Expression :=
  expect (tokenIs BOOLOP_TOKEN BoolOpToken.OR) "Expected 'or' in or expression";;
  right ← recExpression;
  pos ← position;
  mret (OrExpr left right pos).

Definition parseExpressionBody : P Expression :=
  join ← parseJoin;
  t ← tokenAt 0;
  if tokenIs BOOLOP_TOKEN BoolOpToken.OR t
  then parseOrExpr join
  else mret join.

End Expressions.

Fixpoint parseExpression (fuel : nat) {struct fuel} : P Expression :=
  match fuel with
  | 0 => crash OutOfFuel
  | S n => parseExpressionBody (λ i, parseExpression n i) (λ i, parseTerm n i)
  end
with parseTerm (fuel : nat) {struct fuel} : P Expression :=
  match fuel with
  | 0 => crash OutOfFuel
  | S n => parseTermBody (λ i, parseTerm n i) (λ i, parseUnary n i)
  end
with parseUnary (fuel : nat) {struct fuel} : P Expression :=
  match fuel with
  | 0 => crash OutOfFuel
  | S n => parseUnaryBody (λ i, parseExpression n i) (λ i, parseUnary n i)
  end.

Section Statements.

Variable fuel : nat.
Variable recStatement : P (option Statement).

Definition parsePrintStatement : P Statement :=
  expect (tokenIs RESERVEDKEYWORD_TOKEN ReservedKeywordToken.PRINT)
         "Expected 'print' in print statement";;
  expect (tokenIs PUNCTUATION_TOKEN PunctuationToken.LPAR)
         "Expected '(' in print statement";;
  expr ← parseExpression fuel;
  expect (tokenIs PUNCTUATION_TOKEN PunctuationToken.RPAR)
         "Expected ')' in print statement";;
  expect isLineEnd "Expected newline at the end of print statement";;
  pos ← position;
  mret (PrintStatement expr pos).

Definition parseContinueStatement : P Statement :=
  expect (tokenIs RESERVEDKEYWORD_TOKEN ReservedKeywordToken.CONTINUE)
         "Expected 'continue' in continue statement";;
  expect isLineEnd "Expected newline at the end of continue statement";;
  pos ← position;
  mret (ContinueStatement pos).

Definition parseBreakStatement : P Statement :=
  expect (tokenIs RESERVEDKEYWORD_TOKEN ReservedKeywordToken.BREAK)
         "Expected 'break' in break statement";;
  expect isLineEnd "Expected newline at the end of break statement";;
  pos ← position;
  mret (BreakStatement pos).

Definition parseListAppendStatement : P Statement :=
  t ← tokenAt 0;
  match tok_data t with
  | IdToken id =>
      next;;
      expect (tokenIs PUNCTUATION_TOKEN PunctuationToken.PERIOD)
             "Expected '.' in list append statement";;
      expect (tokenIs RESERVEDKEYWORD_TOKEN ReservedKeywordToken.APPEND)
             "Expected 'append' in list append statement";;
      expect (tokenIs PUNCTUATION_TOKEN PunctuationToken.LPAR)
             "Expected '(' in list append statement";;
      expr ← parseExpression fuel;
      expect (tokenIs PUNCTUATION_TOKEN PunctuationToken.RPAR)
             "Expected ')' in list append statement";;
      expect isLineEnd "Expected newline at the end of list append statement";;
      pos ← position;
      mret (ListAppendStatement id expr pos)
  | _ => syntaxErrorAt t "Expected identifier in list append statement"
  end.

Definition parseListDeclarationStatement : P Statement :=
  t ← tokenAt 0;
  match tok_data t with
  | IdToken id =>
      next;;
      expect (isType ASSIGNMENT_TOKEN) "Expected '=' in list declaration statement";;
      expect (tokenIs RESERVEDKEYWORD_TOKEN ReservedKeywordToken.LIST)
             "Expected 'list' in list declaration statement";;
      expect (tokenIs PUNCTUATION_TOKEN PunctuationToken.LPAR)
             "Expected '(' in list declaration statement";;
      expect (tokenIs PUNCTUATION_TOKEN PunctuationToken.RPAR)
             "Expected ')' in list declaration statement";;
      expect isLineEnd "Expected newline at the end of list declaration statement";;
      pos ← position;
      mret (ListDeclarationStatement id pos)
  | _ => syntaxErrorAt t "Expected identifier in list declaration statement"
  end.

Definition parseAssignmentStatement : P Statement :=
  location ← parseLocation (parseExpression fuel);
  expect (isType ASSIGNMENT_TOKEN) "Expected '=' in assignment statement";;
  expr ← parseExpression fuel;
  expect isLineEnd "Expected newline at the end of assignment statement";;
  pos ← position;
  mret (AssignmentStatement location expr pos).

(** The loop of [parseBlock]: it ends on a dedentation token or at the
    end of the vector; on an end-of-file token that no statement starts
    with it goes round without advancing. *)
Fixpoint blockLoop (n : nat) (statements : list Statement)
  : P (list Statement) :=
  match n with
  | 0 => crash OutOfFuel
  | S n' =>
      i ← index;
      if bool_decide (i < List.length tokens_) then
        t ← tokenAt 0;
        if negb (isType INDENTATION_TOKEN t) || indentationIs true t then
          stmt ← recStatement;
          match stmt with
          | Some s => blockLoop n' (statements ++ [s])
          | None =>
              t' ← tokenAt 0;
              if negb (isType EOF_TOKEN t')
              then next;; blockLoop n' statements
              else blockLoop n' statements
          end
        else mret statements
      else mret statements
  end.

Definition parseBlock : P Block :=
  expect (isType NEWLINE_TOKEN) "Expected newline in block";;
  t ← tokenAt 0;
  (if negb (isType INDENTATION_TOKEN t) || negb (indentationIs true t)
   then throw (IndentationError (tok_line t) (tok_column t)
                 "Expected indentation in block")
   else next);;
  statements ← blockLoop fuel [];
  expect (indentationIs false) "Expected dedentation in block";;
  pos ← position;
  mret (SimpleBlock statements pos).

Definition parseElseBlock : P Block :=
  expect (tokenIs RESERVEDKEYWORD_TOKEN ReservedKeywordToken.ELSE)
         "Expected 'else' in else block";;
  expect (tokenIs PUNCTUATION_TOKEN PunctuationToken.COL)
         "Expected ':' in else block";;
  block ← parseBlock;
  pos ← position;
  mret (ElseBlock block pos).

Definition parseElifBlock : P Block :=
  expect (tokenIs RESERVEDKEYWORD_TOKEN ReservedKeywordToken.ELIF)
         "Expected 'elif' in elif block";;
  expr ← parseExpression fuel;
  expect (tokenIs PUNCTUATION_TOKEN PunctuationToken.COL)
         "Expected ':' in elif block";;
  block ← parseBlock;
  pos ← position;
  mret (ElifBlock expr block pos).

(** [while (the token is 'elif') blocks.push_back(parseElifBlock());] *)
Fixpoint elifLoop (n : nat) (blocks : list Block) : P (list Block) :=
  match n with
  | 0 => crash OutOfFuel
  | S n' =>
      t ← tokenAt 0;
      if tokenIs RESERVEDKEYWORD_TOKEN ReservedKeywordToken.ELIF t
      then elifBlock ← parseElifBlock; elifLoop n' (blocks ++ [elifBlock])
      else mret blocks
  end.

Definition parseCompoundStatement : P Statement :=
  t ← tokenAt 0;
  stype ←
    (if tokenIs RESERVEDKEYWORD_TOKEN ReservedKeywordToken.IF t
     then mret IF_STMT
     else if tokenIs RESERVEDKEYWORD_TOKEN ReservedKeywordToken.WHILE t
     then mret WHILE_STMT
     else syntaxErrorAt t "Expected 'if' or 'while' in compound statement");
  next;;
  expr ← parseExpression fuel;
  expect (tokenIs PUNCTUATION_TOKEN PunctuationToken.COL)
         "Expected ':' in compound statement";;
  block ← parseBlock;
  blocks ←
    (if bool_decide (stype = IF_STMT) then
       blocks ← elifLoop fuel [block];
       t' ← tokenAt 0;
       if tokenIs RESERVEDKEYWORD_TOKEN ReservedKeywordToken.ELSE t'
       then elseBlock ← parseElseBlock; mret (blocks ++ [elseBlock])
       else mret blocks
     else mret [block]);
  pos ← position;
  mret (CompoundStatement stype expr blocks pos).

(** The result is [None] where the function returns [nullptr].  The
    second and third token after an identifier are read only as far as
    the conjunctions of the source go. *)
Definition parseStatementBody : P (option Statement) :=
  t ← tokenAt 0;
  if tokenIs RESERVEDKEYWORD_TOKEN ReservedKeywordToken.PRINT t then
    Some <$> parsePrintStatement
  else if tokenIs RESERVEDKEYWORD_TOKEN ReservedKeywordToken.BREAK t then
    Some <$> parseBreakStatement
  else if tokenIs RESERVEDKEYWORD_TOKEN ReservedKeywordToken.CONTINUE t then
    Some <$> parseContinueStatement
  else if isType ID_TOKEN t then
    t1 ← tokenAt 1;
    isAppend ←
      (if tokenIs PUNCTUATION_TOKEN PunctuationToken.PERIOD t1
       then t2 ← tokenAt 2;
            mret (tokenIs RESERVEDKEYWORD_TOKEN ReservedKeywordToken.APPEND t2)
       else mret false);
    if isAppend : bool then Some <$> parseListAppendStatement
    else
      isDeclaration ←
        (if isType ASSIGNMENT_TOKEN t1
         then t2 ← tokenAt 2;
              mret (tokenIs RESERVEDKEYWORD_TOKEN ReservedKeywordToken.LIST t2)
         else mret false);
      if isDeclaration : bool then Some <$> parseListDeclarationStatement
      else Some <$> parseAssignmentStatement
  else if tokenIs RESERVEDKEYWORD_TOKEN ReservedKeywordToken.IF t then
    Some <$> parseCompoundStatement
  else if tokenIs RESERVEDKEYWORD_TOKEN ReservedKeywordToken.WHILE t then
    Some <$> parseCompoundStatement
  else mret None.

End Statements.

Fixpoint parseStatement (fuel : nat) : P (option Statement) :=
  match fuel with
  | 0 => crash OutOfFuel
  | S n => parseStatementBody n (λ i, parseStatement n i)
  end.

(** The loop of [parseProgram]. *)
Fixpoint programLoop (fuel n : nat) (statements : list Statement)
  : P (list Statement) :=
  match n with
  | 0 => crash OutOfFuel
  | S n' =>
      i ← index;
      if bool_decide (i < List.length tokens_) then
        stmt ← parseStatement fuel;
        match stmt with
        | Some s => programLoop fuel n' (statements ++ [s])
        | None =>
            t ← tokenAt 0;
            if isType EOF_TOKEN t then mret statements
            else next;; programLoop fuel n' statements
        end
      else mret statements
  end.

Definition parseProgramWith (fuel : nat) : Outcome Program :=
  match programLoop fuel fuel [] 0 with
  | Ok (statements, _) => Ok (mkProgram statements)
  | Throw e => Throw e
  | Crash f => Crash f
  end.

End WithTokens.

(** A fuel that no parse of a token vector of this length exhausts
    unless it goes round for ever. *)
Definition fuelFor (tokens : list Token) : nat := 4 * List.length tokens + 4.

Definition parseProgram (tokens : list Token) : Outcome Program :=
  parseProgramWith tokens (fuelFor tokens).

End Parser.

(** ** Values and symbol table ([types.h], [semantics.h], [semantics.cpp]) *)

Inductive Types := TYPE_BOOL | TYPE_INT | TYPE_UNDEFINED.

#[global] Instance Types_eq_dec : EqDecision Types.
Proof. solve_decision. Defined.

(** An [EvaluatedElement] is built by one of its two constructors and
    keeps the tag that the constructor sets; the member that the tag
    does not name is never read. *)
Inductive EvaluatedElement :=
  | IntElement (intValue_ : Z)
  | BoolElement (boolValue_ : bool).

Module EvaluatedElement.

Definition getType (e : EvaluatedElement) : Types :=
  match e with
  | IntElement _ => TYPE_INT
  | BoolElement _ => TYPE_BOOL
  end.

Definition getIntValue (e : EvaluatedElement) : Outcome Z :=
  match e with
  | IntElement v => Ok v
  | BoolElement _ =>
      Throw (InternalError 0 0 "Attempt to get int value from non-int EvaluatedElement")
  end.

Definition getBoolValue (e : EvaluatedElement) : Outcome bool :=
  match e with
  | BoolElement b => Ok b
  | IntElement _ =>
      Throw (InternalError 0 0 "Attempt to get bool value from non-bool EvaluatedElement")
  end.

End EvaluatedElement.

(** The three maps of the class. *)
Record SymbolTable := mkSymbolTable {
  intVariables_ : gmap string Z;
  boolVariables_ : gmap string bool;
  lists_ : gmap string (list EvaluatedElement)
}.

Module SymbolTable.

Local Open Scope Z_scope.

Definition empty : SymbolTable := mkSymbolTable ∅ ∅ ∅.

(** [m.find(id) != m.end()] *)
Definition found {A} (m : gmap string A) (id : string) : bool :=
  match m !! id with
  | Some _ => true
  | None => false
  end.

Definition isVariableDefined (st : SymbolTable) (id : string) : bool :=
  found (intVariables_ st) id || found (boolVariables_ st) id.

Definition isListDefined (st : SymbolTable) (id : string) : bool :=
  found (lists_ st) id.

(** The two overloads of [addVariable] and of [updateVariable], chosen
    by the visitor from the tag of the element. *)
Definition addVariable (st : SymbolTable) (id : string)
    (element : EvaluatedElement) : Outcome SymbolTable :=
  if isVariableDefined st id then
    Throw (InternalError 0 0 ("Variable " +:+ id +:+ " is already defined"))
  else
    match element with
    | IntElement v =>
        Ok (mkSymbolTable (<[id := v]> (intVariables_ st)) (boolVariables_ st) (lists_ st))
    | BoolElement b =>
        Ok (mkSymbolTable (intVariables_ st) (<[id := b]> (boolVariables_ st)) (lists_ st))
    end.

Definition updateVariable (st : SymbolTable) (id : string)
    (element : EvaluatedElement) : Outcome SymbolTable :=
  match element with
  | IntElement v =>
      if found (intVariables_ st) id then
        Ok (mkSymbolTable (<[id := v]> (intVariables_ st)) (boolVariables_ st) (lists_ st))
      else if found (boolVariables_ st) id then
        Ok (mkSymbolTable (<[id := v]> (intVariables_ st))
                          (delete id (boolVariables_ st)) (lists_ st))
      else Throw (InternalError 0 0 ("Variable " +:+ id +:+ " is not defined"))
  | BoolElement b =>
      if found (boolVariables_ st) id then
        Ok (mkSymbolTable (intVariables_ st) (<[id := b]> (boolVariables_ st)) (lists_ st))
      else if found (intVariables_ st) id then
        Ok (mkSymbolTable (delete id (intVariables_ st))
                          (<[id := b]> (boolVariables_ st)) (lists_ st))
      else Throw (InternalError 0 0 ("Variable " +:+ id +:+ " is not defined"))
  end.

Definition getVariableValue (st : SymbolTable) (id : string)
  : Outcome EvaluatedElement :=
  match intVariables_ st !! id with
  | Some v => Ok (IntElement v)
  | None =>
      match boolVariables_ st !! id with
      | Some b => Ok (BoolElement b)
      | None => Throw (InternalError 0 0 ("Variable " +:+ id +:+ " is not defined"))
      end
  end.

Definition addList (st : SymbolTable) (id : string) : SymbolTable :=
  if isListDefined st id then st
  else mkSymbolTable (intVariables_ st) (boolVariables_ st) (<[id := []]> (lists_ st)).

Definition listNotDefined {A} (id : string) : Outcome A :=
  Throw (InternalError 0 0 ("List " +:+ id +:+ " is not defined")).

Definition appendToList (st : SymbolTable) (id : string)
    (element : EvaluatedElement) : Outcome SymbolTable :=
  match lists_ st !! id with
  | None => listNotDefined id
  | Some l =>
      Ok (mkSymbolTable (intVariables_ st) (boolVariables_ st)
                        (<[id := l ++ [element]]> (lists_ st)))
  end.

Definition updateListElement (st : SymbolTable) (id : string) (index : Z)
    (element : EvaluatedElement) : Outcome SymbolTable :=
  match lists_ st !! id with
  | None => listNotDefined id
  | Some l =>
      if (index <? 0) || (index >=? Z.of_nat (List.length l)) then
        Throw (InternalError 0 0 "List index out of range")
      else
        Ok (mkSymbolTable (intVariables_ st) (boolVariables_ st)
                          (<[id := <[Z.to_nat index := element]> l]> (lists_ st)))
  end.

Definition getListElement (st : SymbolTable) (id : string) (index : Z)
  : Outcome EvaluatedElement :=
  match lists_ st !! id with
  | None => listNotDefined id
  | Some l =>
      if (index <? 0) || (index >=? Z.of_nat (List.length l)) then
        Throw (InternalError 0 0 "List index out of range")
      else
        match l !! Z.to_nat index with
        | Some e => Ok e
        | None => Crash UncheckedAccess
        end
  end.

Definition getListSize (st : SymbolTable) (id : string) : Outcome Z :=
  match lists_ st !! id with
  | None => listNotDefined id
  | Some l => Ok (Z.of_nat (List.length l))
  end.

Definition clear (st : SymbolTable) (id : string) : Outcome SymbolTable :=
  if isListDefined st id then
    Ok (mkSymbolTable (intVariables_ st) (boolVariables_ st) (delete id (lists_ st)))
  else listNotDefined id.

End SymbolTable.

(** ** Visitor ([visitor.h], [visitor.cpp]) *)

#[global] Instance Outcome_ret : MRet Outcome := λ A a, Ok a.
#[global] Instance Outcome_bind : MBind Outcome := λ A B k m, bindO m k.
#[global] Instance Outcome_fmap : FMap Outcome := λ A B f m, bindO m (λ a, Ok (f a)).

Definition INT_MIN : Z := -2147483648.

(** The value that a 32-bit two's complement register keeps of [z]. *)
Definition wrap32 (z : Z) : Z := ((z - INT_MIN) mod 2 ^ 32 + INT_MIN)%Z.

Module Visitor.

Local Open Scope Z_scope.

Section WithTokens.

(** The vector that the nodes refer to for their line and column. *)
Variable tokens_ : list Token.

(** [tokens_[position_]->getLine()] and [->getColumn()], the place of a
    node.  The source reads the vector without a check.  The positions
    of the nodes that the parser builds are indices of the vector, and
    for those the read is the one made here; where the source reads
    outside the vector the two functions give 0, and what is said below
    about the accesses that nothing checks is said of programs whose
    positions are inside the vector. *)
Definition lineOf (position : nat) : Z :=
  match tokens_ !! position with Some t => tok_line t | None => 0 end.
Definition columnOf (position : nat) : Z :=
  match tokens_ !! position with Some t => tok_column t | None => 0 end.

Definition errorAt (mk : Z → Z → string → Error) (position : nat)
    (m : string) : Error :=
  mk (lineOf position) (columnOf position) m.

Section Evaluation.

Variable symbolTable_ : SymbolTable.

Definition isVariableDefined (id : string) : bool :=
  SymbolTable.isVariableDefined symbolTable_ id.
Definition isListDefined (id : string) : bool :=
  SymbolTable.isListDefined symbolTable_ id.
Definition isAlreadyDefined (id : string) : bool :=
  isVariableDefined id || isListDefined id.

Definition getVariableValue (id : string) (position : nat)
  : Outcome EvaluatedElement :=
  if negb (isVariableDefined id) then
    Throw (errorAt InternalError position ("Variable '" +:+ id +:+ "' is not defined"))
  else SymbolTable.getVariableValue symbolTable_ id.

Definition getListElement (id : string) (index : Z) (position : nat)
  : Outcome EvaluatedElement :=
  if negb (isListDefined id) then
    Throw (errorAt InternalError position ("List '" +:+ id +:+ "' is not defined"))
  else SymbolTable.getListElement symbolTable_ id index.

Definition getListSize (id : string) (position : nat) : Outcome Z :=
  if negb (isListDefined id) then
    Throw (errorAt InternalError position ("List '" +:+ id +:+ "' is not defined"))
  else SymbolTable.getListSize symbolTable_ id.

(** [a != T || b != T], where [b] is computed only if [a] is [T]. *)
Definition eitherIsNot (T : Types) (a : Outcome Types) (b : Outcome Types)
  : Outcome bool :=
  ta ← a;
  if bool_decide (ta ≠ T) then Ok true
  else tb ← b; Ok (bool_decide (tb ≠ T)).

Fixpoint eval (expr : Expression) {struct expr} : Outcome EvaluatedElement :=
  match expr with
  | OrExpr lhs rhs p =>
      mismatch ← eitherIsNot TYPE_BOOL (getDataType lhs) (getDataType rhs);
      if mismatch : bool then
        Throw (errorAt TypeError p "Operands of 'or' must be boolean")
      else
        leftValue ← eval lhs;
        l ← EvaluatedElement.getBoolValue leftValue;
        if l : bool then Ok (BoolElement true)
        else
          rightValue ← eval rhs;
          r ← EvaluatedElement.getBoolValue rightValue;
          Ok (BoolElement r)
  | AndExpr lhs rhs p =>
      mismatch ← eitherIsNot TYPE_BOOL (getDataType lhs) (getDataType rhs);
      if mismatch : bool then
        Throw (errorAt TypeError p "Operands of 'and' must be boolean")
      else
        leftValue ← eval lhs;
        l ← EvaluatedElement.getBoolValue leftValue;
        if negb l then Ok (BoolElement false)
        else
          rightValue ← eval rhs;
          r ← EvaluatedElement.getBoolValue rightValue;
          Ok (BoolElement r)
  | EqualExpr lhs op rhs p =>
      leftType ← getDataType lhs;
      rightType ← getDataType rhs;
      if bool_decide (leftType = TYPE_UNDEFINED)
         || bool_decide (rightType = TYPE_UNDEFINED)
         || bool_decide (leftType ≠ rightType)
      then Throw (errorAt TypeError p
                    "Operands of '==' and '!=' must be of the same type (int or bool)")
      else
        leftValue ← eval lhs;
        rightValue ← eval rhs;
        match leftValue with
        | BoolElement l =>
            r ← EvaluatedElement.getBoolValue rightValue;
            Ok (BoolElement (match op with
                             | EQ_EXPR => Bool.eqb l r
                             | NEQ_EXPR => negb (Bool.eqb l r)
                             end))
        | IntElement l =>
            r ← EvaluatedElement.getIntValue rightValue;
            Ok (BoolElement (match op with
                             | EQ_EXPR => l =? r
                             | NEQ_EXPR => negb (l =? r)
                             end))
        end
  | ComparativeRelation lhs op rhs p =>
      leftType ← getDataType lhs;
      rightType ← getDataType rhs;
      if bool_decide (leftType ≠ TYPE_INT) || bool_decide (rightType ≠ TYPE_INT)
      then Throw (errorAt TypeError p
                    "Operands of '<', '<=', '>', '>=' must be integers")
      else
        leftValue ← eval lhs;
        rightValue ← eval rhs;
        l ← EvaluatedElement.getIntValue leftValue;
        r ← EvaluatedElement.getIntValue rightValue;
        Ok (BoolElement (match op with
                         | LT_REL => l <? r
                         | LE_REL => l <=? r
                         | GT_REL => l >? r
                         | GE_REL => l >=? r
                         end))
  | AritExpr lhs op rhs p =>
      leftType ← getDataType lhs;
      rightType ← getDataType rhs;
      if bool_decide (leftType ≠ TYPE_INT) || bool_decide (rightType ≠ TYPE_INT)
      then Throw (errorAt TypeError p
                    "Operands of arithmetic expressions must be integers")
      else
        leftValue ← eval lhs;
        rightValue ← eval rhs;
        l ← EvaluatedElement.getIntValue leftValue;
        r ← EvaluatedElement.getIntValue rightValue;
        Ok (IntElement (match op with
                        | ADD_EXPR => wrap32 (l + r)
                        | SUB_EXPR => wrap32 (l - r)
                        end))
  | MulDivTerm lhs op rhs p =>
      leftType ← getDataType lhs;
      rightType ← getDataType rhs;
      if bool_decide (leftType ≠ TYPE_INT) || bool_decide (rightType ≠ TYPE_INT)
      then Throw (errorAt TypeError p
                    "Operands of arithmetic expressions must be integers")
      else
        leftValue ← eval lhs;
        rightValue ← eval rhs;
        match op with
        | MUL_TERM =>
            l ← EvaluatedElement.getIntValue leftValue;
            r ← EvaluatedElement.getIntValue rightValue;
            Ok (IntElement (wrap32 (l * r)))
        | DIV_TERM =>
            r ← EvaluatedElement.getIntValue rightValue;
            if r =? 0 then Throw (errorAt ZeroDivisionError p "Division by zero")
            else
              l ← EvaluatedElement.getIntValue leftValue;
              (* [int / int]: the one quotient that is no [int] *)
              if (l =? INT_MIN) && (r =? -1) then Crash ArithmeticTrap
              else Ok (IntElement (wrap32 (Z.quot l r)))
        end
  | NotUnary unary p =>
      unaryType ← getDataType unary;
      if bool_decide (unaryType ≠ TYPE_BOOL)
      then Throw (errorAt TypeError p "Operand of 'not' must be boolean")
      else
        unaryValue ← eval unary;
        b ← EvaluatedElement.getBoolValue unaryValue;
        Ok (BoolElement (negb b))
  | MinusUnary unary p =>
      unaryType ← getDataType unary;
      if bool_decide (unaryType ≠ TYPE_INT)
      then Throw (errorAt TypeError p "Operand of unary '-' must be integer")
      else
        unaryValue ← eval unary;
        v ← EvaluatedElement.getIntValue unaryValue;
        Ok (IntElement (wrap32 (- v)))
  | ExpressionFactor e p => eval e
  | NumberFactor number p => Ok (IntElement number)
  | BoolFactor boolean p => Ok (BoolElement boolean)
  | IdLocation id p =>
      if negb (isVariableDefined id) then
        Throw (errorAt SemanticError p ("Variable '" +:+ id +:+ "' is not defined"))
      else getVariableValue id p
  | ListElementLocation id index p =>
      if negb (isListDefined id) then
        Throw (errorAt SemanticError p ("List '" +:+ id +:+ "' is not defined"))
      else
        indexValue ← eval index;
        match indexValue with
        | BoolElement _ =>
            Throw (errorAt TypeError p "List index must be an integer")
        | IntElement i =>
            outOfBounds ←
              (if i <? 0 then Ok true
               else size ← getListSize id p; Ok (i >=? size));
            if outOfBounds : bool
            then Throw (errorAt SemanticError p "List index out of bounds")
            else getListElement id i p
        end
  end
with getDataType (expr : Expression) {struct expr} : Outcome Types :=
  match expr with
  | OrExpr lhs rhs _ | AndExpr lhs rhs _ =>
      leftType ← getDataType lhs;
      rightType ← getDataType rhs;
      if bool_decide (leftType = TYPE_BOOL) && bool_decide (rightType = TYPE_BOOL)
      then Ok TYPE_BOOL else Ok TYPE_UNDEFINED
  | EqualExpr lhs _ rhs _ =>
      leftType ← getDataType lhs;
      rightType ← getDataType rhs;
      if bool_decide (leftType = TYPE_UNDEFINED)
         || bool_decide (rightType = TYPE_UNDEFINED)
         || bool_decide (leftType ≠ rightType)
      then Ok TYPE_UNDEFINED else Ok TYPE_BOOL
  | ComparativeRelation lhs _ rhs _ =>
      leftType ← getDataType lhs;
      rightType ← getDataType rhs;
      if bool_decide (leftType = TYPE_INT) && bool_decide (rightType = TYPE_INT)
      then Ok TYPE_BOOL else Ok TYPE_UNDEFINED
  | AritExpr lhs _ rhs _ | MulDivTerm lhs _ rhs _ =>
      leftType ← getDataType lhs;
      rightType ← getDataType rhs;
      if bool_decide (leftType = TYPE_INT) && bool_decide (rightType = TYPE_INT)
      then Ok TYPE_INT else Ok TYPE_UNDEFINED
  | NotUnary unary _ =>
      unaryType ← getDataType unary;
      if bool_decide (unaryType = TYPE_BOOL) then Ok TYPE_BOOL else Ok TYPE_UNDEFINED
  | MinusUnary unary _ =>
      unaryType ← getDataType unary;
      if bool_decide (unaryType = TYPE_INT) then Ok TYPE_INT else Ok TYPE_UNDEFINED
  | ExpressionFactor e _ => getDataType e
  | NumberFactor _ _ => Ok TYPE_INT
  | BoolFactor _ _ => Ok TYPE_BOOL
  | IdLocation id p =>
      if negb (isVariableDefined id) then
        Throw (errorAt SemanticError p ("Variable '" +:+ id +:+ "' is not defined"))
      else EvaluatedElement.getType <$> getVariableValue id p
  | ListElementLocation id index p =>
      if negb (isListDefined id) then
        Throw (errorAt SemanticError p ("List '" +:+ id +:+ "' is not defined"))
      else
        indexValue ← eval index;
        i ← EvaluatedElement.getIntValue indexValue;
        EvaluatedElement.getType <$> SymbolTable.getListElement symbolTable_ id i
  end.

End Evaluation.

(** The members of the class, with the lines written to [std::cout]. *)
Record Visitor := mkVisitor {
  symbolTable_ : SymbolTable;
  conditionMetStack_ : list bool;
  loopStack_ : list bool;
  cout : list string
}.

Definition newVisitor : Visitor := mkVisitor SymbolTable.empty [] [] [].

(** A member function: it leaves a state behind also when it throws. *)
Definition V (A : Type) : Type := Visitor → Outcome A * Visitor.

#[global] Instance V_ret : MRet V := λ A a v, (Ok a, v).
#[global] Instance V_bind : MBind V := λ A B k m v,
  match m v with
  | (Ok a, v') => k a v'
  | (Throw e, v') => (Throw e, v')
  | (Crash f, v') => (Crash f, v')
  end.

Definition throw {A} (e : Error) : V A := λ v, (Throw e, v).
Definition crash {A} (f : Fault) : V A := λ v, (Crash f, v).
Definition lift {A} (m : Outcome A) : V A := λ v, (m, v).
Definition get : V Visitor := λ v, (Ok v, v).

Definition setSymbolTable (st : SymbolTable) : V unit := λ v,
  (Ok tt, mkVisitor st (conditionMetStack_ v) (loopStack_ v) (cout v)).
Definition setConditionMetStack (s : list bool) : V unit := λ v,
  (Ok tt, mkVisitor (symbolTable_ v) s (loopStack_ v) (cout v)).
Definition setLoopStack (s : list bool) : V unit := λ v,
  (Ok tt, mkVisitor (symbolTable_ v) (conditionMetStack_ v) s (cout v)).
(** [std::cout << ... << std::endl] *)
Definition print (line : string) : V unit := λ v,
  (Ok tt, mkVisitor (symbolTable_ v) (conditionMetStack_ v) (loopStack_ v)
                    (cout v ++ [line])).

(** [eval(expr)] on the current symbol table *)
Definition evalNow (expr : Expression) : V EvaluatedElement := λ v,
  (eval (symbolTable_ v) expr, v).

(** The wrappers of the visitor around the symbol table. *)
Definition addVariable (id : string) (element : EvaluatedElement) : V unit :=
  v ← get;
  st ← lift (SymbolTable.addVariable (symbolTable_ v) id element);
  setSymbolTable st.

Definition updateVariable (id : string) (element : EvaluatedElement) : V unit :=
  v ← get;
  st ← lift (SymbolTable.updateVariable (symbolTable_ v) id element);
  setSymbolTable st.

Definition addList (id : string) : V unit :=
  v ← get; setSymbolTable (SymbolTable.addList (symbolTable_ v) id).

Definition appendToList (id : string) (element : EvaluatedElement) : V unit :=
  v ← get;
  st ← lift (SymbolTable.appendToList (symbolTable_ v) id element);
  setSymbolTable st.

Definition updateListElement (id : string) (index : Z)
    (element : EvaluatedElement) : V unit :=
  v ← get;
  st ← lift (SymbolTable.updateListElement (symbolTable_ v) id index element);
  setSymbolTable st.

Definition clearList (id : string) : V unit :=
  v ← get;
  st ← lift (SymbolTable.clear (symbolTable_ v) id);
  setSymbolTable st.

(** [stack.back() = b] *)
Definition setBack (b : bool) (stack : list bool) : Outcome (list bool) :=
  match stack with
  | [] => Crash UncheckedAccess
  | _ :: below => Ok (b :: below)
  end.

Definition setConditionMet (b : bool) : V unit :=
  v ← get; s ← lift (setBack b (conditionMetStack_ v)); setConditionMetStack s.

Definition setLoopActive (b : bool) : V unit :=
  v ← get; s ← lift (setBack b (loopStack_ v)); setLoopStack s.

(** [stack.pop_back()], which C++ leaves undefined on an empty vector *)
Definition popBack (stack : list bool) : Outcome (list bool) :=
  match stack with
  | [] => Crash UncheckedAccess
  | _ :: below => Ok below
  end.

Definition decimal (z : Z) : string :=
  DecimalString.NilZero.string_of_int (Z.to_int z).

Definition visitAssignmentStatement (loc expr : Expression) : V unit :=
  match loc with
  | IdLocation id p =>
      value ← evalNow expr;
      v ← get;
      if isVariableDefined (symbolTable_ v) id then updateVariable id value
      else if isListDefined (symbolTable_ v) id
              && negb (isVariableDefined (symbolTable_ v) id) then
        clearList id;; addVariable id value
      else if negb (isAlreadyDefined (symbolTable_ v) id) then addVariable id value
      else throw (errorAt SemanticError p ("Identifier '" +:+ id +:+ "' is not defined"))
  | ListElementLocation listId indexExpr p =>
      value ← evalNow expr;
      v ← get;
      if negb (isListDefined (symbolTable_ v) listId) then
        throw (errorAt SemanticError p ("List '" +:+ listId +:+ "' is not defined"))
      else
        indexValue ← evalNow indexExpr;
        match indexValue with
        | BoolElement _ =>
            throw (errorAt SemanticError (exprPosition indexExpr)
                     "List index must be an integer")
        | IntElement index => updateListElement listId index value
        end
  | _ =>
      throw (errorAt InternalError (exprPosition loc)
               "Unknown LocationType in assignment statement")
  end.

Definition visitListDeclarationStatement (id : string) (position : nat) : V unit :=
  v ← get;
  if isAlreadyDefined (symbolTable_ v) id then
    throw (errorAt SemanticError position ("Identifier '" +:+ id +:+ "' is already defined"))
  else addList id.

Definition visitListAppendStatement (id : string) (expr : Expression)
    (position : nat) : V unit :=
  v ← get;
  if negb (isListDefined (symbolTable_ v) id) then
    throw (errorAt SemanticError position ("List '" +:+ id +:+ "' is not defined"))
  else
    value ← evalNow expr;
    appendToList id value.

Definition visitPrintStatement (expr : Expression) : V unit :=
  value ← evalNow expr;
  match value with
  | IntElement i => print (decimal i)
  | BoolElement b => print (if b then "True" else "False")
  end.

Definition visitBreakStatement (position : nat) : V unit :=
  v ← get;
  if Lexer.isEmpty (loopStack_ v) then
    throw (errorAt SemanticError position "Break statement not allowed outside of loop")
  else setLoopActive false.

Definition visitContinueStatement (position : nat) : V unit :=
  v ← get;
  if Lexer.isEmpty (loopStack_ v) then
    throw (errorAt SemanticError position "Continue statement not allowed outside of loop")
  else mret tt.

(** [for (auto x : xs) f(x);] *)
Fixpoint forEach {A} (f : A → V unit) (xs : list A) : V unit :=
  match xs with
  | [] => mret tt
  | x :: rest => f x;; forEach f rest
  end.

Section Statements.

Variable fuel : nat.
Variable recStatement : Statement → V unit.

Definition visitSimpleBlock (b : Block) : V unit :=
  match b with
  | SimpleBlock stmts _ => forEach recStatement stmts
  | _ => crash UncheckedAccess   (* a [static_cast] to the wrong class *)
  end.

Definition visitElseBlock (b : Block) : V unit :=
  match b with
  | ElseBlock block p =>
      v ← get;
      match conditionMetStack_ v with
      | true :: _ => mret tt
      | [] => throw (errorAt InternalError p "Else block outside of if statement")
      | false :: _ =>
          visitSimpleBlock block;;
          setConditionMet true
      end
  | _ => crash UncheckedAccess
  end.

Definition visitElifBlock (b : Block) : V unit :=
  match b with
  | ElifBlock condition block p =>
      v ← get;
      match conditionMetStack_ v with
      | true :: _ => mret tt
      | [] => throw (errorAt InternalError p "Elif block outside of if statement")
      | false :: _ =>
          condValue ← evalNow condition;
          c ← lift (EvaluatedElement.getBoolValue condValue);
          if c : bool then
            setConditionMet true;;
            visitSimpleBlock block;;
            setConditionMet true
          else mret tt
      end
  | _ => crash UncheckedAccess
  end.

Definition visitIfStatement (condition : Expression) (blocks : list Block) : V unit :=
  condValue ← evalNow condition;
  v ← get;
  setConditionMetStack (false :: conditionMetStack_ v);;
  match condValue with
  | IntElement _ =>
      throw (errorAt SemanticError (exprPosition condition) "If condition must be boolean")
  | BoolElement c =>
      (if c then
         setConditionMet true;;
         forEach (λ block,
                    match getBlockType block with
                    | SIMPLE_BLOCK => visitSimpleBlock block
                    | ELIF_BLOCK => visitElifBlock block
                    | ELSE_BLOCK => visitElseBlock block
                    | IF_BLOCK => mret tt
                    end) blocks
       else mret tt);;
      forEach (λ block,
                 match getBlockType block with
                 | ELIF_BLOCK => visitElifBlock block
                 | ELSE_BLOCK => visitElseBlock block
                 | _ => mret tt
                 end) blocks;;
      v' ← get;
      s ← lift (popBack (conditionMetStack_ v'));
      setConditionMetStack s
  end.

(** The loop over the statements of the body of a [while]: a [break]
    that is itself a statement of the body clears the flag and leaves
    the loop over the statements, a [continue] there is passed over, and
    every other statement goes to [visitStatement]. *)
Fixpoint whileBody (stmts : list Statement) : V unit :=
  match stmts with
  | [] => mret tt
  | stmt :: rest =>
      if bool_decide (getStatementType stmt = BREAK_STMT) then setLoopActive false
      else if bool_decide (getStatementType stmt = CONTINUE_STMT) then whileBody rest
      else recStatement stmt;; whileBody rest
  end.

(** [while (true) { ... }] of [visitWhileStatement] *)
Fixpoint whileLoop (n : nat) (condition : Expression) (blocks : list Block)
    (position : nat) : V unit :=
  match n with
  | 0%nat => crash OutOfFuel
  | S n' =>
      condValue ← evalNow condition;
      match condValue with
      | IntElement _ =>
          throw (errorAt SemanticError (exprPosition condition)
                   "While condition must be boolean")
      | BoolElement c =>
          if negb c then mret tt
          else
            v ← get;
            match loopStack_ v with
            | [] => crash UncheckedAccess
            | false :: _ => mret tt
            | true :: _ =>
                match blocks with
                | [block] =>
                    match block with
                    | SimpleBlock stmts _ =>
                        whileBody stmts;;
                        whileLoop n' condition blocks position
                    | _ => crash UncheckedAccess
                    end
                | _ =>
                    throw (errorAt SemanticError position
                             "While statement must have exactly one block")
                end
            end
      end
  end.

Definition visitWhileStatement (condition : Expression) (blocks : list Block)
    (position : nat) : V unit :=
  v ← get;
  setLoopStack (true :: loopStack_ v);;
  whileLoop fuel condition blocks position;;
  v' ← get;
  s ← lift (popBack (loopStack_ v'));
  setLoopStack s.

Definition visitStatementBody (stmt : Statement) : V unit :=
  match stmt with
  | AssignmentStatement loc expr _ => visitAssignmentStatement loc expr
  | ListDeclarationStatement id p => visitListDeclarationStatement id p
  | ListAppendStatement id expr p => visitListAppendStatement id expr p
  | PrintStatement expr _ => visitPrintStatement expr
  | BreakStatement p => visitBreakStatement p
  | ContinueStatement p => visitContinueStatement p
  | CompoundStatement IF_STMT condition blocks _ => visitIfStatement condition blocks
  | CompoundStatement WHILE_STMT condition blocks p =>
      visitWhileStatement condition blocks p
  | CompoundStatement _ _ _ _ => crash UncheckedAccess
  end.

End Statements.

Fixpoint visitStatement (fuel : nat) (stmt : Statement) : V unit :=
  match fuel with
  | 0%nat => crash OutOfFuel
  | S n => visitStatementBody n (λ s v, visitStatement n s v) stmt
  end.

Definition visitProgram (fuel : nat) (program : Program) : V unit :=
  forEach (visitStatement fuel) (getStatements program).

End WithTokens.
End Visitor.

(** ** Driver ([main.cpp], [error.cpp]) *)

(** What the command line and the file system give to [main]. *)
Inductive Invocation :=
  | NoArgument
  | Unreadable (path : string)
  | Readable (source : string).

Inductive ExitStatus :=
  | EXIT_SUCCESS
  | EXIT_FAILURE
  | Aborted (f : Fault).

(** The lines on standard output, the error that [error] reports on
    standard error, and how the process ends. *)
Record Run := mkRun {
  stdout : list string;
  diagnostic : option Error;
  status : ExitStatus
}.

(** The line that [error] writes before [exit(EXIT_FAILURE)]. *)
Definition report (e : Error) : string :=
  "Error: " +:+ ErrorName (getErrorCode e) +:+ " [" +:+ Visitor.decimal (getLine e)
  +:+ ":" +:+ Visitor.decimal (getColumn e) +:+ "] - " +:+ what e.

Definition failed (out : list string) (e : Error) : Run :=
  mkRun out (Some e) EXIT_FAILURE.

Definition main (fuel : nat) (argv : Invocation) : Run :=
  match argv with
  | NoArgument => failed [] (MissingFileError 0 0 "No input file provided")
  | Unreadable path =>
      failed [] (FileOpenError 0 0 ("Could not open input file: " +:+ path))
  | Readable source =>
      match Lexer.tokenize source with
      | Throw e => failed [] e
      | Crash f => mkRun [] None (Aborted f)
      | Ok tokens =>
          match Parser.parseProgram tokens with
          | Throw e => failed [] e
          | Crash f => mkRun [] None (Aborted f)
          | Ok program =>
              match Visitor.visitProgram tokens fuel program Visitor.newVisitor with
              | (Ok _, v) => mkRun (Visitor.cout v) None EXIT_SUCCESS
              | (Throw e, v) => failed (Visitor.cout v) e
              | (Crash f, v) => mkRun (Visitor.cout v) None (Aborted f)
              end
          end
      end
  end.

(** ** Notions used by the statements about the lexer *)

Module Source.

Local Open Scope Z_scope.

(** The place of a byte of the source: lines count from 1, columns from
    0, and a line feed starts the next line at column 0. *)
Fixpoint positionFrom (line column : Z) (bytes : list ascii) : Z * Z :=
  match bytes with
  | [] => (line, column)
  | c :: rest =>
      if Ascii.eqb c "010" then positionFrom (line + 1) 0 rest
      else positionFrom line (column + 1) rest
  end.

Definition positionOf (source : list ascii) (offset : nat) : Z * Z :=
  positionFrom 1 0 (take offset source).

(** The bytes [lexeme] stand in [source] from [offset] on. *)
Definition occursAt (source : list ascii) (offset : nat) (lexeme : list ascii)
  : Prop :=
  take (List.length lexeme) (drop offset source) = lexeme.

Definition nth_spelling (table : list string) (v : Z) : list string :=
  if v <? 0 then []
  else match table !! Z.to_nat v with Some w => [w] | None => [] end.

(** The ways to write a token.  The two layout tokens and the end of
    file are not written with any byte. *)
Definition spellings (d : TokenData) : list string :=
  match d with
  | NumberToken _ => []
  | BoolToken b => [if b then "True" else "False"]
  | IdToken s => [s]
  | NewLineToken => [String "010" EmptyString; String "013" EmptyString]
  | EndOfFileToken => [EmptyString]
  | ArithmeticToken v => nth_spelling ["+"; "-"; "*"; "//"] v
  | RelationalToken v => nth_spelling ["=="; "<"; ">"; "<="; ">="; "!="] v
  | BoolOpToken v => nth_spelling ["and"; "or"; "not"] v
  | ReservedKeywordToken v =>
      nth_spelling ["if"; "elif"; "else"; "while"; "continue"; "break";
                    "list"; "append"; "print"] v
  | IndentationToken _ => [EmptyString]
  | AssignmentToken => ["="]
  | PunctuationToken v => nth_spelling [":"; "("; ")"; "."; "["; "]"] v
  end.

Definition spells (d : TokenData) (lexeme : list ascii) : Prop :=
  match d with
  | NumberToken v =>
      lexeme ≠ [] ∧ forallb Lexer.isDigit lexeme = true
      ∧ v = decimalValue 0 (string_of_list_ascii lexeme)
  | _ => string_of_list_ascii lexeme ∈ spellings d
  end.

(** The stamp of the token is the place of the first byte of its lexeme. *)
Definition stampedAtFirstByte (source : list ascii) (t : Token) : Prop :=
  ∃ offset lexeme,
    lexeme ≠ [] ∧ spells (tok_data t) lexeme ∧ occursAt source offset lexeme
    ∧ (tok_line t, tok_column t) = positionOf source offset.

(** The token with the data [d] that carries the place reached after
    the bytes [read]: the counters of the lexer when [read] is what it
    has read of the source. *)
Definition stampAt (read : list ascii) (d : TokenData) : Token :=
  mkToken (positionFrom 1 0 read).1 (positionFrom 1 0 read).2 d.

(** How the tokens made so far lie on the bytes read so far.  The bytes
    are, in the order of the tokens, the lexemes of the tokens that are
    written with bytes, with nothing but blanks between them.  A token
    written with bytes carries the place reached after the last byte of
    its own lexeme.  The indentation tokens that a line starts with are
    emitted when the first byte [ch] of the first token of the line has
    been read, and carry the place reached after that byte. *)
Inductive traced : list ascii → list Token → Prop :=
  | traced_start : traced [] []
  | traced_blank read toks ch :
      traced read toks →
      Lexer.isBlank ch = true →
      traced (read ++ [ch]) toks
  | traced_token read toks ch taken levels d :
      traced read toks →
      spells d (ch :: taken) →
      traced (read ++ ch :: taken)
             (toks
              ++ map (λ b, stampAt (read ++ [ch]) (IndentationToken b)) levels
              ++ [stampAt (read ++ ch :: taken) d]).

(** The tokens of a source: those that lie on its bytes, then the
    dedentation tokens that close the levels still open and the end of
    the file, which carry the place reached after the last byte of the
    source. *)
Definition stampedAsRead (source : list ascii) (toks : list Token) : Prop :=
  ∃ body k,
    traced source body
    ∧ toks = body ++ replicate k (stampAt source (IndentationToken false))
                  ++ [stampAt source EndOfFileToken].

Definition isLayout (t : Token) : bool :=
  match tok_data t with
  | IndentationToken _ | EndOfFileToken => true
  | _ => false
  end.

Definition isIndent (t : Token) : bool :=
  match tok_data t with IndentationToken true => true | _ => false end.
Definition isDedent (t : Token) : bool :=
  match tok_data t with IndentationToken false => true | _ => false end.

Definition countIndent (tokens : list Token) : nat :=
  List.length (List.filter isIndent tokens).
Definition countDedent (tokens : list Token) : nat :=
  List.length (List.filter isDedent tokens).

Import Lexer.

(** What one token recognition does: it takes some bytes after [ch],
    moves the counters past them, leaves the indentation stack alone,
    and either skips a space or appends one token, stamped with the
    counters it ends on and spelled by the bytes taken. *)
Definition scanned (s : Lexer.Scan) (ch : ascii) (file : list ascii)
    (s' : Lexer.Scan) (file' : list ascii) : Prop :=
  ∃ taken,
    file = taken ++ file'
    ∧ indentStack_ (lx s') = indentStack_ (lx s)
    ∧ (line_ (lx s'), column_ (lx s'))
      = positionFrom (line_ (lx s)) (column_ (lx s)) taken
    ∧ ((res s' = res s ∧ ch = " "%char ∧ taken = [])
       ∨ ∃ d, res s' = res s ++ [mkToken (line_ (lx s')) (column_ (lx s')) d]
              ∧ spells d (ch :: taken)).

(** What the indentation handling does: the counters stay, the tokens
    it appends are layout tokens stamped with the counters, and the
    indentation stack grows by one per indent and shrinks by one per
    dedent, without getting empty. *)
Definition indented (s s' : Lexer.Scan) : Prop :=
  line_ (lx s') = line_ (lx s) ∧ column_ (lx s') = column_ (lx s)
  ∧ (indentStack_ (lx s) ≠ [] → indentStack_ (lx s') ≠ [])
  ∧ ∃ new,
      res s' = res s ++ new
      ∧ Forall (λ t, ∃ b, t = mkToken (line_ (lx s)) (column_ (lx s)) (IndentationToken b)) new
      ∧ (countIndent new + List.length (indentStack_ (lx s))
         = countDedent new + List.length (indentStack_ (lx s')))%nat.

Definition flowState (f : Flow) : Scan :=
  match f with Continue s | Fallthrough s => s end.

(** The balance that every iteration of the lexer keeps. *)
Definition balanced (s : Lexer.Scan) : Prop :=
  indentStack_ (lx s) ≠ []
  ∧ (countIndent (res s) + 1
     = countDedent (res s) + List.length (indentStack_ (lx s)))%nat.

(** The counters are the place reached after the bytes read so far, and
    the tokens made so far lie on those bytes. *)
Definition located (src : list ascii) (s : Lexer.Scan) (file : list ascii) : Prop :=
  ∃ read, src = read ++ file
          ∧ (line_ (lx s), column_ (lx s)) = positionFrom 1 0 read
          ∧ traced read (res s).

End Source.

(** ** Notions used by the statements about the symbol table *)

Module Slots.

Definition occupied {A} (m : gmap string A) (id : string) : nat :=
  if SymbolTable.found m id then 1 else 0.

(** In how many of the three maps the name is a key. *)
Definition slots (st : SymbolTable) (id : string) : nat :=
  occupied (intVariables_ st) id + occupied (boolVariables_ st) id
  + occupied (lists_ st) id.

(** A name occupies at most one slot. *)
Definition atMostOne (st : SymbolTable) : Prop := ∀ id, slots st id ≤ 1.

(** A member function of the visitor that keeps the invariant,
    however it ends. *)
Definition keeps {A} (m : Visitor.V A) : Prop :=
  ∀ v r v',
    atMostOne (Visitor.symbolTable_ v) → m v = (r, v') →
    atMostOne (Visitor.symbolTable_ v').

End Slots.

(** ** Notions used by the statements about the parser *)

Module Shape.

Definition isAnd (e : Expression) : bool :=
  match e with AndExpr _ _ _ => true | _ => false end.

(** Some conjunction of the tree has a conjunction as its right operand,
    as in [a and (b and c)] without the parentheses. *)
Fixpoint chained (e : Expression) : bool :=
  match e with
  | AndExpr l r _ => isAnd r || chained l || chained r
  | OrExpr l r _ | EqualExpr l _ r _ | ComparativeRelation l _ r _
  | AritExpr l _ r _ | MulDivTerm l _ r _ => chained l || chained r
  | NotUnary u _ | MinusUnary u _ | ExpressionFactor u _
  | ListElementLocation _ u _ => chained u
  | NumberFactor _ _ | BoolFactor _ _ | IdLocation _ _ => false
  end.

(** What a parsing function returns when it returns. *)
Definition yields {A} (Q : A → Prop) (m : Parser.P A) : Prop :=
  ∀ i a j, m i = Ok (a, j) → Q a.

Definition flat (e : Expression) : Prop := chained e = false.
Definition tight (e : Expression) : Prop := chained e = false ∧ isAnd e = false.

End Shape.

(** ** Notions used by the statement about the taxonomy *)

(** The three classes that the taxonomy declares and no stage raises. *)
Definition unraised (c : ErrorCode) : bool :=
  match c with
  | INDEX_ERROR | EVALUATION_ERROR | RESERVED_KEYWORD_ERROR => true
  | _ => false
  end.

(** An outcome, a parsing function, a member function of the visitor
    that throws none of them. *)
Definition quiet {A} (m : Outcome A) : Prop :=
  ∀ e, m = Throw e → unraised (getErrorCode e) = false.
Definition quietP {A} (m : Parser.P A) : Prop := ∀ i, quiet (m i).
Definition quietV {A} (m : Visitor.V A) : Prop := ∀ v, quiet (m v).1.

(** ** The programs of the scenarios *)

Definition newline : string := String "010" EmptyString.

Definition unlines (lines : list string) : string :=
  foldr (λ l rest, l +:+ newline +:+ rest) EmptyString lines.

(** [1 // 0 == 1], boolean for the type check and a division by zero
    for the evaluation. *)
Definition division_by_zero_test : Expression :=
  EqualExpr (MulDivTerm (NumberFactor 1 0) DIV_TERM (NumberFactor 0 0) 0)
            EQ_EXPR (NumberFactor 1 0) 0.

(** The scenario 6 of the specification, each line ended by a line feed. *)
Definition scenario6 : string :=
  unlines ["i = 0"; "while i < 10:"; "    if i == 3:"; "        break";
           "    print(i)"; "    i = i + 1"].

(** ** Notions used by the statements about the types *)

Module Typing.
Import Visitor.
Section WithTokens.
Variable tokens : list Token.
Variable st : SymbolTable.

(** What the type that [getDataType] finds says of the evaluation: a
    value of that type, or, on the way to it, a division by zero or the
    division of [INT_MIN] by -1, on which the process is killed; for
    [TYPE_UNDEFINED], a type error. *)
Definition classified (e : Expression) (T : Types) : Prop :=
  match T with
  | TYPE_UNDEFINED => raises (eval tokens st e) TYPE_ERROR
  | _ => (∃ v, eval tokens st e = Ok v ∧ EvaluatedElement.getType v = T)
         ∨ raises (eval tokens st e) ZERO_DIVISION
         ∨ eval tokens st e = Crash ArithmeticTrap
  end.
End WithTokens.
End Typing.

(** ** Notions used by the statements about the stored values *)

Module Stored.
Import Visitor.

(** The visitor with the lists of its table replaced. *)
Definition withLists (v : Visitor) (lists : gmap string (list EvaluatedElement))
  : Visitor :=
  mkVisitor (mkSymbolTable (intVariables_ (symbolTable_ v))
                           (boolVariables_ (symbolTable_ v)) lists)
            (conditionMetStack_ v) (loopStack_ v) (cout v).

End Stored.

(** ** Notions used by the statements about the two stacks *)

Module Frames.
Import Visitor.

(** The flag on top of a stack may have changed; its depth and the
    flags below are the same. *)
Definition sameBelow (s s' : list bool) : Prop :=
  List.length s' = List.length s ∧ tail s' = tail s.

(** The same, and a flag on top that was cleared is still cleared. *)
Definition cleared (s s' : list bool) : Prop :=
  sameBelow s s' ∧ (head s = Some false → head s' = Some false).

(** What a statement that ends normally leaves of the two stacks: the
    stack of the conditions as it was, and the stack of the loops with
    at most the flag of the innermost loop cleared. *)
Definition restores (v v' : Visitor) : Prop :=
  conditionMetStack_ v' = conditionMetStack_ v
  ∧ cleared (loopStack_ v) (loopStack_ v').

(** What the visit of a block of an [if] leaves of them. *)
Definition restoresBelow (v v' : Visitor) : Prop :=
  sameBelow (conditionMetStack_ v) (conditionMetStack_ v')
  ∧ cleared (loopStack_ v) (loopStack_ v').

(** A member function that, when it returns, has taken the visitor to
    a state related to the one it started from. *)
Definition onOk {A} (R : relation Visitor) (m : V A) : Prop :=
  ∀ v a v', m v = (Ok a, v') → R v v'.

End Frames.

(** ** Notions used by the statements about the control flow *)

Module Control.
Import Visitor.

Definition withConditionMet (v : Visitor) (s : list bool) : Visitor :=
  mkVisitor (symbolTable_ v) s (loopStack_ v) (cout v).

(** The run of a branch of an [if]: its statements, on the visitor with
    the frame of the [if] pushed, and the frame popped if they end
    normally. *)
Definition branch (tokens : list Token) (fuel : nat) (stmts : list Statement)
    (flag : bool) (v : Visitor) : Outcome unit * Visitor :=
  match forEach (λ s v, visitStatement tokens fuel s v) stmts
          (withConditionMet v (flag :: conditionMetStack_ v)) with
  | (Ok _, v1) => (Ok tt, withConditionMet v1 (conditionMetStack_ v))
  | (r, v1) => (r, v1)
  end.

(** The visitor inside an [if]: the frame of the [if] on the stack of
    the conditions, holding [flag]. *)
Definition ifFrame (v : Visitor) (flag : bool) : Visitor :=
  withConditionMet v (flag :: conditionMetStack_ v).

(** A block that the parser puts after the first block of an [if]. *)
Definition isBranch (b : Block) : Prop :=
  match b with
  | ElifBlock _ (SimpleBlock _ _) _ | ElseBlock (SimpleBlock _ _) _ => True
  | _ => False
  end.

(** The blocks after the first, read as a chain: the first [elif] whose
    condition holds, or else the [else], is the branch that runs. *)
Fixpoint elseChain (tokens : list Token) (fuel : nat) (others : list Block)
    (v : Visitor) : Outcome unit * Visitor :=
  match others with
  | ElifBlock condition (SimpleBlock stmts _) _ :: rest =>
      match eval tokens (symbolTable_ v) condition with
      | Ok (BoolElement true) => branch tokens fuel stmts true v
      | Ok (BoolElement false) => elseChain tokens fuel rest v
      | Ok (IntElement z) =>
          (bindO (EvaluatedElement.getBoolValue (IntElement z)) (λ _, Ok tt),
           ifFrame v false)
      | Throw e => (Throw e, ifFrame v false)
      | Crash f => (Crash f, ifFrame v false)
      end
  | ElseBlock (SimpleBlock stmts _) _ :: _ => branch tokens fuel stmts false v
  | _ => (Ok tt, v)
  end.

(** The end of [visitIfStatement]: the frame is popped. *)
Definition leave : V unit :=
  v' ← get; s ← lift (popBack (conditionMetStack_ v')); setConditionMetStack s.

Definition isContinue (s : Statement) : bool :=
  match s with ContinueStatement _ => true | _ => false end.

(** The statement without the [continue] statements of its blocks. *)
Fixpoint withoutContinue (s : Statement) : Statement :=
  match s with
  | CompoundStatement stype expr blocks p =>
      CompoundStatement stype expr (map blockWithoutContinue blocks) p
  | _ => s
  end
with blockWithoutContinue (b : Block) : Block :=
  match b with
  | SimpleBlock stmts p =>
      SimpleBlock
        ((fix go (l : list Statement) : list Statement :=
            match l with
            | [] => []
            | s :: rest =>
                if isContinue s then go rest else withoutContinue s :: go rest
            end) stmts) p
  | ElifBlock condition block p => ElifBlock condition (blockWithoutContinue block) p
  | ElseBlock block p => ElseBlock (blockWithoutContinue block) p
  end.

Fixpoint listWithoutContinue (l : list Statement) : list Statement :=
  match l with
  | [] => []
  | s :: rest =>
      if isContinue s then listWithoutContinue rest
      else withoutContinue s :: listWithoutContinue rest
  end.

End Control.

(** ** Notions used by the statements about the grammar *)

Module Grammar.

(** The level of the grammar at which a node is built: 0 for a unary or
    a factor, up to 6 for a disjunction. *)
Definition level (e : Expression) : nat :=
  match e with
  | OrExpr _ _ _ => 6
  | AndExpr _ _ _ => 5
  | EqualExpr _ _ _ _ => 4
  | ComparativeRelation _ _ _ _ => 3
  | AritExpr _ _ _ _ => 2
  | MulDivTerm _ _ _ _ => 1
  | _ => 0
  end.

(** Every operator has operands of the levels that its parsing function
    reads: tighter on both sides for [and], [==], [<] and [+], tighter
    on the left for [or] and [*]. *)
Fixpoint stratified (e : Expression) : bool :=
  match e with
  | OrExpr l r _ => (level l <=? 5) && stratified l && stratified r
  | AndExpr l r _ =>
      (level l <=? 4) && (level r <=? 4) && stratified l && stratified r
  | EqualExpr l _ r _ =>
      (level l <=? 3) && (level r <=? 3) && stratified l && stratified r
  | ComparativeRelation l _ r _ =>
      (level l <=? 2) && (level r <=? 2) && stratified l && stratified r
  | AritExpr l _ r _ =>
      (level l <=? 1) && (level r <=? 1) && stratified l && stratified r
  | MulDivTerm l _ r _ =>
      (level l <=? 0) && (level r <=? 1) && stratified l && stratified r
  | NotUnary u _ | MinusUnary u _ => (level u <=? 0) && stratified u
  | ExpressionFactor u _ | ListElementLocation _ u _ => stratified u
  | NumberFactor _ _ | BoolFactor _ _ | IdLocation _ _ => true
  end.

Definition within (k : nat) (e : Expression) : Prop :=
  stratified e = true ∧ level e ≤ k.

(** A token with which [parseStatement] starts a statement. *)
Definition startsStatement (t : Token) : bool :=
  Parser.isType ID_TOKEN t
  || Parser.tokenIs RESERVEDKEYWORD_TOKEN ReservedKeywordToken.PRINT t
  || Parser.tokenIs RESERVEDKEYWORD_TOKEN ReservedKeywordToken.BREAK t
  || Parser.tokenIs RESERVEDKEYWORD_TOKEN ReservedKeywordToken.CONTINUE t
  || Parser.tokenIs RESERVEDKEYWORD_TOKEN ReservedKeywordToken.IF t
  || Parser.tokenIs RESERVEDKEYWORD_TOKEN ReservedKeywordToken.WHILE t.

End Grammar.

(** ** Notions used by the statements about the tokens *)

Module Tokens.
Import Lexer.
Local Open Scope Z_scope.

(** A word that the lexer makes an identifier of. *)
Definition isIdentifier (w : string) : bool :=
  match list_ascii_of_string w with
  | [] => false
  | c :: rest => isLetter c && forallb isWordChar rest
  end
  && negb (isReservedWord w) && negb (isBoolOperator w)
  && negb (String.eqb w "True") && negb (String.eqb w "False").

(** The value of a token is one that its class gives a meaning to. *)
Definition wellFormed (t : Token) : Prop :=
  match tok_data t with
  | NumberToken v => 0 ≤ v ≤ INT_MAX
  | IdToken w => isIdentifier w = true
  | ArithmeticToken v => 0 ≤ v ≤ ArithmeticToken.DIV
  | RelationalToken v => 0 ≤ v ≤ RelationalToken.NEQ
  | BoolOpToken v => 0 ≤ v ≤ BoolOpToken.NOT
  | ReservedKeywordToken v => 0 ≤ v ≤ ReservedKeywordToken.PRINT
  | PunctuationToken v => 0 ≤ v ≤ PunctuationToken.RBRACK
  | BoolToken _ | NewLineToken | EndOfFileToken | IndentationToken _
  | AssignmentToken => True
  end.

Inductive Bracket := Round | Square.

#[global] Instance Bracket_eq_dec : EqDecision Bracket.
Proof. solve_decision. Defined.

Definition opening (t : Token) : option Bracket :=
  match tok_data t with
  | PunctuationToken v =>
      if v =? PunctuationToken.LPAR then Some Round
      else if v =? PunctuationToken.LBRACK then Some Square
      else None
  | _ => None
  end.

Definition closing (t : Token) : option Bracket :=
  match tok_data t with
  | PunctuationToken v =>
      if v =? PunctuationToken.RPAR then Some Round
      else if v =? PunctuationToken.RBRACK then Some Square
      else None
  | _ => None
  end.

(** The brackets left open after a token, [None] once a closing
    bracket came that does not close the innermost open one. *)
Definition afterToken (st : option (list Bracket)) (t : Token)
  : option (list Bracket) :=
  match st with
  | None => None
  | Some open =>
      match opening t, closing t with
      | Some b, _ => Some (b :: open)
      | None, Some b =>
          match open with
          | o :: below => if decide (o = b) then Some below else None
          | [] => None
          end
      | None, None => Some open
      end
  end.

Definition openBrackets (tokens : list Token) : option (list Bracket) :=
  foldl afterToken (Some []) tokens.

(** What the lexer keeps on [parStack_] for an open bracket. *)
Definition mark (b : Bracket) : Z :=
  match b with Round => 1 | Square => 0 end.

(** What the recognition of a token does to the stack of the brackets. *)
Definition moves (stack : list Z) (t : Token) (stack' : list Z) : Prop :=
  match opening t, closing t with
  | Some b, _ => stack' = mark b :: stack
  | None, Some b => ∃ top, stack = top :: stack' ∧ top ≠ mark (match b with Round => Square | Square => Round end)
  | None, None => stack' = stack
  end.

(** A token that is no bracket and not the end of the file. *)
Definition quietToken (t : Token) : Prop :=
  wellFormed t ∧ opening t = None ∧ closing t = None
  ∧ getType t ≠ EOF_TOKEN.

(** What every iteration of the lexer keeps of the tokens made so far. *)
Definition tidy (s : Scan) : Prop :=
  Forall wellFormed (res s)
  ∧ Forall (λ t, getType t ≠ EOF_TOKEN) (res s)
  ∧ ∃ open, openBrackets (res s) = Some open ∧ parStack_ (lx s) = map mark open.

End Tokens.

(** ** Notions used by the statements about the syntax trees *)

Module Trees.

Definition isSimple (b : Block) : bool :=
  match b with SimpleBlock _ _ => true | _ => false end.

Definition isLocation (e : Expression) : bool :=
  match e with
  | IdLocation _ _ | ListElementLocation _ _ _ => true
  | _ => false
  end.

Definition isElif (b : Block) : bool :=
  match b with ElifBlock _ _ _ => true | _ => false end.

Definition isElse (b : Block) : bool :=
  match b with ElseBlock _ _ => true | _ => false end.

(** Blocks [elif], then at most one block [else]. *)
Fixpoint elifsThenElse (blocks : list Block) : bool :=
  match blocks with
  | [] => true
  | ElifBlock _ _ _ :: rest => elifsThenElse rest
  | ElseBlock _ _ :: rest => Lexer.isEmpty rest
  | SimpleBlock _ _ :: _ => false
  end.

(** The blocks of a compound statement, by its type: the block of the
    [if] and then those of its [elif] and [else]; the one block of the
    [while]. *)
Definition blocksOf (stype : StatementType) (blocks : list Block) : bool :=
  match stype, blocks with
  | IF_STMT, b :: others => isSimple b && elifsThenElse others
  | WHILE_STMT, [b] => isSimple b
  | _, _ => false
  end.

(** A statement as the visitor takes it to be: the target of an
    assignment is a location, a compound statement is an [if] or a
    [while] with the blocks of its type, the block inside an [elif] or
    an [else] is a simple block, and so on inside the blocks. *)
Fixpoint shaped (s : Statement) : bool :=
  match s with
  | AssignmentStatement loc _ _ => isLocation loc
  | CompoundStatement stype _ blocks _ =>
      blocksOf stype blocks
      && (fix all (l : list Block) : bool :=
            match l with
            | [] => true
            | b :: rest => shapedBlock b && all rest
            end) blocks
  | _ => true
  end
with shapedBlock (b : Block) : bool :=
  match b with
  | SimpleBlock stmts _ =>
      (fix all (l : list Statement) : bool :=
         match l with
         | [] => true
         | s :: rest => shaped s && all rest
         end) stmts
  | ElifBlock _ block _ | ElseBlock block _ => isSimple block && shapedBlock block
  end.

(** Blocks [elif] that are shaped. *)
Definition elifs (blocks : list Block) : Prop :=
  forallb isElif blocks = true
  ∧ forallb shapedBlock blocks = true.

End Trees.

(** ** Notions used by the statements about unchecked accesses *)

Module Checks.

(** An outcome other than the undefined behaviour of an access that
    nothing checks: [back()] or [pop_back()] on an empty vector, an
    element outside a vector, a [static_cast] to a class that the object
    is not of. *)
Definition checked {A} (m : Outcome A) : Prop := m ≠ Crash UncheckedAccess.

Definition checkedAt {A} (m : Visitor.V A) (v : Visitor.Visitor) : Prop :=
  checked (m v).1.

End Checks.

(** ** Notions used by the statement about [continue] *)

Module Erasure.
Import Visitor.

(** The member function [m'] does what [m] does on the visitor [v],
    unless [m] gets to the end of the fuel there. *)
Definition sameRun {A} (m' m : V A) (v : Visitor) : Prop :=
  (m v).1 ≠ Crash OutOfFuel → m' v = m v.

End Erasure.

(** ** Notions used by the statements about the levels of indentation *)

Module Ground.
Import Lexer.
Local Open Scope Z_scope.

(** The base level 0 is at the bottom of the indentation stack, and the
    count of the blanks at the start of the line is not negative. *)
Definition grounded (s : Scan) : Prop :=
  last (indentStack_ (lx s)) = Some 0 ∧ 0 ≤ n_t s.

End Ground.

Module Nesting.
Import Parser Source.
Local Open Scope Z_scope.

(** By how many the dedentation tokens from the index on exceed the
    indentation tokens. *)
Definition surplus (tokens : list Token) (i : nat) : Z :=
  Z.of_nat (countDedent (drop i tokens)) - Z.of_nat (countIndent (drop i tokens)).

(** A token vector as the lexer makes them: the end-of-file token is
    the last token and no other, and from no index on there are fewer
    dedentation tokens than indentation tokens. *)
Definition levelled (tokens : list Token) : Prop :=
  (∃ body eof, tokens = body ++ [eof] ∧ getType eof = EOF_TOKEN
               ∧ Forall (λ t, getType t ≠ EOF_TOKEN) body)
  ∧ ∀ i, 0 ≤ surplus tokens i.

(** A token that is neither the end of the file nor a change of the
    indentation. *)
Definition plainToken (t : Token) : Prop :=
  getType t ≠ EOF_TOKEN ∧ getType t ≠ INDENTATION_TOKEN.

(** At the index [i] the parsing function reads no token outside the
    vector; when it returns, the index is inside the vector, with no
    smaller a surplus. *)
Definition steady {A} (tokens : list Token) (m : P A) (i : nat) : Prop :=
  match m i with
  | Ok (_, j) => (j < List.length tokens)%nat ∧ surplus tokens i ≤ surplus tokens j
  | Throw _ => True
  | Crash f => f ≠ UncheckedAccess
  end.

(** The same, for a function that may pass the end-of-file token. *)
Definition fair {A} (tokens : list Token) (m : P A) (i : nat) : Prop :=
  match m i with
  | Ok (_, j) => (j ≤ List.length tokens)%nat ∧ surplus tokens i ≤ surplus tokens j
  | Throw _ => True
  | Crash f => f ≠ UncheckedAccess
  end.

(** What a parsing function returns at the index [i], and where, when
    it returns; it reads no token outside the vector. *)
Definition ends {A} (Q : A → nat → Prop) (m : P A) (i : nat) : Prop :=
  match m i with
  | Ok (a, j) => Q a j
  | Throw _ => True
  | Crash f => f ≠ UncheckedAccess
  end.

(** What [parseStatement] returns at the index [i]: the index may have
    left the vector, past the end-of-file token; without a statement,
    the index has not moved. *)
Definition statementAt (tokens : list Token) (i : nat)
    (o : option Statement) (j : nat) : Prop :=
  (j ≤ List.length tokens)%nat ∧ surplus tokens i ≤ surplus tokens j
  ∧ (o = None → j = i).

End Nesting.

Module Levels.
Import Lexer Source.

(** From no index on do the tokens hold more indentation tokens than
    dedentation tokens and levels still open. *)
Definition closable (tokens : list Token) (depth : nat) : Prop :=
  ∀ i, countIndent (drop i tokens) ≤ countDedent (drop i tokens) + depth.

(** What every iteration of the lexer keeps: the tokens made so far can
    be closed by as many dedentation tokens as there are levels above
    the base on the stack. *)
Definition open (s : Scan) : Prop :=
  ∃ depth, List.length (indentStack_ (lx s)) = S depth ∧ closable (res s) depth.

End Levels.


(** ** Notions used by the statements about the positions of the nodes *)

Module Places.
Import Parser.

(** Every node of the expression has a position below [n]. *)
Fixpoint placed (n : nat) (e : Expression) : bool :=
  match e with
  | OrExpr l r p | AndExpr l r p | EqualExpr l _ r p
  | ComparativeRelation l _ r p | AritExpr l _ r p | MulDivTerm l _ r p =>
      placed n l && placed n r && (p <? n)
  | NotUnary u p | MinusUnary u p | ExpressionFactor u p
  | ListElementLocation _ u p => placed n u && (p <? n)
  | NumberFactor _ p | BoolFactor _ p | IdLocation _ p => p <? n
  end.

(** The same for a statement and for a block, with the statements and
    the blocks inside them. *)
Fixpoint placedStatement (n : nat) (s : Statement) : bool :=
  match s with
  | AssignmentStatement loc expr p => placed n loc && placed n expr && (p <? n)
  | ListDeclarationStatement _ p | BreakStatement p | ContinueStatement p => p <? n
  | ListAppendStatement _ expr p | PrintStatement expr p => placed n expr && (p <? n)
  | CompoundStatement _ expr blocks p =>
      placed n expr && (p <? n)
      && (fix all (l : list Block) : bool :=
            match l with
            | [] => true
            | b :: rest => placedBlock n b && all rest
            end) blocks
  end
with placedBlock (n : nat) (b : Block) : bool :=
  match b with
  | SimpleBlock stmts p =>
      (p <? n)
      && (fix all (l : list Statement) : bool :=
            match l with
            | [] => true
            | s :: rest => placedStatement n s && all rest
            end) stmts
  | ElifBlock condition block p => placed n condition && placedBlock n block && (p <? n)
  | ElseBlock block p => placedBlock n block && (p <? n)
  end.

(** Where a parsing function returns at the index [i]: not before [i],
    not after the end of the vector, and with a result that [Q] holds
    of there. *)
Definition lands {A} (tokens : list Token) (Q : A → nat → Prop)
    (m : P A) (i : nat) : Prop :=
  match m i with
  | Ok (a, j) => i ≤ j ∧ j ≤ List.length tokens ∧ Q a j
  | _ => True
  end.

(** What a parsing function called at the index [i] returns at the
    index [j]: a node whose position is the index before [j], over
    nodes with positions below [j], after at least one token. *)
Definition expressionFrom (i : nat) (e : Expression) (j : nat) : Prop :=
  placed j e = true ∧ S (exprPosition e) = j ∧ i < j.
Definition statementFrom (i : nat) (s : Statement) (j : nat) : Prop :=
  placedStatement j s = true ∧ S (stmtPosition s) = j ∧ i < j.
Definition blockFrom (i : nat) (b : Block) (j : nat) : Prop :=
  placedBlock j b = true ∧ S (blockPosition b) = j ∧ i < j.
Definition statementsBelow (l : list Statement) (j : nat) : Prop :=
  forallb (placedStatement j) l = true.
Definition blocksBelow (l : list Block) (j : nat) : Prop :=
  forallb (placedBlock j) l = true.
Definition resultFrom (i : nat) (o : option Statement) (j : nat) : Prop :=
  match o with Some s => statementFrom i s j | None => True end.

End Places.

(** ** Notions used by the statements about the end of the parse *)

Module Depth.
Import Parser.

(** The parsing function called at the index [i] comes to an end: where
    it stops without a result or an exception, it has read a token
    outside the vector. *)
Definition lasts {A} (m : P A) (i : nat) : Prop :=
  match m i with
  | Crash f => f = UncheckedAccess
  | _ => True
  end.

End Depth.

(** * Properties *)

(** ** The lexer *)

Module LexerFacts.
Import Lexer Source.
Local Open Scope Z_scope.

Lemma append_snoc (a : string) (c : ascii) (s : string) :
  (a +:+ String c EmptyString) +:+ s = a +:+ String c s.
Proof.
  induction a as [|x a IH]; [done|].
  change (String x ((a +:+ String c EmptyString) +:+ s) = String x (a +:+ String c s)).
  by rewrite IH.
Qed.

Lemma append_empty_r (a : string) : a +:+ EmptyString = a.
Proof.
  induction a as [|x a IH]; [done|].
  change (String x (a +:+ EmptyString) = String x a). by rewrite IH.
Qed.

Lemma positionFrom_app l c a b :
  positionFrom l c (a ++ b) =
  positionFrom (positionFrom l c a).1 (positionFrom l c a).2 b.
Proof.
  revert l c. induction a as [|x a IH]; intros l c; simpl; [done|].
  destruct (Ascii.eqb x "010"); apply IH.
Qed.

Lemma advance_place l c :
  (line_ (advance l c), column_ (advance l c))
  = positionFrom (line_ l) (column_ l) [c].
Proof. unfold advance. simpl. by destruct (Ascii.eqb c "010"). Qed.

Lemma advance_stacks l c :
  indentStack_ (advance l c) = indentStack_ l ∧ parStack_ (advance l c) = parStack_ l.
Proof. unfold advance. by destruct (Ascii.eqb c "010"). Qed.

Lemma readWhile_spec p file : ∀ l word l' file' word',
  readWhile p l file word = (l', file', word') →
  ∃ taken, file = taken ++ file' ∧ forallb p taken = true
    ∧ word' = word +:+ string_of_list_ascii taken
    ∧ indentStack_ l' = indentStack_ l ∧ parStack_ l' = parStack_ l
    ∧ (line_ l', column_ l') = positionFrom (line_ l) (column_ l) taken.
Proof.
  induction file as [|c rest IH]; intros l word l' file' word' H; simpl in H.
  - simplify_eq. exists []. simpl. by rewrite append_empty_r.
  - destruct (p c) eqn:Hp.
    + apply IH in H as (taken & -> & Hall & -> & Hi & Hp' & Hpos).
      exists (c :: taken). simpl. rewrite Hp, Hall, append_snoc.
      destruct (advance_stacks l c) as [E1 E2].
      rewrite Hi, Hp', E1, E2, Hpos.
      repeat split; try done.
      unfold advance. by destruct (Ascii.eqb c "010").
    + simplify_eq. exists []. simpl. by rewrite append_empty_r.
Qed.


Lemma peekIs_eqb c file :
  peekIs (Ascii.eqb c) file = true → ∃ rest, file = c :: rest.
Proof.
  destruct file as [|x rest]; simpl; [done|].
  intros ->%Ascii.eqb_eq. by eexists.
Qed.

Lemma newReservedKeywordToken_spec word l c t :
  newReservedKeywordToken word l c = Ok t →
  ∃ v, t = mkToken l c (ReservedKeywordToken v)
       ∧ word ∈ spellings (ReservedKeywordToken v).
Proof.
  unfold newReservedKeywordToken.
  repeat (destruct (String.eqb word _) eqn:E;
          [apply String.eqb_eq in E; subst; intros [= <-];
           eexists; split; [reflexivity | vm_compute; apply list_elem_of_here] | clear E]).
  done.
Qed.

Lemma newBoolOpToken_spec word l c t :
  newBoolOpToken word l c = Ok t →
  ∃ v, t = mkToken l c (BoolOpToken v) ∧ word ∈ spellings (BoolOpToken v).
Proof.
  unfold newBoolOpToken.
  repeat (destruct (String.eqb word _) eqn:E;
          [apply String.eqb_eq in E; subst; intros [= <-];
           eexists; split; [reflexivity | vm_compute; apply list_elem_of_here] | clear E]).
  done.
Qed.

Lemma newNumberToken_spec numStr l c t :
  newNumberToken numStr l c = Ok t →
  t = mkToken l c (NumberToken (decimalValue 0 numStr)).
Proof. unfold newNumberToken. case_match; by intros [= <-]. Qed.

Lemma inRange_digit ch : inRange "1" "9" ch = true → isDigit ch = true.
Proof.
  unfold isDigit, inRange. rewrite !andb_true_iff, !Nat.leb_le.
  change (nat_of_ascii "1") with 49%nat. change (nat_of_ascii "0") with 48%nat.
  lia.
Qed.

Lemma scanned_single s ch file d :
  string_of_list_ascii [ch] ∈ spellings d →
  (∀ v, d ≠ NumberToken v) →
  ∀ s', lx s' = lx s ∨ (∃ p, lx s' = mkLexer (indentStack_ (lx s)) p (line_ (lx s)) (column_ (lx s))) →
  res s' = res s ++ [stamp s d] →
  scanned s ch file s' file.
Proof.
  intros Hd Hn s' Hlx Hres. exists []. simpl.
  assert (indentStack_ (lx s') = indentStack_ (lx s)
          ∧ line_ (lx s') = line_ (lx s) ∧ column_ (lx s') = column_ (lx s)) as (E1 & E2 & E3).
  { destruct Hlx as [->|[p ->]]; done. }
  rewrite E1, E2, E3. repeat split; try done.
  right. exists d. split; [done|].
  destruct d; try done. by destruct (Hn value_).
Qed.

Lemma scanned_double s ch c rest d :
  string_of_list_ascii [ch; c] ∈ spellings d →
  (∀ v, d ≠ NumberToken v) →
  Ascii.eqb c "010" = false →
  ∀ s', lx s' = advance (lx s) c →
  res s' = res s ++ [mkToken (line_ (lx s')) (column_ (lx s')) d] →
  scanned s ch (c :: rest) s' rest.
Proof.
  intros Hd Hn Hc s' Hlx Hres. exists [c]. simpl.
  rewrite Hlx. unfold advance. rewrite Hc. simpl.
  repeat split; try done.
  right. exists d. split.
  - rewrite Hres, Hlx. unfold advance. by rewrite Hc.
  - destruct d; try done. by destruct (Hn value_).
Qed.

Ltac single_token :=
  eapply scanned_single;
  [ .. | reflexivity ];
  [ .. | first [by left | by right; eexists] ];
  [ vm_compute; apply list_elem_of_here | done ].

Ltac peek_token :=
  match goal with
  | H : peekIs (Ascii.eqb _) _ = true |- _ =>
      apply peekIs_eqb in H as [? ->]; simpl; intros [= <- <-];
      eapply scanned_double;
      [ .. | reflexivity ]; [ .. | reflexivity ]; [ .. | done ];
      [ vm_compute; apply list_elem_of_here | done ]
  end.

Lemma scanToken_spec s ch file s' file' :
  scanToken s ch file = Ok (s', file') → scanned s ch file s' file'.
Proof.
  unfold scanToken.
  destruct (isLetter ch) eqn:Hletter.
  { destruct (readWhile isWordChar (lx s) file (String ch EmptyString))
      as [[l rest] word] eqn:Hread.
    apply readWhile_spec in Hread as (taken & -> & Hall & -> & Hi & Hp & Hpos).
    change (String ch EmptyString +:+ string_of_list_ascii taken)
      with (string_of_list_ascii (ch :: taken)).
    set (word := string_of_list_ascii (ch :: taken)).
    assert (∀ t d, t = mkToken (line_ l) (column_ l) d →
                   word ∈ spellings d → (∀ v, d ≠ NumberToken v) →
                   scanned s ch (taken ++ file') (push (setLexer s l) t) file') as Hok.
    { intros t d -> Hd Hn. exists taken. simpl. repeat split; try done.
      right. exists d. split; [done|]. destruct d; try done. by destruct (Hn value_). }
    destruct (isReservedWord word).
    { destruct (newReservedKeywordToken word (line_ l) (column_ l)) as [t| |] eqn:Hk;
        simpl; [|done..].
      intros [= <- <-].
      apply newReservedKeywordToken_spec in Hk as (v & -> & Hv). by eapply Hok. }
    destruct (isBoolOperator word).
    { destruct (newBoolOpToken word (line_ l) (column_ l)) as [t| |] eqn:Hk;
        simpl; [|done..].
      intros [= <- <-].
      apply newBoolOpToken_spec in Hk as (v & -> & Hv). by eapply Hok. }
    destruct (String.eqb word "True") eqn:Ht.
    { apply String.eqb_eq in Ht. intros [= <- <-].
      eapply (Hok _ (BoolToken true)); [done| |done]. rewrite Ht. apply list_elem_of_here. }
    destruct (String.eqb word "False") eqn:Hf.
    { apply String.eqb_eq in Hf. intros [= <- <-].
      eapply (Hok _ (BoolToken false)); [done| |done]. rewrite Hf. apply list_elem_of_here. }
    intros [= <- <-]. eapply (Hok _ (IdToken word)); [done| |done]. apply list_elem_of_here. }
  destruct (inRange "1" "9" ch) eqn:Hnum.
  { destruct (readWhile isDigit (lx s) file (String ch EmptyString))
      as [[l rest] numStr] eqn:Hread.
    apply readWhile_spec in Hread as (taken & -> & Hall & -> & Hi & Hp & Hpos).
    destruct (newNumberToken _ (line_ l) (column_ l)) as [t| |] eqn:Hk; simpl; [|done..].
    intros [= <- <-]. apply newNumberToken_spec in Hk as ->.
    exists taken. simpl. repeat split; try done.
    right. eexists. split; [done|]. simpl.
    rewrite (inRange_digit _ Hnum), Hall. done. }
  destruct (isNewline ch) eqn:Hnl.
  { intros [= <- <-]. exists []. simpl. repeat split; try done.
    right. exists NewLineToken. split; [done|].
    unfold isNewline in Hnl. apply orb_true_iff in Hnl as [->%Ascii.eqb_eq| ->%Ascii.eqb_eq].
    - apply list_elem_of_here.
    - apply list_elem_of_further, list_elem_of_here. }
  destruct (Ascii.eqb ch "0") eqn:H0.
  { apply Ascii.eqb_eq in H0 as ->. destruct (peekIs isDigit file); [done|].
    simpl. intros [= <- <-]. exists []. simpl. repeat split; try done.
    right. eexists. split; [done|]. done. }
  destruct (Ascii.eqb ch "=") eqn:Heq.
  { apply Ascii.eqb_eq in Heq as ->.
    destruct (peekIs (Ascii.eqb "=") file) eqn:Hpeek.
    - peek_token.
    - intros [= <- <-]. single_token. }
  destruct (Ascii.eqb ch "!" && peekIs (Ascii.eqb "=") file) eqn:Hne.
  { apply andb_true_iff in Hne as [->%Ascii.eqb_eq Hpeek]. peek_token. }
  clear Hne.
  destruct (Ascii.eqb ch "<") eqn:Hlt.
  { apply Ascii.eqb_eq in Hlt as ->.
    destruct (peekIs (Ascii.eqb "=") file) eqn:Hpeek.
    - peek_token.
    - intros [= <- <-]. single_token. }
  destruct (Ascii.eqb ch ">") eqn:Hgt.
  { apply Ascii.eqb_eq in Hgt as ->.
    destruct (peekIs (Ascii.eqb "=") file) eqn:Hpeek.
    - peek_token.
    - intros [= <- <-]. single_token. }
  destruct (Ascii.eqb ch "+") eqn:Hadd.
  { apply Ascii.eqb_eq in Hadd as ->. intros [= <- <-]. single_token. }
  destruct (Ascii.eqb ch "-") eqn:Hsub.
  { apply Ascii.eqb_eq in Hsub as ->. intros [= <- <-]. single_token. }
  destruct (Ascii.eqb ch "*") eqn:Hmul.
  { apply Ascii.eqb_eq in Hmul as ->. intros [= <- <-]. single_token. }
  destruct (Ascii.eqb ch "/") eqn:Hdiv.
  { apply Ascii.eqb_eq in Hdiv as ->.
    destruct (peekIs (Ascii.eqb "/") file) eqn:Hpeek; [|done]. peek_token. }
  destruct (Ascii.eqb ch ":") eqn:Hcol.
  { apply Ascii.eqb_eq in Hcol as ->. intros [= <- <-]. single_token. }
  destruct (Ascii.eqb ch ".") eqn:Hper.
  { apply Ascii.eqb_eq in Hper as ->. intros [= <- <-]. single_token. }
  destruct (Ascii.eqb ch "(") eqn:Hlp.
  { apply Ascii.eqb_eq in Hlp as ->. intros [= <- <-]. single_token. }
  destruct (Ascii.eqb ch ")") eqn:Hrp.
  { apply Ascii.eqb_eq in Hrp as ->. simpl.
    destruct (parStack_ (lx s)) as [|top below]; [done|].
    destruct (top =? 0); [done|]. intros [= <- <-]. single_token. }
  destruct (Ascii.eqb ch "[") eqn:Hlb.
  { apply Ascii.eqb_eq in Hlb as ->. intros [= <- <-]. single_token. }
  destruct (Ascii.eqb ch "]") eqn:Hrb.
  { apply Ascii.eqb_eq in Hrb as ->. simpl.
    destruct (parStack_ (lx s)) as [|top below]; [done|].
    destruct (top =? 1); [done|]. simpl. intros [= <- <-]. single_token. }
  destruct (negb (Ascii.eqb ch " ")) eqn:Hsp; [done|].
  apply negb_false_iff, Ascii.eqb_eq in Hsp as ->.
  intros [= <- <-]. exists []. simpl. repeat split; try done. by left.
Qed.


Lemma dedentLoop_spec n l c stack : ∀ r stack' r',
  dedentLoop n l c stack r = Ok (stack', r') →
  ∃ k, r' = r ++ replicate k (mkToken l c (IndentationToken false))
       ∧ List.length stack = (k + List.length stack')%nat ∧ stack' ≠ [].
Proof.
  induction stack as [|top below IH]; intros r stack' r'; simpl; [done|].
  destruct (n <? top).
  - intros (k & -> & Hlen & Hne)%IH. exists (S k). repeat split; [|lia|done].
    by rewrite <- app_assoc.
  - intros [= <- <-]. exists 0%nat. by rewrite app_nil_r.
Qed.

Lemma count_replicate_dedent k l c :
  countIndent (replicate k (mkToken l c (IndentationToken false))) = 0%nat
  ∧ countDedent (replicate k (mkToken l c (IndentationToken false))) = k.
Proof.
  unfold countIndent, countDedent.
  induction k as [|k [IH1 IH2]]; simpl; [done|]. split; [done|]. by rewrite IH2.
Qed.

Lemma Forall_replicate_dedent k l c :
  Forall (λ t, ∃ b, t = mkToken l c (IndentationToken b))
         (replicate k (mkToken l c (IndentationToken false))).
Proof. apply Forall_replicate. by eexists. Qed.

Lemma indented_same s s' :
  lx s' = lx s → res s' = res s → indented s s'.
Proof.
  intros Hl Hr. unfold indented. rewrite Hl. repeat split; try done.
  exists []. rewrite app_nil_r. repeat split; try done; apply Forall_nil_2.
Qed.

Lemma handleIndentation_spec s ch f :
  handleIndentation s ch = Ok f → indented s (flowState f).
Proof.
  unfold handleIndentation.
  destruct (isBlank ch && _).
  { intros [= <-]. by apply indented_same. }
  destruct (negb (isBlank ch) && negb (isNewline ch) && indent s).
  2:{ destruct (isNewline ch); intros [= <-]; by apply indented_same. }
  destruct (indentStack_ (lx s)) as [|top below] eqn:Hstack; [done|].
  destruct (n_t s >? top).
  { intros [= <-]. unfold indented. simpl. repeat split; try done.
    exists [stamp s (IndentationToken true)]. repeat split.
    - repeat constructor. by eexists.
    - rewrite Hstack. unfold countIndent, countDedent. simpl. lia. }
  destruct (n_t s <? top).
  2:{ intros [= <-]. unfold indented. simpl. rewrite Hstack. repeat split; try done.
      exists []. rewrite app_nil_r. repeat split; try done; apply Forall_nil_2. }
  destruct (dedentLoop _ _ _ _ _) as [[stack' r']| |] eqn:Hloop; [|done..].
  apply dedentLoop_spec in Hloop as (k & -> & Hlen & Hne).
  destruct stack' as [|top' below']; [done|].
  destruct (negb (n_t s =? top')); [done|].
  intros [= <-]. unfold indented. simpl. repeat split; try done.
  eexists. repeat split.
  - apply Forall_replicate_dedent.
  - destruct (count_replicate_dedent k (line_ (lx s)) (column_ (lx s))) as [-> ->].
    rewrite Hstack. simpl in *. lia.
Qed.


Lemma lexStep_spec s ch file s' file' :
  lexStep s ch file = Ok (s', file') →
  ∃ mid, indented s mid ∧ ((mid = s' ∧ file' = file) ∨ scanned mid ch file s' file').
Proof.
  unfold lexStep.
  destruct (handleIndentation s ch) as [[mid|mid]| |] eqn:Hind; [| |done..];
    apply handleIndentation_spec in Hind; simpl in Hind.
  - intros [= <- <-]. exists mid. split; [done|]. by left.
  - intros Hscan%scanToken_spec. exists mid. split; [done|]. by right.
Qed.

Lemma lexLoop_invariant (I : Scan → list ascii → Prop) :
  (∀ s ch rest s' rest',
     I s (ch :: rest) →
     lexStep (setLexer s (advance (lx s) ch)) ch rest = Ok (s', rest') →
     I s' rest') →
  ∀ fuel s file s', I s file → lexLoop fuel s file = Ok s' → I s' [].
Proof.
  intros Hstep. induction fuel as [|fuel IH]; intros s file s' HI; simpl; [done|].
  destruct file as [|ch rest]; simpl.
  - by intros [= <-].
  - destruct (lexStep _ ch rest) as [[s1 rest1]| |] eqn:Hs; [|done..].
    intros Hloop. eapply IH; [|exact Hloop]. by eapply Hstep.
Qed.

Lemma spells_cons_not_layout d c l b :
  spells d (c :: l) → d ≠ IndentationToken b.
Proof.
  intros Hs ->. simpl in Hs. apply list_elem_of_singleton in Hs. done.
Qed.

Lemma countIndent_app a b : countIndent (a ++ b) = (countIndent a + countIndent b)%nat.
Proof. unfold countIndent. by rewrite List.filter_app, length_app. Qed.

Lemma countDedent_app a b : countDedent (a ++ b) = (countDedent a + countDedent b)%nat.
Proof. unfold countDedent. by rewrite List.filter_app, length_app. Qed.

Lemma count_not_layout l c d :
  (∀ b, d ≠ IndentationToken b) →
  countIndent [mkToken l c d] = 0%nat ∧ countDedent [mkToken l c d] = 0%nat.
Proof.
  intros Hd. unfold countIndent, countDedent, isIndent, isDedent. simpl.
  destruct d as [| | | | | | | | |b| |]; try done. by destruct (Hd b).
Qed.

Lemma lexStep_balanced s ch rest s' rest' :
  balanced s →
  lexStep (setLexer s (advance (lx s) ch)) ch rest = Ok (s', rest') →
  balanced s'.
Proof.
  intros [Hne Hbal] (mid & Hind & Hscan)%lexStep_spec.
  destruct Hind as (_ & _ & Hne' & new & Hres & _ & Hcount). simpl in *.
  destruct (advance_stacks (lx s) ch) as [Estack _]. rewrite Estack in *.
  assert (balanced mid) as [Hne1 Hbal1].
  { split; [by apply Hne'|]. rewrite Hres, countIndent_app, countDedent_app. lia. }
  destruct Hscan as [[<- _]|(taken & _ & Hstack & _ & Hres')]; [done|].
  split; rewrite Hstack; [done|].
  destruct Hres' as [[-> _]|(d & -> & Hsp)]; [done|].
  rewrite countIndent_app, countDedent_app.
  destruct (count_not_layout (line_ (lx s')) (column_ (lx s')) d) as [-> ->]; [|lia].
  intros b. by eapply spells_cons_not_layout.
Qed.

Lemma drain_spec l c stack : ∀ r stack' r',
  stack ≠ [] →
  drain l c stack r = (stack', r') →
  r' = r ++ replicate (List.length stack - 1) (mkToken l c (IndentationToken false)).
Proof.
  induction stack as [|top below IH]; intros r stack' r' Hne; [done|]. simpl.
  destruct below as [|next below].
  - intros [= <- <-]. simpl. by rewrite app_nil_r.
  - intros ->%IH; [|done]. rewrite <- app_assoc. simpl. by rewrite Nat.sub_0_r.
Qed.

Lemma finish_spec s toks :
  indentStack_ (lx s) ≠ [] →
  finish s = Ok toks →
  toks = res s
         ++ replicate (List.length (indentStack_ (lx s)) - 1)
              (mkToken (line_ (lx s)) (column_ (lx s)) (IndentationToken false))
         ++ [mkToken (line_ (lx s)) (column_ (lx s)) EndOfFileToken].
Proof.
  intros Hne. unfold finish. destruct (negb _); [done|].
  destruct (drain _ _ _ _) as [stack' r'] eqn:Hd.
  apply drain_spec in Hd as ->; [|done]. intros [= <-]. by rewrite <- app_assoc.
Qed.

Lemma tokenize_inv src toks :
  tokenizeInputFile src = Ok toks →
  ∃ s, lexLoop (S (List.length src)) (mkScan newLexer [] 0 true) src = Ok s
       ∧ finish s = Ok toks.
Proof.
  unfold tokenizeInputFile.
  destruct (lexLoop _ _ _) as [s| |] eqn:Hloop; simpl; [|done..]. eauto.
Qed.

(** C8.  A source that the lexer tokenizes without error yields as many
    indent tokens as dedent tokens: every push on the indentation stack
    emits one indent, every pop one dedent, and the levels above the
    base are popped at the end of the file. *)
Theorem indent_dedent_balance src toks :
  tokenizeInputFile src = Ok toks → countIndent toks = countDedent toks.
Proof.
  intros (s & Hloop & Hfin)%tokenize_inv.
  assert (balanced s) as [Hne Hbal].
  { eapply (lexLoop_invariant (λ s _, balanced s)); [| |exact Hloop].
    - intros. by eapply lexStep_balanced.
    - by split. }
  apply finish_spec in Hfin as ->; [|done].
  rewrite !countIndent_app, !countDedent_app.
  destruct (count_replicate_dedent (List.length (indentStack_ (lx s)) - 1)
              (line_ (lx s)) (column_ (lx s))) as [-> ->].
  change (countIndent [_]) with 0%nat. change (countDedent [_]) with 0%nat.
  destruct (indentStack_ (lx s)); [done|]. simpl in *. lia.
Qed.


(** The first branch of the indentation handling is the only one that
    ends the iteration: it counts a blank at the start of a line. *)
Lemma handleIndentation_continue s ch mid :
  handleIndentation s ch = Ok (Continue mid) →
  isBlank ch = true ∧ res mid = res s ∧ lx mid = lx s.
Proof.
  unfold handleIndentation.
  destruct (isBlank ch) eqn:Hblank; simpl.
  - destruct (isEmpty (res s) || backIsNewline (res s) && indent s).
    + by intros [= <-].
    + destruct (isNewline ch); by intros [= <-].
  - repeat (case_match; try discriminate); by intros [=].
Qed.

(** A blank that is no indentation emits nothing. *)
Lemma handleIndentation_blank s ch mid :
  isBlank ch = true → handleIndentation s ch = Ok (Fallthrough mid) →
  res mid = res s ∧ lx mid = lx s.
Proof.
  unfold handleIndentation. intros ->. simpl.
  destruct (isEmpty (res s) || backIsNewline (res s) && indent s); [done|].
  destruct (isNewline ch); by intros [= <-].
Qed.

Lemma levels_of_indentation l c new :
  Forall (λ t, ∃ b, t = mkToken l c (IndentationToken b)) new →
  ∃ levels, new = map (λ b, mkToken l c (IndentationToken b)) levels.
Proof.
  induction 1 as [|t new [b ->] _ [levels ->]]; [by exists []|].
  by exists (b :: levels).
Qed.

Lemma stampAt_counters read l c d :
  (l, c) = positionFrom 1 0 read → stampAt read d = mkToken l c d.
Proof. unfold stampAt. by intros <-. Qed.

(** One iteration of the loop of the lexer reads the byte [ch] and the
    bytes [taken], and the tokens lie on the bytes read as before. *)
Lemma lexStep_located src s ch rest s' rest' :
  located src s (ch :: rest) →
  lexStep (setLexer s (advance (lx s) ch)) ch rest = Ok (s', rest') →
  located src s' rest'.
Proof.
  intros (read & -> & Hpos & Htr) Hstep.
  set (s0 := setLexer s (advance (lx s) ch)) in *.
  assert ((line_ (lx s0), column_ (lx s0)) = positionFrom 1 0 (read ++ [ch])) as Hs0.
  { unfold s0. simpl. rewrite advance_place, positionFrom_app. by rewrite <- Hpos. }
  unfold lexStep in Hstep.
  destruct (handleIndentation s0 ch) as [[mid|mid]| |] eqn:Hind; [| |done..].
  - (* a blank of the indentation *)
    injection Hstep as <- <-.
    apply handleIndentation_continue in Hind as (Hblank & Hres & Hlx).
    exists (read ++ [ch]). rewrite <- app_assoc. split; [done|].
    rewrite Hlx, Hres. split; [done|]. by apply traced_blank.
  - apply scanToken_spec in Hstep as (taken & -> & _ & Hpos' & Hres').
    pose proof (handleIndentation_spec _ _ _ Hind) as (Hl & Hc & _ & new & Hres & Hnew & _).
    simpl in Hl, Hc, Hres, Hnew.
    assert ((line_ (lx mid), column_ (lx mid)) = positionFrom 1 0 (read ++ [ch])) as Hmid
      by by rewrite Hl, Hc.
    exists (read ++ ch :: taken).
    split; [by rewrite <- app_assoc|].
    assert ((line_ (lx s'), column_ (lx s')) = positionFrom 1 0 (read ++ ch :: taken)) as Hs'.
    { rewrite Hpos', (cons_middle ch read taken), app_assoc,
        (positionFrom_app _ _ (read ++ [ch])). by rewrite <- Hmid. }
    split; [done|].
    destruct Hres' as [(Hskip & -> & ->)|(d & Hres' & Hsp)].
    + (* a blank between two tokens *)
      apply (handleIndentation_blank s0 " " mid) in Hind as [Hsame _]; [|done].
      rewrite Hskip, Hsame. by apply traced_blank.
    + apply levels_of_indentation in Hnew as [levels ->].
      assert (res s'
              = res s
                ++ map (λ b, stampAt (read ++ [ch]) (IndentationToken b)) levels
                ++ [stampAt (read ++ ch :: taken) d]) as ->.
      { rewrite Hres', Hres, <- app_assoc. f_equal. f_equal.
        - apply map_ext. intros b. symmetry. by apply stampAt_counters.
        - f_equal. symmetry. by apply stampAt_counters. }
      by apply traced_token.
Qed.

(** C4, as the code has it.  The tokens of a source that the lexer
    tokenizes without error lie on its bytes in their order, with
    nothing but blanks between their lexemes.  A token written with
    bytes carries the place reached after the last byte of its own
    lexeme (lines from 1, columns counting the bytes read on the line, a
    line feed moving to column 0 of the next line); the indentation
    tokens before the first token of a line carry the place reached
    after the first byte of that token; the dedentation tokens at the
    end and the end of the file carry the place reached after the last
    byte of the source. *)
Theorem stamps_follow_last_byte src toks :
  tokenizeInputFile src = Ok toks → stampedAsRead src toks.
Proof.
  intros (s & Hloop & Hfin)%tokenize_inv.
  assert (balanced s ∧ located src s []) as [[Hne _] (read & Hsrc & Hpos & Htr)].
  { eapply (lexLoop_invariant (λ s file, balanced s ∧ located src s file));
      [| |exact Hloop].
    - intros ????? [??] ?. split; [by eapply lexStep_balanced|by eapply lexStep_located].
    - split; [by split|]. exists []. repeat split. apply traced_start. }
  rewrite app_nil_r in Hsrc. subst read.
  apply finish_spec in Hfin as ->; [|done].
  exists (res s), (List.length (indentStack_ (lx s)) - 1)%nat.
  split; [done|]. by rewrite !(stampAt_counters _ _ _ _ Hpos).
Qed.


Lemma dedentLoop_fault n l c stack : ∀ r f,
  dedentLoop n l c stack r = Crash f → f = UncheckedAccess.
Proof.
  induction stack as [|top below IH]; intros r f; simpl; [by intros [= <-]|].
  destruct (n <? top); [apply IH|done].
Qed.

Lemma handleIndentation_fault s ch f :
  handleIndentation s ch = Crash f → f = UncheckedAccess.
Proof.
  unfold handleIndentation.
  destruct (dedentLoop (n_t s) (line_ (lx s)) (column_ (lx s)) (indentStack_ (lx s)) (res s))
    as [[stack' r']| |f'] eqn:Hloop;
    repeat case_match; try done; try by intros [= <-].
  intros [= <-]. by eapply dedentLoop_fault.
Qed.

Lemma scanToken_fault s ch file f :
  scanToken s ch file = Crash f → f ≠ OutOfFuel.
Proof.
  unfold scanToken, newReservedKeywordToken, newBoolOpToken, newNumberToken, consume.
  repeat case_match; simpl; try done; by intros [= <-].
Qed.

Lemma lexStep_fault s ch file f :
  lexStep s ch file = Crash f → f ≠ OutOfFuel.
Proof.
  unfold lexStep.
  destruct (handleIndentation s ch) as [[mid|mid]| |f'] eqn:Hind; try done.
  - apply scanToken_fault.
  - intros [= <-]. by apply handleIndentation_fault in Hind as ->.
Qed.

Lemma lexStep_shorter s ch file s' file' :
  lexStep s ch file = Ok (s', file') → (List.length file' ≤ List.length file)%nat.
Proof.
  intros (mid & _ & [[_ ->]|(taken & -> & _)])%lexStep_spec; [done|].
  rewrite length_app. lia.
Qed.

Lemma lexLoop_fuel fuel : ∀ s file,
  (List.length file < fuel)%nat → lexLoop fuel s file ≠ Crash OutOfFuel.
Proof.
  induction fuel as [|fuel IH]; intros s file Hlen; [lia|]. simpl.
  destruct file as [|ch rest]; simpl; [done|].
  destruct (lexStep _ ch rest) as [[s1 rest1]| |f] eqn:Hs; [|done|].
  - apply IH. apply lexStep_shorter in Hs. simpl in Hlen. lia.
  - apply lexStep_fault in Hs. congruence.
Qed.

(** The fuel of the model of the loop of the lexer is never exhausted. *)
Lemma tokenizeInputFile_fuel src : tokenizeInputFile src ≠ Crash OutOfFuel.
Proof.
  unfold tokenizeInputFile.
  destruct (lexLoop _ _ _) as [s| |f] eqn:Hloop; simpl.
  - unfold finish. repeat case_match; done.
  - done.
  - intros [= ->]. eapply lexLoop_fuel; [|exact Hloop]. lia.
Qed.

(** C4, as stated, fails: the identifier of the source [x] is stamped
    (1, 1), and its only byte stands at line 1, column 0. *)
Lemma first_byte_law_fails :
  ¬ (∀ src toks,
       tokenizeInputFile src = Ok toks →
       Forall (λ t, isLayout t = false → stampedAtFirstByte src t) toks).
Proof.
  intros Hlaw.
  specialize (Hlaw (list_ascii_of_string "x") _ eq_refl).
  apply Forall_cons in Hlaw as [Hx _].
  destruct (Hx eq_refl) as (offset & lexeme & Hne & Hsp & Hocc & Hpos).
  destruct offset as [|offset].
  - discriminate Hpos.
  - unfold occursAt in Hocc. simpl in Hocc. rewrite drop_nil, take_nil in Hocc. done.
Qed.

(** The lexical error of the guard of [']'] is thrown on an open
    parenthesis; the test of emptiness of that guard decides nothing. *)
Lemma mismatched_bracket_closes_parenthesis s file e :
  scanToken s "]" file = Throw e → ∃ below, parStack_ (lx s) = 1 :: below.
Proof.
  unfold scanToken. simpl.
  destruct (parStack_ (lx s)) as [|top below]; [done|].
  destruct (top =? 1) eqn:Htop; simpl; [|done].
  apply Z.eqb_eq in Htop as ->. by eexists.
Qed.

(** C9.  With no bracket open, the guard of [']'] reads the back of the
    empty stack before any test of emptiness, which the embedding
    records as an unchecked access; the guard of [')'] tests emptiness
    first and throws the lexical error.  So do the one-byte sources. *)
Theorem closing_bracket_reads_empty_stack s file :
  parStack_ (lx s) = [] →
  scanToken s "]" file = Crash UncheckedAccess
  ∧ scanToken s ")" file
    = Throw (LexicalError (line_ (lx s)) (column_ (lx s)) "Mismatched parenthesis")
  ∧ tokenize "]" = Crash UncheckedAccess
  ∧ tokenize ")" = Throw (LexicalError 1 1 "Mismatched parenthesis").
Proof.
  intros Hempty. unfold scanToken. simpl. rewrite Hempty. done.
Qed.

Lemma closing_bracket_reads_empty_stack_witness :
  parStack_ newLexer = []
  ∧ scanToken (mkScan newLexer [] 0 true) "]" [] = Crash UncheckedAccess.
Proof.
  split; [reflexivity|].
  apply (closing_bracket_reads_empty_stack (mkScan newLexer [] 0 true) []). reflexivity.
Defined.

Lemma indent_dedent_balance_witness :
  ∃ toks, tokenize scenario6 = Ok toks
          ∧ countIndent toks = countDedent toks ∧ countIndent toks = 2%nat.
Proof.
  eexists. split; [vm_compute; reflexivity|].
  split; [|reflexivity].
  apply (indent_dedent_balance (list_ascii_of_string scenario6)).
  vm_compute. reflexivity.
Defined.

Lemma stamps_follow_last_byte_witness :
  ∃ toks, tokenize scenario6 = Ok toks
          ∧ countIndent toks = 2%nat
          ∧ stampedAsRead (list_ascii_of_string scenario6) toks.
Proof.
  eexists. split; [vm_compute; reflexivity|]. split; [reflexivity|].
  apply (stamps_follow_last_byte (list_ascii_of_string scenario6)).
  vm_compute. reflexivity.
Defined.

End LexerFacts.

(** ** The evaluator *)

Module EvalFacts.
Import Visitor Slots.
Local Open Scope Z_scope.

Section WithTokens.
Variable tokens : list Token.


Lemma found_lookup {A} (m : gmap string A) id x :
  m !! id = Some x → SymbolTable.found m id = true.
Proof. unfold SymbolTable.found. by intros ->. Qed.

(** The read [id[index]] evaluated by itself, with [id] a defined list
    and [index] evaluating to an integer [i]: outside [0, len) it throws
    a semantic error at the place of the node, inside it yields the
    element stored at [i].  As an operand the read goes through
    [getDataType] first, which has no test of the bounds. *)
Lemma indexed_read st id index p i l :
  lists_ st !! id = Some l →
  eval tokens st index = Ok (IntElement i) →
  ((i < 0 ∨ Z.of_nat (List.length l) ≤ i) →
   eval tokens st (ListElementLocation id index p)
   = Throw (SemanticError (lineOf tokens p) (columnOf tokens p) "List index out of bounds"))
  ∧ ((0 ≤ i < Z.of_nat (List.length l)) →
     ∃ x, l !! Z.to_nat i = Some x
          ∧ eval tokens st (ListElementLocation id index p) = Ok x).
Proof.
  intros Hl Hi. simpl. unfold isListDefined, SymbolTable.isListDefined.
  rewrite (found_lookup _ _ _ Hl), Hi. simpl.
  unfold getListSize, getListElement, isListDefined, SymbolTable.isListDefined,
    SymbolTable.getListSize, SymbolTable.getListElement.
  rewrite (found_lookup _ _ _ Hl), Hl. simpl.
  split.
  - intros Hout. destruct (i <? 0) eqn:Hneg; simpl; [done|].
    assert ((i >=? Z.of_nat (List.length l)) = true) as -> by lia. done.
  - intros Hin.
    assert ((i <? 0) = false) as -> by lia. simpl.
    assert ((i >=? Z.of_nat (List.length l)) = false) as -> by lia. simpl.
    destruct (lookup_lt_is_Some_2 l (Z.to_nat i)) as [x Hx]; [lia|].
    exists x. by rewrite Hx.
Qed.

(** C2, as the code has it.  What [True or E] and [False and E] come
    to is decided by the type check of [E], which comes before the test
    of the left operand and reads the names and the list elements of
    [E]: when it finds [E] boolean, the result is [True], respectively
    [False], and [E] is not evaluated, whatever its evaluation would
    do; when it finds another type, a type error is thrown; when it
    throws, as it does with a semantic error on an undefined name, the
    whole expression throws that error. *)
Theorem short_circuit_follows_type_check st E p q :
  eval tokens st (OrExpr (BoolFactor true q) E p)
  = match getDataType tokens st E with
    | Ok TYPE_BOOL => Ok (BoolElement true)
    | Ok _ => Throw (errorAt tokens TypeError p "Operands of 'or' must be boolean")
    | Throw e => Throw e
    | Crash f => Crash f
    end
  ∧ eval tokens st (AndExpr (BoolFactor false q) E p)
    = match getDataType tokens st E with
      | Ok TYPE_BOOL => Ok (BoolElement false)
      | Ok _ => Throw (errorAt tokens TypeError p "Operands of 'and' must be boolean")
      | Throw e => Throw e
      | Crash f => Crash f
      end.
Proof.
  split; simpl; unfold eitherIsNot; simpl;
    destruct (getDataType tokens st E) as [[]| |]; done.
Qed.


(** C6.  Visiting [id = list()]: if [id] is defined, as a variable or
    as a list, a semantic error is thrown and the visitor is left as it
    was; otherwise [id] is bound to the empty list and nothing else
    changes. *)
Theorem list_declaration fuel id p v :
  (isAlreadyDefined (symbolTable_ v) id = true →
   visitStatement tokens (S fuel) (ListDeclarationStatement id p) v
   = (Throw (SemanticError (lineOf tokens p) (columnOf tokens p)
               ("Identifier '" +:+ id +:+ "' is already defined")), v))
  ∧ (isAlreadyDefined (symbolTable_ v) id = false →
     visitStatement tokens (S fuel) (ListDeclarationStatement id p) v
     = (Ok tt,
        mkVisitor (mkSymbolTable (intVariables_ (symbolTable_ v))
                                 (boolVariables_ (symbolTable_ v))
                                 (<[id := []]> (lists_ (symbolTable_ v))))
                  (conditionMetStack_ v) (loopStack_ v) (cout v))).
Proof.
  simpl. unfold visitListDeclarationStatement. split; intros Hdef.
  - unfold mbind, V_bind, get. by rewrite Hdef.
  - unfold mbind, V_bind, get. rewrite Hdef. simpl.
    unfold addList, mbind, V_bind, get, setSymbolTable, SymbolTable.addList. simpl.
    unfold isAlreadyDefined, isListDefined in Hdef.
    apply orb_false_iff in Hdef as [_ ->]. done.
Qed.


(** *** The invariant of the symbol table *)


Lemma occupied_insert {A} (m : gmap string A) id x id' :
  occupied (<[id := x]> m) id' = if decide (id = id') then 1%nat else occupied m id'.
Proof.
  unfold occupied, SymbolTable.found. rewrite lookup_insert.
  by destruct (decide (id = id')).
Qed.

Lemma occupied_delete {A} (m : gmap string A) id id' :
  occupied (delete id m) id' = if decide (id = id') then 0%nat else occupied m id'.
Proof.
  unfold occupied, SymbolTable.found. rewrite lookup_delete.
  by destruct (decide (id = id')).
Qed.

Lemma occupied_found {A} (m : gmap string A) id :
  occupied m id = if SymbolTable.found m id then 1%nat else 0%nat.
Proof. done. Qed.

Ltac slots :=
  match goal with
  | H : atMostOne _ |- atMostOne _ =>
      let id' := fresh "id'" in
      intros id'; specialize (H id'); unfold slots in *; simpl in *;
      rewrite ?occupied_insert, ?occupied_delete;
      repeat (case_decide; subst);
      rewrite ?occupied_found in *;
      repeat match goal with H : SymbolTable.found _ _ = _ |- _ => rewrite H in * end;
      simpl in *; try lia
  end.

Lemma addVariable_atMostOne st id element st' :
  SymbolTable.addVariable st id element = Ok st' →
  SymbolTable.isListDefined st id = false →
  atMostOne st → atMostOne st'.
Proof.
  unfold SymbolTable.addVariable, SymbolTable.isVariableDefined, SymbolTable.isListDefined.
  destruct (SymbolTable.found (intVariables_ st) id) eqn:Hi; [done|].
  destruct (SymbolTable.found (boolVariables_ st) id) eqn:Hb; [done|]. simpl.
  intros Hadd Hl Hinv. destruct element; simplify_eq; slots.
Qed.

Lemma updateVariable_atMostOne st id element st' :
  SymbolTable.updateVariable st id element = Ok st' →
  atMostOne st → atMostOne st'.
Proof.
  unfold SymbolTable.updateVariable.
  destruct (SymbolTable.found (intVariables_ st) id) eqn:Hi,
           (SymbolTable.found (boolVariables_ st) id) eqn:Hb;
    intros Hup Hinv; destruct element; simplify_eq; slots.
Qed.

Lemma clear_atMostOne st id st' :
  SymbolTable.clear st id = Ok st' →
  atMostOne st → atMostOne st' ∧ SymbolTable.isListDefined st' id = false
  ∧ SymbolTable.isVariableDefined st' id = SymbolTable.isVariableDefined st id.
Proof.
  unfold SymbolTable.clear, SymbolTable.isListDefined.
  destruct (SymbolTable.found (lists_ st) id) eqn:Hl; [|done].
  intros [= <-] Hinv. simpl. split; [slots|]. split; [|done].
  unfold SymbolTable.found. by rewrite lookup_delete_eq.
Qed.

Lemma addList_atMostOne st id :
  SymbolTable.isVariableDefined st id = false →
  atMostOne st → atMostOne (SymbolTable.addList st id).
Proof.
  unfold SymbolTable.addList, SymbolTable.isVariableDefined, SymbolTable.isListDefined.
  intros [Hi Hb]%orb_false_iff Hinv.
  destruct (SymbolTable.found (lists_ st) id) eqn:Hl; [done|]. slots.
Qed.

Lemma appendToList_atMostOne st id element st' :
  SymbolTable.appendToList st id element = Ok st' →
  atMostOne st → atMostOne st'.
Proof.
  unfold SymbolTable.appendToList.
  destruct (lists_ st !! id) as [l|] eqn:Hl; [|done].
  pose proof (found_lookup _ _ _ Hl) as Hf.
  intros [= <-] Hinv. slots.
Qed.

Lemma updateListElement_atMostOne st id index element st' :
  SymbolTable.updateListElement st id index element = Ok st' →
  atMostOne st → atMostOne st'.
Proof.
  unfold SymbolTable.updateListElement.
  destruct (lists_ st !! id) as [l|] eqn:Hl; [|done].
  pose proof (found_lookup _ _ _ Hl) as Hf.
  destruct (_ || _); [done|].
  intros [= <-] Hinv. slots.
Qed.


Lemma keeps_ret {A} (a : A) : keeps (mret a).
Proof. by intros v r v' Hinv [= <- <-]. Qed.

Lemma keeps_bind {A B} (m : V A) (k : A → V B) :
  keeps m → (∀ a, keeps (k a)) → keeps (m ≫= k).
Proof.
  intros Hm Hk v r v' Hinv. unfold mbind, V_bind.
  destruct (m v) as [[a|e|f] v1] eqn:Hmv.
  - intros Hkv. eapply Hk; [|exact Hkv]. by eapply Hm.
  - intros [= <- <-]. by eapply Hm.
  - intros [= <- <-]. by eapply Hm.
Qed.

Lemma keeps_same {A} (m : V A) :
  (∀ v r v', m v = (r, v') → symbolTable_ v' = symbolTable_ v) → keeps m.
Proof. intros Hsame v r v' Hinv Hm. by rewrite (Hsame _ _ _ Hm). Qed.

Lemma keeps_throw {A} e : keeps (throw e : V A).
Proof. apply keeps_same. by intros v r v' [= <- <-]. Qed.
Lemma keeps_crash {A} f : keeps (crash f : V A).
Proof. apply keeps_same. by intros v r v' [= <- <-]. Qed.
Lemma keeps_lift {A} (m : Outcome A) : keeps (lift m).
Proof. apply keeps_same. by intros v r v' [= <- <-]. Qed.
Lemma keeps_get : keeps get.
Proof. apply keeps_same. by intros v r v' [= <- <-]. Qed.
Lemma keeps_setConditionMetStack s : keeps (setConditionMetStack s).
Proof. apply keeps_same. by intros v r v' [= <- <-]. Qed.
Lemma keeps_setLoopStack s : keeps (setLoopStack s).
Proof. apply keeps_same. by intros v r v' [= <- <-]. Qed.
Lemma keeps_print line : keeps (print line).
Proof. apply keeps_same. by intros v r v' [= <- <-]. Qed.
Lemma keeps_evalNow e : keeps (evalNow tokens e).
Proof. apply keeps_same. by intros v r v' [= <- <-]. Qed.

Lemma keeps_setConditionMet b : keeps (setConditionMet b).
Proof.
  unfold setConditionMet.
  repeat (apply keeps_bind; [|intros ?]);
    auto using keeps_get, keeps_lift, keeps_setConditionMetStack.
Qed.

Lemma keeps_setLoopActive b : keeps (setLoopActive b).
Proof.
  unfold setLoopActive.
  repeat (apply keeps_bind; [|intros ?]);
    auto using keeps_get, keeps_lift, keeps_setLoopStack.
Qed.

Lemma keeps_forEach {A} (f : A → V unit) xs :
  (∀ x, keeps (f x)) → keeps (forEach f xs).
Proof.
  intros Hf. induction xs as [|x xs IH]; simpl; [apply keeps_ret|].
  apply keeps_bind; [apply Hf|]. by intros _.
Qed.

(** The wrappers that change the table, run on a state. *)
Ltac run_wrapper :=
  unfold updateVariable, addVariable, addList, appendToList, updateListElement,
    clearList, mbind, V_bind, get, lift, setSymbolTable, throw, evalNow in *;
  simpl in *.

Lemma keeps_visitAssignmentStatement loc expr :
  keeps (visitAssignmentStatement tokens loc expr).
Proof.
  intros v r v' Hinv. unfold visitAssignmentStatement.
  destruct loc; try (by intros [= <- <-]).
  - (* a name *)
    run_wrapper.
    destruct (eval tokens (symbolTable_ v) expr) as [value| |]; [|by intros [= <- <-]..].
    destruct (isVariableDefined (symbolTable_ v) id_) eqn:Hvar.
    { destruct (SymbolTable.updateVariable _ _ _) as [st'| |] eqn:Hup;
        intros [= <- <-]; [|done..]. by eapply updateVariable_atMostOne. }
    simpl. rewrite andb_true_r.
    destruct (isListDefined (symbolTable_ v) id_) eqn:Hlist.
    { destruct (SymbolTable.clear _ _) as [st1| |] eqn:Hclear; [|by intros [= <- <-]..].
      apply clear_atMostOne in Hclear as (Hinv1 & Hl1 & Hv1); [|done]. simpl.
      destruct (SymbolTable.addVariable st1 _ _) as [st2| |] eqn:Hadd;
        intros [= <- <-]; [|done..]. by eapply addVariable_atMostOne. }
    unfold isAlreadyDefined. rewrite Hvar, Hlist. simpl.
    destruct (SymbolTable.addVariable _ _ _) as [st2| |] eqn:Hadd;
      intros [= <- <-]; [|done..]. by eapply addVariable_atMostOne.
  - (* an element of a list *)
    run_wrapper.
    destruct (eval tokens (symbolTable_ v) expr) as [value| |]; [|by intros [= <- <-]..].
    destruct (negb _); [by intros [= <- <-]|].
    destruct (eval tokens (symbolTable_ v) loc) as [[index|b]| |]; try (by intros [= <- <-]).
    simpl.
    destruct (SymbolTable.updateListElement _ _ _ _) as [st'| |] eqn:Hup;
      intros [= <- <-]; [|done..]. by eapply updateListElement_atMostOne.
Qed.

Lemma keeps_visitListDeclarationStatement id p :
  keeps (visitListDeclarationStatement tokens id p).
Proof.
  intros v r v' Hinv. unfold visitListDeclarationStatement. run_wrapper.
  destruct (isAlreadyDefined (symbolTable_ v) id) eqn:Hdef; intros [= <- <-]; [done|].
  simpl. apply addList_atMostOne; [|done].
  unfold isAlreadyDefined in Hdef. by apply orb_false_iff in Hdef as [? _].
Qed.

Lemma keeps_visitListAppendStatement id expr p :
  keeps (visitListAppendStatement tokens id expr p).
Proof.
  intros v r v' Hinv. unfold visitListAppendStatement. run_wrapper.
  destruct (negb _); [by intros [= <- <-]|].
  destruct (eval tokens (symbolTable_ v) expr) as [value| |]; [|by intros [= <- <-]..].
  simpl.
  destruct (SymbolTable.appendToList _ _ _) as [st'| |] eqn:Hup;
    intros [= <- <-]; [|done..]. by eapply appendToList_atMostOne.
Qed.

Ltac keeps_step :=
  first
    [ apply keeps_ret | apply keeps_throw | apply keeps_crash | apply keeps_lift
    | apply keeps_get | apply keeps_setConditionMetStack | apply keeps_setLoopStack
    | apply keeps_print | apply keeps_evalNow | apply keeps_setConditionMet
    | apply keeps_setLoopActive | assumption
    | apply keeps_bind; [|intros ?]
    | apply keeps_forEach; intros ?
    | case_match ].

Section Statements.

Variable fuel : nat.
Variable recStatement : Statement → V unit.
Hypothesis keeps_rec : ∀ stmt, keeps (recStatement stmt).

Lemma keeps_visitSimpleBlock b : keeps (visitSimpleBlock recStatement b).
Proof. unfold visitSimpleBlock. repeat keeps_step. apply keeps_rec. Qed.

Lemma keeps_visitElseBlock b : keeps (visitElseBlock tokens recStatement b).
Proof.
  unfold visitElseBlock. repeat (keeps_step || apply keeps_visitSimpleBlock).
Qed.

Lemma keeps_visitElifBlock b : keeps (visitElifBlock tokens recStatement b).
Proof.
  unfold visitElifBlock. repeat (keeps_step || apply keeps_visitSimpleBlock).
Qed.

Lemma keeps_visitIfStatement condition blocks :
  keeps (visitIfStatement tokens recStatement condition blocks).
Proof.
  unfold visitIfStatement.
  repeat (keeps_step || apply keeps_visitSimpleBlock
          || apply keeps_visitElseBlock || apply keeps_visitElifBlock).
Qed.

Lemma keeps_whileBody stmts : keeps (whileBody recStatement stmts).
Proof.
  induction stmts as [|stmt rest IH]; simpl; repeat keeps_step. apply keeps_rec.
Qed.

Lemma keeps_whileLoop n condition blocks p :
  keeps (whileLoop tokens recStatement n condition blocks p).
Proof.
  induction n as [|n IH]; simpl; repeat (keeps_step || apply keeps_whileBody).
Qed.

Lemma keeps_visitWhileStatement condition blocks p :
  keeps (visitWhileStatement tokens fuel recStatement condition blocks p).
Proof.
  unfold visitWhileStatement. repeat (keeps_step || apply keeps_whileLoop).
Qed.

Lemma keeps_visitStatementBody stmt :
  keeps (visitStatementBody tokens fuel recStatement stmt).
Proof.
  unfold visitStatementBody.
  destruct stmt; try destruct stype;
    auto using keeps_visitAssignmentStatement, keeps_visitListDeclarationStatement,
      keeps_visitListAppendStatement, keeps_visitIfStatement,
      keeps_visitWhileStatement, keeps_crash.
  - unfold visitBreakStatement. repeat keeps_step.
  - unfold visitContinueStatement. repeat keeps_step.
  - unfold visitPrintStatement. repeat keeps_step.
Qed.

End Statements.

Lemma keeps_visitStatement fuel : ∀ stmt, keeps (visitStatement tokens fuel stmt).
Proof.
  induction fuel as [|fuel IH]; intros stmt; simpl; [apply keeps_crash|].
  apply keeps_visitStatementBody. intros s. apply IH.
Qed.

Lemma keeps_visitProgram fuel program : keeps (visitProgram tokens fuel program).
Proof. apply keeps_forEach, keeps_visitStatement. Qed.


Lemma atMostOne_empty : atMostOne SymbolTable.empty.
Proof. intros id. unfold slots, occupied, SymbolTable.found. simpl. rewrite ?lookup_empty. simpl. lia. Qed.

Lemma atMostOne_exclusive st id :
  atMostOne st →
  ¬ (SymbolTable.isVariableDefined st id = true ∧ SymbolTable.isListDefined st id = true)
  ∧ ¬ (SymbolTable.found (intVariables_ st) id = true
       ∧ SymbolTable.found (boolVariables_ st) id = true).
Proof.
  intros Hinv. specialize (Hinv id). unfold slots, occupied in Hinv.
  unfold SymbolTable.isVariableDefined, SymbolTable.isListDefined.
  split; intros [H1 H2]; repeat case_match; simpl in *; try done; lia.
Qed.

(** C7.  Every statement, however it ends, keeps each name in at most
    one of the three maps of the symbol table; and an assignment of a
    value to a name bound as a list ends normally with the list binding
    removed and the name bound to the value. *)
Theorem one_slot_per_name fuel stmt v r v' :
  atMostOne (symbolTable_ v) →
  visitStatement tokens fuel stmt v = (r, v') →
  atMostOne (symbolTable_ v')
  ∧ (∀ id p expr q value,
       stmt = AssignmentStatement (IdLocation id p) expr q →
       fuel ≠ 0%nat →
       isListDefined (symbolTable_ v) id = true →
       eval tokens (symbolTable_ v) expr = Ok value →
       r = Ok tt
       ∧ isListDefined (symbolTable_ v') id = false
       ∧ SymbolTable.getVariableValue (symbolTable_ v') id = Ok value).
Proof.
  intros Hinv Hrun. split; [by eapply keeps_visitStatement|].
  intros id p expr q value -> Hfuel Hlist Heval.
  destruct fuel as [|fuel]; [done|]. simpl in Hrun.
  destruct (atMostOne_exclusive _ id Hinv) as [Hex _].
  assert (isVariableDefined (symbolTable_ v) id = false) as Hvar.
  { unfold isVariableDefined, isListDefined in *.
    destruct (SymbolTable.isVariableDefined _ _); [by destruct Hex|done]. }
  run_wrapper. rewrite Heval, Hvar, Hlist in Hrun. simpl in Hrun.
  unfold SymbolTable.clear in Hrun. unfold isListDefined in Hlist.
  rewrite Hlist in Hrun. simpl in Hrun.
  unfold SymbolTable.addVariable in Hrun. unfold isVariableDefined in Hvar.
  change (SymbolTable.isVariableDefined (mkSymbolTable _ _ _) id)
    with (SymbolTable.isVariableDefined (symbolTable_ v) id) in Hrun.
  rewrite Hvar in Hrun.
  apply orb_false_iff in Hvar as [Hi Hb]. unfold SymbolTable.found in Hi, Hb.
  destruct value; simpl in Hrun; simplify_eq; simpl;
    unfold isListDefined, SymbolTable.isListDefined, SymbolTable.found,
      SymbolTable.getVariableValue; simpl;
    rewrite ?lookup_delete_eq, ?lookup_insert_eq; try done.
  destruct (intVariables_ (symbolTable_ v) !! id); done.
Qed.

End WithTokens.

Lemma one_slot_per_name_witness :
  let v := mkVisitor (SymbolTable.addList SymbolTable.empty "L") [] [] [] in
  atMostOne (symbolTable_ v)
  ∧ atMostOne (symbolTable_
      (visitStatement [] 1 (AssignmentStatement (IdLocation "L" 0) (NumberFactor 3 0) 0) v).2).
Proof.
  intros v.
  assert (atMostOne (symbolTable_ v)) as Hinv.
  { apply addList_atMostOne; [reflexivity|apply atMostOne_empty]. }
  split; [exact Hinv|].
  eapply (one_slot_per_name [] 1 _ v); [exact Hinv|]. apply surjective_pairing.
Defined.

(** From the empty table on, a run keeps the invariant. *)
Lemma run_keeps_one_slot tokens fuel program r v' :
  visitProgram tokens fuel program newVisitor = (r, v') →
  atMostOne (symbolTable_ v').
Proof.
  intros Hrun. eapply keeps_visitProgram; [|exact Hrun]. apply atMostOne_empty.
Qed.

Lemma indexed_read_witness :
  let st := mkSymbolTable ∅ ∅ {["L" := [IntElement 7; BoolElement true]]} in
  eval [] st (ListElementLocation "L" (NumberFactor 1 0) 0) = Ok (BoolElement true)
  ∧ eval [] st (ListElementLocation "L" (NumberFactor 2 0) 0)
    = Throw (SemanticError 0 0 "List index out of bounds").
Proof.
  intros st.
  destruct (indexed_read [] st "L" (NumberFactor 1 0) 0 1 [IntElement 7; BoolElement true])
    as [_ Hin]; [reflexivity|reflexivity|].
  destruct (indexed_read [] st "L" (NumberFactor 2 0) 0 2 [IntElement 7; BoolElement true])
    as [Hout _]; [reflexivity|reflexivity|].
  split.
  - destruct Hin as (x & Hx & ->); [simpl; lia|]. by injection Hx as <-.
  - apply Hout. right. simpl. lia.
Defined.

Lemma short_circuit_follows_type_check_witness :
  getDataType [] SymbolTable.empty division_by_zero_test = Ok TYPE_BOOL
  ∧ eval [] SymbolTable.empty division_by_zero_test
    = Throw (ZeroDivisionError 0 0 "Division by zero")
  ∧ eval [] SymbolTable.empty (OrExpr (BoolFactor true 0) division_by_zero_test 0)
    = Ok (BoolElement true)
  ∧ eval [] SymbolTable.empty (AndExpr (BoolFactor false 0) division_by_zero_test 0)
    = Ok (BoolElement false).
Proof.
  split; [reflexivity|]. split; [reflexivity|].
  exact (short_circuit_follows_type_check [] SymbolTable.empty division_by_zero_test 0 0).
Defined.

Lemma list_declaration_witness :
  isAlreadyDefined (symbolTable_ newVisitor) "L" = false
  ∧ visitStatement [] 1 (ListDeclarationStatement "L" 0) newVisitor
    = (Ok tt, mkVisitor (mkSymbolTable ∅ ∅ {["L" := []]}) [] [] []).
Proof.
  split; [reflexivity|].
  apply (list_declaration [] 0 "L" 0 newVisitor). reflexivity.
Defined.

End EvalFacts.

(** ** The parser *)

Module ParserFacts.
Import Parser Shape.

Lemma yields_ret {A} (Q : A → Prop) a : Q a → yields Q (mret a).
Proof. by intros Ha i a' j [= <- <-]. Qed.

Lemma yields_bind {A B} (Q1 : A → Prop) (Q2 : B → Prop) (m : P A) (k : A → P B) :
  yields Q1 m → (∀ a, Q1 a → yields Q2 (k a)) → yields Q2 (m ≫= k).
Proof.
  intros Hm Hk i b j. unfold mbind, P_bind.
  destruct (m i) as [[a i1]| |] eqn:Hmi; [|done..].
  intros Hki. eapply Hk; [|exact Hki]. by eapply Hm.
Qed.

Lemma yields_any {A} (m : P A) : yields (λ _, True) m.
Proof. by intros i a j _. Qed.

Lemma yields_then {A B} (Q : B → Prop) (m : P A) (k : A → P B) :
  (∀ a, yields Q (k a)) → yields Q (m ≫= k).
Proof. intros Hk. eapply yields_bind; [apply yields_any|]. intros a _. apply Hk. Qed.

Lemma yields_throw {A} (Q : A → Prop) e : yields Q (throw e).
Proof. by intros i a j. Qed.

Lemma yields_crash {A} (Q : A → Prop) f : yields Q (crash f).
Proof. by intros i a j. Qed.

Lemma yields_weaken {A} (Q1 Q2 : A → Prop) (m : P A) :
  (∀ a, Q1 a → Q2 a) → yields Q1 m → yields Q2 m.
Proof. intros Hq Hm i a j Hmi. apply Hq. by eapply Hm. Qed.

Lemma tight_flat e : tight e → flat e.
Proof. by intros [? _]. Qed.

Lemma yields_lift_binary {T} (mk : Expression → T → Expression → nat → Expression)
    (build : Expression → Token → Expression → nat → Outcome Expression) l op r p :
  (∀ e, build l op r p = Ok e → ∃ ty, e = mk l ty r p) →
  (∀ ty, tight (mk l ty r p)) →
  yields tight (lift (build l op r p)).
Proof.
  intros Hbuild Htight i e j. unfold lift.
  destruct (build l op r p) as [e'| |] eqn:Hb; [|done..].
  intros [= <- <-]. destruct (Hbuild _ eq_refl) as [ty ->]. apply Htight.
Qed.

Ltac built :=
  let v := fresh "v" in
  intros ?; unfold newEqualExpr, newComparativeRelation, newAritExpr, newMulDivTerm;
  destruct (getIntValue _) as [v| |]; simpl; [|done..];
  repeat case_match; intros [= <-]; by eexists.

Section WithTokens.

Variable tokens : list Token.

Section Expressions.

Variables recExpression recTerm recUnary : P Expression.
Hypothesis flat_recExpression : yields flat recExpression.
Hypothesis tight_recTerm : yields tight recTerm.
Hypothesis tight_recUnary : yields tight recUnary.

Lemma tight_parseLocation : yields tight (parseLocation tokens recExpression).
Proof.
  unfold parseLocation, parseListElementLocation.
  apply yields_then; intros t. destruct (tok_data t); try apply yields_throw.
  apply yields_then; intros _. apply yields_then; intros t'.
  destruct (tokenIs _ _ t').
  - apply yields_then; intros _.
    eapply yields_bind; [exact flat_recExpression|]. intros expr Hexpr.
    apply yields_then; intros _. apply yields_then; intros pos.
    apply yields_ret. by split.
  - apply yields_then; intros pos. by apply yields_ret.
Qed.

Lemma tight_parseFactor : yields tight (parseFactor tokens recExpression).
Proof.
  unfold parseFactor. apply yields_then; intros t.
  repeat case_match; try apply yields_throw; try apply tight_parseLocation.
  - unfold parseExpressionFactor. apply yields_then; intros _.
    eapply yields_bind; [exact flat_recExpression|]. intros expr Hexpr.
    apply yields_then; intros _. apply yields_then; intros pos.
    apply yields_ret. by split.
  - unfold parseNumberFactor. apply yields_then; intros t'.
    destruct (tok_data t'); try apply yields_throw.
    apply yields_then; intros _. apply yields_then; intros pos. by apply yields_ret.
  - unfold parseBoolFactor. apply yields_then; intros t'.
    destruct (tok_data t'); try apply yields_throw.
    apply yields_then; intros _. apply yields_then; intros pos. by apply yields_ret.
Qed.

Lemma tight_parseUnaryBody : yields tight (parseUnaryBody tokens recExpression recUnary).
Proof.
  unfold parseUnaryBody. apply yields_then; intros t.
  repeat case_match; try apply tight_parseFactor.
  - unfold parseNotUnary. apply yields_then; intros _.
    eapply yields_bind; [exact tight_recUnary|]. intros expr [Hexpr _].
    apply yields_then; intros pos. apply yields_ret. by split.
  - unfold parseMinusUnary. apply yields_then; intros _.
    eapply yields_bind; [exact tight_recUnary|]. intros expr [Hexpr _].
    apply yields_then; intros pos. apply yields_ret. by split.
Qed.

Lemma tight_parseTermBody : yields tight (parseTermBody tokens recTerm recUnary).
Proof.
  unfold parseTermBody.
  eapply yields_bind; [exact tight_recUnary|]. intros unary [Hu Hu'].
  apply yields_then; intros t. destruct (isMulDiv t); [|by apply yields_ret].
  unfold parseMulDivTerm. apply yields_then; intros op.
  eapply yields_bind; [exact tight_recTerm|]. intros right [Hr Hr'].
  apply yields_then; intros pos.
  apply (yields_lift_binary MulDivTerm); [built|].
  intros ty. split; [|done]. simpl. by rewrite Hu, Hr.
Qed.

Lemma tight_parseNumExpr : yields tight (parseNumExpr tokens recTerm).
Proof.
  unfold parseNumExpr.
  eapply yields_bind; [exact tight_recTerm|]. intros term [Ht Ht'].
  apply yields_then; intros t. destruct (isAddSub t); [|by apply yields_ret].
  unfold parseAritExpr. apply yields_then; intros op.
  eapply yields_bind; [exact tight_recTerm|]. intros right [Hr Hr'].
  apply yields_then; intros pos.
  apply (yields_lift_binary AritExpr); [built|].
  intros ty. split; [|done]. simpl. by rewrite Ht, Hr.
Qed.

Lemma tight_parseRelation : yields tight (parseRelation tokens recTerm).
Proof.
  unfold parseRelation.
  eapply yields_bind; [exact tight_parseNumExpr|]. intros numExpr [Hn Hn'].
  apply yields_then; intros t. destruct (isComparison t); [|by apply yields_ret].
  unfold parseComparativeRelation. apply yields_then; intros op.
  eapply yields_bind; [exact tight_parseNumExpr|]. intros right [Hr Hr'].
  apply yields_then; intros pos.
  apply (yields_lift_binary ComparativeRelation); [built|].
  intros ty. split; [|done]. simpl. by rewrite Hn, Hr.
Qed.

Lemma tight_parseEquality : yields tight (parseEquality tokens recTerm).
Proof.
  unfold parseEquality.
  eapply yields_bind; [exact tight_parseRelation|]. intros relation [Hn Hn'].
  apply yields_then; intros t. destruct (isEqNeq t); [|by apply yields_ret].
  unfold parseEqualExpr. apply yields_then; intros op.
  eapply yields_bind; [exact tight_parseRelation|]. intros right [Hr Hr'].
  apply yields_then; intros pos.
  apply (yields_lift_binary EqualExpr); [built|].
  intros ty. split; [|done]. simpl. by rewrite Hn, Hr.
Qed.

Lemma flat_parseJoin : yields flat (parseJoin tokens recTerm).
Proof.
  unfold parseJoin.
  eapply yields_bind; [exact tight_parseEquality|]. intros equality [He He'].
  apply yields_then; intros t. destruct (tokenIs _ _ t); [|by apply yields_ret].
  unfold parseAndExpr. apply yields_then; intros _. apply yields_then; intros t'.
  destruct (tokenIs _ _ t'); [apply yields_throw|].
  eapply yields_bind; [exact tight_parseEquality|]. intros right [Hr Hr'].
  apply yields_then; intros pos. apply yields_ret.
  unfold flat. simpl. by rewrite He, Hr, Hr'.
Qed.

Lemma flat_parseExpressionBody :
  yields flat (parseExpressionBody tokens recExpression recTerm).
Proof.
  unfold parseExpressionBody.
  eapply yields_bind; [exact flat_parseJoin|]. intros join Hj.
  apply yields_then; intros t. destruct (tokenIs _ _ t); [|by apply yields_ret].
  unfold parseOrExpr. apply yields_then; intros _.
  eapply yields_bind; [exact flat_recExpression|]. intros right Hr.
  apply yields_then; intros pos. apply yields_ret.
  unfold flat in *. simpl. by rewrite Hj, Hr.
Qed.

End Expressions.

Lemma shape_of_expressions fuel :
  yields flat (parseExpression tokens fuel) ∧ yields tight (parseTerm tokens fuel)
  ∧ yields tight (parseUnary tokens fuel).
Proof.
  induction fuel as [|fuel (IHe & IHt & IHu)]; simpl.
  - split; [|split]; apply yields_crash.
  - split; [|split].
    + by apply flat_parseExpressionBody.
    + by apply tight_parseTermBody.
    + by apply tight_parseUnaryBody.
Qed.

(** Whatever the tokens, no expression that the parser returns has a
    conjunction as the right operand of a conjunction. *)
Lemma no_chained_conjunction fuel i e j :
  parseExpression tokens fuel i = Ok (e, j) → chained e = false.
Proof. apply shape_of_expressions. Qed.

End WithTokens.
End ParserFacts.

(** ** The taxonomy of errors *)

Module TaxonomyFacts.

Lemma quiet_Ok {A} (a : A) : quiet (Ok a).
Proof. by intros e. Qed.

Lemma quiet_Crash {A} f : quiet (Crash f : Outcome A).
Proof. by intros e. Qed.

Lemma quiet_Throw {A} e : unraised (getErrorCode e) = false → quiet (Throw e : Outcome A).
Proof. by intros He e' [= <-]. Qed.

Lemma quiet_bindO {A B} (m : Outcome A) (k : A → Outcome B) :
  quiet m → (∀ a, quiet (k a)) → quiet (bindO m k).
Proof.
  intros Hm Hk. destruct m as [a|e|f]; simpl; [apply Hk| |done].
  intros e' [= <-]. by apply Hm.
Qed.

Lemma quiet_bind {A B} (m : Outcome A) (k : A → Outcome B) :
  quiet m → (∀ a, quiet (k a)) → quiet (m ≫= k).
Proof. apply quiet_bindO. Qed.

Lemma quiet_fmap {A B} (f : A → B) (m : Outcome A) : quiet m → quiet (f <$> m).
Proof. intros Hm. apply quiet_bindO; [done|]. intros a. apply quiet_Ok. Qed.

Ltac quiet_step :=
  first
    [ apply quiet_Ok | apply quiet_Crash
    | apply quiet_Throw; reflexivity
    | assumption
    | apply quiet_bind; [|intros ?]
    | apply quiet_bindO; [|intros ?]
    | apply quiet_fmap
    | case_match ].

(** *** The lexer *)

Import Lexer.

Lemma quiet_newReservedKeywordToken w l c : quiet (newReservedKeywordToken w l c).
Proof. unfold newReservedKeywordToken. repeat quiet_step. Qed.

Lemma quiet_newBoolOpToken w l c : quiet (newBoolOpToken w l c).
Proof. unfold newBoolOpToken. repeat quiet_step. Qed.

Lemma quiet_newNumberToken w l c : quiet (newNumberToken w l c).
Proof. unfold newNumberToken. repeat quiet_step. Qed.

Lemma quiet_dedentLoop n l c stack : ∀ r, quiet (dedentLoop n l c stack r).
Proof. induction stack as [|top below IH]; intros r; simpl; repeat quiet_step. apply IH. Qed.

Lemma quiet_handleIndentation s ch : quiet (handleIndentation s ch).
Proof.
  unfold handleIndentation.
  pose proof (quiet_dedentLoop (n_t s) (line_ (lx s)) (column_ (lx s))
                (indentStack_ (lx s)) (res s)) as Hloop.
  repeat quiet_step; try (intros e [= <-]; by apply Hloop).
Qed.

Lemma quiet_scanToken s ch file : quiet (scanToken s ch file).
Proof.
  unfold scanToken.
  repeat first [ apply quiet_newReservedKeywordToken | apply quiet_newBoolOpToken
               | apply quiet_newNumberToken | quiet_step ].
Qed.

Lemma quiet_lexStep s ch file : quiet (lexStep s ch file).
Proof.
  unfold lexStep.
  pose proof (quiet_handleIndentation s ch) as Hind.
  destruct (handleIndentation s ch) as [[mid|mid]| |].
  - apply quiet_Ok.
  - apply quiet_scanToken.
  - intros e' [= <-]. by apply Hind.
  - apply quiet_Crash.
Qed.

Lemma quiet_lexLoop fuel : ∀ s file, quiet (lexLoop fuel s file).
Proof.
  induction fuel as [|fuel IH]; intros s file; simpl; [done|].
  destruct (getChar (lx s) file) as [[[ch l] rest]|]; [|done].
  pose proof (quiet_lexStep (setLexer s l) ch rest) as Hstep.
  destruct (lexStep _ ch rest) as [[s1 rest1]| |]; [apply IH| |done].
  intros e' [= <-]. by apply Hstep.
Qed.

Lemma quiet_tokenizeInputFile src : quiet (tokenizeInputFile src).
Proof.
  unfold tokenizeInputFile. apply quiet_bindO; [apply quiet_lexLoop|].
  intros s. unfold finish. repeat quiet_step.
Qed.


(** *** The parser *)

Import Parser.

Lemma quietP_ret {A} (a : A) : quietP (mret a).
Proof. intros i. apply quiet_Ok. Qed.

Lemma quietP_bind {A B} (m : P A) (k : A → P B) :
  quietP m → (∀ a, quietP (k a)) → quietP (m ≫= k).
Proof.
  intros Hm Hk i. unfold mbind, P_bind.
  pose proof (Hm i) as Hmi.
  destruct (m i) as [[a j]|e|f]; [apply Hk| |apply quiet_Crash].
  intros e' [= <-]. by apply Hmi.
Qed.

Lemma quietP_fmap {A B} (f : A → B) (m : P A) : quietP m → quietP (f <$> m).
Proof.
  intros Hm i. unfold fmap, P_fmap.
  pose proof (Hm i) as Hmi.
  destruct (m i) as [[a j]|e|f0]; [apply quiet_Ok| |apply quiet_Crash].
  intros e' [= <-]. by apply Hmi.
Qed.

Lemma quietP_throw {A} e : unraised (getErrorCode e) = false → quietP (throw e : P A).
Proof. intros He i. by apply quiet_Throw. Qed.

Lemma quietP_crash {A} f : quietP (crash f : P A).
Proof. intros i. apply quiet_Crash. Qed.

Lemma quietP_lift {A} (m : Outcome A) : quiet m → quietP (lift m).
Proof.
  intros Hm i. unfold lift. destruct m; [apply quiet_Ok| |apply quiet_Crash].
  intros e' [= <-]. by apply Hm.
Qed.

Lemma quietP_index : quietP index.
Proof. intros i. apply quiet_Ok. Qed.
Lemma quietP_next : quietP next.
Proof. intros i. apply quiet_Ok. Qed.
Lemma quietP_position : quietP position.
Proof. intros i. apply quiet_Ok. Qed.

Lemma quiet_getIntValue t : quiet (getIntValue t).
Proof. unfold getIntValue. repeat quiet_step. Qed.

Lemma quiet_newEqualExpr l op r p : quiet (newEqualExpr l op r p).
Proof. unfold newEqualExpr. repeat (quiet_step || apply quiet_getIntValue). Qed.
Lemma quiet_newComparativeRelation l op r p : quiet (newComparativeRelation l op r p).
Proof. unfold newComparativeRelation. repeat (quiet_step || apply quiet_getIntValue). Qed.
Lemma quiet_newAritExpr l op r p : quiet (newAritExpr l op r p).
Proof. unfold newAritExpr. repeat (quiet_step || apply quiet_getIntValue). Qed.
Lemma quiet_newMulDivTerm l op r p : quiet (newMulDivTerm l op r p).
Proof. unfold newMulDivTerm. repeat (quiet_step || apply quiet_getIntValue). Qed.

Section WithTokens.

Variable tokens : list Token.

Lemma quietP_tokenAt k : quietP (tokenAt tokens k).
Proof. intros i. unfold tokenAt. repeat quiet_step. Qed.

Lemma quietP_syntaxErrorAt {A} t m : quietP (syntaxErrorAt t m : P A).
Proof. by apply quietP_throw. Qed.

Ltac quietP_step :=
  first
    [ apply quietP_ret | apply quietP_crash | apply quietP_index | apply quietP_next
    | apply quietP_position | apply quietP_tokenAt | apply quietP_syntaxErrorAt
    | apply quietP_throw; reflexivity
    | apply quietP_lift;
      first [ apply quiet_newEqualExpr | apply quiet_newComparativeRelation
            | apply quiet_newAritExpr | apply quiet_newMulDivTerm ]
    | assumption
    | apply quietP_bind; [|intros ?]
    | apply quietP_fmap
    | case_match ].

Lemma quietP_expect ok m : quietP (expect tokens ok m).
Proof. unfold expect. repeat quietP_step. Qed.

Section Expressions.

Variables recExpression recTerm recUnary : P Expression.
Hypothesis quiet_recExpression : quietP recExpression.
Hypothesis quiet_recTerm : quietP recTerm.
Hypothesis quiet_recUnary : quietP recUnary.

Ltac expr_step := first [ apply quietP_expect | quietP_step ].

Lemma quietP_parseLocation : quietP (parseLocation tokens recExpression).
Proof. unfold parseLocation, parseListElementLocation. repeat expr_step. Qed.

Lemma quietP_parseFactor : quietP (parseFactor tokens recExpression).
Proof.
  unfold parseFactor, parseExpressionFactor, parseNumberFactor, parseBoolFactor.
  repeat (apply quietP_parseLocation || expr_step).
Qed.

Lemma quietP_parseUnaryBody : quietP (parseUnaryBody tokens recExpression recUnary).
Proof.
  unfold parseUnaryBody, parseNotUnary, parseMinusUnary.
  repeat (apply quietP_parseFactor || expr_step).
Qed.

Lemma quietP_parseTermBody : quietP (parseTermBody tokens recTerm recUnary).
Proof. unfold parseTermBody, parseMulDivTerm. repeat expr_step. Qed.

Lemma quietP_parseNumExpr : quietP (parseNumExpr tokens recTerm).
Proof. unfold parseNumExpr, parseAritExpr. repeat expr_step. Qed.

Lemma quietP_parseRelation : quietP (parseRelation tokens recTerm).
Proof.
  unfold parseRelation, parseComparativeRelation.
  repeat (apply quietP_parseNumExpr || expr_step).
Qed.

Lemma quietP_parseEquality : quietP (parseEquality tokens recTerm).
Proof.
  unfold parseEquality, parseEqualExpr.
  repeat (apply quietP_parseRelation || expr_step).
Qed.

Lemma quietP_parseJoin : quietP (parseJoin tokens recTerm).
Proof.
  unfold parseJoin, parseAndExpr.
  repeat (apply quietP_parseEquality || expr_step).
Qed.

Lemma quietP_parseExpressionBody :
  quietP (parseExpressionBody tokens recExpression recTerm).
Proof.
  unfold parseExpressionBody, parseOrExpr.
  repeat (apply quietP_parseJoin || expr_step).
Qed.

End Expressions.

Lemma quietP_expressions fuel :
  quietP (parseExpression tokens fuel) ∧ quietP (parseTerm tokens fuel)
  ∧ quietP (parseUnary tokens fuel).
Proof.
  induction fuel as [|fuel (IHe & IHt & IHu)]; simpl.
  - repeat split; apply quietP_crash.
  - repeat split.
    + by apply quietP_parseExpressionBody.
    + by apply quietP_parseTermBody.
    + by apply quietP_parseUnaryBody.
Qed.

Lemma quietP_parseExpression fuel : quietP (parseExpression tokens fuel).
Proof. apply quietP_expressions. Qed.

Section Statements.

Variable fuel : nat.
Variable recStatement : P (option Statement).
Hypothesis quiet_recStatement : quietP recStatement.

Ltac stmt_step :=
  first [ apply quietP_expect | apply quietP_parseExpression
        | apply quietP_parseLocation; apply quietP_parseExpression
        | quietP_step ].

Lemma quietP_blockLoop n : ∀ statements,
  quietP (blockLoop tokens recStatement n statements).
Proof.
  induction n as [|n IH]; intros statements; simpl; repeat (apply IH || stmt_step).
Qed.

Lemma quietP_parseBlock : quietP (parseBlock tokens fuel recStatement).
Proof. unfold parseBlock. repeat (apply quietP_blockLoop || stmt_step). Qed.

Lemma quietP_parseElifBlock : quietP (parseElifBlock tokens fuel recStatement).
Proof. unfold parseElifBlock. repeat (apply quietP_parseBlock || stmt_step). Qed.

Lemma quietP_parseElseBlock : quietP (parseElseBlock tokens fuel recStatement).
Proof. unfold parseElseBlock. repeat (apply quietP_parseBlock || stmt_step). Qed.

Lemma quietP_elifLoop n : ∀ blocks,
  quietP (elifLoop tokens fuel recStatement n blocks).
Proof.
  induction n as [|n IH]; intros blocks; simpl;
    repeat (apply IH || apply quietP_parseElifBlock || stmt_step).
Qed.

Lemma quietP_parseCompoundStatement :
  quietP (parseCompoundStatement tokens fuel recStatement).
Proof.
  unfold parseCompoundStatement.
  repeat (apply quietP_elifLoop || apply quietP_parseBlock
          || apply quietP_parseElseBlock || stmt_step).
Qed.

Lemma quietP_parseStatementBody : quietP (parseStatementBody tokens fuel recStatement).
Proof.
  unfold parseStatementBody, parsePrintStatement, parseBreakStatement,
    parseContinueStatement, parseListAppendStatement,
    parseListDeclarationStatement, parseAssignmentStatement.
  repeat (apply quietP_parseCompoundStatement || stmt_step).
Qed.

End Statements.

Lemma quietP_parseStatement fuel : quietP (parseStatement tokens fuel).
Proof.
  induction fuel as [|fuel IH]; simpl; [apply quietP_crash|].
  by apply quietP_parseStatementBody.
Qed.

Lemma quietP_programLoop fuel n : ∀ statements,
  quietP (programLoop tokens fuel n statements).
Proof.
  induction n as [|n IH]; intros statements; simpl;
    repeat (apply IH || apply quietP_parseStatement || quietP_step).
Qed.

End WithTokens.

Lemma quiet_parseProgram tokens : quiet (parseProgram tokens).
Proof.
  unfold parseProgram, parseProgramWith.
  pose proof (quietP_programLoop tokens (fuelFor tokens) (fuelFor tokens) [] 0%nat) as H.
  destruct (programLoop _ _ _ _ _) as [[statements i]|e|f];
    [apply quiet_Ok| |apply quiet_Crash].
  intros e' [= <-]. by apply H.
Qed.


(** *** The visitor *)

Import Visitor.

Lemma quiet_table_getVariableValue st id : quiet (SymbolTable.getVariableValue st id).
Proof. unfold SymbolTable.getVariableValue. repeat quiet_step. Qed.
Lemma quiet_table_getListElement st id i : quiet (SymbolTable.getListElement st id i).
Proof. unfold SymbolTable.getListElement, SymbolTable.listNotDefined. repeat quiet_step. Qed.
Lemma quiet_table_getListSize st id : quiet (SymbolTable.getListSize st id).
Proof. unfold SymbolTable.getListSize, SymbolTable.listNotDefined. repeat quiet_step. Qed.
Lemma quiet_table_addVariable st id x : quiet (SymbolTable.addVariable st id x).
Proof. unfold SymbolTable.addVariable. repeat quiet_step. Qed.
Lemma quiet_table_updateVariable st id x : quiet (SymbolTable.updateVariable st id x).
Proof. unfold SymbolTable.updateVariable. repeat quiet_step. Qed.
Lemma quiet_table_appendToList st id x : quiet (SymbolTable.appendToList st id x).
Proof. unfold SymbolTable.appendToList, SymbolTable.listNotDefined. repeat quiet_step. Qed.
Lemma quiet_table_updateListElement st id i x :
  quiet (SymbolTable.updateListElement st id i x).
Proof. unfold SymbolTable.updateListElement, SymbolTable.listNotDefined. repeat quiet_step. Qed.
Lemma quiet_table_clear st id : quiet (SymbolTable.clear st id).
Proof. unfold SymbolTable.clear, SymbolTable.listNotDefined. repeat quiet_step. Qed.

Lemma quiet_element_getIntValue x : quiet (EvaluatedElement.getIntValue x).
Proof. unfold EvaluatedElement.getIntValue. repeat quiet_step. Qed.
Lemma quiet_element_getBoolValue x : quiet (EvaluatedElement.getBoolValue x).
Proof. unfold EvaluatedElement.getBoolValue. repeat quiet_step. Qed.

Section WithTokens.

Variable tokens : list Token.

Lemma quiet_getVariableValue st id p : quiet (getVariableValue tokens st id p).
Proof. unfold getVariableValue. repeat (apply quiet_table_getVariableValue || quiet_step). Qed.
Lemma quiet_getListElement st id i p : quiet (getListElement tokens st id i p).
Proof. unfold getListElement. repeat (apply quiet_table_getListElement || quiet_step). Qed.
Lemma quiet_getListSize st id p : quiet (getListSize tokens st id p).
Proof. unfold getListSize. repeat (apply quiet_table_getListSize || quiet_step). Qed.

Lemma quiet_eitherIsNot T a b : quiet a → quiet b → quiet (eitherIsNot T a b).
Proof. intros Ha Hb. unfold eitherIsNot. repeat quiet_step. Qed.

Ltac eval_step :=
  first
    [ apply quiet_eitherIsNot
    | apply quiet_element_getIntValue | apply quiet_element_getBoolValue
    | apply quiet_getVariableValue | apply quiet_getListElement
    | apply quiet_getListSize | apply quiet_table_getListElement
    | quiet_step ].

Lemma quiet_eval_getDataType st expr :
  quiet (eval tokens st expr) ∧ quiet (getDataType tokens st expr).
Proof.
  induction expr; simpl;
    repeat match goal with H : _ ∧ _ |- _ => destruct H end;
    split; repeat eval_step.
Qed.

Lemma quiet_eval st expr : quiet (eval tokens st expr).
Proof. apply quiet_eval_getDataType. Qed.

Lemma quietV_ret {A} (a : A) : quietV (mret a).
Proof. intros v. apply quiet_Ok. Qed.

Lemma quietV_bind {A B} (m : V A) (k : A → V B) :
  quietV m → (∀ a, quietV (k a)) → quietV (m ≫= k).
Proof.
  intros Hm Hk v. unfold mbind, V_bind.
  pose proof (Hm v) as Hmv.
  destruct (m v) as [[a|e|f] v1]; simpl in *; [apply Hk| |apply quiet_Crash].
  intros e' [= <-]. by apply Hmv.
Qed.

Lemma quietV_throw {A} e : unraised (getErrorCode e) = false → quietV (throw e : V A).
Proof. intros He v. by apply quiet_Throw. Qed.
Lemma quietV_crash {A} f : quietV (crash f : V A).
Proof. intros v. apply quiet_Crash. Qed.
Lemma quietV_lift {A} (m : Outcome A) : quiet m → quietV (lift m).
Proof. by intros Hm v. Qed.
Lemma quietV_get : quietV get.
Proof. intros v. apply quiet_Ok. Qed.
Lemma quietV_setSymbolTable st : quietV (setSymbolTable st).
Proof. intros v. apply quiet_Ok. Qed.
Lemma quietV_setConditionMetStack s : quietV (setConditionMetStack s).
Proof. intros v. apply quiet_Ok. Qed.
Lemma quietV_setLoopStack s : quietV (setLoopStack s).
Proof. intros v. apply quiet_Ok. Qed.
Lemma quietV_print line : quietV (print line).
Proof. intros v. apply quiet_Ok. Qed.
Lemma quietV_evalNow e : quietV (evalNow tokens e).
Proof. intros v. apply quiet_eval. Qed.

Lemma quiet_setBack b s : quiet (setBack b s).
Proof. unfold setBack. repeat quiet_step. Qed.
Lemma quiet_popBack s : quiet (popBack s).
Proof. unfold popBack. repeat quiet_step. Qed.

Ltac quietV_step :=
  first
    [ apply quietV_ret | apply quietV_crash | apply quietV_get
    | apply quietV_setSymbolTable | apply quietV_setConditionMetStack
    | apply quietV_setLoopStack | apply quietV_print | apply quietV_evalNow
    | apply quietV_throw; reflexivity
    | apply quietV_lift;
      first [ apply quiet_table_addVariable | apply quiet_table_updateVariable
            | apply quiet_table_appendToList | apply quiet_table_updateListElement
            | apply quiet_table_clear | apply quiet_setBack | apply quiet_popBack
            | apply quiet_element_getBoolValue ]
    | assumption
    | apply quietV_bind; [|intros ?]
    | case_match ].

Lemma quietV_forEach {A} (f : A → V unit) xs :
  (∀ x, quietV (f x)) → quietV (forEach f xs).
Proof.
  intros Hf. induction xs as [|x xs IH]; simpl; [apply quietV_ret|].
  apply quietV_bind; [apply Hf|]. by intros _.
Qed.

Lemma quietV_setConditionMet b : quietV (setConditionMet b).
Proof. unfold setConditionMet. repeat quietV_step. Qed.
Lemma quietV_setLoopActive b : quietV (setLoopActive b).
Proof. unfold setLoopActive. repeat quietV_step. Qed.

Lemma quietV_visitAssignmentStatement loc expr :
  quietV (visitAssignmentStatement tokens loc expr).
Proof.
  unfold visitAssignmentStatement, updateVariable, addVariable, clearList,
    updateListElement.
  repeat quietV_step.
Qed.

Lemma quietV_visitListDeclarationStatement id p :
  quietV (visitListDeclarationStatement tokens id p).
Proof. unfold visitListDeclarationStatement, addList. repeat quietV_step. Qed.

Lemma quietV_visitListAppendStatement id expr p :
  quietV (visitListAppendStatement tokens id expr p).
Proof. unfold visitListAppendStatement, appendToList. repeat quietV_step. Qed.

Section Statements.

Variable fuel : nat.
Variable recStatement : Statement → V unit.
Hypothesis quiet_rec : ∀ stmt, quietV (recStatement stmt).

Ltac block_step :=
  first [ apply quiet_rec | apply quietV_setConditionMet | apply quietV_setLoopActive
        | apply quietV_forEach; intros ? | quietV_step ].

Lemma quietV_visitSimpleBlock b : quietV (visitSimpleBlock recStatement b).
Proof. unfold visitSimpleBlock. repeat block_step. Qed.

Lemma quietV_visitElseBlock b : quietV (visitElseBlock tokens recStatement b).
Proof. unfold visitElseBlock. repeat (apply quietV_visitSimpleBlock || block_step). Qed.

Lemma quietV_visitElifBlock b : quietV (visitElifBlock tokens recStatement b).
Proof. unfold visitElifBlock. repeat (apply quietV_visitSimpleBlock || block_step). Qed.

Lemma quietV_visitIfStatement condition blocks :
  quietV (visitIfStatement tokens recStatement condition blocks).
Proof.
  unfold visitIfStatement.
  repeat (apply quietV_visitSimpleBlock || apply quietV_visitElseBlock
          || apply quietV_visitElifBlock || block_step).
Qed.

Lemma quietV_whileBody stmts : quietV (whileBody recStatement stmts).
Proof. induction stmts as [|stmt rest IH]; simpl; repeat block_step. Qed.

Lemma quietV_whileLoop n condition blocks p :
  quietV (whileLoop tokens recStatement n condition blocks p).
Proof.
  induction n as [|n IH]; simpl; repeat (apply quietV_whileBody || block_step).
Qed.

Lemma quietV_visitStatementBody stmt :
  quietV (visitStatementBody tokens fuel recStatement stmt).
Proof.
  unfold visitStatementBody, visitWhileStatement, visitBreakStatement,
    visitContinueStatement, visitPrintStatement.
  repeat first [ apply quietV_visitAssignmentStatement
               | apply quietV_visitListDeclarationStatement
               | apply quietV_visitListAppendStatement
               | apply quietV_visitIfStatement | apply quietV_whileLoop
               | block_step ].
Qed.

End Statements.

Lemma quietV_visitStatement fuel : ∀ stmt, quietV (visitStatement tokens fuel stmt).
Proof.
  induction fuel as [|fuel IH]; intros stmt; simpl; [apply quietV_crash|].
  apply quietV_visitStatementBody. intros s. apply IH.
Qed.

Lemma quietV_visitProgram fuel program : quietV (visitProgram tokens fuel program).
Proof. apply quietV_forEach, quietV_visitStatement. Qed.

End WithTokens.

Lemma quiet_main fuel argv e :
  diagnostic (main fuel argv) = Some e → unraised (getErrorCode e) = false.
Proof.
  unfold main. destruct argv as [|path|source]; [by intros [= <-]..|].
  unfold tokenize.
  pose proof (quiet_tokenizeInputFile (list_ascii_of_string source)) as Hlex.
  destruct (tokenizeInputFile _) as [tokens|e1|f1]; simpl; [|intros [= <-]; by apply Hlex|done].
  pose proof (quiet_parseProgram tokens) as Hparse.
  destruct (parseProgram tokens) as [program|e2|f2]; simpl;
    [|intros [= <-]; by apply Hparse|done].
  pose proof (quietV_visitProgram tokens fuel program newVisitor) as Hvisit.
  destruct (visitProgram tokens fuel program newVisitor) as [[[]|e3|f3] v]; simpl in *;
    [done|intros [= <-]; by apply Hvisit|done].
Qed.

(** C10.  No run of the interpreter, whatever its command line, its
    source and the fuel of its loops, reports an error of the classes
    INDEX_ERROR, EVALUATION_ERROR or RESERVED_KEYWORD_ERROR. *)
Theorem declared_but_never_raised fuel argv e :
  diagnostic (main fuel argv) = Some e →
  getErrorCode e ≠ INDEX_ERROR
  ∧ getErrorCode e ≠ EVALUATION_ERROR
  ∧ getErrorCode e ≠ RESERVED_KEYWORD_ERROR.
Proof.
  intros Hquiet%quiet_main. by destruct (getErrorCode e).
Qed.

Lemma declared_but_never_raised_witness :
  diagnostic (main 10 (Readable "print(1 // 0)"))
  = Some (ZeroDivisionError 1 12 "Division by zero")
  ∧ ZERO_DIVISION ≠ INDEX_ERROR.
Proof.
  split; [vm_compute; reflexivity|].
  apply (declared_but_never_raised 10 (Readable "print(1 // 0)")
           (ZeroDivisionError 1 12 "Division by zero")).
  vm_compute. reflexivity.
Defined.

End TaxonomyFacts.

(** ** The scenarios *)

Module Scenarios.

(** C1, as stated, fails on the program of scenario 6.  The [break]
    stands in the block of an [if]; [visitBreakStatement] clears the
    flag of the loop and returns, the statements that follow in the body
    of the loop run, and only the next test of the loop ends it: the
    run prints 0, 1, 2 and 3. *)
Theorem nested_break_runs_rest_of_iteration n :
  main (10 + n) (Readable scenario6)
  = mkRun ["0"; "1"; "2"; "3"] None EXIT_SUCCESS.
Proof. vm_compute. reflexivity. Qed.

(** A [break] that is itself a statement of the body of the loop ends
    the iteration at once. *)
Lemma direct_break_ends_iteration n :
  main (10 + n)
       (Readable (unlines ["i = 0"; "while i < 10:"; "    print(i)";
                           "    break"; "    print(7)"]))
  = mkRun ["0"] None EXIT_SUCCESS.
Proof. vm_compute. reflexivity. Qed.

(** C3, as stated, fails on [x = a and b and c].  [parseAndExpr] parses
    an equality to the right of [and] and returns; the second [and] is
    left for [parseAssignmentStatement], which expects the end of the
    line. *)
Theorem chained_and_is_rejected fuel :
  main fuel (Readable (unlines ["x = a and b and c"]))
  = failed [] (SyntaxError 1 15 "Expected newline at the end of assignment statement").
Proof. vm_compute. reflexivity. Qed.

(** The sibling [parseOrExpr] parses an expression to the right of [or],
    and a chain of [or] groups to the right. *)
Lemma chained_or_groups_right :
  bindO (Lexer.tokenize (unlines ["x = a or b or c"])) Parser.parseProgram
  = Ok (mkProgram
          [AssignmentStatement (IdLocation "x" 0)
             (OrExpr (IdLocation "a" 2)
                     (OrExpr (IdLocation "b" 4) (IdLocation "c" 6) 6) 6) 7]).
Proof. vm_compute. reflexivity. Qed.

(** C2, as stated, fails: with [x] undefined, [True or x] and
    [False and x] end in a semantic error. *)
Lemma undefined_right_operand_is_checked :
  main 10 (Readable (unlines ["print(True or x)"]))
  = failed [] (SemanticError 1 15 "Variable 'x' is not defined")
  ∧ main 10 (Readable (unlines ["print(False and x)"]))
    = failed [] (SemanticError 1 17 "Variable 'x' is not defined").
Proof. split; vm_compute; reflexivity. Qed.

(** C5, as stated, fails.  A read outside the bounds of its list that
    is printed by itself ends in the semantic error of the claim, at the
    place of the read; the same read as an operand of [+] ends in an
    internal error at the place (0, 0): the type check of the operands
    ([getDataType]) reads the element through the symbol table, without
    the test of the bounds that [eval] makes first. *)
Lemma out_of_range_operand_ends_in_internal_error :
  main 10 (Readable (unlines ["L = list()"; "L.append(1)"; "print(L[5])"]))
  = failed [] (SemanticError 3 10 "List index out of bounds")
  ∧ main 10 (Readable (unlines ["L = list()"; "L.append(1)"; "print(L[5] + 1)"]))
    = failed [] (InternalError 0 0 "List index out of range").
Proof. split; vm_compute; reflexivity. Qed.

(** The division of [INT_MIN] by -1 ends the process: the quotient is
    no [int]. *)
Example division_of_INT_MIN_traps :
  main 10 (Readable (unlines ["print((-2147483647 - 1) // -1)"]))
  = mkRun [] None (Aborted ArithmeticTrap).
Proof. vm_compute. reflexivity. Qed.

(** The other scenarios of the specification run as it says. *)
Example scenario1 :
  main 10 (Readable (unlines ["x = 2"; "y = 3"; "print(x + y * 4)"]))
  = mkRun ["14"] None EXIT_SUCCESS.
Proof. vm_compute. reflexivity. Qed.

Example scenario2 :
  main 10 (Readable (unlines ["i = 0"; "s = 0"; "while i < 5:"; "    s = s + i";
                              "    i = i + 1"; "print(s)"]))
  = mkRun ["10"] None EXIT_SUCCESS.
Proof. vm_compute. reflexivity. Qed.

Example scenario3 :
  main 10 (Readable (unlines ["n = 10"; "if n < 5:"; "    print(1)"; "elif n < 15:";
                              "    print(2)"; "else:"; "    print(3)"]))
  = mkRun ["2"] None EXIT_SUCCESS.
Proof. vm_compute. reflexivity. Qed.

Example scenario4 :
  main 10 (Readable (unlines ["L = list()"; "L.append(1)"; "L.append(2)";
                              "L.append(3)"; "L[1] = 20"; "print(L[0])";
                              "print(L[1])"; "print(L[2])"]))
  = mkRun ["1"; "20"; "3"] None EXIT_SUCCESS.
Proof. vm_compute. reflexivity. Qed.

Example scenario5 :
  main 10 (Readable "print(1 // 0)")
  = failed [] (ZeroDivisionError 1 12 "Division by zero").
Proof. vm_compute. reflexivity. Qed.

End Scenarios.

(** ** The types of the expressions *)

Module TypeFacts.
Import Visitor Typing.
Local Open Scope Z_scope.

Section WithTokens.
Variable tokens : list Token.
Variable st : SymbolTable.

Lemma classified_value e T :
  T ≠ TYPE_UNDEFINED → classified tokens st e T →
  (∃ v, eval tokens st e = Ok v ∧ EvaluatedElement.getType v = T)
  ∨ raises (eval tokens st e) ZERO_DIVISION
  ∨ eval tokens st e = Crash ArithmeticTrap.
Proof. by destruct T. Qed.

Lemma typed_bool e :
  classified tokens st e TYPE_BOOL →
  (∃ b, eval tokens st e = Ok (BoolElement b))
  ∨ raises (eval tokens st e) ZERO_DIVISION
  ∨ eval tokens st e = Crash ArithmeticTrap.
Proof.
  intros [(v & Hv & Ht)|Hz]; [left|by right].
  destruct v; [done|]. by eexists.
Qed.

Lemma typed_int e :
  classified tokens st e TYPE_INT →
  (∃ z, eval tokens st e = Ok (IntElement z))
  ∨ raises (eval tokens st e) ZERO_DIVISION
  ∨ eval tokens st e = Crash ArithmeticTrap.
Proof.
  intros [(v & Hv & Ht)|Hz]; [left|by right].
  destruct v; [|done]. by eexists.
Qed.

Lemma classified_of_value e v :
  eval tokens st e = Ok v → classified tokens st e (EvaluatedElement.getType v).
Proof. intros Hv. destruct v; left; by eexists. Qed.

Ltac types H :=
  repeat match type of H with
  | context [getDataType tokens st ?e] =>
      let T := fresh "T" in let E := fresh "E" in
      destruct (getDataType tokens st e) as [T| |] eqn:E; simpl in H; try discriminate
  end;
  repeat match goal with
  | IH : ∀ T, Ok ?t = Ok T → _ |- _ => specialize (IH _ eq_refl)
  end.

Ltac operands :=
  repeat match goal with
  | IH : classified tokens st ?e TYPE_BOOL |- _ =>
      apply typed_bool in IH as [[? IH]|[(? & IH & ?)|IH]]
  | IH : classified tokens st ?e TYPE_INT |- _ =>
      apply typed_int in IH as [[? IH]|[(? & IH & ?)|IH]]
  end.

Ltac settle :=
  unfold classified, raises, eitherIsNot; simpl;
  repeat match goal with E : _ = _ |- _ => rewrite E; simpl end;
  first [ by eexists
        | by left; eexists
        | by right; left; eexists
        | by right; right ].

Ltac crush :=
  try settle;
  repeat match goal with
  | b : bool |- _ => destruct b; try settle
  | op : EqualExprType |- _ => destruct op; try settle
  | op : ComparativeRelationType |- _ => destruct op; try settle
  | op : AritExprType |- _ => destruct op; try settle
  | op : MulDivTermType |- _ => destruct op; try settle
  end.

(** X1.  The type that [getDataType] finds for an expression is the
    type of what [eval] makes of it: when the type is boolean or
    integer, [eval] returns a value of that type, or raises a division
    by zero, or is killed on the division of [INT_MIN] by -1, and
    nothing else; when it is undefined, [eval] raises a type error. *)
Theorem data_type_classifies_evaluation e : ∀ T,
  getDataType tokens st e = Ok T → classified tokens st e T.
Proof.
  induction e; intros T H; simpl in H.
  1-6: types H; destruct T0, T1; simpl in H; injection H as <-; operands; crush.
  - unfold classified. simpl. rewrite E0, E, IHe1, IHe2. simpl.
    destruct (x =? 0); [right; left; by eexists|].
    destruct ((x0 =? INT_MIN) && (x =? -1)); [by right; right|left; by eexists].
  - types H; destruct T0; simpl in H; injection H as <-; operands; crush.
  - types H; destruct T0; simpl in H; injection H as <-; operands; crush.
  - simpl. destruct T; apply IHe in H; exact H.
  - injection H as <-. left. by eexists.
  - injection H as <-. left. by eexists.
  - destruct (negb (isVariableDefined st id_)) eqn:Hdef; [done|].
    destruct (getVariableValue tokens st id_ position_) as [v| |] eqn:Hv; [|done..].
    injection H as <-.
    apply classified_of_value. simpl. by rewrite Hdef.
  - destruct (negb (isListDefined st id_)) eqn:Hdef; [done|].
    destruct (eval tokens st e) as [[i|b]| |] eqn:Hi; try done. simpl in H.
    destruct (SymbolTable.getListElement st id_ i) as [x| |] eqn:Hx; [|done..].
    injection H as <-.
    apply classified_of_value. simpl. rewrite Hdef, Hi. simpl.
    unfold getListSize, getListElement. rewrite Hdef.
    unfold SymbolTable.getListElement, SymbolTable.getListSize in *.
    destruct (lists_ st !! id_) as [l|]; [|done]. simpl.
    destruct (i <? 0); [done|]. simpl in *.
    destruct (i >=? Z.of_nat (List.length l)); [done|]. done.
Qed.

Ltac both e1 e2 :=
  let E1 := fresh "E" in let E2 := fresh "E" in
  destruct (getDataType tokens st e1) as [[]| |] eqn:E1;
  destruct (getDataType tokens st e2) as [[]| |] eqn:E2;
  simpl in *; try discriminate.

Ltac value_of H :=
  unfold mbind, Outcome_bind, bindO, EvaluatedElement.getBoolValue,
    EvaluatedElement.getIntValue in H;
  revert H; repeat (case_match; simpl; try discriminate); intros H; by simplify_eq.

(** X2.  An expression that [eval] gives a value to is one whose type
    [getDataType] finds, and the type found is the type of the value. *)
Theorem value_carries_data_type e : ∀ v,
  eval tokens st e = Ok v → getDataType tokens st e = Ok (EvaluatedElement.getType v).
Proof.
  induction e; intros v H; simpl in H |- *.
  1-6: unfold eitherIsNot in H; both e1 e2; value_of H.
  1-2: destruct (getDataType tokens st e) as [[]| |] eqn:E; simpl in *;
       try discriminate; value_of H.
  - by apply IHe.
  - by injection H as <-.
  - by injection H as <-.
  - destruct (negb (isVariableDefined st id_)); [done|]. by rewrite H.
  - destruct (negb (isListDefined st id_)) eqn:Hdef; [done|].
    destruct (eval tokens st e) as [[i|b]| |] eqn:Hi; try done. simpl in *.
    unfold getListSize, getListElement in H. rewrite Hdef in H.
    unfold SymbolTable.getListSize in H.
    destruct (i <? 0) eqn:Hneg; [done|].
    destruct (lists_ st !! id_) as [l|] eqn:Hl; [|done]. simpl in H.
    destruct (i >=? Z.of_nat (List.length l)) eqn:Hge; [done|].
    by rewrite H.
Qed.

End WithTokens.

Lemma data_type_classifies_evaluation_witness :
  let e :=
    MulDivTerm
      (AritExpr (MinusUnary (NumberFactor 2147483647 0) 0) SUB_EXPR (NumberFactor 1 0) 0)
      DIV_TERM (MinusUnary (NumberFactor 1 0) 0) 0 in
  getDataType [] SymbolTable.empty e = Ok TYPE_INT
  ∧ eval [] SymbolTable.empty e = Crash ArithmeticTrap
  ∧ classified [] SymbolTable.empty e TYPE_INT.
Proof.
  intros e. split; [reflexivity|]. split; [reflexivity|].
  apply (data_type_classifies_evaluation [] SymbolTable.empty e TYPE_INT).
  reflexivity.
Defined.

Lemma value_carries_data_type_witness :
  let e := AritExpr (NumberFactor 2 0) ADD_EXPR (NumberFactor 3 0) 0 in
  eval [] SymbolTable.empty e = Ok (IntElement 5)
  ∧ getDataType [] SymbolTable.empty e = Ok TYPE_INT.
Proof.
  intros e. split; [reflexivity|].
  apply (value_carries_data_type [] SymbolTable.empty e (IntElement 5)). reflexivity.
Defined.

End TypeFacts.

(** ** The stored values *)

Module StoreFacts.
Import Visitor Slots Stored.
Local Open Scope Z_scope.

Ltac run :=
  unfold visitAssignmentStatement, visitListAppendStatement,
    updateVariable, addVariable, addList, appendToList, updateListElement,
    clearList, mbind, V_bind, get, lift, setSymbolTable, throw, evalNow in *;
  simpl in *.

Section WithTokens.
Variable tokens : list Token.

Lemma found_Some {A} (m : gmap string A) id x :
  m !! id = Some x → SymbolTable.found m id = true.
Proof. unfold SymbolTable.found. by intros ->. Qed.

Lemma found_None {A} (m : gmap string A) id :
  SymbolTable.found m id = false ↔ m !! id = None.
Proof. unfold SymbolTable.found. destruct (m !! id); split; done. Qed.

Lemma found_true {A} (m : gmap string A) id :
  SymbolTable.found m id = true → ∃ x, m !! id = Some x.
Proof. unfold SymbolTable.found. destruct (m !! id); [eauto|done]. Qed.

(** Reading a name in a table. *)
Lemma eval_IdLocation st id p :
  eval tokens st (IdLocation id p)
  = match intVariables_ st !! id, boolVariables_ st !! id with
    | Some z, _ => Ok (IntElement z)
    | None, Some b => Ok (BoolElement b)
    | None, None =>
        Throw (errorAt tokens SemanticError p ("Variable '" +:+ id +:+ "' is not defined"))
    end.
Proof.
  simpl. unfold isVariableDefined, getVariableValue, isVariableDefined,
    SymbolTable.isVariableDefined, SymbolTable.getVariableValue, SymbolTable.found.
  destruct (intVariables_ st !! id), (boolVariables_ st !! id); done.
Qed.

(** What a scalar assignment leaves in the table. *)
Lemma assignment_table fuel id p expr q v value :
  atMostOne (symbolTable_ v) →
  eval tokens (symbolTable_ v) expr = Ok value →
  ∃ st',
    visitStatement tokens (S fuel) (AssignmentStatement (IdLocation id p) expr q) v
    = (Ok tt, mkVisitor st' (conditionMetStack_ v) (loopStack_ v) (cout v))
    ∧ match value with
      | IntElement z => intVariables_ st' !! id = Some z
      | BoolElement b => intVariables_ st' !! id = None ∧ boolVariables_ st' !! id = Some b
      end
    ∧ lists_ st' !! id = None
    ∧ ∀ id', id' ≠ id →
        intVariables_ st' !! id' = intVariables_ (symbolTable_ v) !! id'
        ∧ boolVariables_ st' !! id' = boolVariables_ (symbolTable_ v) !! id'
        ∧ lists_ st' !! id' = lists_ (symbolTable_ v) !! id'.
Proof.
  intros Hinv Heval. simpl. run. rewrite Heval.
  specialize (Hinv id). unfold slots, occupied in Hinv.
  unfold isVariableDefined, isListDefined, isAlreadyDefined, isVariableDefined,
    isListDefined, SymbolTable.isVariableDefined, SymbolTable.isListDefined,
    SymbolTable.updateVariable, SymbolTable.clear, SymbolTable.addVariable,
    SymbolTable.isVariableDefined, SymbolTable.isListDefined.
  simpl.
  destruct (SymbolTable.found (intVariables_ (symbolTable_ v)) id) eqn:Hi,
           (SymbolTable.found (boolVariables_ (symbolTable_ v)) id) eqn:Hb,
           (SymbolTable.found (lists_ (symbolTable_ v)) id) eqn:Hl;
    simpl in Hinv; try lia; simpl; rewrite ?Hi, ?Hb, ?Hl; simpl;
    rewrite ?Hi, ?Hb; simpl;
    repeat match goal with
    | H : SymbolTable.found _ _ = false |- _ => apply found_None in H
    end;
    destruct value; eexists; (split; [reflexivity|]); simpl;
    rewrite ?lookup_insert_eq, ?lookup_delete_eq;
    (repeat split; try done);
    intros; rewrite ?lookup_insert_ne, ?lookup_delete_ne by done; done.
Qed.

(** X3.  After [id = expr] the name reads as the value of [expr],
    whatever it was bound to before, a list included; the other names
    read as before, the other lists are as before, and the stacks and
    the output are untouched. *)
Theorem assignment_then_read fuel id p expr q v value :
  atMostOne (symbolTable_ v) →
  eval tokens (symbolTable_ v) expr = Ok value →
  ∃ v',
    visitStatement tokens (S fuel) (AssignmentStatement (IdLocation id p) expr q) v
    = (Ok tt, v')
    ∧ (∀ p', eval tokens (symbolTable_ v') (IdLocation id p') = Ok value)
    ∧ (∀ id' p', id' ≠ id →
         eval tokens (symbolTable_ v') (IdLocation id' p')
         = eval tokens (symbolTable_ v) (IdLocation id' p'))
    ∧ (∀ id', lists_ (symbolTable_ v') !! id'
              = if decide (id' = id) then None else lists_ (symbolTable_ v) !! id')
    ∧ conditionMetStack_ v' = conditionMetStack_ v
    ∧ loopStack_ v' = loopStack_ v
    ∧ cout v' = cout v.
Proof.
  intros Hinv Heval.
  destruct (assignment_table fuel id p expr q v value Hinv Heval)
    as (st' & Hrun & Hid & Hlist & Hother).
  eexists. split; [exact Hrun|].
  cbn [symbolTable_ conditionMetStack_ loopStack_ cout]. split; [|split; [|split]].
  - intros p'. rewrite eval_IdLocation.
    destruct value; [by rewrite Hid|]. destruct Hid as [-> ->]. done.
  - intros id' p' Hne. rewrite !eval_IdLocation.
    destruct (Hother id' Hne) as (-> & -> & _). done.
  - intros id'. case_decide as Hid'; [by subst|]. by apply Hother.
  - done.
Qed.

Lemma inside i n : 0 ≤ i < n → (i <? 0) || (i >=? n) = false.
Proof. intros H. rewrite Z.geb_leb. apply orb_false_iff. rewrite Z.ltb_ge, Z.leb_gt. lia. Qed.

Lemma outside i n : i < 0 ∨ n ≤ i → (i <? 0) || (i >=? n) = true.
Proof. intros H. rewrite Z.geb_leb. apply orb_true_iff. rewrite Z.ltb_lt, Z.leb_le. lia. Qed.

Lemma inside_iff i n : (i <? 0) || (i >=? n) = false ↔ 0 ≤ i < n.
Proof. rewrite Z.geb_leb, orb_false_iff, Z.ltb_ge, Z.leb_gt. lia. Qed.

(** Reading an element of a list in a table. *)
Lemma eval_ListElementLocation st id index p l i :
  lists_ st !! id = Some l →
  eval tokens st index = Ok (IntElement i) →
  eval tokens st (ListElementLocation id index p)
  = if (i <? 0) || (i >=? Z.of_nat (List.length l))
    then Throw (errorAt tokens SemanticError p "List index out of bounds")
    else match l !! Z.to_nat i with
         | Some x => Ok x
         | None => Crash UncheckedAccess
         end.
Proof.
  intros Hl Hi. simpl.
  unfold isListDefined, getListSize, getListElement, isListDefined,
    SymbolTable.isListDefined, SymbolTable.getListSize, SymbolTable.getListElement.
  rewrite (found_Some _ _ _ Hl), Hi, Hl. simpl.
  destruct (i <? 0); [done|]. simpl.
  destruct (i >=? Z.of_nat (List.length l)); done.
Qed.

(** X4.  [id.append(expr)] on a defined list puts the value of [expr]
    after the last element: the element at the old length reads as the
    value, and the elements before it read as before. *)
Theorem append_then_read fuel id expr p v l value :
  lists_ (symbolTable_ v) !! id = Some l →
  eval tokens (symbolTable_ v) expr = Ok value →
  let v' := withLists v (<[id := l ++ [value]]> (lists_ (symbolTable_ v))) in
  visitStatement tokens (S fuel) (ListAppendStatement id expr p) v = (Ok tt, v')
  ∧ (∀ index q,
       eval tokens (symbolTable_ v') index = Ok (IntElement (Z.of_nat (List.length l))) →
       eval tokens (symbolTable_ v') (ListElementLocation id index q) = Ok value)
  ∧ (∀ index q i x,
       eval tokens (symbolTable_ v') index = Ok (IntElement i) →
       0 ≤ i → l !! Z.to_nat i = Some x →
       eval tokens (symbolTable_ v') (ListElementLocation id index q) = Ok x).
Proof.
  intros Hl Heval v'. split; [|split].
  - simpl. run. unfold isListDefined, SymbolTable.isListDefined.
    rewrite (found_Some _ _ _ Hl). simpl. rewrite Heval. simpl.
    unfold SymbolTable.appendToList. by rewrite Hl.
  - intros index q Hindex.
    rewrite (eval_ListElementLocation _ id index q (l ++ [value]) _ (lookup_insert_eq _ _ _) Hindex).
    rewrite inside; [|rewrite length_app; simpl; lia].
    rewrite Nat2Z.id. by rewrite lookup_app_r, Nat.sub_diag.
  - intros index q i x Hindex Hpos Hx.
    rewrite (eval_ListElementLocation _ id index q (l ++ [value]) _ (lookup_insert_eq _ _ _) Hindex).
    pose proof (lookup_lt_Some _ _ _ Hx) as Hlt.
    rewrite inside; [|rewrite length_app; simpl; lia].
    by rewrite lookup_app_l, Hx.
Qed.

(** X5.  [id[index] = expr] on a defined list: with the index outside
    [0, len) it throws the internal error of the symbol table, at place
    (0, 0), and leaves the visitor as it was; inside, the element at the
    index reads as the value of [expr] and the other elements read as
    before. *)
Theorem list_element_write fuel id index p expr q v l value i :
  lists_ (symbolTable_ v) !! id = Some l →
  eval tokens (symbolTable_ v) expr = Ok value →
  eval tokens (symbolTable_ v) index = Ok (IntElement i) →
  let stmt := AssignmentStatement (ListElementLocation id index p) expr q in
  let v' := withLists v (<[id := <[Z.to_nat i := value]> l]> (lists_ (symbolTable_ v))) in
  ((i < 0 ∨ Z.of_nat (List.length l) ≤ i) →
   visitStatement tokens (S fuel) stmt v
   = (Throw (InternalError 0 0 "List index out of range"), v))
  ∧ ((0 ≤ i < Z.of_nat (List.length l)) →
     visitStatement tokens (S fuel) stmt v = (Ok tt, v')
     ∧ ∀ index' q' j,
         eval tokens (symbolTable_ v') index' = Ok (IntElement j) →
         (j = i → eval tokens (symbolTable_ v') (ListElementLocation id index' q') = Ok value)
         ∧ (j ≠ i → 
            eval tokens (symbolTable_ v') (ListElementLocation id index' q')
            = eval tokens (symbolTable_ v) (ListElementLocation id (NumberFactor j 0) q'))).
Proof.
  intros Hl Heval Hindex stmt v'.
  assert (visitStatement tokens (S fuel) stmt v
          = if (i <? 0) || (i >=? Z.of_nat (List.length l))
            then (Throw (InternalError 0 0 "List index out of range"), v)
            else (Ok tt, v')) as Hrun.
  { simpl. run. unfold isListDefined, SymbolTable.isListDefined.
    rewrite Heval. simpl. rewrite (found_Some _ _ _ Hl). simpl.
    rewrite Hindex. simpl.
    unfold SymbolTable.updateListElement. rewrite Hl.
    by destruct ((i <? 0) || (i >=? Z.of_nat (List.length l))). }
  split.
  - intros Hout. by rewrite Hrun, outside.
  - intros Hin. rewrite Hrun, inside by done.
    split; [done|]. intros index' q' j Hj.
    rewrite (eval_ListElementLocation _ id index' q' (<[Z.to_nat i := value]> l) _
               (lookup_insert_eq _ _ _) Hj).
    rewrite length_insert. split.
    + intros ->. rewrite inside by done.
      rewrite list_lookup_insert_eq; [done|lia].
    + intros Hne.
      rewrite (eval_ListElementLocation _ id (NumberFactor j 0) q' l j Hl eq_refl).
      destruct ((j <? 0) || (j >=? Z.of_nat (List.length l))) eqn:Hb; [done|].
      apply inside_iff in Hb.
      rewrite list_lookup_insert_ne; [done|lia].
Qed.

(** X6.  An indexed read out of the bounds of its list throws a
    semantic error at its place when it is evaluated by itself; as the
    left operand of an operator it throws the internal error of the
    symbol table at place (0, 0) instead, because the type check of the
    operands reads the element without the test of the bounds. *)
Theorem out_of_bounds_operand st id index p i l :
  lists_ st !! id = Some l →
  eval tokens st index = Ok (IntElement i) →
  (i < 0 ∨ Z.of_nat (List.length l) ≤ i) →
  let loc := ListElementLocation id index p in
  let internal := InternalError 0 0 "List index out of range" in
  eval tokens st loc = Throw (errorAt tokens SemanticError p "List index out of bounds")
  ∧ getDataType tokens st loc = Throw internal
  ∧ (∀ rhs q, eval tokens st (OrExpr loc rhs q) = Throw internal
              ∧ eval tokens st (AndExpr loc rhs q) = Throw internal)
  ∧ (∀ op rhs q, eval tokens st (EqualExpr loc op rhs q) = Throw internal)
  ∧ (∀ op rhs q, eval tokens st (ComparativeRelation loc op rhs q) = Throw internal)
  ∧ (∀ op rhs q, eval tokens st (AritExpr loc op rhs q) = Throw internal)
  ∧ (∀ op rhs q, eval tokens st (MulDivTerm loc op rhs q) = Throw internal)
  ∧ (∀ q, eval tokens st (NotUnary loc q) = Throw internal
          ∧ eval tokens st (MinusUnary loc q) = Throw internal).
Proof.
  intros Hl Hi Hout loc internal.
  pose proof (outside _ _ Hout) as Hb.
  assert (getDataType tokens st loc = Throw internal) as Hty.
  { simpl. unfold isListDefined, SymbolTable.isListDefined.
    rewrite (found_Some _ _ _ Hl), Hi. simpl.
    unfold SymbolTable.getListElement. by rewrite Hl, Hb. }
  split.
  { unfold loc. by rewrite (eval_ListElementLocation _ _ _ _ _ _ Hl Hi), Hb. }
  split; [done|]. clearbody loc.
  repeat split; intros; simpl; unfold eitherIsNot; by rewrite Hty.
Qed.

End WithTokens.

Lemma assignment_then_read_witness :
  ∃ v',
    visitStatement [] 1 (AssignmentStatement (IdLocation "x" 0) (NumberFactor 3 0) 0)
      (mkVisitor (SymbolTable.addList SymbolTable.empty "x") [] [] [])
    = (Ok tt, v')
    ∧ eval [] (symbolTable_ v') (IdLocation "x" 0) = Ok (IntElement 3)
    ∧ lists_ (symbolTable_ v') !! "x" = None.
Proof.
  destruct (assignment_then_read [] 0 "x" 0 (NumberFactor 3 0) 0
              (mkVisitor (SymbolTable.addList SymbolTable.empty "x") [] [] [])
              (IntElement 3))
    as (v' & Hrun & Hread & _ & Hlists & _).
  - apply EvalFacts.addList_atMostOne; [reflexivity|apply EvalFacts.atMostOne_empty].
  - reflexivity.
  - exists v'. split; [exact Hrun|]. split; [apply Hread|]. apply (Hlists "x").
Defined.

Lemma append_then_read_witness :
  let v := mkVisitor (mkSymbolTable ∅ ∅ {["L" := [IntElement 7]]}) [] [] [] in
  let v' := withLists v (<["L" := [IntElement 7; BoolElement true]]> (lists_ (symbolTable_ v))) in
  visitStatement [] 1 (ListAppendStatement "L" (BoolFactor true 0) 0) v = (Ok tt, v')
  ∧ eval [] (symbolTable_ v') (ListElementLocation "L" (NumberFactor 1 0) 0)
    = Ok (BoolElement true).
Proof.
  intros v v'.
  destruct (append_then_read [] 0 "L" (BoolFactor true 0) 0 v [IntElement 7] (BoolElement true))
    as (Hrun & Hlast & _); [reflexivity|reflexivity|].
  split; [exact Hrun|]. apply Hlast. reflexivity.
Defined.

Lemma list_element_write_witness :
  let v := mkVisitor (mkSymbolTable ∅ ∅ {["L" := [IntElement 7]]}) [] [] [] in
  visitStatement [] 1
    (AssignmentStatement (ListElementLocation "L" (NumberFactor 1 0) 0) (NumberFactor 9 0) 0) v
  = (Throw (InternalError 0 0 "List index out of range"), v)
  ∧ visitStatement [] 1
      (AssignmentStatement (ListElementLocation "L" (NumberFactor 0 0) 0) (NumberFactor 9 0) 0) v
    = (Ok tt, withLists v (<["L" := [IntElement 9]]> (lists_ (symbolTable_ v)))).
Proof.
  intros v.
  destruct (list_element_write [] 0 "L" (NumberFactor 1 0) 0 (NumberFactor 9 0) 0 v
              [IntElement 7] (IntElement 9) 1) as [Hout _];
    [reflexivity|reflexivity|reflexivity|].
  destruct (list_element_write [] 0 "L" (NumberFactor 0 0) 0 (NumberFactor 9 0) 0 v
              [IntElement 7] (IntElement 9) 0) as [_ Hin];
    [reflexivity|reflexivity|reflexivity|].
  split.
  - apply Hout. right. simpl. lia.
  - apply Hin. simpl. lia.
Defined.

Lemma out_of_bounds_operand_witness :
  let st := mkSymbolTable ∅ ∅ {["L" := [IntElement 7]]} in
  let loc := ListElementLocation "L" (NumberFactor 1 0) 0 in
  eval [] st loc = Throw (SemanticError 0 0 "List index out of bounds")
  ∧ eval [] st (AritExpr loc ADD_EXPR (NumberFactor 1 0) 0)
    = Throw (InternalError 0 0 "List index out of range").
Proof.
  intros st loc.
  destruct (out_of_bounds_operand [] st "L" (NumberFactor 1 0) 0 1 [IntElement 7])
    as (Hbare & _ & _ & _ & _ & Harit & _); [reflexivity|reflexivity|simpl; lia|].
  split; [exact Hbare|]. apply Harit.
Defined.

End StoreFacts.

(** ** The two stacks of the visitor *)

Module FrameFacts.
Import Visitor Frames.

#[export] Instance sameBelow_preorder : PreOrder sameBelow.
Proof.
  split.
  - by intros s.
  - intros s1 s2 s3 [H1 H2] [H3 H4]. split; congruence.
Qed.

#[export] Instance cleared_preorder : PreOrder cleared.
Proof.
  split.
  - by intros s.
  - intros s1 s2 s3 [H1 H2] [H3 H4]. split; [by etrans|auto].
Qed.

#[export] Instance restores_preorder : PreOrder restores.
Proof.
  split.
  - intros v. by split.
  - intros v1 v2 v3 [H1 H2] [H3 H4]. split; [congruence|by etrans].
Qed.

#[export] Instance restoresBelow_preorder : PreOrder restoresBelow.
Proof.
  split.
  - intros v. by split.
  - intros v1 v2 v3 [H1 H2] [H3 H4]. split; by etrans.
Qed.

Lemma restores_below v v' : restores v v' → restoresBelow v v'.
Proof. intros [H1 H2]. split; [by rewrite H1|done]. Qed.

Lemma sameBelow_push b s s' :
  sameBelow (b :: s) s' → ∃ b', s' = b' :: s.
Proof.
  intros [Hlen Htail]. destruct s' as [|b' s']; [done|].
  simpl in Htail. subst. by eexists.
Qed.

Lemma sameBelow_setBack b s s' : setBack b s = Ok s' → sameBelow s s'.
Proof. destruct s; [done|]. intros [= <-]. by split. Qed.

Lemma cleared_setBack s s' : setBack false s = Ok s' → cleared s s'.
Proof. destruct s; [done|]. intros [= <-]. by split. Qed.

Lemma cleared_push b s s' : cleared (b :: s) s' → ∃ b', s' = b' :: s.
Proof. intros [H _]. by eapply sameBelow_push. Qed.

Section Generic.
Context (R : relation Visitor) `{!PreOrder R}.

Lemma onOk_ret {A} (a : A) : onOk R (mret a).
Proof. intros v a' v' [= <- <-]. reflexivity. Qed.

Lemma onOk_bind {A B} (m : V A) (k : A → V B) :
  onOk R m → (∀ a, onOk R (k a)) → onOk R (m ≫= k).
Proof.
  intros Hm Hk v b v'. unfold mbind, V_bind.
  destruct (m v) as [[a|e|f] v1] eqn:Hmv; [|done..].
  intros Hkv. etrans; [by eapply Hm|by eapply Hk].
Qed.

Lemma onOk_throw {A} e : onOk R (throw e : V A).
Proof. by intros v a v'. Qed.

Lemma onOk_crash {A} f : onOk R (crash f : V A).
Proof. by intros v a v'. Qed.

Lemma onOk_lift {A} (m : Outcome A) : onOk R (lift m).
Proof. intros v a v' [= _ <-]. reflexivity. Qed.

Lemma onOk_get : onOk R get.
Proof. intros v a v' [= _ <-]. reflexivity. Qed.

Lemma onOk_forEach {A} (f : A → V unit) xs :
  (∀ x, onOk R (f x)) → onOk R (forEach f xs).
Proof.
  intros Hf. induction xs as [|x xs IH]; simpl; [apply onOk_ret|].
  apply onOk_bind; [apply Hf|]. by intros _.
Qed.

End Generic.

Lemma bind_Ok {A B} (m : V A) (k : A → V B) v b v' :
  (m ≫= k) v = (Ok b, v') → ∃ a v1, m v = (Ok a, v1) ∧ k a v1 = (Ok b, v').
Proof.
  unfold mbind, V_bind. destruct (m v) as [[a|e|f] v1]; [|done..]. eauto.
Qed.

Lemma onOk_weaken {A} (R1 R2 : relation Visitor) (m : V A) :
  (∀ v v', R1 v v' → R2 v v') → onOk R1 m → onOk R2 m.
Proof. intros HR Hm v a v' Hmv. apply HR. by eapply Hm. Qed.

Lemma onOk_below {A} (m : V A) : onOk restores m → onOk restoresBelow m.
Proof. apply onOk_weaken, restores_below. Qed.

Section WithTokens.
Variable tokens : list Token.

Lemma restores_evalNow e : onOk restores (evalNow tokens e).
Proof. intros v a v'. unfold evalNow. by intros [= _ <-]. Qed.

Lemma restores_print line : onOk restores (print line).
Proof. by intros v a v' [= _ <-]. Qed.

Lemma restores_setSymbolTable st : onOk restores (setSymbolTable st).
Proof. by intros v a v' [= _ <-]. Qed.

Lemma restores_setLoopActive : onOk restores (setLoopActive false).
Proof.
  intros v a v'. unfold setLoopActive, mbind, V_bind, get, lift, setLoopStack.
  destruct (setBack false (loopStack_ v)) as [s| |] eqn:Hs; [|done..].
  intros [= _ <-]. split; [done|]. by eapply cleared_setBack.
Qed.

Lemma restoresBelow_setConditionMet b : onOk restoresBelow (setConditionMet b).
Proof.
  intros v a v'. unfold setConditionMet, mbind, V_bind, get, lift, setConditionMetStack.
  destruct (setBack b (conditionMetStack_ v)) as [s| |] eqn:Hs; [|done..].
  intros [= _ <-]. split; [|done]. by eapply sameBelow_setBack.
Qed.

Ltac frame_step :=
  first
    [ apply onOk_ret; apply _ | apply onOk_throw | apply onOk_crash
    | apply onOk_lift; apply _ | apply onOk_get; apply _
    | apply restores_evalNow | apply restores_print | apply restores_setSymbolTable
    | apply restores_setLoopActive | apply restoresBelow_setConditionMet
    | assumption
    | apply onOk_below;
      first [ apply restores_evalNow | apply restores_print
            | apply restores_setSymbolTable | apply restores_setLoopActive | assumption ]
    | apply onOk_bind; [apply _| |intros ?]
    | apply onOk_forEach; [apply _|intros ?]
    | case_match ].

Lemma restores_visitAssignmentStatement loc expr :
  onOk restores (visitAssignmentStatement tokens loc expr).
Proof.
  unfold visitAssignmentStatement, updateVariable, addVariable, clearList,
    updateListElement.
  repeat frame_step.
Qed.

Lemma restores_visitListDeclarationStatement id p :
  onOk restores (visitListDeclarationStatement tokens id p).
Proof. unfold visitListDeclarationStatement, addList. repeat frame_step. Qed.

Lemma restores_visitListAppendStatement id expr p :
  onOk restores (visitListAppendStatement tokens id expr p).
Proof. unfold visitListAppendStatement, appendToList. repeat frame_step. Qed.

Lemma restores_visitPrintStatement expr : onOk restores (visitPrintStatement tokens expr).
Proof. unfold visitPrintStatement. repeat frame_step. Qed.

Lemma restores_visitBreakStatement p : onOk restores (visitBreakStatement tokens p).
Proof. unfold visitBreakStatement. repeat frame_step. Qed.

Lemma restores_visitContinueStatement p : onOk restores (visitContinueStatement tokens p).
Proof. unfold visitContinueStatement. repeat frame_step. Qed.

Section Statements.

Variable fuel : nat.
Variable recStatement : Statement → V unit.
Hypothesis restores_rec : ∀ stmt, onOk restores (recStatement stmt).

Lemma restores_visitSimpleBlock b : onOk restores (visitSimpleBlock recStatement b).
Proof. unfold visitSimpleBlock. repeat frame_step. apply restores_rec. Qed.

Lemma restoresBelow_visitElseBlock b :
  onOk restoresBelow (visitElseBlock tokens recStatement b).
Proof.
  unfold visitElseBlock.
  repeat (frame_step || (apply onOk_below, restores_visitSimpleBlock)).
Qed.

Lemma restoresBelow_visitElifBlock b :
  onOk restoresBelow (visitElifBlock tokens recStatement b).
Proof.
  unfold visitElifBlock.
  repeat (frame_step || (apply onOk_below, restores_visitSimpleBlock)).
Qed.


(** The two loops of [visitIfStatement] over the blocks. *)
Lemma restoresBelow_blocks (c : bool) blocks :
  onOk restoresBelow
    (if c
     then setConditionMet true;;
          forEach (λ block, match getBlockType block with
                            | SIMPLE_BLOCK => visitSimpleBlock recStatement block
                            | ELIF_BLOCK => visitElifBlock tokens recStatement block
                            | ELSE_BLOCK => visitElseBlock tokens recStatement block
                            | IF_BLOCK => mret tt
                            end) blocks
     else mret tt)
  ∧ onOk restoresBelow
      (forEach (λ block, match getBlockType block with
                         | ELIF_BLOCK => visitElifBlock tokens recStatement block
                         | ELSE_BLOCK => visitElseBlock tokens recStatement block
                         | _ => mret tt
                         end) blocks).
Proof.
  split;
    repeat first [ apply restoresBelow_visitElseBlock | apply restoresBelow_visitElifBlock
                 | apply onOk_below, restores_visitSimpleBlock | frame_step ].
Qed.

Lemma restores_visitIfStatement condition blocks :
  onOk restores (visitIfStatement tokens recStatement condition blocks).
Proof.
  intros v a v' H. unfold visitIfStatement in H.
  apply bind_Ok in H as (condValue & v0 & [= _ <-] & H).
  apply bind_Ok in H as (? & ? & [= <- <-] & H).
  apply bind_Ok in H as ([] & v1 & [= <-] & H).
  destruct condValue as [z|c]; [done|].
  destruct (restoresBelow_blocks c blocks) as [Hfirst Hsecond].
  apply bind_Ok in H as ([] & v2 & H1%Hfirst & H).
  apply bind_Ok in H as ([] & v3 & H2%Hsecond & H).
  apply bind_Ok in H as (? & ? & [= <- <-] & H).
  assert (restoresBelow
            (mkVisitor (symbolTable_ v) (false :: conditionMetStack_ v) (loopStack_ v) (cout v))
            v3) as [Hcond Hloop] by by etrans.
  simpl in Hcond, Hloop. apply sameBelow_push in Hcond as [b' Hcond].
  rewrite Hcond in H. injection H as _ <-. by split.
Qed.

Lemma restores_whileBody stmts : onOk restores (whileBody recStatement stmts).
Proof.
  induction stmts as [|stmt rest IH]; simpl; repeat frame_step. apply restores_rec.
Qed.

Lemma restores_whileLoop n condition blocks p :
  onOk restores (whileLoop tokens recStatement n condition blocks p).
Proof.
  induction n as [|n IH]; simpl; repeat (frame_step || apply restores_whileBody).
Qed.

Lemma restores_visitWhileStatement condition blocks p :
  onOk restores (visitWhileStatement tokens fuel recStatement condition blocks p).
Proof.
  intros v a v' H. unfold visitWhileStatement in H.
  apply bind_Ok in H as (? & ? & [= <- <-] & H).
  apply bind_Ok in H as ([] & v1 & [= <-] & H).
  apply bind_Ok in H as ([] & v2 & [Hcond Hloop]%restores_whileLoop & H).
  apply bind_Ok in H as (? & ? & [= <- <-] & H).
  simpl in *. apply cleared_push in Hloop as [b' Hloop].
  rewrite Hloop in H. injection H as _ <-. by split.
Qed.

Lemma restores_visitStatementBody stmt :
  onOk restores (visitStatementBody tokens fuel recStatement stmt).
Proof.
  unfold visitStatementBody.
  destruct stmt; try destruct stype;
    auto using restores_visitAssignmentStatement, restores_visitListDeclarationStatement,
      restores_visitListAppendStatement, restores_visitPrintStatement,
      restores_visitBreakStatement, restores_visitContinueStatement,
      restores_visitIfStatement, restores_visitWhileStatement;
    apply onOk_crash.
Qed.

End Statements.

Lemma restores_visitStatement fuel : ∀ stmt, onOk restores (visitStatement tokens fuel stmt).
Proof.
  induction fuel as [|fuel IH]; intros stmt; simpl; [apply onOk_crash|].
  apply restores_visitStatementBody. intros s. apply IH.
Qed.

Lemma restores_visitProgram fuel program :
  onOk restores (visitProgram tokens fuel program).
Proof. apply onOk_forEach; [apply _|]. apply restores_visitStatement. Qed.

(** X7.  A statement that ends normally leaves the stack of the
    conditions as it found it, and the stack of the loops with the same
    depth and the same flags below the top; the flag on top, if it was
    cleared, is still cleared. *)
Theorem stacks_are_restored fuel stmt v v' :
  visitStatement tokens fuel stmt v = (Ok tt, v') →
  conditionMetStack_ v' = conditionMetStack_ v
  ∧ List.length (loopStack_ v') = List.length (loopStack_ v)
  ∧ tail (loopStack_ v') = tail (loopStack_ v)
  ∧ (head (loopStack_ v) = Some false → head (loopStack_ v') = Some false).
Proof. intros (? & [? ?] & ?)%restores_visitStatement. done. Qed.

(** X8.  A run of a program that ends normally ends with both stacks
    empty: every frame that an [if] or a [while] pushed has been
    popped. *)
Theorem run_leaves_stacks_empty fuel program v' :
  visitProgram tokens fuel program newVisitor = (Ok tt, v') →
  conditionMetStack_ v' = [] ∧ loopStack_ v' = [].
Proof.
  intros (Hcond & [Hlen _] & _)%restores_visitProgram. split; [done|].
  by apply nil_length_inv.
Qed.

End WithTokens.

Lemma stacks_are_restored_witness :
  let v := mkVisitor SymbolTable.empty [true] [true; false] [] in
  let v' := mkVisitor SymbolTable.empty [true] [false; false] [] in
  visitStatement [] 1 (BreakStatement 0) v = (Ok tt, v')
  ∧ conditionMetStack_ v' = [true] ∧ tail (loopStack_ v') = [false].
Proof.
  intros v v'.
  destruct (stacks_are_restored [] 1 (BreakStatement 0) v v') as (Hc & _ & Ht & _);
    [reflexivity|].
  split; [reflexivity|]. split; [exact Hc|exact Ht].
Defined.

Lemma run_leaves_stacks_empty_witness :
  let program :=
    mkProgram [CompoundStatement WHILE_STMT (BoolFactor true 0)
                 [SimpleBlock [PrintStatement (NumberFactor 1 0) 0; BreakStatement 0] 0] 0] in
  let v' := mkVisitor SymbolTable.empty [] [] ["1"] in
  visitProgram [] 3 program newVisitor = (Ok tt, v')
  ∧ conditionMetStack_ v' = [] ∧ loopStack_ v' = [].
Proof.
  intros program v'. split; [reflexivity|].
  apply (run_leaves_stacks_empty [] 3 program v'). reflexivity.
Defined.

End FrameFacts.

(** ** The branches of an [if] *)

Module ControlFacts.
Import Visitor Frames FrameFacts Control.

Section WithTokens.
Variable tokens : list Token.

Lemma bind_run {A B} (m : V A) (k : A → V B) v :
  (m ≫= k) v
  = match m v with
    | (Ok a, v1) => k a v1
    | (Throw e, v1) => (Throw e, v1)
    | (Crash f, v1) => (Crash f, v1)
    end.
Proof. done. Qed.

Lemma bind_assoc {A B C} (m : V A) (k : A → V B) (h : B → V C) v :
  ((m ≫= k) ≫= h) v = (m ≫= λ a, k a ≫= h) v.
Proof. unfold mbind, V_bind. by destruct (m v) as [[a|e|f] v1]. Qed.

Lemma forEach_cons {A} (f : A → V unit) x xs :
  forEach f (x :: xs) = (f x ≫= λ _, forEach f xs).
Proof. done. Qed.

Lemma forEach_idle {A} (f : A → V unit) xs v :
  Forall (λ x, f x v = (Ok tt, v)) xs → forEach f xs v = (Ok tt, v).
Proof.
  induction 1 as [|x xs Hx _ IH]; simpl; [done|].
  by rewrite bind_run, Hx.
Qed.

Variable fuel : nat.

Local Abbreviation rec := (λ s v, visitStatement tokens fuel s v).

Lemma restores_rec stmt : onOk restores (rec stmt).
Proof. apply restores_visitStatement. Qed.

Lemma withConditionMet_same v : withConditionMet v (conditionMetStack_ v) = v.
Proof. by destruct v. Qed.

Lemma withConditionMet_eq v s : conditionMetStack_ v = s → withConditionMet v s = v.
Proof. intros <-. apply withConditionMet_same. Qed.

(** With the flag of the [if] set, the blocks [elif] and [else] are
    passed over. *)
Lemma met_passes_over b v s :
  conditionMetStack_ v = true :: s →
  getBlockType b ≠ SIMPLE_BLOCK →
  match getBlockType b with
  | SIMPLE_BLOCK => visitSimpleBlock rec b
  | ELIF_BLOCK => visitElifBlock tokens rec b
  | ELSE_BLOCK => visitElseBlock tokens rec b
  | IF_BLOCK => mret tt
  end v = (Ok tt, v)
  ∧ match getBlockType b with
    | ELIF_BLOCK => visitElifBlock tokens rec b
    | ELSE_BLOCK => visitElseBlock tokens rec b
    | _ => mret tt
    end v = (Ok tt, v).
Proof.
  intros Hs Hb. destruct b; simpl in *; [done|..];
    unfold mbind, V_bind, get; by rewrite Hs.
Qed.

Lemma isBranch_not_simple b : isBranch b → getBlockType b ≠ SIMPLE_BLOCK.
Proof. by destruct b. Qed.

Lemma rest_passes_over others v s :
  conditionMetStack_ v = true :: s →
  Forall isBranch others →
  forEach (λ block, match getBlockType block with
                    | SIMPLE_BLOCK => visitSimpleBlock rec block
                    | ELIF_BLOCK => visitElifBlock tokens rec block
                    | ELSE_BLOCK => visitElseBlock tokens rec block
                    | IF_BLOCK => mret tt
                    end) others v = (Ok tt, v)
  ∧ forEach (λ block, match getBlockType block with
                      | ELIF_BLOCK => visitElifBlock tokens rec block
                      | ELSE_BLOCK => visitElseBlock tokens rec block
                      | _ => mret tt
                      end) others v = (Ok tt, v).
Proof.
  intros Hs Hothers. split; apply forEach_idle;
    (eapply Forall_impl; [exact Hothers|]); intros b Hb%isBranch_not_simple;
    by eapply met_passes_over.
Qed.

Lemma leave_run v b s :
  conditionMetStack_ v = b :: s → leave v = (Ok tt, withConditionMet v s).
Proof. intros Hs. unfold leave, mbind, V_bind, get, lift. by rewrite Hs. Qed.

Lemma setConditionMet_run b' v b s :
  conditionMetStack_ v = b :: s →
  setConditionMet b' v = (Ok tt, withConditionMet v (b' :: s)).
Proof. intros Hs. unfold setConditionMet, mbind, V_bind, get, lift. by rewrite Hs. Qed.

(** After the statements of a branch: the flag is set, the blocks that
    follow are passed over and the frame is popped. *)
Lemma after_branch v1 flag s rest :
  conditionMetStack_ v1 = flag :: s →
  Forall isBranch rest →
  (setConditionMet true ≫= λ _,
   forEach (λ block, match getBlockType block with
                     | ELIF_BLOCK => visitElifBlock tokens rec block
                     | ELSE_BLOCK => visitElseBlock tokens rec block
                     | _ => mret tt
                     end) rest ≫= λ _, leave) v1
  = (Ok tt, withConditionMet v1 s).
Proof.
  intros Hv1 Hrest.
  rewrite bind_run, (setConditionMet_run true v1 flag s Hv1). cbv beta iota.
  rewrite bind_run.
  destruct (rest_passes_over rest (withConditionMet v1 (true :: s)) s eq_refl Hrest)
    as [_ ->].
  cbv beta iota. by rewrite (leave_run _ true s).
Qed.

Lemma body_restores stmts v0 v1 :
  forEach rec stmts v0 = (Ok tt, v1) → conditionMetStack_ v1 = conditionMetStack_ v0.
Proof. by intros [Hc _]%(onOk_forEach restores _ _ restores_rec). Qed.

Lemma visitElifBlock_run condition stmts p1 p2 v0 s :
  conditionMetStack_ v0 = false :: s →
  visitElifBlock tokens rec (ElifBlock condition (SimpleBlock stmts p1) p2) v0
  = match eval tokens (symbolTable_ v0) condition with
    | Ok (BoolElement true) =>
        (setConditionMet true ≫= λ _, forEach rec stmts ≫= λ _, setConditionMet true) v0
    | Ok (BoolElement false) => (Ok tt, v0)
    | Ok (IntElement z) =>
        (bindO (EvaluatedElement.getBoolValue (IntElement z)) (λ _, Ok tt), v0)
    | Throw e => (Throw e, v0)
    | Crash f => (Crash f, v0)
    end.
Proof.
  intros Hs. unfold visitElifBlock. rewrite bind_run. unfold get at 1. cbv beta iota.
  rewrite Hs. rewrite bind_run. unfold evalNow at 1.
  by destruct (eval tokens (symbolTable_ v0) condition) as [[z|[]]| |].
Qed.

Lemma visitElseBlock_run stmts p1 p2 v0 s :
  conditionMetStack_ v0 = false :: s →
  visitElseBlock tokens rec (ElseBlock (SimpleBlock stmts p1) p2) v0
  = (forEach rec stmts ≫= λ _, setConditionMet true) v0.
Proof.
  intros Hs. unfold visitElseBlock. rewrite bind_run. unfold get at 1. cbv beta iota.
  by rewrite Hs.
Qed.

Lemma elseChain_run others v :
  Forall isBranch others →
  (forEach (λ block, match getBlockType block with
                     | ELIF_BLOCK => visitElifBlock tokens rec block
                     | ELSE_BLOCK => visitElseBlock tokens rec block
                     | _ => mret tt
                     end) others ≫= λ _, leave) (ifFrame v false)
  = elseChain tokens fuel others v.
Proof.
  induction 1 as [|b rest Hb Hrest IH].
  - rewrite bind_run. simpl.
    rewrite (leave_run _ false (conditionMetStack_ v)) by done.
    by destruct v.
  - destruct b as [|condition [stmts p1| |] p2|[stmts p1| |] p2]; try done.
    + (* elif *)
      rewrite forEach_cons, bind_assoc. cbn [getBlockType elseChain].
      rewrite bind_run, (visitElifBlock_run _ _ _ _ _ (conditionMetStack_ v)) by done.
      change (symbolTable_ (ifFrame v false)) with (symbolTable_ v).
      destruct (eval tokens (symbolTable_ v) condition) as [[z|[]]| |]; try done.
      rewrite bind_run, (setConditionMet_run true _ false (conditionMetStack_ v)) by done.
      cbv beta iota. rewrite bind_run. unfold branch.
      change (withConditionMet (ifFrame v false) (true :: conditionMetStack_ v))
        with (withConditionMet v (true :: conditionMetStack_ v)).
      destruct (forEach rec stmts _) as [[[]|e|f] v1] eqn:Hbody; try done.
      apply body_restores in Hbody.
      exact (after_branch v1 true (conditionMetStack_ v) rest Hbody Hrest).
    + (* else *)
      rewrite forEach_cons, bind_assoc. cbn [getBlockType elseChain].
      rewrite bind_run, (visitElseBlock_run _ _ _ _ (conditionMetStack_ v)) by done.
      rewrite bind_run. unfold branch.
      change (ifFrame v false) with (withConditionMet v (false :: conditionMetStack_ v)).
      destruct (forEach rec stmts _) as [[[]|e|f] v1] eqn:Hbody; try done.
      apply body_restores in Hbody.
      exact (after_branch v1 false (conditionMetStack_ v) rest Hbody Hrest).
Qed.


Local Abbreviation firstLoop :=
  (forEach (λ block, match getBlockType block with
                     | SIMPLE_BLOCK => visitSimpleBlock rec block
                     | ELIF_BLOCK => visitElifBlock tokens rec block
                     | ELSE_BLOCK => visitElseBlock tokens rec block
                     | IF_BLOCK => mret tt
                     end)).

Local Abbreviation secondLoop :=
  (forEach (λ block, match getBlockType block with
                     | ELIF_BLOCK => visitElifBlock tokens rec block
                     | ELSE_BLOCK => visitElseBlock tokens rec block
                     | _ => mret tt
                     end)).

Lemma visitIfStatement_run condition blocks v :
  visitIfStatement tokens rec condition blocks v
  = match eval tokens (symbolTable_ v) condition with
    | Ok (BoolElement c) =>
        ((if c then setConditionMet true ≫= λ _, firstLoop blocks else mret tt) ≫= λ _,
         secondLoop blocks ≫= λ _, leave) (ifFrame v false)
    | Ok (IntElement _) =>
        (Throw (errorAt tokens SemanticError (exprPosition condition)
                  "If condition must be boolean"), ifFrame v false)
    | Throw e => (Throw e, v)
    | Crash f => (Crash f, v)
    end.
Proof.
  unfold visitIfStatement. rewrite bind_run. unfold evalNow at 1.
  by destruct (eval tokens (symbolTable_ v) condition) as [[z|c]| |].
Qed.

Lemma firstLoop_cons stmts p0 others :
  firstLoop (SimpleBlock stmts p0 :: others) = (forEach rec stmts ≫= λ _, firstLoop others).
Proof. done. Qed.

Lemma secondLoop_cons stmts p0 others v0 :
  secondLoop (SimpleBlock stmts p0 :: others) v0 = secondLoop others v0.
Proof. done. Qed.

(** X9.  An [if] whose first block is followed by [elif] and [else]
    blocks runs one branch: the first block if the condition holds,
    otherwise the first [elif] whose condition holds, otherwise the
    [else]; the conditions after the one that holds are not evaluated. *)
Theorem if_runs_first_branch_that_holds condition stmts p0 others p v :
  Forall isBranch others →
  visitStatement tokens (S fuel)
    (CompoundStatement IF_STMT condition (SimpleBlock stmts p0 :: others) p) v
  = match eval tokens (symbolTable_ v) condition with
    | Ok (BoolElement true) => branch tokens fuel stmts true v
    | Ok (BoolElement false) => elseChain tokens fuel others v
    | Ok (IntElement _) =>
        (Throw (errorAt tokens SemanticError (exprPosition condition)
                  "If condition must be boolean"), ifFrame v false)
    | Throw e => (Throw e, v)
    | Crash f => (Crash f, v)
    end.
Proof.
  intros Hothers. cbn [visitStatement visitStatementBody].
  rewrite visitIfStatement_run.
  destruct (eval tokens (symbolTable_ v) condition) as [[z|[]]| |]; try done.
  - (* the condition holds *)
    rewrite bind_assoc, bind_run,
      (setConditionMet_run true _ false (conditionMetStack_ v)) by done.
    cbv beta iota. rewrite firstLoop_cons, !bind_assoc, bind_run. unfold branch.
    change (withConditionMet (ifFrame v false) (true :: conditionMetStack_ v))
      with (withConditionMet v (true :: conditionMetStack_ v)).
    destruct (forEach rec stmts _) as [[[]|e|f] v1] eqn:Hbody; try done.
    apply body_restores in Hbody. cbn [withConditionMet conditionMetStack_] in Hbody.
    destruct (rest_passes_over others v1 _ Hbody Hothers) as [Hfirst Hsecond].
    rewrite bind_run, Hfirst. cbv beta iota.
    rewrite bind_run, secondLoop_cons, Hsecond. cbv beta iota.
    exact (leave_run v1 true _ Hbody).
  - (* it does not *)
    rewrite bind_run. unfold mret at 1, V_ret at 1. cbv beta iota.
    rewrite bind_run, secondLoop_cons, <- bind_run.
    exact (elseChain_run others v Hothers).
Qed.

End WithTokens.

Lemma if_runs_first_branch_that_holds_witness :
  let others :=
    [ElifBlock (BoolFactor true 0) (SimpleBlock [PrintStatement (NumberFactor 2 0) 0] 0) 0;
     ElifBlock (NumberFactor 0 0) (SimpleBlock [PrintStatement (NumberFactor 3 0) 0] 0) 0;
     ElseBlock (SimpleBlock [PrintStatement (NumberFactor 4 0) 0] 0) 0] in
  Forall isBranch others
  ∧ visitStatement [] 2
      (CompoundStatement IF_STMT (BoolFactor false 0)
         (SimpleBlock [PrintStatement (NumberFactor 1 0) 0] 0 :: others) 0) newVisitor
    = (Ok tt, mkVisitor SymbolTable.empty [] [] ["2"]).
Proof.
  intros others.
  assert (Forall isBranch others) as Hothers by (repeat constructor).
  split; [exact Hothers|].
  rewrite (if_runs_first_branch_that_holds [] 1 (BoolFactor false 0)
             [PrintStatement (NumberFactor 1 0) 0] 0 others 0 newVisitor Hothers).
  reflexivity.
Defined.

End ControlFacts.

(** ** The grammar *)

Module GrammarFacts.
Import Parser Shape Grammar ParserFacts.

Lemma within_le k k' e : k ≤ k' → within k e → within k' e.
Proof. intros Hk [Hs Hl]. split; [done|lia]. Qed.

Lemma yields_built {T} (mk : Expression → T → Expression → nat → Expression)
    (build : Expression → Token → Expression → nat → Outcome Expression)
    (Q : Expression → Prop) l op r p :
  (∀ e, build l op r p = Ok e → ∃ ty, e = mk l ty r p) →
  (∀ ty, Q (mk l ty r p)) →
  yields Q (lift (build l op r p)).
Proof.
  intros Hbuild HQ i e j. unfold lift.
  destruct (build l op r p) as [e'| |] eqn:Hb; [|done..].
  intros [= <- <-]. destruct (Hbuild _ eq_refl) as [ty ->]. apply HQ.
Qed.

Ltac built :=
  let v := fresh "v" in
  intros ?; unfold newEqualExpr, newComparativeRelation, newAritExpr, newMulDivTerm;
  destruct (getIntValue _) as [v| |]; simpl; [|done..];
  repeat case_match; intros [= <-]; by eexists.

Ltac node :=
  unfold within in *; simpl;
  repeat match goal with H : _ ∧ _ |- _ => destruct H end;
  repeat match goal with H : stratified _ = true |- _ => rewrite H end;
  rewrite ?andb_true_r; repeat split; try lia;
  rewrite ?andb_true_iff, ?Nat.leb_le; repeat split; lia.

Section WithTokens.
Variable tokens : list Token.

Section Expressions.
Variables recExpression recTerm recUnary : P Expression.
Hypothesis within_recExpression : yields (within 6) recExpression.
Hypothesis within_recTerm : yields (within 1) recTerm.
Hypothesis within_recUnary : yields (within 0) recUnary.

Lemma within_parseLocation : yields (within 0) (parseLocation tokens recExpression).
Proof.
  unfold parseLocation, parseListElementLocation.
  apply yields_then; intros t. destruct (tok_data t); try apply yields_throw.
  apply yields_then; intros _. apply yields_then; intros t'.
  destruct (tokenIs _ _ t').
  - apply yields_then; intros _.
    eapply yields_bind; [exact within_recExpression|]. intros expr Hexpr.
    apply yields_then; intros _. apply yields_then; intros pos.
    apply yields_ret. node.
  - apply yields_then; intros pos. apply yields_ret. node.
Qed.

Lemma within_parseFactor : yields (within 0) (parseFactor tokens recExpression).
Proof.
  unfold parseFactor. apply yields_then; intros t.
  repeat case_match; try apply yields_throw; try apply within_parseLocation.
  - unfold parseExpressionFactor. apply yields_then; intros _.
    eapply yields_bind; [exact within_recExpression|]. intros expr Hexpr.
    apply yields_then; intros _. apply yields_then; intros pos.
    apply yields_ret. node.
  - unfold parseNumberFactor. apply yields_then; intros t'.
    destruct (tok_data t'); try apply yields_throw.
    apply yields_then; intros _. apply yields_then; intros pos. apply yields_ret. node.
  - unfold parseBoolFactor. apply yields_then; intros t'.
    destruct (tok_data t'); try apply yields_throw.
    apply yields_then; intros _. apply yields_then; intros pos. apply yields_ret. node.
Qed.

Lemma within_parseUnaryBody :
  yields (within 0) (parseUnaryBody tokens recExpression recUnary).
Proof.
  unfold parseUnaryBody. apply yields_then; intros t.
  repeat case_match; try apply within_parseFactor.
  - unfold parseNotUnary. apply yields_then; intros _.
    eapply yields_bind; [exact within_recUnary|]. intros expr Hexpr.
    apply yields_then; intros pos. apply yields_ret. node.
  - unfold parseMinusUnary. apply yields_then; intros _.
    eapply yields_bind; [exact within_recUnary|]. intros expr Hexpr.
    apply yields_then; intros pos. apply yields_ret. node.
Qed.

Lemma within_parseTermBody : yields (within 1) (parseTermBody tokens recTerm recUnary).
Proof.
  unfold parseTermBody.
  eapply yields_bind; [exact within_recUnary|]. intros unary Hu.
  apply yields_then; intros t. destruct (isMulDiv t); [|apply yields_ret; node].
  unfold parseMulDivTerm. apply yields_then; intros op.
  eapply yields_bind; [exact within_recTerm|]. intros right Hr.
  apply yields_then; intros pos.
  apply (yields_built MulDivTerm); [built|]. intros ty. node.
Qed.

Lemma within_parseNumExpr : yields (within 2) (parseNumExpr tokens recTerm).
Proof.
  unfold parseNumExpr.
  eapply yields_bind; [exact within_recTerm|]. intros term Ht.
  apply yields_then; intros t. destruct (isAddSub t); [|apply yields_ret; node].
  unfold parseAritExpr. apply yields_then; intros op.
  eapply yields_bind; [exact within_recTerm|]. intros right Hr.
  apply yields_then; intros pos.
  apply (yields_built AritExpr); [built|]. intros ty. node.
Qed.

Lemma within_parseRelation : yields (within 3) (parseRelation tokens recTerm).
Proof.
  unfold parseRelation.
  eapply yields_bind; [exact within_parseNumExpr|]. intros numExpr Hn.
  apply yields_then; intros t. destruct (isComparison t); [|apply yields_ret; node].
  unfold parseComparativeRelation. apply yields_then; intros op.
  eapply yields_bind; [exact within_parseNumExpr|]. intros right Hr.
  apply yields_then; intros pos.
  apply (yields_built ComparativeRelation); [built|]. intros ty. node.
Qed.

Lemma within_parseEquality : yields (within 4) (parseEquality tokens recTerm).
Proof.
  unfold parseEquality.
  eapply yields_bind; [exact within_parseRelation|]. intros relation Hn.
  apply yields_then; intros t. destruct (isEqNeq t); [|apply yields_ret; node].
  unfold parseEqualExpr. apply yields_then; intros op.
  eapply yields_bind; [exact within_parseRelation|]. intros right Hr.
  apply yields_then; intros pos.
  apply (yields_built EqualExpr); [built|]. intros ty. node.
Qed.

Lemma within_parseJoin : yields (within 5) (parseJoin tokens recTerm).
Proof.
  unfold parseJoin.
  eapply yields_bind; [exact within_parseEquality|]. intros equality He.
  apply yields_then; intros t. destruct (tokenIs _ _ t); [|apply yields_ret; node].
  unfold parseAndExpr. apply yields_then; intros _. apply yields_then; intros t'.
  destruct (tokenIs _ _ t'); [apply yields_throw|].
  eapply yields_bind; [exact within_parseEquality|]. intros right Hr.
  apply yields_then; intros pos. apply yields_ret. node.
Qed.

Lemma within_parseExpressionBody :
  yields (within 6) (parseExpressionBody tokens recExpression recTerm).
Proof.
  unfold parseExpressionBody.
  eapply yields_bind; [exact within_parseJoin|]. intros join Hj.
  apply yields_then; intros t. destruct (tokenIs _ _ t); [|apply yields_ret; node].
  unfold parseOrExpr. apply yields_then; intros _.
  eapply yields_bind; [exact within_recExpression|]. intros right Hr.
  apply yields_then; intros pos. apply yields_ret. node.
Qed.

End Expressions.

Lemma levels_of_expressions fuel :
  yields (within 6) (parseExpression tokens fuel)
  ∧ yields (within 1) (parseTerm tokens fuel)
  ∧ yields (within 0) (parseUnary tokens fuel).
Proof.
  induction fuel as [|fuel (IHe & IHt & IHu)]; simpl.
  - split; [|split]; apply yields_crash.
  - split; [|split].
    + by apply within_parseExpressionBody.
    + by apply within_parseTermBody.
    + by apply within_parseUnaryBody.
Qed.


(** X10.  In an expression that the parser returns every operator has
    operands of the levels that its parsing function reads: both
    operands of [and], [==], [<] and [+] are of a tighter level than the
    operator, so that none of these chains without parentheses; [or] and
    [*] take an operand of their own level on the right only. *)
Theorem operands_have_their_levels fuel i e j :
  parseExpression tokens fuel i = Ok (e, j) → stratified e = true.
Proof. intros H. by apply (levels_of_expressions fuel) in H as [? _]. Qed.

(** *** Tokens that start no statement *)

Lemma parseStatement_passes fuel i t :
  tokens !! i = Some t → startsStatement t = false →
  parseStatement tokens (S fuel) i = Ok (None, i).
Proof.
  intros Ht Hs. unfold startsStatement in Hs.
  repeat (apply orb_false_iff in Hs as [Hs ?]).
  simpl. unfold parseStatementBody, mbind, P_bind, tokenAt.
  rewrite Nat.add_0_r, Ht. by repeat (case_match; try discriminate).
Qed.

Lemma programLoop_passes fuel : ∀ n i,
  Forall (λ t, startsStatement t = false) tokens →
  (List.length tokens - i < n)%nat →
  ∃ j, programLoop tokens (S fuel) n [] i = Ok ([], j).
Proof.
  induction n as [|n IH]; intros i Hall Hn; [lia|]. cbn [programLoop].
  unfold mbind at 1, P_bind at 1, index. case_bool_decide as Hi; [|by eexists].
  destruct (lookup_lt_is_Some_2 tokens i Hi) as [t Ht].
  pose proof (proj1 (Forall_lookup _ _) Hall i t Ht) as Hs. simpl in Hs.
  unfold mbind, P_bind. rewrite (parseStatement_passes fuel i t Ht Hs).
  unfold tokenAt. rewrite Nat.add_0_r, Ht.
  destruct (isType EOF_TOKEN t); [by eexists|].
  unfold next. apply IH; [done|lia].
Qed.

(** X11.  Where a statement is expected, a token that starts none is
    passed over without an error: a token vector that holds no
    identifier and none of the keywords print, break, continue, if and
    while parses to the empty program. *)
Theorem stray_tokens_are_passed_over :
  Forall (λ t, startsStatement t = false) tokens →
  parseProgram tokens = Ok (mkProgram []).
Proof.
  intros Hall. unfold parseProgram, parseProgramWith, fuelFor.
  destruct (programLoop_passes (4 * List.length tokens + 3) (4 * List.length tokens + 4) 0 Hall)
    as [j Hj]; [lia|].
  replace (4 * List.length tokens + 4)%nat with (S (4 * List.length tokens + 3)) at 1 by lia.
  by rewrite Hj.
Qed.

(** *** The end of the file inside a block *)

(** X12.  On the end-of-file token the loop of [parseBlock] goes round
    without moving: the statement parser returns no statement, the
    index stays, and whatever the fuel the loop does not end. *)
Theorem block_never_ends_at_end_of_file fuel i t : ∀ n statements,
  tokens !! i = Some t → getType t = EOF_TOKEN →
  blockLoop tokens (λ i, parseStatement tokens fuel i) n statements i = Crash OutOfFuel.
Proof.
  intros n statements Ht Heof. revert statements.
  assert (startsStatement t = false) as Hs.
  { unfold startsStatement, tokenIs, isType. rewrite Heof. by repeat case_bool_decide. }
  assert (isType INDENTATION_TOKEN t = false ∧ isType EOF_TOKEN t = true) as [Hind Hteof].
  { unfold isType. rewrite Heof. by repeat case_bool_decide. }
  induction n as [|n IH]; intros statements; [done|]. cbn [blockLoop].
  unfold mbind at 1, P_bind at 1, index.
  rewrite bool_decide_eq_true_2 by by eapply lookup_lt_Some.
  unfold mbind at 1, P_bind at 1, tokenAt at 1. rewrite Nat.add_0_r, Ht, Hind. simpl.
  destruct fuel as [|fuel']; [done|].
  unfold mbind at 1, P_bind at 1. rewrite (parseStatement_passes fuel' i t Ht Hs).
  unfold mbind at 1, P_bind at 1, tokenAt at 1. rewrite Nat.add_0_r, Ht, Hteof. simpl.
  apply IH.
Qed.

End WithTokens.

Lemma operands_have_their_levels_witness :
  ∃ toks e j,
    Lexer.tokenize "1 * 2 * 3 or a" = Ok toks
    ∧ parseExpression toks 20 0 = Ok (e, j)
    ∧ stratified e = true ∧ level e = 6%nat.
Proof.
  eexists _, _, _. split; [vm_compute; reflexivity|].
  match goal with
  | |- parseExpression ?toks ?fuel ?i = Ok (?e, ?j) ∧ _ =>
      assert (parseExpression toks fuel i = Ok (e, j)) as Hparse
        by (vm_compute; reflexivity);
      split; [exact Hparse|]; split; [|reflexivity];
      exact (operands_have_their_levels toks fuel i _ _ Hparse)
  end.
Defined.

Lemma stray_tokens_are_passed_over_witness :
  let toks := [mkToken 1 1 (PunctuationToken PunctuationToken.RPAR);
               mkToken 1 2 (NumberToken 5); mkToken 1 2 EndOfFileToken] in
  Forall (λ t, startsStatement t = false) toks
  ∧ parseProgram toks = Ok (mkProgram []).
Proof.
  intros toks.
  assert (Forall (λ t, startsStatement t = false) toks) as Hall by (repeat constructor).
  split; [exact Hall|]. apply (stray_tokens_are_passed_over toks Hall).
Defined.

Lemma block_never_ends_at_end_of_file_witness :
  let toks := [mkToken 1 0 EndOfFileToken] in
  toks !! 0%nat = Some (mkToken 1 0 EndOfFileToken)
  ∧ blockLoop toks (λ i, parseStatement toks 5 i) 7 [] 0 = Crash OutOfFuel.
Proof.
  intros toks. split; [reflexivity|].
  apply (block_never_ends_at_end_of_file toks 5 0 (mkToken 1 0 EndOfFileToken) 7 []);
    reflexivity.
Defined.

End GrammarFacts.

(** ** The tokens of a source *)

Module TokenFacts.
Import Lexer Source Tokens LexerFacts.
Local Open Scope Z_scope.

Lemma digitValue_bounds c : isDigit c = true → 0 ≤ digitValue c ≤ 9.
Proof.
  unfold isDigit, inRange, digitValue. rewrite andb_true_iff, !Nat.leb_le.
  change (nat_of_ascii "0") with 48%nat. change (nat_of_ascii "9") with 57%nat. lia.
Qed.

Lemma decimalValue_nonneg l : ∀ acc,
  0 ≤ acc → forallb isDigit l = true →
  0 ≤ decimalValue acc (string_of_list_ascii l).
Proof.
  induction l as [|c l IH]; intros acc Hacc Hall; simpl in *; [done|].
  apply andb_true_iff in Hall as [Hc Hl]. apply IH; [|done].
  pose proof (digitValue_bounds c Hc). lia.
Qed.

Lemma word_of_list ch taken :
  String ch EmptyString +:+ string_of_list_ascii taken = string_of_list_ascii (ch :: taken).
Proof. done. Qed.

Lemma emit_plain s s0 d (file0 : list ascii) s' (file' : list ascii) :
  res s0 = res s → parStack_ (lx s0) = parStack_ (lx s) →
  wellFormed (stamp s0 d) → opening (stamp s0 d) = None →
  closing (stamp s0 d) = None →
  Ok (emit s0 d, file0) = Ok (s', file') →
  (res s' = res s ∧ parStack_ (lx s') = parStack_ (lx s))
  ∨ ∃ t, res s' = res s ++ [t] ∧ wellFormed t
         ∧ moves (parStack_ (lx s)) t (parStack_ (lx s')).
Proof.
  intros Hres Hpar Hwf Hopen Hclose [= <- <-]. right.
  exists (stamp s0 d). simpl. rewrite Hres. split; [done|]. split; [done|].
  unfold moves. by rewrite Hopen, Hclose.
Qed.

Lemma consume_keeps s file0 s1 file1 :
  consume s file0 = (s1, file1) →
  res s1 = res s ∧ parStack_ (lx s1) = parStack_ (lx s).
Proof.
  unfold consume, getChar.
  destruct file0 as [|c rest]; intros [= <- <-]; simpl; [done|].
  split; [done|]. apply advance_stacks.
Qed.

Ltac plain :=
  first
    [ by eapply emit_plain
    | match goal with
      | |- context [consume ?s ?f] =>
          let E := fresh in
          destruct (consume s f) as [? ?] eqn:E;
          apply consume_keeps in E as [? ?]; by eapply emit_plain
      end ].

Lemma scanToken_token s ch file s' file' :
  scanToken s ch file = Ok (s', file') →
  (res s' = res s ∧ parStack_ (lx s') = parStack_ (lx s))
  ∨ ∃ t, res s' = res s ++ [t] ∧ wellFormed t
         ∧ moves (parStack_ (lx s)) t (parStack_ (lx s')).
Proof.
  unfold scanToken.
  destruct (isLetter ch) eqn:Hletter.
  { destruct (readWhile isWordChar (lx s) file (String ch EmptyString))
      as [[l rest] word] eqn:Hread.
    apply readWhile_spec in Hread as (taken & -> & Hall & -> & Hi & Hp & Hpos).
    rewrite word_of_list. set (word := string_of_list_ascii (ch :: taken)).
    destruct (isReservedWord word) eqn:Hres.
    { unfold newReservedKeywordToken.
      repeat (case_match; simpl; try discriminate); intros [= <- <-]; right;
        (eexists; split; [reflexivity|]; split; [done|]); simpl; done. }
    destruct (isBoolOperator word) eqn:Hbool.
    { unfold newBoolOpToken.
      repeat (case_match; simpl; try discriminate); intros [= <- <-]; right;
        (eexists; split; [reflexivity|]; split; [done|]); simpl; done. }
    destruct (String.eqb word "True") eqn:Ht.
    { intros [= <- <-]. right. eexists. split; [reflexivity|]. by split. }
    destruct (String.eqb word "False") eqn:Hf.
    { intros [= <- <-]. right. eexists. split; [reflexivity|]. by split. }
    assert (isIdentifier word = true) as Hid.
    { unfold isIdentifier. rewrite Hres, Hbool, Ht, Hf. unfold word.
      by rewrite list_ascii_of_string_of_list_ascii, Hletter, Hall. }
    intros [= <- <-]. right. eexists. split; [reflexivity|]. by split. }
  destruct (inRange "1" "9" ch) eqn:Hnum.
  { destruct (readWhile isDigit (lx s) file (String ch EmptyString))
      as [[l rest] numStr] eqn:Hread.
    apply readWhile_spec in Hread as (taken & -> & Hall & -> & Hi & Hp & Hpos).
    rewrite word_of_list. unfold newNumberToken.
    destruct (_ <=? INT_MAX) eqn:Hmax; cbn [bindO]; [|by intros [=]].
    intros [= <- <-]. right. eexists. split; [reflexivity|]. split; [|done].
    split; [|by apply Z.leb_le].
    apply (decimalValue_nonneg (ch :: taken) 0); [lia|]. simpl.
    by rewrite (inRange_digit _ Hnum), Hall. }
  destruct (isNewline ch).
  { intros [= <- <-]. right. eexists. simpl. split; [reflexivity|]. by split. }
  destruct (Ascii.eqb ch "0").
  { destruct (peekIs isDigit file); [done|]. unfold newNumberToken. simpl.
    intros [= <- <-]. right. eexists. simpl. split; [reflexivity|]. by split. }
  destruct (Ascii.eqb ch "="). { destruct (peekIs _ file); plain. }
  destruct (Ascii.eqb ch "!" && _). { plain. }
  destruct (Ascii.eqb ch "<"). { destruct (peekIs _ file); plain. }
  destruct (Ascii.eqb ch ">"). { destruct (peekIs _ file); plain. }
  destruct (Ascii.eqb ch "+"). { plain. }
  destruct (Ascii.eqb ch "-"). { plain. }
  destruct (Ascii.eqb ch "*"). { plain. }
  destruct (Ascii.eqb ch "/"). { destruct (peekIs _ file); [plain|done]. }
  destruct (Ascii.eqb ch ":"). { plain. }
  destruct (Ascii.eqb ch "."). { plain. }
  destruct (Ascii.eqb ch "(").
  { intros [= <- <-]. right. eexists. simpl. split; [reflexivity|]. by split. }
  destruct (Ascii.eqb ch ")").
  { simpl. destruct (parStack_ (lx s)) as [|top below] eqn:Hstack; [done|].
    destruct (top =? 0) eqn:Htop; [done|]. intros [= <- <-]. right.
    eexists. simpl. split; [reflexivity|]. split; [done|].
    exists top. split; [done|]. simpl. by apply Z.eqb_neq. }
  destruct (Ascii.eqb ch "[").
  { intros [= <- <-]. right. eexists. simpl. split; [reflexivity|]. by split. }
  destruct (Ascii.eqb ch "]").
  { simpl. destruct (parStack_ (lx s)) as [|top below] eqn:Hstack; [done|].
    destruct (top =? 1) eqn:Htop; [done|]. simpl. intros [= <- <-]. right.
    eexists. simpl. split; [reflexivity|]. split; [done|].
    exists top. split; [done|]. simpl. by apply Z.eqb_neq. }
  destruct (negb _); [done|]. intros [= <- <-]. by left.
Qed.

Lemma handleIndentation_parStack s ch f :
  handleIndentation s ch = Ok f → parStack_ (lx (flowState f)) = parStack_ (lx s).
Proof.
  unfold handleIndentation.
  repeat (case_match; try discriminate); intros [= <-]; done.
Qed.

Lemma openBrackets_snoc toks t :
  openBrackets (toks ++ [t]) = afterToken (openBrackets toks) t.
Proof. unfold openBrackets. by rewrite foldl_app. Qed.

Lemma openBrackets_quiet new : ∀ toks,
  Forall (λ t, opening t = None ∧ closing t = None) new →
  openBrackets (toks ++ new) = openBrackets toks.
Proof.
  induction new as [|t new IH] using rev_ind; intros toks Hall.
  - by rewrite app_nil_r.
  - apply Forall_app in Hall as [Hnew [[Ho Hc] _]%Forall_cons].
    rewrite app_assoc, openBrackets_snoc, IH by done.
    destruct (openBrackets toks); simpl; [|done]. by rewrite Ho, Hc.
Qed.

Lemma layout_quiet l c b : quietToken (mkToken l c (IndentationToken b)).
Proof. by repeat split. Qed.

Lemma moves_open stack t stack' open :
  moves stack t stack' → stack = map mark open →
  ∃ open', afterToken (Some open) t = Some open' ∧ stack' = map mark open'.
Proof.
  unfold moves, afterToken.
  destruct (opening t) as [b|]; [|destruct (closing t) as [b|]].
  - intros -> ->. by exists (b :: open).
  - intros (top & -> & Htop) Hopen.
    destruct open as [|o below]; [done|]. injection Hopen as -> ->.
    exists below. split; [|done].
    destruct (decide (o = b)) as [|Hne]; [done|]. by destruct o, b.
  - intros -> ->. by exists open.
Qed.

Lemma tidy_quiet s s' new :
  tidy s → res s' = res s ++ new → Forall quietToken new →
  parStack_ (lx s') = parStack_ (lx s) → tidy s'.
Proof.
  intros (Hwf & Heof & open & Hopen & Hstack) Hres Hnew Hpar.
  unfold tidy. rewrite Hres. split; [|split].
  - apply Forall_app. split; [done|]. eapply Forall_impl; [exact Hnew|]. by intros t [? _].
  - apply Forall_app. split; [done|]. eapply Forall_impl; [exact Hnew|]. by intros t (_ & _ & _ & ?).
  - exists open. rewrite openBrackets_quiet, Hpar; [done|].
    eapply Forall_impl; [exact Hnew|]. by intros t (_ & ? & ? & _).
Qed.

Lemma scanToken_no_eof s ch file s' file' :
  scanToken s ch file = Ok (s', file') →
  res s' = res s ∨ ∃ t, res s' = res s ++ [t] ∧ getType t ≠ EOF_TOKEN.
Proof.
  intros (taken & _ & _ & _ & [[E _]|(d & E & Hsp)])%scanToken_spec; [by left|].
  right. eexists. split; [exact E|]. unfold getType. simpl.
  destruct d; try done. unfold spells in Hsp. simpl in Hsp.
  by apply list_elem_of_singleton in Hsp.
Qed.

Lemma lexStep_tidy s ch rest s' rest' :
  tidy s →
  lexStep (setLexer s (advance (lx s) ch)) ch rest = Ok (s', rest') →
  tidy s'.
Proof.
  intros Ht. unfold lexStep.
  destruct (handleIndentation _ ch) as [f| |] eqn:Hind; [|done..].
  pose proof (handleIndentation_parStack _ _ _ Hind) as Hpar.
  apply handleIndentation_spec in Hind as (_ & _ & _ & new & Hres & Hnew & _).
  assert (tidy (flowState f)) as Hmid.
  { eapply tidy_quiet; [exact Ht|exact Hres| |].
    - eapply Forall_impl; [exact Hnew|]. intros t [b ->]. apply layout_quiet.
    - rewrite Hpar. simpl. apply advance_stacks. }
  destruct f as [mid|mid]; simpl in *.
  - by intros [= <- <-].
  - intros Hscan. pose proof (scanToken_no_eof _ _ _ _ _ Hscan) as Hne.
    apply scanToken_token in Hscan as [[Hr Hp]|(t & Hr & Hwf & Hmv)].
    + eapply (tidy_quiet mid _ []); [done|by rewrite app_nil_r|done|done].
    + destruct Hmid as (Hwf0 & Heof0 & open & Hopen & Hstack).
      destruct (moves_open _ _ _ _ Hmv Hstack) as (open' & Ha & Hs').
      unfold tidy. rewrite Hr. split; [|split].
      * apply Forall_app; split; [done|]. by constructor.
      * apply Forall_app; split; [done|]. constructor; [|done].
        destruct Hne as [E|(t' & E & Ht')]; rewrite Hr in E.
        -- apply (f_equal List.length) in E. rewrite length_app in E. simpl in E. lia.
        -- by apply app_inj_tail in E as [_ ->].
      * exists open'. by rewrite openBrackets_snoc, Hopen.
Qed.

Lemma tokenize_tidy src toks :
  tokenizeInputFile src = Ok toks →
  ∃ body l c,
    toks = body ++ [mkToken l c EndOfFileToken]
    ∧ Forall wellFormed body
    ∧ Forall (λ t, getType t ≠ EOF_TOKEN) body
    ∧ openBrackets body = Some [].
Proof.
  intros (s & Hloop & Hfin)%tokenize_inv.
  assert (balanced s ∧ tidy s) as [[Hne _] Ht].
  { eapply (lexLoop_invariant (λ s _, balanced s ∧ tidy s)); [| |exact Hloop].
    - intros ????? [??] ?. split; [by eapply lexStep_balanced|by eapply lexStep_tidy].
    - split; [by split|]. split; [done|]. split; [done|]. by exists []. }
  assert (parStack_ (lx s) = []) as Hpar.
  { unfold finish in Hfin. by destruct (parStack_ (lx s)). }
  apply finish_spec in Hfin as ->; [|done].
  set (dedents := replicate _ _).
  assert (tidy (mkScan (lx s) (res s ++ dedents) 0 true))
    as (Hwf & Heof & open & Hopen & Hstack).
  { eapply tidy_quiet; [exact Ht|done| |done].
    apply Forall_replicate. apply layout_quiet. }
  simpl in *. rewrite Hpar in Hstack. destruct open; [|done].
  exists (res s ++ dedents), (line_ (lx s)), (column_ (lx s)).
  by rewrite app_assoc.
Qed.

(** X13.  Every token of a source that the lexer tokenizes carries a
    value that its class gives a meaning to: a number between 0 and
    [INT_MAX], an identifier that starts with a letter, goes on with
    letters and digits and is no keyword, no boolean operator and
    neither [True] nor [False], and an operator, keyword or punctuation
    code of its enumeration. *)
Theorem tokens_are_well_formed src toks :
  tokenizeInputFile src = Ok toks → Forall wellFormed toks.
Proof.
  intros (body & l & c & -> & Hwf & _)%tokenize_tidy.
  apply Forall_app. split; [done|]. by constructor.
Qed.

Lemma tokens_are_well_formed_witness :
  ∃ toks, tokenize "while x1 != 20:" = Ok toks
          ∧ List.length toks = 6%nat ∧ Forall wellFormed toks.
Proof.
  eexists. split; [vm_compute; reflexivity|]. split; [reflexivity|].
  apply (tokens_are_well_formed (list_ascii_of_string "while x1 != 20:")).
  vm_compute. reflexivity.
Defined.

(** X14.  In the tokens of a source that the lexer tokenizes the round
    and the square brackets are nested: every closing bracket closes the
    innermost bracket that is open, which is of its kind, and none is
    left open at the end. *)
Theorem brackets_are_nested src toks :
  tokenizeInputFile src = Ok toks → openBrackets toks = Some [].
Proof.
  intros (body & l & c & -> & _ & _ & Hopen)%tokenize_tidy.
  by rewrite openBrackets_snoc, Hopen.
Qed.

Lemma brackets_are_nested_witness :
  ∃ toks, tokenize "a[(1 + b[2])]" = Ok toks
          ∧ List.length toks = 12%nat ∧ openBrackets toks = Some [].
Proof.
  eexists. split; [vm_compute; reflexivity|]. split; [reflexivity|].
  apply (brackets_are_nested (list_ascii_of_string "a[(1 + b[2])]")).
  vm_compute. reflexivity.
Defined.

(** X15.  The tokens of a source that the lexer tokenizes end with the
    end-of-file token, and no token before it is one. *)
Theorem end_of_file_token_is_last src toks :
  tokenizeInputFile src = Ok toks →
  ∃ body eof, toks = body ++ [eof] ∧ getType eof = EOF_TOKEN
              ∧ Forall (λ t, getType t ≠ EOF_TOKEN) body.
Proof.
  intros (body & l & c & -> & _ & Heof & _)%tokenize_tidy.
  by exists body, (mkToken l c EndOfFileToken).
Qed.

Lemma end_of_file_token_is_last_witness :
  ∃ body eof, tokenize "x = 1" = Ok (body ++ [eof]) ∧ getType eof = EOF_TOKEN
              ∧ Forall (λ t, getType t ≠ EOF_TOKEN) body.
Proof.
  destruct (end_of_file_token_is_last (list_ascii_of_string "x = 1")
              [mkToken 1 1 (IdToken "x"); mkToken 1 3 AssignmentToken;
               mkToken 1 5 (NumberToken 1); mkToken 1 5 EndOfFileToken])
    as (body & eof & Htoks & Heof & Hbody); [reflexivity|].
  exists body, eof. split; [|by split].
  by rewrite <- Htoks.
Defined.

End TokenFacts.

(** ** The shape of the syntax trees *)

Module TreeFacts.
Import Parser Shape Trees ParserFacts.

Lemma shaped_compound stype condition blocks p :
  shaped (CompoundStatement stype condition blocks p)
  = blocksOf stype blocks && forallb shapedBlock blocks.
Proof. reflexivity. Qed.

Lemma shaped_simple stmts p :
  shapedBlock (SimpleBlock stmts p) = forallb shaped stmts.
Proof. reflexivity. Qed.

Lemma elifs_then_else blocks last :
  forallb isElif blocks = true →
  isElse last = true →
  elifsThenElse (blocks ++ [last]) = true.
Proof.
  induction blocks as [|b rest IH]; simpl.
  - intros _. by destruct last.
  - intros [Hb Hrest]%andb_true_iff Hlast. destruct b; try done. by apply IH.
Qed.

Lemma elifs_only blocks :
  forallb isElif blocks = true →
  elifsThenElse blocks = true.
Proof.
  induction blocks as [|b rest IH]; simpl; [done|].
  intros [Hb Hrest]%andb_true_iff. destruct b; try done. by apply IH.
Qed.

Section WithTokens.
Variable tokens : list Token.

Lemma yields_fmap {A B} (Q : B → Prop) (f : A → B) (m : P A) :
  yields (λ a, Q (f a)) m → yields Q (f <$> m).
Proof.
  intros Hm i b j. unfold fmap, P_fmap.
  destruct (m i) as [[a i1]| |] eqn:Hmi; [|done..].
  intros [= <- <-]. by eapply Hm.
Qed.

Lemma isLocation_parseLocation rec :
  yields (λ e, isLocation e = true) (parseLocation tokens rec).
Proof.
  unfold parseLocation, parseListElementLocation.
  apply yields_then; intros t. destruct (tok_data t); try apply yields_throw.
  apply yields_then; intros _. apply yields_then; intros t'.
  destruct (tokenIs _ _ t').
  - repeat (apply yields_then; intros ?). by apply yields_ret.
  - apply yields_then; intros pos. by apply yields_ret.
Qed.

Section Statements.
Variable fuel : nat.
Variable recStatement : P (option Statement).
Hypothesis shaped_recStatement :
  yields (λ o, ∀ s, o = Some s → shaped s = true) recStatement.

Ltac plain := repeat (apply yields_then; intros ?); by apply yields_ret.

Lemma shaped_blockLoop n : ∀ statements,
  forallb shaped statements = true →
  yields (λ l, forallb shaped l = true) (blockLoop tokens recStatement n statements).
Proof.
  induction n as [|n IH]; intros statements Hs; simpl; [apply yields_crash|].
  apply yields_then; intros i. case_bool_decide; [|by apply yields_ret].
  apply yields_then; intros t. destruct (_ || _); [|by apply yields_ret].
  eapply yields_bind; [exact shaped_recStatement|]. intros [s|] Hstmt.
  - apply IH. rewrite forallb_app, Hs. simpl. by rewrite (Hstmt s eq_refl).
  - apply yields_then; intros t'. destruct (negb _).
    + apply yields_then; intros _. by apply IH.
    + by apply IH.
Qed.

Lemma shaped_parseBlock :
  yields (λ b, isSimple b = true ∧ shapedBlock b = true)
         (parseBlock tokens fuel recStatement).
Proof.
  unfold parseBlock. apply yields_then; intros _. apply yields_then; intros t.
  apply yields_then; intros _.
  eapply yields_bind; [by apply shaped_blockLoop|]. intros statements Hs.
  apply yields_then; intros _. apply yields_then; intros pos.
  apply yields_ret. by rewrite shaped_simple.
Qed.

Lemma shaped_parseElseBlock :
  yields (λ b, isElse b = true ∧ shapedBlock b = true)
         (parseElseBlock tokens fuel recStatement).
Proof.
  unfold parseElseBlock. apply yields_then; intros _. apply yields_then; intros _.
  eapply yields_bind; [exact shaped_parseBlock|]. intros block [Hs Hb].
  apply yields_then; intros pos. apply yields_ret. simpl. by rewrite Hs, Hb.
Qed.

Lemma shaped_parseElifBlock :
  yields (λ b, isElif b = true ∧ shapedBlock b = true)
         (parseElifBlock tokens fuel recStatement).
Proof.
  unfold parseElifBlock. apply yields_then; intros _. apply yields_then; intros expr.
  apply yields_then; intros _.
  eapply yields_bind; [exact shaped_parseBlock|]. intros block [Hs Hb].
  apply yields_then; intros pos. apply yields_ret. simpl. by rewrite Hs, Hb.
Qed.

Lemma shaped_elifLoop n first : ∀ blocks,
  elifs blocks →
  yields (λ l, ∃ more, l = first :: more ∧ elifs more)
         (elifLoop tokens fuel recStatement n (first :: blocks)).
Proof.
  induction n as [|n IH]; intros blocks [Ht Hs]; simpl; [apply yields_crash|].
  apply yields_then; intros t. destruct (tokenIs _ _ t).
  - eapply yields_bind; [exact shaped_parseElifBlock|]. intros b [Hb Hsb].
    apply (IH (blocks ++ [b])). split; rewrite forallb_app.
    + rewrite Ht. simpl. by rewrite Hb.
    + rewrite Hs. simpl. by rewrite Hsb.
  - apply yields_ret. by exists blocks.
Qed.

Lemma shaped_parseCompoundStatement :
  yields (λ s, shaped s = true) (parseCompoundStatement tokens fuel recStatement).
Proof.
  unfold parseCompoundStatement. apply yields_then; intros t.
  eapply (yields_bind (λ stype, stype = IF_STMT ∨ stype = WHILE_STMT)).
  { destruct (tokenIs _ _ t); [apply yields_ret; by left|].
    destruct (tokenIs _ _ t); [apply yields_ret; by right|]. apply yields_throw. }
  intros stype Hstype. apply yields_then; intros _. apply yields_then; intros expr.
  apply yields_then; intros _.
  eapply yields_bind; [exact shaped_parseBlock|]. intros block [Hsimple Hblock].
  eapply (yields_bind (λ blocks, blocksOf stype blocks = true
                                 ∧ forallb shapedBlock blocks = true)).
  { case_bool_decide as Hif.
    - subst stype.
      eapply yields_bind; [by apply (shaped_elifLoop fuel block [])|].
      intros blocks (more & -> & Ht & Hs). apply yields_then; intros t'.
      destruct (tokenIs _ _ t').
      + eapply yields_bind; [exact shaped_parseElseBlock|]. intros e [He Hse].
        apply yields_ret. simpl. rewrite Hsimple, Hblock. simpl.
        rewrite forallb_app, Hs. simpl. rewrite Hse. split; [|done].
        by apply elifs_then_else.
      + apply yields_ret. simpl. rewrite Hsimple, Hblock, Hs. split; [|done].
        by apply elifs_only.
    - destruct Hstype as [->| ->]; [done|]. apply yields_ret. simpl.
      by rewrite Hsimple, Hblock. }
  intros blocks [Hof Hall]. apply yields_then; intros pos. apply yields_ret.
  by rewrite shaped_compound, Hof, Hall.
Qed.

Lemma shaped_parseStatementBody :
  yields (λ o, ∀ s, o = Some s → shaped s = true)
         (parseStatementBody tokens fuel recStatement).
Proof.
  assert (∀ m : P Statement, yields (λ s, shaped s = true) m →
            yields (λ o, ∀ s, o = Some s → shaped s = true) (Some <$> m)) as Hsome.
  { intros m Hm. apply yields_fmap. eapply yields_weaken; [|exact Hm].
    by intros s Hs s' [= <-]. }
  unfold parseStatementBody. apply yields_then; intros t.
  destruct (tokenIs _ _ t).
  { apply Hsome. unfold parsePrintStatement. plain. }
  destruct (tokenIs _ _ t).
  { apply Hsome. unfold parseBreakStatement. plain. }
  destruct (tokenIs _ _ t).
  { apply Hsome. unfold parseContinueStatement. plain. }
  destruct (isType ID_TOKEN t).
  { apply yields_then; intros t1. apply yields_then; intros [|].
    { apply Hsome. unfold parseListAppendStatement.
      apply yields_then; intros t0. destruct (tok_data t0); try apply yields_throw. plain. }
    apply yields_then; intros [|].
    { apply Hsome. unfold parseListDeclarationStatement.
      apply yields_then; intros t0. destruct (tok_data t0); try apply yields_throw. plain. }
    apply Hsome. unfold parseAssignmentStatement.
    eapply yields_bind; [apply isLocation_parseLocation|]. intros loc Hloc. plain. }
  destruct (tokenIs _ _ t); [apply Hsome, shaped_parseCompoundStatement|].
  destruct (tokenIs _ _ t); [apply Hsome, shaped_parseCompoundStatement|].
  by apply yields_ret.
Qed.

End Statements.

Lemma shaped_parseStatement fuel :
  yields (λ o, ∀ s, o = Some s → shaped s = true) (parseStatement tokens fuel).
Proof.
  induction fuel as [|fuel IH]; simpl; [apply yields_crash|].
  by apply shaped_parseStatementBody.
Qed.

Lemma shaped_programLoop fuel n : ∀ statements,
  forallb shaped statements = true →
  yields (λ l, forallb shaped l = true) (programLoop tokens fuel n statements).
Proof.
  induction n as [|n IH]; intros statements Hs; cbn [programLoop]; [apply yields_crash|].
  apply yields_then; intros i. case_bool_decide; [|by apply yields_ret].
  eapply yields_bind; [apply shaped_parseStatement|]. intros [s|] Hstmt.
  - apply IH. rewrite forallb_app, Hs. simpl. by rewrite (Hstmt s eq_refl).
  - apply yields_then; intros t. destruct (isType _ t); [by apply yields_ret|].
    apply yields_then; intros _. by apply IH.
Qed.

End WithTokens.

Lemma shaped_parseProgram tokens program :
  parseProgram tokens = Ok program →
  forallb shaped (getStatements program) = true.
Proof.
  unfold parseProgram, parseProgramWith.
  destruct (programLoop _ _ _ _ _) as [[statements j]| |] eqn:Hloop; [|done..].
  intros [= <-]. simpl. by eapply (shaped_programLoop tokens); [|exact Hloop].
Qed.

(** X16.  Every statement of a program that the parser returns is as
    the visitor takes it to be: the target of an assignment is a name or
    a list element; an [if] holds a simple block, then blocks [elif],
    then at most one block [else]; a [while] holds one simple block; the
    block inside an [elif] or an [else] is a simple block; and so on
    inside the blocks. *)
Theorem parsed_statements_are_shaped tokens program :
  parseProgram tokens = Ok program →
  forallb shaped (getStatements program) = true.
Proof. apply shaped_parseProgram. Qed.

Lemma parsed_statements_are_shaped_witness :
  ∃ toks program,
    Lexer.tokenize scenario6 = Ok toks ∧ parseProgram toks = Ok program
    ∧ List.length (getStatements program) = 2%nat
    ∧ forallb shaped (getStatements program) = true.
Proof.
  eexists _, _. split; [vm_compute; reflexivity|].
  match goal with
  | |- parseProgram ?toks = Ok ?program ∧ _ =>
      assert (parseProgram toks = Ok program) as Hparse by (vm_compute; reflexivity);
      split; [exact Hparse|]; split; [reflexivity|];
      exact (parsed_statements_are_shaped toks _ Hparse)
  end.
Defined.


End TreeFacts.

(** ** Unchecked accesses in the visitor *)

Module CheckFacts.
Import Visitor Frames FrameFacts Trees Checks.
Local Open Scope Z_scope.

Lemma checked_Ok {A} (a : A) : checked (Ok a).
Proof. done. Qed.

Lemma checked_Throw {A} e : checked (Throw e : Outcome A).
Proof. done. Qed.

Lemma checked_bindO {A B} (m : Outcome A) (k : A → Outcome B) :
  checked m → (∀ a, checked (k a)) → checked (bindO m k).
Proof.
  intros Hm Hk. destruct m as [a|e|f]; simpl; [apply Hk|done|].
  intros [= ->]. by apply Hm.
Qed.

Lemma checked_bind {A B} (m : Outcome A) (k : A → Outcome B) :
  checked m → (∀ a, checked (k a)) → checked (m ≫= k).
Proof. apply checked_bindO. Qed.

Lemma checked_fmap {A B} (f : A → B) (m : Outcome A) : checked m → checked (f <$> m).
Proof. intros Hm. apply checked_bindO; [done|]. intros a. apply checked_Ok. Qed.

Lemma checked_trap {A} : checked (Crash ArithmeticTrap : Outcome A).
Proof. done. Qed.

Ltac check_step :=
  first
    [ apply checked_Ok | apply checked_Throw | apply checked_trap
    | assumption
    | apply checked_bind; [|intros ?]
    | apply checked_bindO; [|intros ?]
    | apply checked_fmap
    | case_match ].

(** The test of the bounds stands before the read of the element. *)
Lemma checked_table_getListElement st id i :
  checked (SymbolTable.getListElement st id i).
Proof.
  unfold SymbolTable.getListElement, SymbolTable.listNotDefined.
  destruct (lists_ st !! id) as [l|]; [|done].
  destruct ((i <? 0) || (i >=? Z.of_nat (List.length l))) eqn:Hb; [done|].
  apply StoreFacts.inside_iff in Hb.
  destruct (lookup_lt_is_Some_2 l (Z.to_nat i)) as [x ->]; [lia|done].
Qed.

Lemma checked_table_getVariableValue st id : checked (SymbolTable.getVariableValue st id).
Proof. unfold SymbolTable.getVariableValue. repeat check_step. Qed.
Lemma checked_table_getListSize st id : checked (SymbolTable.getListSize st id).
Proof. unfold SymbolTable.getListSize, SymbolTable.listNotDefined. repeat check_step. Qed.
Lemma checked_table_addVariable st id x : checked (SymbolTable.addVariable st id x).
Proof. unfold SymbolTable.addVariable. repeat check_step. Qed.
Lemma checked_table_updateVariable st id x : checked (SymbolTable.updateVariable st id x).
Proof. unfold SymbolTable.updateVariable. repeat check_step. Qed.
Lemma checked_table_appendToList st id x : checked (SymbolTable.appendToList st id x).
Proof. unfold SymbolTable.appendToList, SymbolTable.listNotDefined. repeat check_step. Qed.
Lemma checked_table_updateListElement st id i x :
  checked (SymbolTable.updateListElement st id i x).
Proof. unfold SymbolTable.updateListElement, SymbolTable.listNotDefined. repeat check_step. Qed.
Lemma checked_table_clear st id : checked (SymbolTable.clear st id).
Proof. unfold SymbolTable.clear, SymbolTable.listNotDefined. repeat check_step. Qed.

Lemma checked_element_getIntValue x : checked (EvaluatedElement.getIntValue x).
Proof. unfold EvaluatedElement.getIntValue. repeat check_step. Qed.
Lemma checked_element_getBoolValue x : checked (EvaluatedElement.getBoolValue x).
Proof. unfold EvaluatedElement.getBoolValue. repeat check_step. Qed.

Section WithTokens.
Variable tokens : list Token.

Lemma checked_getVariableValue st id p : checked (getVariableValue tokens st id p).
Proof. unfold getVariableValue. repeat (apply checked_table_getVariableValue || check_step). Qed.
Lemma checked_getListElement st id i p : checked (getListElement tokens st id i p).
Proof. unfold getListElement. repeat (apply checked_table_getListElement || check_step). Qed.
Lemma checked_getListSize st id p : checked (getListSize tokens st id p).
Proof. unfold getListSize. repeat (apply checked_table_getListSize || check_step). Qed.

Lemma checked_eitherIsNot T a b : checked a → checked b → checked (eitherIsNot T a b).
Proof. intros Ha Hb. unfold eitherIsNot. repeat check_step. Qed.

Ltac eval_step :=
  first
    [ apply checked_eitherIsNot
    | apply checked_element_getIntValue | apply checked_element_getBoolValue
    | apply checked_getVariableValue | apply checked_getListElement
    | apply checked_getListSize | apply checked_table_getListElement
    | check_step ].

Lemma checked_eval_getDataType st expr :
  checked (eval tokens st expr) ∧ checked (getDataType tokens st expr).
Proof.
  induction expr; simpl;
    repeat match goal with H : _ ∧ _ |- _ => destruct H end;
    split; repeat eval_step.
Qed.

Lemma checked_eval st expr : checked (eval tokens st expr).
Proof. apply checked_eval_getDataType. Qed.


(** *** The member functions of the visitor *)

Lemma checkedAt_bind {A B} (m : V A) (k : A → V B) v :
  checkedAt m v → (∀ a v', m v = (Ok a, v') → checkedAt (k a) v') →
  checkedAt (m ≫= k) v.
Proof.
  unfold checkedAt, mbind, V_bind. intros Hm Hk.
  destruct (m v) as [[a|e|f] v1]; simpl in *; [by apply Hk|done|].
  intros [= ->]. by apply Hm.
Qed.

Lemma checkedAt_ret {A} (a : A) v : checkedAt (mret a) v.
Proof. done. Qed.
Lemma checkedAt_throw {A} e v : checkedAt (throw e : V A) v.
Proof. done. Qed.
Lemma checkedAt_fuel {A} v : checkedAt (crash OutOfFuel : V A) v.
Proof. done. Qed.
Lemma checkedAt_get v : checkedAt get v.
Proof. done. Qed.
Lemma checkedAt_lift {A} (m : Outcome A) v : checked m → checkedAt (lift m) v.
Proof. done. Qed.
Lemma checkedAt_setSymbolTable st v : checkedAt (setSymbolTable st) v.
Proof. done. Qed.
Lemma checkedAt_setConditionMetStack s v : checkedAt (setConditionMetStack s) v.
Proof. done. Qed.
Lemma checkedAt_setLoopStack s v : checkedAt (setLoopStack s) v.
Proof. done. Qed.
Lemma checkedAt_print line v : checkedAt (print line) v.
Proof. done. Qed.
Lemma checkedAt_evalNow e v : checkedAt (evalNow tokens e) v.
Proof. apply checked_eval. Qed.

Ltac at_step :=
  first
    [ apply checkedAt_ret | apply checkedAt_throw | apply checkedAt_get
    | apply checkedAt_setSymbolTable | apply checkedAt_setConditionMetStack
    | apply checkedAt_setLoopStack | apply checkedAt_print
    | apply checkedAt_evalNow
    | apply checkedAt_lift;
      first [ apply checked_table_addVariable | apply checked_table_updateVariable
            | apply checked_table_appendToList | apply checked_table_updateListElement
            | apply checked_table_clear | apply checked_element_getBoolValue
            | apply checked_element_getIntValue ]
    | assumption
    | apply checkedAt_bind; [|intros ? ? ?]
    | case_match ].

Lemma checkedAt_addVariable id x v : checkedAt (addVariable id x) v.
Proof. unfold addVariable. repeat at_step. Qed.
Lemma checkedAt_updateVariable id x v : checkedAt (updateVariable id x) v.
Proof. unfold updateVariable. repeat at_step. Qed.
Lemma checkedAt_addList id v : checkedAt (addList id) v.
Proof. unfold addList. repeat at_step. Qed.
Lemma checkedAt_appendToList id x v : checkedAt (appendToList id x) v.
Proof. unfold appendToList. repeat at_step. Qed.
Lemma checkedAt_updateListElement id i x v : checkedAt (updateListElement id i x) v.
Proof. unfold updateListElement. repeat at_step. Qed.
Lemma checkedAt_clearList id v : checkedAt (clearList id) v.
Proof. unfold clearList. repeat at_step. Qed.

Ltac visit_step :=
  first
    [ apply checkedAt_addVariable | apply checkedAt_updateVariable
    | apply checkedAt_addList | apply checkedAt_appendToList
    | apply checkedAt_updateListElement | apply checkedAt_clearList
    | at_step ].

Lemma checkedAt_visitAssignmentStatement loc expr v :
  checkedAt (visitAssignmentStatement tokens loc expr) v.
Proof. unfold visitAssignmentStatement. repeat visit_step. Qed.

Lemma checkedAt_visitListDeclarationStatement id p v :
  checkedAt (visitListDeclarationStatement tokens id p) v.
Proof. unfold visitListDeclarationStatement. repeat visit_step. Qed.

Lemma checkedAt_visitListAppendStatement id expr p v :
  checkedAt (visitListAppendStatement tokens id expr p) v.
Proof. unfold visitListAppendStatement. repeat visit_step. Qed.

Lemma checkedAt_visitPrintStatement expr v :
  checkedAt (visitPrintStatement tokens expr) v.
Proof. unfold visitPrintStatement. repeat visit_step. Qed.

Lemma checkedAt_visitContinueStatement p v :
  checkedAt (visitContinueStatement tokens p) v.
Proof. unfold visitContinueStatement. repeat visit_step. Qed.

(** With a frame on the stack, its flag can be written. *)
Lemma checkedAt_setConditionMet b v :
  conditionMetStack_ v ≠ [] → checkedAt (setConditionMet b) v.
Proof.
  intros Hs. unfold setConditionMet, checkedAt, mbind, V_bind, get, lift. simpl.
  by destruct (conditionMetStack_ v).
Qed.

Lemma checkedAt_setLoopActive b v :
  loopStack_ v ≠ [] → checkedAt (setLoopActive b) v.
Proof.
  intros Hs. unfold setLoopActive, checkedAt, mbind, V_bind, get, lift. simpl.
  by destruct (loopStack_ v).
Qed.

(** [visitBreakStatement] tests the stack before it writes the flag. *)
Lemma checkedAt_visitBreakStatement p v : checkedAt (visitBreakStatement tokens p) v.
Proof.
  unfold visitBreakStatement. apply checkedAt_bind; [done|].
  intros a v' [= <- <-]. destruct (loopStack_ v) eqn:Hs; simpl; [done|].
  apply checkedAt_setLoopActive. by rewrite Hs.
Qed.

Lemma sameBelow_nonempty (s s' : list bool) : sameBelow s s' → s ≠ [] → s' ≠ [].
Proof. intros [Hlen _] Hs. by destruct s, s'. Qed.

Lemma restores_conditions v v' :
  restores v v' → conditionMetStack_ v ≠ [] → conditionMetStack_ v' ≠ [].
Proof. intros [-> _]. done. Qed.

Lemma restoresBelow_conditions v v' :
  restoresBelow v v' → conditionMetStack_ v ≠ [] → conditionMetStack_ v' ≠ [].
Proof. intros [H _]. by apply sameBelow_nonempty. Qed.

Lemma restores_loops v v' :
  restores v v' → loopStack_ v ≠ [] → loopStack_ v' ≠ [].
Proof. intros [_ [H _]]. by apply sameBelow_nonempty. Qed.

Section Statements.
Variable recStatement : Statement → V unit.
Hypothesis restores_rec : ∀ stmt, onOk restores (recStatement stmt).
Hypothesis checked_rec : ∀ stmt v, shaped stmt = true → checkedAt (recStatement stmt) v.

Lemma checkedAt_forEach stmts : ∀ v,
  forallb shaped stmts = true → checkedAt (forEach recStatement stmts) v.
Proof.
  induction stmts as [|s rest IH]; intros v Hs; simpl; [done|].
  apply andb_true_iff in Hs as [Hs Hrest].
  apply checkedAt_bind; [by apply checked_rec|]. intros _ v' _. by apply IH.
Qed.

Lemma checkedAt_visitSimpleBlock b v :
  isSimple b = true → shapedBlock b = true →
  checkedAt (visitSimpleBlock recStatement b) v.
Proof. destruct b; try done. intros _ Hs. by apply checkedAt_forEach. Qed.

Lemma checkedAt_visitElseBlock block p v :
  shapedBlock (ElseBlock block p) = true →
  checkedAt (visitElseBlock tokens recStatement (ElseBlock block p)) v.
Proof.
  intros [Hsimple Hblock]%andb_true_iff. unfold visitElseBlock.
  apply checkedAt_bind; [done|]. intros a v' [= <- <-].
  destruct (conditionMetStack_ v) as [|[] s] eqn:Hs; [done..|].
  apply checkedAt_bind; [by apply checkedAt_visitSimpleBlock|].
  intros _ v1 Hv1%restores_visitSimpleBlock; [|done].
  apply checkedAt_setConditionMet. eapply restores_conditions; [done|]. by rewrite Hs.
Qed.

Lemma checkedAt_visitElifBlock condition block p v :
  shapedBlock (ElifBlock condition block p) = true →
  checkedAt (visitElifBlock tokens recStatement (ElifBlock condition block p)) v.
Proof.
  intros [Hsimple Hblock]%andb_true_iff. unfold visitElifBlock.
  apply checkedAt_bind; [done|]. intros a v' [= <- <-].
  destruct (conditionMetStack_ v) as [|[] s] eqn:Hs; [done..|].
  apply checkedAt_bind; [apply checkedAt_evalNow|]. intros value v1 [= _ <-].
  apply checkedAt_bind; [apply checkedAt_lift, checked_element_getBoolValue|].
  intros [] v2 [= _ <-]; [|done].
  assert (conditionMetStack_ v ≠ []) as Hne by by rewrite Hs.
  apply checkedAt_bind; [by apply checkedAt_setConditionMet|].
  intros _ v3 Hv3%restoresBelow_setConditionMet.
  apply checkedAt_bind; [by apply checkedAt_visitSimpleBlock|].
  intros _ v4 Hv4%restores_visitSimpleBlock; [|done].
  apply checkedAt_setConditionMet. eapply restores_conditions; [done|].
  by eapply restoresBelow_conditions.
Qed.


Local Abbreviation firstLoop :=
  (forEach (λ block, match getBlockType block with
                     | SIMPLE_BLOCK => visitSimpleBlock recStatement block
                     | ELIF_BLOCK => visitElifBlock tokens recStatement block
                     | ELSE_BLOCK => visitElseBlock tokens recStatement block
                     | IF_BLOCK => mret tt
                     end)).

Local Abbreviation secondLoop :=
  (forEach (λ block, match getBlockType block with
                     | ELIF_BLOCK => visitElifBlock tokens recStatement block
                     | ELSE_BLOCK => visitElseBlock tokens recStatement block
                     | _ => mret tt
                     end)).

Lemma checkedAt_firstLoop blocks : ∀ v,
  forallb shapedBlock blocks = true → checkedAt (firstLoop blocks) v.
Proof.
  induction blocks as [|b rest IH]; intros v Hs; [done|].
  cbn [forallb] in Hs. apply andb_true_iff in Hs as [Hb Hrest].
  rewrite ControlFacts.forEach_cons.
  apply checkedAt_bind; [|intros _ v' _; by apply IH].
  destruct b; cbn [getBlockType].
  - by apply checkedAt_visitSimpleBlock.
  - by apply checkedAt_visitElifBlock.
  - by apply checkedAt_visitElseBlock.
Qed.

Lemma checkedAt_secondLoop blocks : ∀ v,
  forallb shapedBlock blocks = true → checkedAt (secondLoop blocks) v.
Proof.
  induction blocks as [|b rest IH]; intros v Hs; [done|].
  cbn [forallb] in Hs. apply andb_true_iff in Hs as [Hb Hrest].
  rewrite ControlFacts.forEach_cons.
  apply checkedAt_bind; [|intros _ v' _; by apply IH].
  destruct b; cbn [getBlockType].
  - done.
  - by apply checkedAt_visitElifBlock.
  - by apply checkedAt_visitElseBlock.
Qed.

Lemma checkedAt_visitIfStatement condition blocks v :
  forallb shapedBlock blocks = true →
  checkedAt (visitIfStatement tokens recStatement condition blocks) v.
Proof.
  intros Hs. unfold visitIfStatement.
  apply checkedAt_bind; [apply checkedAt_evalNow|]. intros value v0 [= _ <-].
  apply checkedAt_bind; [done|]. intros a v0 [= <- <-].
  apply checkedAt_bind; [done|]. intros [] v1 [= Hv1].
  destruct value as [z|c]; [done|].
  destruct (restoresBelow_blocks tokens recStatement restores_rec c blocks)
    as [Hfirst Hsecond].
  assert (conditionMetStack_ v1 ≠ []) as Hne by by rewrite <- Hv1.
  apply checkedAt_bind.
  { destruct c; [|done].
    apply checkedAt_bind; [by apply checkedAt_setConditionMet|].
    intros _ v2 _. by apply checkedAt_firstLoop. }
  intros _ v2 Hv2%Hfirst.
  apply checkedAt_bind; [by apply checkedAt_secondLoop|].
  intros _ v3 Hv3%Hsecond.
  apply checkedAt_bind; [done|]. intros a v4 [= <- <-].
  assert (conditionMetStack_ v3 ≠ []) as Hne3.
  { eapply restoresBelow_conditions; [exact Hv3|].
    by eapply restoresBelow_conditions. }
  unfold checkedAt, mbind, V_bind, lift. simpl.
  by destruct (conditionMetStack_ v3).
Qed.

Lemma checkedAt_whileBody stmts : ∀ v,
  forallb shaped stmts = true → loopStack_ v ≠ [] →
  checkedAt (whileBody recStatement stmts) v.
Proof.
  induction stmts as [|s rest IH]; intros v Hs Hne; simpl; [done|].
  apply andb_true_iff in Hs as [Hs Hrest].
  case_bool_decide; [by apply checkedAt_setLoopActive|].
  case_bool_decide; [by apply IH|].
  apply checkedAt_bind; [by apply checked_rec|].
  intros _ v' Hv'%restores_rec. apply IH; [done|]. by eapply restores_loops.
Qed.

Lemma checkedAt_whileLoop n condition stmts p0 p : ∀ v,
  forallb shaped stmts = true → loopStack_ v ≠ [] →
  checkedAt (whileLoop tokens recStatement n condition [SimpleBlock stmts p0] p) v.
Proof.
  induction n as [|n IH]; intros v Hs Hne; simpl; [done|].
  apply checkedAt_bind; [apply checkedAt_evalNow|]. intros value v0 [= _ <-].
  destruct value as [z|c]; [done|]. destruct c; simpl; [|done].
  apply checkedAt_bind; [done|]. intros a v0 [= <- <-].
  destruct (loopStack_ v) as [|[] s] eqn:Hstack; [done| |done].
  apply checkedAt_bind; [apply checkedAt_whileBody; [done|by rewrite Hstack]|].
  intros _ v1 Hv1%restores_whileBody; [|done].
  apply IH; [done|]. eapply restores_loops; [done|]. by rewrite Hstack.
Qed.

Lemma checkedAt_visitWhileStatement fuel condition stmts p0 p v :
  forallb shaped stmts = true →
  checkedAt (visitWhileStatement tokens fuel recStatement condition
               [SimpleBlock stmts p0] p) v.
Proof.
  intros Hs. unfold visitWhileStatement.
  apply checkedAt_bind; [done|]. intros a v0 [= <- <-].
  apply checkedAt_bind; [done|]. intros [] v1 [= Hv1].
  assert (loopStack_ v1 ≠ []) as Hne by by rewrite <- Hv1.
  apply checkedAt_bind; [by apply checkedAt_whileLoop|].
  intros _ v2 Hv2%restores_whileLoop; [|done].
  apply checkedAt_bind; [done|]. intros a v3 [= <- <-].
  assert (loopStack_ v2 ≠ []) as Hne2 by by eapply restores_loops.
  unfold checkedAt, mbind, V_bind, lift. simpl.
  by destruct (loopStack_ v2).
Qed.

Lemma checkedAt_visitStatementBody fuel stmt v :
  shaped stmt = true →
  checkedAt (visitStatementBody tokens fuel recStatement stmt) v.
Proof.
  destruct stmt as [loc expr p|id p|id expr p|p|p|expr p|stype condition blocks p];
    intros Hs; cbn [visitStatementBody].
  - apply checkedAt_visitAssignmentStatement.
  - apply checkedAt_visitListDeclarationStatement.
  - apply checkedAt_visitListAppendStatement.
  - apply checkedAt_visitBreakStatement.
  - apply checkedAt_visitContinueStatement.
  - apply checkedAt_visitPrintStatement.
  - rewrite TreeFacts.shaped_compound in Hs. apply andb_true_iff in Hs as [Hof Hall].
    destruct stype; try done.
    + by apply checkedAt_visitIfStatement.
    + destruct blocks as [|[stmts p0| |] [|]]; try done.
      apply checkedAt_visitWhileStatement. simpl in Hall.
      by rewrite andb_true_r in Hall.
Qed.

End Statements.

Lemma checkedAt_visitStatement fuel : ∀ stmt v,
  shaped stmt = true → checkedAt (visitStatement tokens fuel stmt) v.
Proof.
  induction fuel as [|fuel IH]; intros stmt v Hs; simpl; [done|].
  apply checkedAt_visitStatementBody; [|exact IH|done].
  intros s. apply restores_visitStatement.
Qed.

Lemma checked_visitProgram fuel program v :
  forallb shaped (getStatements program) = true →
  checked (visitProgram tokens fuel program v).1.
Proof.
  intros Hs. apply (checkedAt_forEach (visitStatement tokens fuel)); [|done].
  intros stmt v'. apply checkedAt_visitStatement.
Qed.

(** X17.  On a program as the parser builds them - the statements
    shaped as it shapes them and every position the index of a token of
    the vector - the visitor makes no access that nothing checks,
    whatever the state it starts from and however far it gets: no
    [back()] or [pop_back()] on an empty stack, no element outside a
    list, no cast of a block to a class that it is not of.  With the
    positions inside the vector, the reads [tokens_[position_]] of the
    line and the column of a node, which [lineOf] and [columnOf] leave
    without a check, are inside the vector too. *)
Theorem visit_makes_no_unchecked_access fuel program v :
  forallb shaped (getStatements program) = true →
  forallb (Places.placedStatement (List.length tokens)) (getStatements program) = true →
  (visitProgram tokens fuel program v).1 ≠ Crash UncheckedAccess.
Proof. intros Hshaped Hplaced. by apply checked_visitProgram. Qed.


End WithTokens.

Lemma visit_makes_no_unchecked_access_witness :
  ∃ toks program,
    Lexer.tokenize (unlines ["if False:"; "    break"; "else:"; "    print(x)"])
    = Ok toks
    ∧ Parser.parseProgram toks = Ok program
    ∧ forallb shaped (getStatements program) = true
    ∧ forallb (Places.placedStatement (List.length toks)) (getStatements program) = true
    ∧ (visitProgram toks 3 program newVisitor).1 ≠ Crash UncheckedAccess.
Proof.
  eexists _, _. split; [vm_compute; reflexivity|].
  match goal with
  | |- Parser.parseProgram ?toks = Ok ?program ∧ _ =>
      assert (Parser.parseProgram toks = Ok program) as Hparse
        by (vm_compute; reflexivity);
      assert (forallb shaped (getStatements program) = true) as Hshaped
        by (vm_compute; reflexivity);
      assert (forallb (Places.placedStatement (List.length toks))
                      (getStatements program) = true) as Hplaced
        by (vm_compute; reflexivity);
      split; [exact Hparse|]; split; [exact Hshaped|]; split; [exact Hplaced|];
      exact (visit_makes_no_unchecked_access toks 3 program newVisitor Hshaped Hplaced)
  end.
Defined.

End CheckFacts.

(** ** The statement [continue] *)

Module ErasureFacts.
Import Visitor Frames FrameFacts Control ControlFacts Erasure.

Lemma sameRun_refl {A} (m : V A) v : sameRun m m v.
Proof. by intros _. Qed.

Lemma sameRun_bind {A B} (m' m : V A) (k' k : A → V B) v :
  sameRun m' m v →
  (∀ a v1, m v = (Ok a, v1) → sameRun (k' a) (k a) v1) →
  sameRun (m' ≫= k') (m ≫= k) v.
Proof.
  unfold sameRun, mbind, V_bind. intros Hm Hk Hfuel.
  destruct (m v) as [[a|e|f] v1] eqn:Hmv; simpl in *.
  - rewrite Hm by done. by apply Hk.
  - rewrite Hm; done.
  - rewrite Hm; [done|]. intros [= ->]. by apply Hfuel.
Qed.

Lemma sameRun_then {A B} (m : V A) (k' k : A → V B) v :
  (∀ a v1, m v = (Ok a, v1) → sameRun (k' a) (k a) v1) →
  sameRun (m ≫= k') (m ≫= k) v.
Proof. apply sameRun_bind, sameRun_refl. Qed.

Lemma listWithoutContinue_block stmts p :
  blockWithoutContinue (SimpleBlock stmts p) = SimpleBlock (listWithoutContinue stmts) p.
Proof. reflexivity. Qed.

Lemma getStatementType_withoutContinue s :
  getStatementType (withoutContinue s) = getStatementType s.
Proof. by destruct s. Qed.

Lemma getBlockType_withoutContinue b :
  getBlockType (blockWithoutContinue b) = getBlockType b.
Proof. by destruct b. Qed.

Lemma restoresBelow_loops v v' :
  restoresBelow v v' → loopStack_ v ≠ [] → loopStack_ v' ≠ [].
Proof. intros [_ [[Hlen _] _]] Hs. by destruct (loopStack_ v), (loopStack_ v'). Qed.

Section WithTokens.
Variable tokens : list Token.

Section Statements.
Variable recStatement : Statement → V unit.
Hypothesis restores_rec : ∀ stmt, onOk restores (recStatement stmt).
Hypothesis erase_rec : ∀ stmt v,
  isContinue stmt = false → loopStack_ v ≠ [] →
  sameRun (recStatement (withoutContinue stmt)) (recStatement stmt) v.
Hypothesis continue_rec : ∀ p v,
  loopStack_ v ≠ [] → sameRun (mret tt) (recStatement (ContinueStatement p)) v.

Lemma erase_forEach stmts : ∀ v,
  loopStack_ v ≠ [] →
  sameRun (forEach recStatement (listWithoutContinue stmts))
          (forEach recStatement stmts) v.
Proof.
  induction stmts as [|s rest IH]; intros v Hne; [apply sameRun_refl|].
  cbn [listWithoutContinue]. destruct (isContinue s) eqn:Hs.
  - destruct s; try done. rewrite forEach_cons.
    change (forEach recStatement (listWithoutContinue rest))
      with (mret tt ≫= λ _ : unit, forEach recStatement (listWithoutContinue rest)).
    apply sameRun_bind; [by apply continue_rec|].
    intros _ v1 Hv1%restores_rec. apply IH. by eapply CheckFacts.restores_loops.
  - rewrite !forEach_cons. apply sameRun_bind; [by apply erase_rec|].
    intros _ v1 Hv1%restores_rec. apply IH. by eapply CheckFacts.restores_loops.
Qed.


Lemma erase_whileBody stmts : ∀ v,
  loopStack_ v ≠ [] →
  sameRun (whileBody recStatement (listWithoutContinue stmts))
          (whileBody recStatement stmts) v.
Proof.
  induction stmts as [|s rest IH]; intros v Hne; [apply sameRun_refl|].
  cbn [listWithoutContinue]. destruct (isContinue s) eqn:Hs.
  - destruct s; try done. cbn [whileBody getStatementType].
    rewrite bool_decide_eq_false_2, bool_decide_eq_true_2 by done. by apply IH.
  - cbn [whileBody]. rewrite getStatementType_withoutContinue.
    case_bool_decide; [apply sameRun_refl|].
    case_bool_decide; [by apply IH|].
    apply sameRun_bind; [by apply erase_rec|].
    intros _ v1 Hv1%restores_rec. apply IH. by eapply CheckFacts.restores_loops.
Qed.

Lemma erase_visitSimpleBlock b v :
  loopStack_ v ≠ [] →
  sameRun (visitSimpleBlock recStatement (blockWithoutContinue b))
          (visitSimpleBlock recStatement b) v.
Proof.
  intros Hne. destruct b; [|apply sameRun_refl..].
  rewrite listWithoutContinue_block. by apply erase_forEach.
Qed.

Lemma erase_visitElseBlock b v :
  loopStack_ v ≠ [] →
  sameRun (visitElseBlock tokens recStatement (blockWithoutContinue b))
          (visitElseBlock tokens recStatement b) v.
Proof.
  intros Hne. destruct b as [| |block p]; [apply sameRun_refl..|].
  cbn [blockWithoutContinue visitElseBlock].
  apply sameRun_then. intros a v1 [= <- <-].
  destruct (conditionMetStack_ v) as [|[] s]; [apply sameRun_refl..|].
  apply sameRun_bind; [by apply erase_visitSimpleBlock|].
  intros. apply sameRun_refl.
Qed.

Lemma erase_visitElifBlock b v :
  loopStack_ v ≠ [] →
  sameRun (visitElifBlock tokens recStatement (blockWithoutContinue b))
          (visitElifBlock tokens recStatement b) v.
Proof.
  intros Hne. destruct b as [|condition block p|]; [apply sameRun_refl| |apply sameRun_refl].
  cbn [blockWithoutContinue visitElifBlock].
  apply sameRun_then. intros a v1 [= <- <-].
  destruct (conditionMetStack_ v) as [|[] s]; [apply sameRun_refl..|].
  apply sameRun_then. intros value v1 [= _ <-].
  apply sameRun_then. intros c v1 [= _ <-].
  destruct c; [|apply sameRun_refl].
  apply sameRun_then. intros [] v1 Hv1%restoresBelow_setConditionMet.
  apply sameRun_bind; [apply erase_visitSimpleBlock; by eapply restoresBelow_loops|].
  intros. apply sameRun_refl.
Qed.

Local Abbreviation firstLoop :=
  (forEach (λ block, match getBlockType block with
                     | SIMPLE_BLOCK => visitSimpleBlock recStatement block
                     | ELIF_BLOCK => visitElifBlock tokens recStatement block
                     | ELSE_BLOCK => visitElseBlock tokens recStatement block
                     | IF_BLOCK => mret tt
                     end)).

Local Abbreviation secondLoop :=
  (forEach (λ block, match getBlockType block with
                     | ELIF_BLOCK => visitElifBlock tokens recStatement block
                     | ELSE_BLOCK => visitElseBlock tokens recStatement block
                     | _ => mret tt
                     end)).

Lemma erase_firstLoop blocks : ∀ v,
  loopStack_ v ≠ [] →
  sameRun (firstLoop (map blockWithoutContinue blocks)) (firstLoop blocks) v.
Proof.
  induction blocks as [|b rest IH]; intros v Hne; [apply sameRun_refl|].
  cbn [map]. rewrite !forEach_cons, getBlockType_withoutContinue.
  apply sameRun_bind.
  - destruct b; cbn [getBlockType].
    + by apply erase_visitSimpleBlock.
    + by apply erase_visitElifBlock.
    + by apply erase_visitElseBlock.
  - intros [] v1 Hv1. apply IH. eapply restoresBelow_loops; [|exact Hne].
    destruct b; cbn [getBlockType] in Hv1.
    + apply restores_below. by eapply restores_visitSimpleBlock.
    + by eapply restoresBelow_visitElifBlock.
    + by eapply restoresBelow_visitElseBlock.
Qed.

Lemma erase_secondLoop blocks : ∀ v,
  loopStack_ v ≠ [] →
  sameRun (secondLoop (map blockWithoutContinue blocks)) (secondLoop blocks) v.
Proof.
  induction blocks as [|b rest IH]; intros v Hne; [apply sameRun_refl|].
  cbn [map]. rewrite !forEach_cons, getBlockType_withoutContinue.
  apply sameRun_bind.
  - destruct b; cbn [getBlockType].
    + apply sameRun_refl.
    + by apply erase_visitElifBlock.
    + by apply erase_visitElseBlock.
  - intros [] v1 Hv1. apply IH. eapply restoresBelow_loops; [|exact Hne].
    destruct b; cbn [getBlockType] in Hv1.
    + by injection Hv1 as <-.
    + by eapply restoresBelow_visitElifBlock.
    + by eapply restoresBelow_visitElseBlock.
Qed.

Lemma erase_visitIfStatement condition blocks v :
  loopStack_ v ≠ [] →
  sameRun (visitIfStatement tokens recStatement condition (map blockWithoutContinue blocks))
          (visitIfStatement tokens recStatement condition blocks) v.
Proof.
  intros Hne. unfold visitIfStatement.
  apply sameRun_then. intros value v0 [= _ <-].
  apply sameRun_then. intros a v0 [= <- <-].
  apply sameRun_then. intros [] v1 [= Hv1].
  assert (loopStack_ v1 ≠ []) as Hne1 by by rewrite <- Hv1.
  destruct value as [z|c]; [apply sameRun_refl|].
  destruct (restoresBelow_blocks tokens recStatement restores_rec c blocks)
    as [Hfirst Hsecond].
  apply sameRun_bind.
  { destruct c; [|apply sameRun_refl].
    apply sameRun_then. intros [] v2 Hv2%restoresBelow_setConditionMet.
    apply erase_firstLoop. by eapply restoresBelow_loops. }
  intros [] v2 Hv2%Hfirst. apply sameRun_bind.
  { apply erase_secondLoop. by eapply restoresBelow_loops. }
  intros. apply sameRun_refl.
Qed.

Lemma erase_whileLoop n condition blocks p : ∀ v,
  loopStack_ v ≠ [] →
  sameRun (whileLoop tokens recStatement n condition (map blockWithoutContinue blocks) p)
          (whileLoop tokens recStatement n condition blocks p) v.
Proof.
  induction n as [|n IH]; intros v Hne; [apply sameRun_refl|].
  cbn [whileLoop]. apply sameRun_then. intros value v0 [= _ <-].
  destruct value as [z|c]; [apply sameRun_refl|].
  destruct (negb c); [apply sameRun_refl|].
  apply sameRun_then. intros a v0 [= <- <-].
  destruct (loopStack_ v) as [|[] s] eqn:Hstack; [apply sameRun_refl| |apply sameRun_refl].
  destruct blocks as [|b [|b' rest]]; [apply sameRun_refl| |apply sameRun_refl].
  destruct b as [stmts p0| |]; [|apply sameRun_refl..].
  cbn [map]. rewrite listWithoutContinue_block.
  apply sameRun_bind; [apply erase_whileBody; by rewrite Hstack|].
  intros [] v1 Hv1%restores_whileBody; [|done].
  apply (IH v1). eapply CheckFacts.restores_loops; [done|]. by rewrite Hstack.
Qed.

Lemma erase_visitWhileStatement fuel condition blocks p v :
  sameRun (visitWhileStatement tokens fuel recStatement condition
             (map blockWithoutContinue blocks) p)
          (visitWhileStatement tokens fuel recStatement condition blocks p) v.
Proof.
  unfold visitWhileStatement.
  apply sameRun_then. intros a v0 [= <- <-].
  apply sameRun_then. intros [] v1 [= Hv1].
  apply sameRun_bind; [apply erase_whileLoop; by rewrite <- Hv1|].
  intros. apply sameRun_refl.
Qed.

Lemma erase_visitStatementBody fuel stmt v :
  loopStack_ v ≠ [] ∨ getStatementType stmt = WHILE_STMT →
  sameRun (visitStatementBody tokens fuel recStatement (withoutContinue stmt))
          (visitStatementBody tokens fuel recStatement stmt) v.
Proof.
  intros Hne. destruct stmt as [| | | | | |stype condition blocks p];
    try apply sameRun_refl.
  cbn [withoutContinue visitStatementBody]. destruct stype; try apply sameRun_refl.
  - destruct Hne as [Hne|]; [|done]. by apply erase_visitIfStatement.
  - apply erase_visitWhileStatement.
Qed.

End Statements.

Lemma erase_visitStatement fuel : ∀ stmt v,
  loopStack_ v ≠ [] ∨ getStatementType stmt = WHILE_STMT →
  sameRun (visitStatement tokens fuel (withoutContinue stmt))
          (visitStatement tokens fuel stmt) v.
Proof.
  induction fuel as [|fuel IH]; intros stmt v Hne; [by intros []|].
  cbn [visitStatement]. apply erase_visitStatementBody; [| | |done].
  - intros s. apply restores_visitStatement.
  - intros s v' _ Hv'. apply IH. by left.
  - intros p v' Hv'. destruct fuel as [|fuel']; [by intros []|].
    intros _. cbn [visitStatement visitStatementBody].
    unfold visitContinueStatement, mbind, V_bind, get.
    by destruct (loopStack_ v').
Qed.

(** X18.  A [continue] does nothing in a loop: the [while] statement
    without the [continue] statements of its blocks, at whatever depth,
    ends as the statement does and leaves the visitor that it leaves,
    as far as the fuel of the run goes. *)
Theorem continue_changes_nothing fuel condition blocks p v :
  let loop := CompoundStatement WHILE_STMT condition blocks p in
  (visitStatement tokens fuel loop v).1 ≠ Crash OutOfFuel →
  visitStatement tokens fuel (withoutContinue loop) v = visitStatement tokens fuel loop v.
Proof. intros loop. apply erase_visitStatement. by right. Qed.

End WithTokens.

Lemma continue_changes_nothing_witness :
  let condition := ComparativeRelation (IdLocation "i" 0) LT_REL (NumberFactor 3 0) 0 in
  let blocks :=
    [SimpleBlock
       [AssignmentStatement (IdLocation "i" 0)
          (AritExpr (IdLocation "i" 0) ADD_EXPR (NumberFactor 1 0) 0) 0;
        CompoundStatement IF_STMT
          (EqualExpr (IdLocation "i" 0) EQ_EXPR (NumberFactor 2 0) 0)
          [SimpleBlock [ContinueStatement 0] 0] 0;
        ContinueStatement 0;
        PrintStatement (IdLocation "i" 0) 0] 0] in
  let loop := CompoundStatement WHILE_STMT condition blocks 0 in
  let v := mkVisitor (mkSymbolTable {["i" := 0%Z]} ∅ ∅) [] [] [] in
  cout (visitStatement [] 10 loop v).2 = ["1"; "2"; "3"]
  ∧ visitStatement [] 10 (withoutContinue loop) v = visitStatement [] 10 loop v.
Proof.
  intros condition blocks loop v. split; [vm_compute; reflexivity|].
  apply (continue_changes_nothing [] 10 condition blocks 0 v).
  vm_compute. discriminate.
Defined.

End ErasureFacts.

(** ** Literals out of range *)

Module LiteralFacts.
Import Lexer Source LexerFacts.
Local Open Scope Z_scope.

(** The inner loop reads the digits up to the first byte that is none. *)
Lemma readWhile_all p digits rest : ∀ l word,
  forallb p digits = true → peekIs p rest = false →
  ∃ l', readWhile p l (digits ++ rest) word
        = (l', rest, word +:+ string_of_list_ascii digits).
Proof.
  induction digits as [|c digits IH]; intros l word Hall Hrest; simpl in *.
  - exists l. rewrite append_empty_r. destruct rest as [|c rest]; [done|].
    simpl in *. by rewrite Hrest.
  - apply andb_true_iff in Hall as [Hc Hall]. rewrite Hc.
    destruct (IH (advance l c) (word +:+ String c EmptyString) Hall Hrest) as [l' ->].
    exists l'. by rewrite append_snoc.
Qed.

(** X19.  A literal of more than [INT_MAX] ends the interpreter with
    an exception that nothing catches: the lexer reads the digits of
    the literal to the last, and the constructor of the number token
    catches only the other exception of the conversion. *)
Theorem literal_above_INT_MAX_aborts s ch digits rest :
  inRange "1" "9" ch = true →
  forallb isDigit digits = true → peekIs isDigit rest = false →
  INT_MAX < decimalValue 0 (string_of_list_ascii (ch :: digits)) →
  scanToken s ch (digits ++ rest) = Crash UncaughtException.
Proof.
  intros Hch Hall Hrest Hmax. unfold scanToken.
  assert (isLetter ch = false) as ->.
  { revert Hch. unfold isLetter, inRange. rewrite !andb_true_iff, !Nat.leb_le.
    change (nat_of_ascii "1") with 49%nat. change (nat_of_ascii "9") with 57%nat.
    intros [H1 H2]. apply orb_false_iff. rewrite !andb_false_iff, !Nat.leb_gt.
    change (nat_of_ascii "a") with 97%nat. change (nat_of_ascii "A") with 65%nat.
    lia. }
  rewrite Hch.
  destruct (readWhile_all isDigit digits rest (lx s) (String ch EmptyString) Hall Hrest)
    as [l' ->].
  unfold newNumberToken.
  change (String ch EmptyString +:+ string_of_list_ascii digits)
    with (string_of_list_ascii (ch :: digits)).
  by rewrite (proj2 (Z.leb_gt _ _) Hmax).
Qed.

Lemma literal_above_INT_MAX_aborts_witness :
  scanToken (mkScan newLexer [] 0 true) "2" (list_ascii_of_string "147483648 + 1")
  = Crash UncaughtException
  ∧ status (main 1 (Readable "x = 2147483648")) = Aborted UncaughtException.
Proof.
  split; [|vm_compute; reflexivity].
  apply (literal_above_INT_MAX_aborts (mkScan newLexer [] 0 true) "2"
           (list_ascii_of_string "147483648") (list_ascii_of_string " + 1"));
    [reflexivity|reflexivity|reflexivity|vm_compute; reflexivity].
Defined.

End LiteralFacts.

(** ** Unchecked accesses in the lexer *)

Module GroundFacts.
Import Lexer Source LexerFacts Ground.
Local Open Scope Z_scope.

Lemma dedentLoop_grounded n l c stack : ∀ r,
  0 ≤ n → last stack = Some 0 →
  ∃ stack' r', dedentLoop n l c stack r = Ok (stack', r') ∧ last stack' = Some 0.
Proof.
  induction stack as [|top below IH]; intros r Hn Hlast; [done|]. simpl.
  destruct (n <? top) eqn:Hlt; [|by eexists _, _].
  destruct below as [|next below].
  - injection Hlast as ->. lia.
  - apply IH; [done|]. by rewrite last_cons_cons in Hlast.
Qed.

Lemma handleIndentation_grounded s ch :
  grounded s →
  match handleIndentation s ch with
  | Ok f => grounded (flowState f)
  | Throw _ => True
  | Crash _ => False
  end.
Proof.
  intros [Hlast Hn]. unfold handleIndentation.
  destruct (isBlank ch && _).
  { split; [done|]. simpl. destruct (Ascii.eqb ch "009"); lia. }
  destruct (negb (isBlank ch) && negb (isNewline ch) && indent s).
  2:{ destruct (isNewline ch); by split. }
  destruct (indentStack_ (lx s)) as [|top below] eqn:Hstack; [done|].
  destruct (n_t s >? top).
  { by split. }
  destruct (n_t s <? top); [|split; [simpl; by rewrite ?Hstack|done]].
  destruct (dedentLoop_grounded (n_t s) (line_ (lx s)) (column_ (lx s))
              (top :: below) (res s) Hn Hlast) as (stack' & r' & -> & Hlast').
  destruct stack' as [|top' below']; [done|].
  destruct (negb _); [done|]. by split.
Qed.

Lemma scanToken_grounded s ch file s' file' :
  scanToken s ch file = Ok (s', file') → grounded s → grounded s'.
Proof.
  intros Hscan [Hlast Hn].
  assert (n_t s' = n_t s) as Hnt.
  { revert Hscan. unfold scanToken, consume, emit, push, setLexer, setParStack, bindO.
    destruct (readWhile isWordChar _ _ _) as [[l1 rest1] word].
    destruct (readWhile isDigit _ _ _) as [[l2 rest2] numStr].
    repeat (case_match; simpl in *; try discriminate); intros; by simplify_eq/=. }
  apply scanToken_spec in Hscan as (taken & _ & Hstack & _).
  split; [by rewrite Hstack|by rewrite Hnt].
Qed.

(** The recognition of a token reads the back of a stack in one place
    only. *)
Lemma scanToken_unchecked s ch file :
  scanToken s ch file = Crash UncheckedAccess → ch = "]"%char.
Proof.
  unfold scanToken, newReservedKeywordToken, newBoolOpToken, newNumberToken, consume.
  destruct (Ascii.eqb ch "]") eqn:Hch; [intros _; by apply Ascii.eqb_eq|].
  repeat (case_match; simpl in *; try discriminate).
Qed.

Lemma lexStep_grounded s ch rest :
  grounded s →
  match lexStep (setLexer s (advance (lx s) ch)) ch rest with
  | Ok (s', rest') => grounded s' ∧ ∃ taken, rest = taken ++ rest'
  | Throw _ => True
  | Crash f => f = UncheckedAccess → ch = "]"%char
  end.
Proof.
  intros [Hlast Hn].
  assert (grounded (setLexer s (advance (lx s) ch))) as Hg.
  { split; [|done]. simpl. by rewrite (proj1 (advance_stacks _ _)). }
  pose proof (handleIndentation_grounded _ ch Hg) as Hind. unfold lexStep.
  destruct (handleIndentation _ ch) as [[mid|mid]| |]; [| |done..]; simpl in Hind.
  - split; [done|]. by exists [].
  - destruct (scanToken mid ch rest) as [[s' rest']| |f] eqn:Hscan; [|done|].
    + split; [by eapply scanToken_grounded|].
      apply scanToken_spec in Hscan as (taken & -> & _). by exists taken.
    + intros ->. by eapply scanToken_unchecked.
Qed.

Lemma lexLoop_unchecked fuel : ∀ s file,
  grounded s → lexLoop fuel s file = Crash UncheckedAccess → "]"%char ∈ file.
Proof.
  induction fuel as [|fuel IH]; intros s file Hg; [done|]. simpl.
  destruct file as [|ch rest]; simpl; [done|].
  pose proof (lexStep_grounded s ch rest Hg) as Hstep.
  destruct (lexStep _ ch rest) as [[s' rest']| |f]; [|done|].
  - destruct Hstep as [Hg' [taken ->]]. intros Hloop%IH; [|done].
    apply list_elem_of_further, elem_of_app. by right.
  - intros [= ->]. rewrite Hstep by done. apply list_elem_of_here.
Qed.

Lemma unchecked_tokenizeInputFile src :
  tokenizeInputFile src = Crash UncheckedAccess → "]"%char ∈ src.
Proof.
  unfold tokenizeInputFile.
  destruct (lexLoop _ _ _) as [s| |f] eqn:Hloop; simpl.
  - unfold finish. by repeat case_match.
  - done.
  - intros [= ->]. eapply lexLoop_unchecked; [|exact Hloop]. by split.
Qed.

(** X20.  The lexer reads the back of an empty stack only on a closing
    square bracket: the indentation stack never gets empty, and on a
    source without the byte [[]]] the lexer makes no access that
    nothing checks. *)
Theorem lexer_unchecked_access_needs_bracket src :
  tokenizeInputFile src = Crash UncheckedAccess → "]"%char ∈ src.
Proof. apply unchecked_tokenizeInputFile. Qed.

Lemma lexer_unchecked_access_needs_bracket_witness :
  tokenize "x]" = Crash UncheckedAccess ∧ "]"%char ∈ list_ascii_of_string "x]".
Proof.
  split; [reflexivity|].
  apply (lexer_unchecked_access_needs_bracket (list_ascii_of_string "x]")). reflexivity.
Defined.

End GroundFacts.

(** ** The index of the parser *)

Module NestingFacts.
Import Parser Source Nesting.
Local Open Scope Z_scope.

Lemma isType_true ty t : isType ty t = true → getType t = ty.
Proof. unfold isType. by intros ?%bool_decide_eq_true. Qed.

Lemma tokenIs_true ty v t : tokenIs ty v t = true → getType t = ty.
Proof. unfold tokenIs. intros [H _]%andb_true_iff. by apply isType_true. Qed.

Lemma indentationIs_true b t :
  indentationIs b t = true → tok_data t = IndentationToken b.
Proof.
  unfold indentationIs, isType, getType, getBoolValue.
  destruct (tok_data t); try done; simpl; try by rewrite andb_false_r.
  intros H. by apply bool_decide_eq_true in H as ->.
Qed.

Lemma plain_counts t :
  getType t ≠ INDENTATION_TOKEN → isIndent t = false ∧ isDedent t = false.
Proof. unfold getType, isIndent, isDedent. by destruct (tok_data t). Qed.

(** The test of the loop of [parseBlock]: it goes on unless the token
    is a dedentation token. *)
Lemma loop_condition t :
  (negb (isType INDENTATION_TOKEN t) || indentationIs true t = true →
   isDedent t = false)
  ∧ (negb (isType INDENTATION_TOKEN t) || indentationIs true t = false →
     indentationIs false t = true).
Proof.
  unfold indentationIs, isType, getType, getBoolValue, isDedent.
  destruct (tok_data t) as [| | | | | | | | |[]| |]; by compute.
Qed.

Section WithTokens.
Variable tokens : list Token.
Hypothesis tokens_levelled : levelled tokens.

Lemma end_of_file_last i t :
  tokens !! i = Some t → getType t = EOF_TOKEN → S i = List.length tokens.
Proof.
  destruct tokens_levelled as [(body & eof & -> & Heof & Hbody) _].
  intros Ht Htype. rewrite length_app. simpl.
  destruct (decide (i < List.length body)%nat) as [Hlt|Hge].
  - rewrite lookup_app_l in Ht by done.
    by destruct (proj1 (Forall_lookup _ _) Hbody i t Ht).
  - apply lookup_lt_Some in Ht. rewrite length_app in Ht. simpl in Ht. lia.
Qed.

Lemma before_end_of_file i t :
  tokens !! i = Some t → getType t ≠ EOF_TOKEN → (S i < List.length tokens)%nat.
Proof.
  destruct tokens_levelled as [(body & eof & -> & Heof & Hbody) _].
  intros Ht Htype. rewrite length_app. simpl.
  destruct (decide (i < List.length body)%nat) as [Hlt|Hge]; [lia|].
  rewrite lookup_app_r in Ht by lia.
  destruct (i - List.length body)%nat; [|done]. by injection Ht as <-.
Qed.

Lemma surplus_step i t :
  tokens !! i = Some t →
  surplus tokens i
  = surplus tokens (S i) + (if isDedent t then 1 else 0) - (if isIndent t then 1 else 0).
Proof.
  intros Ht. unfold surplus. rewrite (drop_S _ _ _ Ht).
  unfold countDedent, countIndent. simpl.
  destruct (isDedent t), (isIndent t); simpl; lia.
Qed.

Lemma surplus_plain i t :
  tokens !! i = Some t → getType t ≠ INDENTATION_TOKEN →
  surplus tokens (S i) = surplus tokens i.
Proof.
  intros Ht [Hi Hd]%plain_counts. rewrite (surplus_step i t Ht), Hi, Hd. lia.
Qed.

Lemma surplus_end i : (List.length tokens ≤ i)%nat → surplus tokens i = 0.
Proof. intros Hi. unfold surplus. by rewrite drop_ge. Qed.

Lemma surplus_inside i :
  1 ≤ surplus tokens i →
  ∃ t, tokens !! i = Some t ∧ getType t ≠ EOF_TOKEN.
Proof.
  intros Hs. destruct (tokens !! i) as [t|] eqn:Ht.
  - exists t. split; [done|]. intros Heof.
    pose proof (end_of_file_last i t Ht Heof) as Hlen.
    assert (getType t ≠ INDENTATION_TOKEN) as Hplain by by rewrite Heof.
    rewrite <- (surplus_plain i t Ht Hplain), surplus_end in Hs by lia. lia.
  - apply lookup_ge_None in Ht. rewrite surplus_end in Hs by done. lia.
Qed.

(** *** The primitives *)

Lemma steady_fair {A} (m : P A) i : steady tokens m i → fair tokens m i.
Proof. unfold steady, fair. destruct (m i) as [[a j]| |]; [|done..]. lia. Qed.

Lemma steady_bind {A B} (m : P A) (k : A → P B) i :
  steady tokens m i →
  (∀ a j, m i = Ok (a, j) → (j < List.length tokens)%nat → steady tokens (k a) j) →
  steady tokens (m ≫= k) i.
Proof.
  unfold steady, mbind, P_bind. intros Hm Hk.
  destruct (m i) as [[a j]| |] eqn:Hmi; [|done..].
  destruct Hm as [Hj Hs]. specialize (Hk a j eq_refl Hj).
  destruct (k a j) as [[b j']| |]; [|done..]. split; [tauto|lia].
Qed.

Lemma fair_bind {A B} (m : P A) (k : A → P B) i :
  steady tokens m i →
  (∀ a j, m i = Ok (a, j) → (j < List.length tokens)%nat → fair tokens (k a) j) →
  fair tokens (m ≫= k) i.
Proof.
  unfold steady, fair, mbind, P_bind. intros Hm Hk.
  destruct (m i) as [[a j]| |] eqn:Hmi; [|done..].
  destruct Hm as [Hj Hs]. specialize (Hk a j eq_refl Hj).
  destruct (k a j) as [[b j']| |]; [|done..]. split; [tauto|lia].
Qed.

Lemma fair_fmap {A B} (f : A → B) (m : P A) i : fair tokens m i → fair tokens (f <$> m) i.
Proof. unfold fair, fmap, P_fmap. by destruct (m i) as [[a j]| |]. Qed.

Lemma steady_ret {A} (a : A) i : (i < List.length tokens)%nat → steady tokens (mret a) i.
Proof. intros Hi. unfold steady. simpl. split; [done|lia]. Qed.

Lemma steady_throw {A} e i : steady tokens (throw e : P A) i.
Proof. done. Qed.

Lemma steady_fuel {A} i : steady tokens (crash OutOfFuel : P A) i.
Proof. done. Qed.

Lemma steady_lift {A} (m : Outcome A) i :
  (i < List.length tokens)%nat → (∀ f, m ≠ Crash f) → steady tokens (lift m) i.
Proof.
  intros Hi Hm. unfold steady, lift. destruct m as [a|e|f]; [|done|by destruct (Hm f)].
  split; [done|lia].
Qed.

(** Reading the token at the index. *)
Lemma steady_peek {A} (k : Token → P A) i :
  (i < List.length tokens)%nat →
  (∀ t, tokens !! i = Some t → steady tokens (k t) i) →
  steady tokens (tokenAt tokens 0 ≫= k) i.
Proof.
  intros Hi Hk. destruct (lookup_lt_is_Some_2 tokens i Hi) as [t Ht].
  specialize (Hk t Ht). unfold steady, mbind, P_bind, tokenAt in *.
  by rewrite Nat.add_0_r, Ht.
Qed.

(** Passing a plain token. *)
Lemma steady_next {A} (k : unit → P A) i t :
  tokens !! i = Some t → plainToken t →
  ((S i < List.length tokens)%nat → steady tokens (k tt) (S i)) →
  steady tokens (next ≫= k) i.
Proof.
  intros Ht [Heof Hind] Hk.
  pose proof (before_end_of_file i t Ht Heof) as Hlt. specialize (Hk Hlt).
  unfold steady, mbind, P_bind, next in *.
  destruct (k tt (S i)) as [[b j]| |]; [|done..].
  rewrite <- (surplus_plain i t Ht Hind). done.
Qed.

Lemma steady_position {A} (k : nat → P A) i :
  steady tokens (k (i - 1)%nat) i → steady tokens (position ≫= k) i.
Proof. done. Qed.

Lemma steady_expect {A} (ok : Token → bool) msg (k : Token → P A) i :
  (i < List.length tokens)%nat →
  (∀ t, ok t = true → plainToken t) →
  (∀ t, (S i < List.length tokens)%nat → steady tokens (k t) (S i)) →
  steady tokens (expect tokens ok msg ≫= k) i.
Proof.
  intros Hi Hok Hk. unfold expect.
  destruct (lookup_lt_is_Some_2 tokens i Hi) as [t Ht].
  specialize (Hok t). unfold steady, mbind, P_bind, tokenAt, next, mret, P_ret in *.
  rewrite Nat.add_0_r, Ht. destruct (ok t); [|done].
  destruct (Hok eq_refl) as [Heof Hind].
  pose proof (before_end_of_file i t Ht Heof) as Hlt. specialize (Hk t Hlt).
  destruct (k t (S i)) as [[b j]| |]; [|done..].
  rewrite <- (surplus_plain i t Ht Hind). done.
Qed.

Lemma plain_tokenIs ty v t :
  ty ≠ EOF_TOKEN → ty ≠ INDENTATION_TOKEN → tokenIs ty v t = true → plainToken t.
Proof. intros H1 H2 H%tokenIs_true. unfold plainToken. by rewrite H. Qed.

Lemma plain_isType ty t :
  ty ≠ EOF_TOKEN → ty ≠ INDENTATION_TOKEN → isType ty t = true → plainToken t.
Proof. intros H1 H2 H%isType_true. unfold plainToken. by rewrite H. Qed.

Lemma plain_isMulDiv t : isMulDiv t = true → plainToken t.
Proof. unfold isMulDiv. intros [H|H]%orb_true_iff; (eapply plain_tokenIs; [| |exact H]; done). Qed.
Lemma plain_isAddSub t : isAddSub t = true → plainToken t.
Proof. unfold isAddSub. intros [H|H]%orb_true_iff; (eapply plain_tokenIs; [| |exact H]; done). Qed.
Lemma plain_isComparison t : isComparison t = true → plainToken t.
Proof.
  unfold isComparison. intros H. repeat (apply orb_true_iff in H as [H|H]);
    (eapply plain_tokenIs; [| |exact H]; done).
Qed.
Lemma plain_isEqNeq t : isEqNeq t = true → plainToken t.
Proof. unfold isEqNeq. intros [H|H]%orb_true_iff; (eapply plain_tokenIs; [| |exact H]; done). Qed.

Lemma plain_data t :
  match tok_data t with
  | EndOfFileToken | IndentationToken _ => True
  | _ => plainToken t
  end.
Proof. unfold plainToken, getType. by destruct (tok_data t). Qed.


Lemma built_newMulDivTerm l op r p f : newMulDivTerm l op r p ≠ Crash f.
Proof. unfold newMulDivTerm, getIntValue. destruct (tok_data op); simpl; by repeat case_match. Qed.
Lemma built_newAritExpr l op r p f : newAritExpr l op r p ≠ Crash f.
Proof. unfold newAritExpr, getIntValue. destruct (tok_data op); simpl; by repeat case_match. Qed.
Lemma built_newComparativeRelation l op r p f : newComparativeRelation l op r p ≠ Crash f.
Proof. unfold newComparativeRelation, getIntValue. destruct (tok_data op); simpl; by repeat case_match. Qed.
Lemma built_newEqualExpr l op r p f : newEqualExpr l op r p ≠ Crash f.
Proof. unfold newEqualExpr, getIntValue. destruct (tok_data op); simpl; by repeat case_match. Qed.

Ltac plain_side :=
  first
    [ exact plain_isMulDiv | exact plain_isAddSub
    | exact plain_isComparison | exact plain_isEqNeq
    | intros ?; apply plain_tokenIs; done
    | intros ?; apply plain_isType; done ].

Ltac step :=
  first
    [ apply steady_throw
    | apply steady_fuel
    | apply steady_ret; assumption
    | apply steady_position
    | apply steady_lift;
      [ assumption
      | intros ?;
        first [ apply built_newMulDivTerm | apply built_newAritExpr
              | apply built_newComparativeRelation | apply built_newEqualExpr ] ]
    | apply steady_peek; [assumption|intros ? ?]
    | apply steady_expect; [assumption|plain_side|intros ? ?]
    | match goal with
      | H : ∀ i, (i < _)%nat → steady _ ?rec i |- steady _ (?rec ≫= _) _ =>
          apply steady_bind; [by apply H|intros ? ? _ ?]
      end ].

Section Expressions.
Variables recExpression recTerm recUnary : P Expression.
Hypothesis steady_recExpression :
  ∀ i, (i < List.length tokens)%nat → steady tokens recExpression i.
Hypothesis steady_recTerm :
  ∀ i, (i < List.length tokens)%nat → steady tokens recTerm i.
Hypothesis steady_recUnary :
  ∀ i, (i < List.length tokens)%nat → steady tokens recUnary i.

Lemma steady_parseListElementLocation id i :
  (i < List.length tokens)%nat →
  steady tokens (parseListElementLocation tokens recExpression id) i.
Proof. intros Hi. unfold parseListElementLocation. repeat step. Qed.

Lemma steady_parseLocation i :
  (i < List.length tokens)%nat → steady tokens (parseLocation tokens recExpression) i.
Proof.
  intros Hi. unfold parseLocation, syntaxErrorAt. step.
  pose proof (plain_data t) as Hplain.
  destruct (tok_data t); try apply steady_throw.
  eapply steady_next; [done|done|]. intros Hi'. step.
  destruct (tokenIs _ _ _); [by apply steady_parseListElementLocation|].
  repeat step.
Qed.

Lemma steady_parseFactor i :
  (i < List.length tokens)%nat → steady tokens (parseFactor tokens recExpression) i.
Proof.
  intros Hi. unfold parseFactor, syntaxErrorAt. step.
  destruct (tokenIs _ _ _). { unfold parseExpressionFactor. repeat step. }
  destruct (isType NUMBER_TOKEN _).
  { unfold parseNumberFactor, syntaxErrorAt. step.
    pose proof (plain_data t0) as Hplain.
    destruct (tok_data t0); try apply steady_throw.
    eapply steady_next; [done|done|]. intros Hi'. repeat step. }
  destruct (isType BOOL_TOKEN _).
  { unfold parseBoolFactor, syntaxErrorAt. step.
    pose proof (plain_data t0) as Hplain.
    destruct (tok_data t0); try apply steady_throw.
    eapply steady_next; [done|done|]. intros Hi'. repeat step. }
  destruct (isType ID_TOKEN _); [by apply steady_parseLocation|].
  apply steady_throw.
Qed.

Lemma steady_parseUnaryBody i :
  (i < List.length tokens)%nat →
  steady tokens (parseUnaryBody tokens recExpression recUnary) i.
Proof.
  intros Hi. unfold parseUnaryBody. step.
  destruct (tokenIs _ _ _). { unfold parseNotUnary. repeat step. }
  destruct (tokenIs _ _ _). { unfold parseMinusUnary. repeat step. }
  by apply steady_parseFactor.
Qed.

Lemma steady_parseTermBody i :
  (i < List.length tokens)%nat →
  steady tokens (parseTermBody tokens recTerm recUnary) i.
Proof.
  intros Hi. unfold parseTermBody. step. step.
  destruct (isMulDiv _); [|by step]. unfold parseMulDivTerm. repeat step.
Qed.

Lemma steady_parseNumExpr i :
  (i < List.length tokens)%nat → steady tokens (parseNumExpr tokens recTerm) i.
Proof.
  intros Hi. unfold parseNumExpr. step. step.
  destruct (isAddSub _); [|by step]. unfold parseAritExpr. repeat step.
Qed.

Lemma steady_parseRelation i :
  (i < List.length tokens)%nat → steady tokens (parseRelation tokens recTerm) i.
Proof.
  intros Hi. unfold parseRelation.
  apply steady_bind; [by apply steady_parseNumExpr|]. intros numExpr j _ Hj. step.
  destruct (isComparison _); [|by step]. unfold parseComparativeRelation.
  step. apply steady_bind; [by apply steady_parseNumExpr|]. intros right j' _ Hj'.
  repeat step.
Qed.

Lemma steady_parseEquality i :
  (i < List.length tokens)%nat → steady tokens (parseEquality tokens recTerm) i.
Proof.
  intros Hi. unfold parseEquality.
  apply steady_bind; [by apply steady_parseRelation|]. intros relation j _ Hj. step.
  destruct (isEqNeq _); [|by step]. unfold parseEqualExpr.
  step. apply steady_bind; [by apply steady_parseRelation|]. intros right j' _ Hj'.
  repeat step.
Qed.

Lemma steady_parseJoin i :
  (i < List.length tokens)%nat → steady tokens (parseJoin tokens recTerm) i.
Proof.
  intros Hi. unfold parseJoin.
  apply steady_bind; [by apply steady_parseEquality|]. intros equality j _ Hj. step.
  destruct (tokenIs BOOLOP_TOKEN BoolOpToken.AND t) eqn:Hand; [|by step].
  unfold parseAndExpr, syntaxErrorAt.
  eapply steady_next; [done|eapply plain_tokenIs; [| |exact Hand]; done|].
  intros Hj'. step.
  destruct (tokenIs BOOLOP_TOKEN BoolOpToken.AND t0); [apply steady_throw|].
  apply steady_bind; [by apply steady_parseEquality|]. intros right j' _ Hj''.
  repeat step.
Qed.

Lemma steady_parseExpressionBody i :
  (i < List.length tokens)%nat →
  steady tokens (parseExpressionBody tokens recExpression recTerm) i.
Proof.
  intros Hi. unfold parseExpressionBody.
  apply steady_bind; [by apply steady_parseJoin|]. intros join j _ Hj. step.
  destruct (tokenIs _ _ _); [|by step]. unfold parseOrExpr. repeat step.
Qed.

End Expressions.

Lemma steady_expressions fuel :
  (∀ i, (i < List.length tokens)%nat → steady tokens (parseExpression tokens fuel) i)
  ∧ (∀ i, (i < List.length tokens)%nat → steady tokens (parseTerm tokens fuel) i)
  ∧ (∀ i, (i < List.length tokens)%nat → steady tokens (parseUnary tokens fuel) i).
Proof.
  induction fuel as [|fuel (IHe & IHt & IHu)]; simpl; [by repeat split|].
  repeat split; intros i Hi.
  - by apply steady_parseExpressionBody.
  - by apply steady_parseTermBody.
  - by apply steady_parseUnaryBody.
Qed.

Lemma steady_parseExpression fuel i :
  (i < List.length tokens)%nat → steady tokens (parseExpression tokens fuel) i.
Proof. apply steady_expressions. Qed.


(** *** The statements *)

Lemma ends_bind {A B} (Q1 : A → nat → Prop) (Q2 : B → nat → Prop)
    (m : P A) (k : A → P B) i :
  ends Q1 m i → (∀ a j, Q1 a j → ends Q2 (k a) j) → ends Q2 (m ≫= k) i.
Proof.
  unfold ends, mbind, P_bind. intros Hm Hk.
  destruct (m i) as [[a j]| |]; [|done..]. by apply Hk.
Qed.

Lemma ends_weaken {A} (Q1 Q2 : A → nat → Prop) (m : P A) i :
  (∀ a j, Q1 a j → Q2 a j) → ends Q1 m i → ends Q2 m i.
Proof. unfold ends. intros HQ. destruct (m i) as [[a j]| |]; [|done..]. apply HQ. Qed.

Lemma ends_steady {A} (m : P A) i :
  steady tokens m i
  ↔ ends (λ _ j, (j < List.length tokens)%nat ∧ surplus tokens i ≤ surplus tokens j) m i.
Proof. done. Qed.

Lemma ends_fair {A} (m : P A) i :
  fair tokens m i
  ↔ ends (λ _ j, (j ≤ List.length tokens)%nat ∧ surplus tokens i ≤ surplus tokens j) m i.
Proof. done. Qed.

Lemma ends_peek {A} (Q : A → nat → Prop) (k : Token → P A) i :
  (i < List.length tokens)%nat →
  (∀ t, tokens !! i = Some t → ends Q (k t) i) →
  ends Q (tokenAt tokens 0 ≫= k) i.
Proof.
  intros Hi Hk. destruct (lookup_lt_is_Some_2 tokens i Hi) as [t Ht].
  specialize (Hk t Ht). unfold ends, mbind, P_bind, tokenAt in *.
  by rewrite Nat.add_0_r, Ht.
Qed.

Lemma ends_peek_ahead {A} (Q : A → nat → Prop) (k : Token → P A) i n :
  (i + n < List.length tokens)%nat →
  (∀ t, tokens !! (i + n)%nat = Some t → ends Q (k t) i) →
  ends Q (tokenAt tokens n ≫= k) i.
Proof.
  intros Hi Hk. destruct (lookup_lt_is_Some_2 tokens (i + n) Hi) as [t Ht].
  specialize (Hk t Ht). unfold ends, mbind, P_bind, tokenAt in *.
  by rewrite Ht.
Qed.

(** The end of a line: the token passed is a newline or the end of the
    file, the one token after which the index may leave the vector. *)
Lemma fair_lineEnd {A} msg (a : nat → A) i :
  (i < List.length tokens)%nat →
  fair tokens (expect tokens isLineEnd msg ≫= λ _, position ≫= λ pos, mret (a pos)) i.
Proof.
  intros Hi. destruct (lookup_lt_is_Some_2 tokens i Hi) as [t Ht].
  unfold fair, expect, mbind, P_bind, tokenAt, next, position, mret, P_ret, syntaxErrorAt, throw.
  rewrite Nat.add_0_r, Ht. destruct (isLineEnd t) eqn:Hend; [|done].
  split; [lia|]. rewrite (surplus_plain i t Ht); [lia|].
  unfold isLineEnd in Hend.
  apply orb_true_iff in Hend as [->%isType_true| ->%isType_true]; done.
Qed.

Lemma fair_peek {A} (k : Token → P A) i :
  (i < List.length tokens)%nat →
  (∀ t, tokens !! i = Some t → fair tokens (k t) i) →
  fair tokens (tokenAt tokens 0 ≫= k) i.
Proof. apply ends_peek. Qed.

Lemma fair_next {A} (k : unit → P A) i t :
  tokens !! i = Some t → plainToken t →
  ((S i < List.length tokens)%nat → fair tokens (k tt) (S i)) →
  fair tokens (next ≫= k) i.
Proof.
  intros Ht [Heof Hind] Hk.
  pose proof (before_end_of_file i t Ht Heof) as Hlt. specialize (Hk Hlt).
  unfold fair, mbind, P_bind, next in *.
  destruct (k tt (S i)) as [[b j]| |]; [|done..].
  rewrite <- (surplus_plain i t Ht Hind). done.
Qed.

Lemma fair_expect {A} (ok : Token → bool) msg (k : Token → P A) i :
  (i < List.length tokens)%nat →
  (∀ t, ok t = true → plainToken t) →
  (∀ t, (S i < List.length tokens)%nat → fair tokens (k t) (S i)) →
  fair tokens (expect tokens ok msg ≫= k) i.
Proof.
  intros Hi Hok Hk. unfold expect.
  destruct (lookup_lt_is_Some_2 tokens i Hi) as [t Ht].
  specialize (Hok t). unfold fair, mbind, P_bind, tokenAt, next, mret, P_ret in *.
  rewrite Nat.add_0_r, Ht. destruct (ok t); [|done].
  destruct (Hok eq_refl) as [Heof Hind].
  pose proof (before_end_of_file i t Ht Heof) as Hlt. specialize (Hk t Hlt).
  destruct (k t (S i)) as [[b j]| |]; [|done..].
  rewrite <- (surplus_plain i t Ht Hind). done.
Qed.

Ltac fstep :=
  first
    [ apply fair_lineEnd; assumption
    | apply steady_fair; apply steady_throw
    | apply fair_expect; [assumption|plain_side|intros ? ?]
    | apply fair_bind; [by apply steady_parseExpression|intros ? ? _ ?] ].

Section Statements.
Variable fuel : nat.
Variable recStatement : P (option Statement).
Hypothesis fair_recStatement :
  ∀ i, (i < List.length tokens)%nat → ends (statementAt tokens i) recStatement i.

Lemma fair_parsePrintStatement i :
  (i < List.length tokens)%nat → fair tokens (parsePrintStatement tokens fuel) i.
Proof. intros Hi. unfold parsePrintStatement. repeat fstep. Qed.

Lemma fair_parseContinueStatement i :
  (i < List.length tokens)%nat → fair tokens (parseContinueStatement tokens) i.
Proof. intros Hi. unfold parseContinueStatement. repeat fstep. Qed.

Lemma fair_parseBreakStatement i :
  (i < List.length tokens)%nat → fair tokens (parseBreakStatement tokens) i.
Proof. intros Hi. unfold parseBreakStatement. repeat fstep. Qed.

Lemma fair_parseListAppendStatement i :
  (i < List.length tokens)%nat → fair tokens (parseListAppendStatement tokens fuel) i.
Proof.
  intros Hi. unfold parseListAppendStatement, syntaxErrorAt.
  apply fair_peek; [done|]. intros t Ht. pose proof (plain_data t) as Hplain.
  destruct (tok_data t); try (apply steady_fair, steady_throw).
  eapply fair_next; [done|done|]. intros Hi'. repeat fstep.
Qed.

Lemma fair_parseListDeclarationStatement i :
  (i < List.length tokens)%nat → fair tokens (parseListDeclarationStatement tokens) i.
Proof.
  intros Hi. unfold parseListDeclarationStatement, syntaxErrorAt.
  apply fair_peek; [done|]. intros t Ht. pose proof (plain_data t) as Hplain.
  destruct (tok_data t); try (apply steady_fair, steady_throw).
  eapply fair_next; [done|done|]. intros Hi'. repeat fstep.
Qed.

Lemma fair_parseAssignmentStatement i :
  (i < List.length tokens)%nat → fair tokens (parseAssignmentStatement tokens fuel) i.
Proof.
  intros Hi. unfold parseAssignmentStatement.
  apply fair_bind.
  { apply steady_parseLocation; [|done]. intros. by apply steady_parseExpression. }
  intros loc j _ Hj. repeat fstep.
Qed.

(** The loop of [parseBlock], entered with a dedentation token still
    to come, ends on a dedentation token. *)
Lemma ends_blockLoop n : ∀ statements i B,
  1 ≤ B → B ≤ surplus tokens i →
  ends (λ _ j, B ≤ surplus tokens j
               ∧ ∃ t, tokens !! j = Some t ∧ indentationIs false t = true)
       (blockLoop tokens recStatement n statements) i.
Proof.
  induction n as [|n IH]; intros statements i B HB Hi; [done|].
  destruct (surplus_inside i) as (t & Ht & Heof); [lia|].
  pose proof (lookup_lt_Some _ _ _ Ht) as Hlt.
  cbn [blockLoop]. unfold ends, mbind at 1, P_bind at 1, index.
  rewrite bool_decide_eq_true_2 by done.
  unfold mbind at 1, P_bind at 1, tokenAt at 1. rewrite Nat.add_0_r, Ht.
  destruct (negb (isType INDENTATION_TOKEN t) || indentationIs true t) eqn:Hcond.
  - pose proof (fair_recStatement i Hlt) as Hrec.
    unfold mbind at 1, P_bind at 1. unfold ends in Hrec.
    destruct (recStatement i) as [[[stmt|] j]| |]; [| |done..].
    + destruct Hrec as (_ & Hs & _). apply IH; [done|lia].
    + destruct Hrec as (_ & _ & Hj). rewrite (Hj eq_refl).
      unfold mbind at 1, P_bind at 1, tokenAt at 1. rewrite Nat.add_0_r, Ht.
      assert (negb (isType EOF_TOKEN t) = true) as ->.
      { unfold isType. by rewrite bool_decide_eq_false_2. }
      unfold mbind at 1, P_bind at 1, next at 1.
      apply IH; [done|]. rewrite (surplus_step i t Ht) in Hi.
      rewrite (proj1 (loop_condition t) Hcond) in Hi. destruct (isIndent t); lia.
  - simpl. split; [done|]. exists t. split; [done|].
    by apply loop_condition.
Qed.

Lemma steady_parseBlock i :
  (i < List.length tokens)%nat →
  steady tokens (parseBlock tokens fuel recStatement) i.
Proof.
  intros Hi. unfold parseBlock. step.
  apply steady_peek; [done|]. intros t' Ht'.
  destruct (negb (isType INDENTATION_TOKEN t') || negb (indentationIs true t')) eqn:Hcond;
    [done|].
  apply orb_false_iff in Hcond as [_ Hind%negb_false_iff%indentationIs_true].
  assert (surplus tokens (S (S i)) = surplus tokens (S i) + 1) as Hs.
  { rewrite (surplus_step (S i) t' Ht'). unfold isDedent, isIndent. rewrite Hind. lia. }
  assert (S (S i) < List.length tokens)%nat as Hlt.
  { eapply before_end_of_file; [done|]. unfold getType. by rewrite Hind. }
  pose proof (proj2 tokens_levelled (S i)) as Hpos.
  apply ends_steady.
  eapply (ends_bind (λ _ j, j = S (S i))); [done|]. intros _ j ->.
  eapply ends_bind; [apply (ends_blockLoop fuel [] (S (S i)) (surplus tokens (S (S i)))); lia|].
  intros statements j (Hj & td & Htd & Hded). simpl in Hj.
  apply indentationIs_true in Hded as Hdata.
  assert (S j < List.length tokens)%nat as Hlt'.
  { eapply before_end_of_file; [done|]. unfold getType. by rewrite Hdata. }
  assert (surplus tokens j = surplus tokens (S j) + 1) as Hs'.
  { rewrite (surplus_step j td Htd). unfold isDedent, isIndent. rewrite Hdata. lia. }
  unfold ends, expect, mbind, P_bind, tokenAt, next, position, mret, P_ret.
  rewrite Nat.add_0_r, Htd, Hded. split; [done|lia].
Qed.

Lemma steady_parseElseBlock i :
  (i < List.length tokens)%nat →
  steady tokens (parseElseBlock tokens fuel recStatement) i.
Proof.
  intros Hi. unfold parseElseBlock. step. step.
  apply steady_bind; [by apply steady_parseBlock|]. intros block j _ Hj.
  repeat step.
Qed.

Lemma steady_parseElifBlock i :
  (i < List.length tokens)%nat →
  steady tokens (parseElifBlock tokens fuel recStatement) i.
Proof.
  intros Hi. unfold parseElifBlock. step.
  apply steady_bind; [by apply steady_parseExpression|]. intros expr j _ Hj. step.
  apply steady_bind; [by apply steady_parseBlock|]. intros block j' _ Hj'.
  repeat step.
Qed.

Lemma steady_elifLoop n : ∀ blocks i,
  (i < List.length tokens)%nat →
  steady tokens (elifLoop tokens fuel recStatement n blocks) i.
Proof.
  induction n as [|n IH]; intros blocks i Hi; [done|]. cbn [elifLoop]. step.
  destruct (tokenIs _ _ _); [|by step].
  apply steady_bind; [by apply steady_parseElifBlock|]. intros b j _ Hj. by apply IH.
Qed.

Lemma steady_parseCompoundStatement i :
  (i < List.length tokens)%nat →
  steady tokens (parseCompoundStatement tokens fuel recStatement) i.
Proof.
  intros Hi. unfold parseCompoundStatement, syntaxErrorAt. step.
  apply ends_steady.
  eapply (ends_bind (λ _ j, j = i ∧ plainToken t)).
  { destruct (tokenIs RESERVEDKEYWORD_TOKEN ReservedKeywordToken.IF t) eqn:Hif.
    { split; [done|]. eapply plain_tokenIs; [| |exact Hif]; done. }
    destruct (tokenIs RESERVEDKEYWORD_TOKEN ReservedKeywordToken.WHILE t) eqn:Hwhile.
    { split; [done|]. eapply plain_tokenIs; [| |exact Hwhile]; done. }
    done. }
  intros stype j [-> Hplain]. apply ends_steady.
  eapply steady_next; [done|done|]. intros Hi'.
  apply steady_bind; [by apply steady_parseExpression|]. intros expr j _ Hj. step.
  apply steady_bind; [by apply steady_parseBlock|]. intros block j' _ Hj'.
  apply steady_bind; [|intros; repeat step].
  case_bool_decide; [|by step].
  apply steady_bind; [by apply steady_elifLoop|]. intros blocks j'' _ Hj''. step.
  destruct (tokenIs _ _ _); [|by step].
  apply steady_bind; [by apply steady_parseElseBlock|]. intros. by step.
Qed.

Lemma ends_some (m : P Statement) i :
  fair tokens m i → ends (statementAt tokens i) (Some <$> m) i.
Proof.
  unfold fair, ends, fmap, P_fmap. destruct (m i) as [[a j]| |]; [|done..].
  intros [? ?]. by repeat split.
Qed.

Lemma ends_parseStatementBody i :
  (i < List.length tokens)%nat →
  ends (statementAt tokens i) (parseStatementBody tokens fuel recStatement) i.
Proof.
  intros Hi. unfold parseStatementBody. apply ends_peek; [done|]. intros t Ht.
  destruct (tokenIs _ _ t); [by apply ends_some, fair_parsePrintStatement|].
  destruct (tokenIs _ _ t); [by apply ends_some, fair_parseBreakStatement|].
  destruct (tokenIs _ _ t); [by apply ends_some, fair_parseContinueStatement|].
  destruct (isType ID_TOKEN t) eqn:Hid.
  { assert (plainToken t) as [Heof _] by (eapply plain_isType; [| |exact Hid]; done).
    pose proof (before_end_of_file i t Ht Heof) as Hlt.
    apply (ends_peek_ahead _ _ i 1); [lia|]. intros t1 Ht1.
    rewrite Nat.add_1_r in Ht1.
    assert (getType t1 ≠ EOF_TOKEN → (i + 2 < List.length tokens)%nat) as Hlt2.
    { intros Heof1. pose proof (before_end_of_file (S i) t1 Ht1 Heof1). lia. }
    eapply (ends_bind (λ _ j, j = i)).
    { destruct (tokenIs PUNCTUATION_TOKEN PunctuationToken.PERIOD t1) eqn:Hp; [|done].
      apply (ends_peek_ahead _ _ i 2); [|done].
      apply Hlt2. by rewrite (tokenIs_true _ _ _ Hp). }
    intros isAppend j ->.
    destruct isAppend; [by apply ends_some, fair_parseListAppendStatement|].
    eapply (ends_bind (λ _ j, j = i)).
    { destruct (isType ASSIGNMENT_TOKEN t1) eqn:Ha; [|done].
      apply (ends_peek_ahead _ _ i 2); [|done].
      apply Hlt2. by rewrite (isType_true _ _ Ha). }
    intros isDeclaration j ->.
    destruct isDeclaration; [by apply ends_some, fair_parseListDeclarationStatement|].
    by apply ends_some, fair_parseAssignmentStatement. }
  destruct (tokenIs _ _ t);
    [by apply ends_some, steady_fair, steady_parseCompoundStatement|].
  destruct (tokenIs _ _ t);
    [by apply ends_some, steady_fair, steady_parseCompoundStatement|].
  unfold ends, statementAt. simpl. repeat split; lia.
Qed.

End Statements.

Lemma ends_parseStatement fuel : ∀ i,
  (i < List.length tokens)%nat →
  ends (statementAt tokens i) (parseStatement tokens fuel) i.
Proof.
  induction fuel as [|fuel IH]; intros i Hi; [done|]. cbn [parseStatement].
  by apply ends_parseStatementBody.
Qed.

Lemma ends_programLoop fuel n : ∀ statements i,
  ends (λ _ _, True) (programLoop tokens fuel n statements) i.
Proof.
  induction n as [|n IH]; intros statements i; [done|]. cbn [programLoop].
  unfold ends, mbind at 1, P_bind at 1, index.
  case_bool_decide as Hi; [|done].
  pose proof (ends_parseStatement fuel i Hi) as Hparse.
  unfold mbind at 1, P_bind at 1. unfold ends in Hparse.
  destruct (parseStatement tokens fuel i) as [[[stmt|] j]| |]; [| |done..].
  - apply IH.
  - destruct Hparse as (_ & _ & Hj). rewrite (Hj eq_refl). destruct (lookup_lt_is_Some_2 tokens i Hi) as [t Ht].
    unfold mbind at 1, P_bind at 1, tokenAt at 1. rewrite Nat.add_0_r, Ht.
    destruct (isType EOF_TOKEN t); [done|]. apply IH.
Qed.

(** On a token vector levelled as the lexer levels them, the parser
    reads no token outside the vector. *)
Lemma checked_parseProgram : parseProgram tokens ≠ Crash UncheckedAccess.
Proof.
  unfold parseProgram, parseProgramWith.
  pose proof (ends_programLoop (fuelFor tokens) (fuelFor tokens) [] 0) as H.
  unfold ends in H. destruct (programLoop _ _ _ _ _) as [[statements j]| |f]; [done..|].
  by intros [= ->].
Qed.

End WithTokens.
End NestingFacts.

(** ** The levels of indentation in the tokens *)

Module LevelFacts.
Import Lexer Source LexerFacts Nesting Levels.

Lemma closable_app tokens new depth depth' :
  closable tokens depth →
  countIndent new + depth ≤ countDedent new + depth' →
  closable new depth' →
  closable (tokens ++ new) depth'.
Proof.
  intros Hold Hall Hnew i. rewrite drop_app, countIndent_app, countDedent_app.
  destruct (decide (i ≤ List.length tokens)) as [Hi|Hi].
  - replace (i - List.length tokens) with 0 by lia. rewrite drop_0.
    specialize (Hold i). lia.
  - rewrite drop_ge by lia. specialize (Hnew (i - List.length tokens)).
    change (countIndent []) with 0. change (countDedent []) with 0. lia.
Qed.

Lemma closable_nil depth : closable [] depth.
Proof. intros i. rewrite drop_nil. change (countIndent []) with 0. lia. Qed.

Lemma closable_plain t depth :
  isIndent t = false → closable [t] depth.
Proof.
  intros Ht [|i]; simpl; [|rewrite drop_nil; change (countIndent []) with 0; lia].
  unfold countIndent. simpl. rewrite Ht. simpl. lia.
Qed.

Lemma closable_indent t depth : closable [t] (S depth).
Proof.
  intros [|i]; simpl; [|rewrite drop_nil; change (countIndent []) with 0; lia].
  unfold countIndent. simpl. destruct (isIndent t); simpl; lia.
Qed.

Lemma closable_dedents k l c depth :
  closable (replicate k (mkToken l c (IndentationToken false))) depth.
Proof.
  intros i. rewrite drop_replicate.
  destruct (count_replicate_dedent (k - i) l c) as [-> _]. lia.
Qed.

Lemma handleIndentation_open s ch f :
  handleIndentation s ch = Ok f → open s → open (flowState f).
Proof.
  intros Hf (depth & Hlen & Hclos). revert Hf. unfold handleIndentation.
  destruct (isBlank ch && _). { intros [= <-]. by exists depth. }
  destruct (negb (isBlank ch) && negb (isNewline ch) && indent s).
  2:{ destruct (isNewline ch); intros [= <-]; by exists depth. }
  destruct (indentStack_ (lx s)) as [|top below] eqn:Hstack; [done|].
  destruct (n_t s >? top)%Z.
  { intros [= <-]. exists (S depth). simpl in *. split; [lia|].
    eapply closable_app; [done| |apply closable_indent].
    unfold countIndent, countDedent. simpl. lia. }
  destruct (n_t s <? top)%Z; [|intros [= <-]; exists depth; simpl; by rewrite ?Hstack].
  destruct (dedentLoop _ _ _ _ _) as [[stack' r']| |] eqn:Hloop; [|done..].
  apply dedentLoop_spec in Hloop as (k & -> & Hk & Hne).
  destruct stack' as [|top' below']; [done|].
  destruct (negb _); [done|]. intros [= <-]. simpl in *.
  exists (List.length below'). split; [done|].
  eapply closable_app; [done| |apply closable_dedents].
  destruct (count_replicate_dedent k (line_ (lx s)) (column_ (lx s))) as [-> ->]. lia.
Qed.

Lemma scanToken_open s ch file s' file' :
  scanToken s ch file = Ok (s', file') → open s → open s'.
Proof.
  intros (taken & _ & Hstack & _ & Hres)%scanToken_spec (depth & Hlen & Hclos).
  exists depth. rewrite Hstack. split; [done|].
  destruct Hres as [[-> _]|(d & -> & Hsp)]; [done|].
  eapply closable_app; [done| |apply closable_plain].
  - destruct (count_not_layout (line_ (lx s')) (column_ (lx s')) d) as [-> ->]; [|lia].
    intros b. by eapply spells_cons_not_layout.
  - unfold isIndent. simpl. destruct d as [| | | | | | | | |b| |]; try done.
    by destruct (spells_cons_not_layout _ _ _ b Hsp).
Qed.

Lemma lexStep_open s ch rest s' rest' :
  open s →
  lexStep (setLexer s (advance (lx s) ch)) ch rest = Ok (s', rest') →
  open s'.
Proof.
  intros (depth & Hlen & Hclos). unfold lexStep.
  assert (open (setLexer s (advance (lx s) ch))) as Hopen.
  { exists depth. simpl. by rewrite (proj1 (advance_stacks _ _)). }
  destruct (handleIndentation _ ch) as [f| |] eqn:Hind; [|done..].
  pose proof (handleIndentation_open _ _ _ Hind Hopen) as Hmid.
  destruct f as [mid|mid]; simpl in Hmid.
  - by intros [= <- <-].
  - intros Hscan. by eapply scanToken_open.
Qed.

(** The tokens of a source are levelled. *)
Lemma tokenize_levelled src toks :
  tokenizeInputFile src = Ok toks → levelled toks.
Proof.
  intros Htoks. split.
  { apply TokenFacts.tokenize_tidy in Htoks as (body & l & c & -> & _ & Hbody & _).
    by exists body, (mkToken l c EndOfFileToken). }
  apply tokenize_inv in Htoks as (s & Hloop & Hfin).
  assert (open s) as (depth & Hlen & Hclos).
  { eapply (lexLoop_invariant (λ s _, open s)); [| |exact Hloop].
    - intros. by eapply lexStep_open.
    - exists 0. split; [done|]. apply closable_nil. }
  apply finish_spec in Hfin as ->; [|by destruct (indentStack_ (lx s))].
  rewrite Hlen. simpl. rewrite Nat.sub_0_r.
  assert (closable (res s ++ replicate depth
                      (mkToken (line_ (lx s)) (column_ (lx s)) (IndentationToken false))
                    ++ [mkToken (line_ (lx s)) (column_ (lx s)) EndOfFileToken]) 0) as H.
  { eapply closable_app; [done| |].
    - rewrite countIndent_app, countDedent_app.
      destruct (count_replicate_dedent depth (line_ (lx s)) (column_ (lx s))) as [-> ->].
      change (countIndent [_]) with 0. lia.
    - eapply (closable_app _ _ 0 0); [apply closable_dedents| |by apply closable_plain].
      change (countIndent [_]) with 0. lia. }
  intros i. unfold surplus. specialize (H i). lia.
Qed.


(** X21.  The tokens of a source that the lexer tokenizes are levelled:
    the end-of-file token is the last token and no other, and from no
    index on are there fewer dedentation tokens than indentation
    tokens, so that every level that an indentation token opens is
    closed by a dedentation token after it. *)
Theorem tokens_are_levelled src toks :
  tokenizeInputFile src = Ok toks → levelled toks.
Proof. apply tokenize_levelled. Qed.

Lemma tokens_are_levelled_witness :
  ∃ toks, tokenize scenario6 = Ok toks
          ∧ countIndent toks = 2 ∧ levelled toks.
Proof.
  eexists. split; [vm_compute; reflexivity|]. split; [reflexivity|].
  apply (tokens_are_levelled (list_ascii_of_string scenario6)).
  vm_compute. reflexivity.
Defined.

(** X22.  On the tokens of a source that the lexer tokenizes, the
    parser reads no token outside the vector: not with the tokens that
    it looks ahead to, not after a statement that ends on the
    end-of-file token, and not in a block, where a dedentation token
    stands before the end of the file. *)
Theorem parser_reads_inside_the_vector src toks :
  tokenizeInputFile src = Ok toks →
  Parser.parseProgram toks ≠ Crash UncheckedAccess.
Proof. intros Htoks%tokenize_levelled. by apply NestingFacts.checked_parseProgram. Qed.

Lemma parser_reads_inside_the_vector_witness :
  ∃ toks, tokenize "if x:" = Ok toks
          ∧ List.length toks = 4
          ∧ Parser.parseProgram toks ≠ Crash UncheckedAccess.
Proof.
  eexists. split; [vm_compute; reflexivity|]. split; [reflexivity|].
  apply (parser_reads_inside_the_vector (list_ascii_of_string "if x:")).
  vm_compute. reflexivity.
Defined.

(** X23.  The interpreter ends in an access that nothing checks only on
    a source that holds a closing square bracket: the lexer makes such
    an access on that byte alone, the parser makes none on the tokens
    of the lexer, and the visitor makes none on the program of the
    parser. *)
Theorem only_a_bracket_reaches_unchecked_access fuel source :
  status (main fuel (Readable source)) = Aborted UncheckedAccess →
  "]"%char ∈ list_ascii_of_string source.
Proof.
  unfold main, tokenize.
  destruct (tokenizeInputFile (list_ascii_of_string source)) as [toks|e|f] eqn:Htoks;
    [|done|].
  - apply tokenize_levelled in Htoks.
    pose proof (NestingFacts.checked_parseProgram toks Htoks) as Hparse.
    destruct (Parser.parseProgram toks) as [program|e|f] eqn:Hprogram; [|done|].
    + apply TreeFacts.shaped_parseProgram in Hprogram.
      pose proof (CheckFacts.checked_visitProgram toks fuel program Visitor.newVisitor
                    Hprogram) as Hvisit.
      destruct (Visitor.visitProgram toks fuel program Visitor.newVisitor)
        as [[[]|e|f] v]; [done..|].
      simpl. intros [= ->]. by destruct Hvisit.
    + simpl. intros [= ->]. by destruct Hparse.
  - simpl. intros [= ->]. by apply GroundFacts.unchecked_tokenizeInputFile.
Qed.

Lemma only_a_bracket_reaches_unchecked_access_witness :
  status (main 5 (Readable "x = 1]")) = Aborted UncheckedAccess
  ∧ "]"%char ∈ list_ascii_of_string "x = 1]".
Proof.
  split; [vm_compute; reflexivity|].
  apply (only_a_bracket_reaches_unchecked_access 5 "x = 1]"). vm_compute. reflexivity.
Defined.

End LevelFacts.


(** ** The positions of the nodes *)

Module PlaceFacts.
Import Parser Source Places.

Lemma placed_mono n n' e : n ≤ n' → placed n e = true → placed n' e = true.
Proof.
  intros Hn. induction e; simpl; rewrite ?andb_true_iff, ?Nat.ltb_lt;
    intuition lia.
Qed.

Lemma placedStatement_compound n stype expr blocks p :
  placedStatement n (CompoundStatement stype expr blocks p)
  = placed n expr && (p <? n) && forallb (placedBlock n) blocks.
Proof. reflexivity. Qed.

Lemma placedBlock_simple n stmts p :
  placedBlock n (SimpleBlock stmts p) = (p <? n) && forallb (placedStatement n) stmts.
Proof. reflexivity. Qed.

Fixpoint placedStatement_mono n n' (Hn : n ≤ n') (s : Statement) {struct s} :
  placedStatement n s = true → placedStatement n' s = true
with placedBlock_mono n n' (Hn : n ≤ n') (b : Block) {struct b} :
  placedBlock n b = true → placedBlock n' b = true.
Proof.
  - destruct s as [loc expr p|id p|id expr p|p|p|expr p|stype expr blocks p];
      simpl; rewrite ?andb_true_iff, ?Nat.ltb_lt.
    + intros [[H1 H2] H3]. eauto using placed_mono with lia.
    + lia.
    + intros [H1 H2]. eauto using placed_mono with lia.
    + lia.
    + lia.
    + intros [H1 H2]. eauto using placed_mono with lia.
    + intros [[H1 H2] H3]. split; [eauto using placed_mono with lia|].
      induction blocks as [|b rest IH]; [done|].
      apply andb_true_iff in H3 as [Hb Hrest]. apply andb_true_iff. split.
      * by apply (placedBlock_mono n n' Hn b).
      * by apply IH.
  - destruct b as [stmts p|condition block p|block p];
      simpl; rewrite ?andb_true_iff, ?Nat.ltb_lt.
    + intros [H1 H2]. split; [lia|].
      induction stmts as [|s rest IH]; [done|].
      apply andb_true_iff in H2 as [Hs Hrest]. apply andb_true_iff. split.
      * by apply (placedStatement_mono n n' Hn s).
      * by apply IH.
    + intros [[H1 H2] H3]. split; [split|lia].
      * eauto using placed_mono.
      * by apply (placedBlock_mono n n' Hn block).
    + intros [H1 H2]. split; [|lia]. by apply (placedBlock_mono n n' Hn block).
Qed.

Lemma placedStatements_mono n n' stmts :
  n ≤ n' → forallb (placedStatement n) stmts = true →
  forallb (placedStatement n') stmts = true.
Proof.
  intros Hn. rewrite !forallb_forall. intros H s Hs.
  by apply (placedStatement_mono n n' Hn), H.
Qed.

Lemma placedBlocks_mono n n' blocks :
  n ≤ n' → forallb (placedBlock n) blocks = true →
  forallb (placedBlock n') blocks = true.
Proof.
  intros Hn. rewrite !forallb_forall. intros H b Hb.
  by apply (placedBlock_mono n n' Hn), H.
Qed.

Section WithTokens.
Variable tokens : list Token.

(** *** The primitives *)

Lemma lands_bind {A B} (Q : A → nat → Prop) (R : B → nat → Prop)
    (m : P A) (k : A → P B) i :
  lands tokens Q m i →
  (∀ a j, i ≤ j → j ≤ List.length tokens → Q a j → lands tokens R (k a) j) →
  lands tokens R (m ≫= k) i.
Proof.
  unfold lands, mbind, P_bind. intros Hm Hk.
  destruct (m i) as [[a j]| |]; [|done..].
  destruct Hm as (Hij & Hj & Ha). specialize (Hk a j Hij Hj Ha).
  destruct (k a j) as [[b j']| |]; [|done..]. intuition lia.
Qed.

Lemma lands_fmap {A B} (f : A → B) (R : B → nat → Prop) (m : P A) i :
  lands tokens (λ a j, R (f a) j) m i → lands tokens R (f <$> m) i.
Proof. unfold lands, fmap, P_fmap. by destruct (m i) as [[a j]| |]. Qed.

Lemma lands_weaken {A} (Q R : A → nat → Prop) (m : P A) i :
  (∀ a j, Q a j → R a j) → lands tokens Q m i → lands tokens R m i.
Proof.
  unfold lands. intros HQ. destruct (m i) as [[a j]| |]; [|done..].
  intros (? & ? & ?). auto.
Qed.

Lemma lands_ret {A} (R : A → nat → Prop) (a : A) i :
  i ≤ List.length tokens → R a i → lands tokens R (mret a) i.
Proof. intros Hi Ha. unfold lands. simpl. auto. Qed.

Lemma lands_throw {A} (R : A → nat → Prop) e i : lands tokens R (throw e) i.
Proof. done. Qed.

Lemma lands_fuel {A} (R : A → nat → Prop) i : lands tokens R (crash OutOfFuel) i.
Proof. done. Qed.

Lemma lands_lift {A} (R : A → nat → Prop) (m : Outcome A) i :
  i ≤ List.length tokens → (∀ a, m = Ok a → R a i) → lands tokens R (lift m) i.
Proof.
  intros Hi Hm. unfold lands, lift. destruct m as [a|e|f]; [|done..]. auto.
Qed.

(** Reading the token at the index: the token is there. *)
Lemma lands_peek {A} (R : A → nat → Prop) (k : Token → P A) i :
  (∀ t, i < List.length tokens → lands tokens R (k t) i) →
  lands tokens R (tokenAt tokens 0 ≫= k) i.
Proof.
  intros Hk. unfold lands, mbind, P_bind, tokenAt in *. rewrite Nat.add_0_r.
  destruct (tokens !! i) as [t|] eqn:Ht; [|done].
  apply lookup_lt_Some in Ht. by apply Hk.
Qed.

(** Reading a token further on. *)
Lemma lands_ahead {A} (R : A → nat → Prop) (k : Token → P A) n i :
  (∀ t, lands tokens R (k t) i) → lands tokens R (tokenAt tokens n ≫= k) i.
Proof.
  intros Hk. unfold lands, mbind, P_bind, tokenAt in *.
  destruct (tokens !! (i + n)) as [t|]; [|done]. apply Hk.
Qed.

Lemma lands_index {A} (R : A → nat → Prop) (k : nat → P A) i :
  lands tokens R (k i) i → lands tokens R (index ≫= k) i.
Proof. done. Qed.

(** Passing the token at the index, which was seen to be there. *)
Lemma lands_next {A} (R : A → nat → Prop) (k : unit → P A) i :
  i < List.length tokens →
  lands tokens R (k tt) (S i) → lands tokens R (next ≫= k) i.
Proof.
  intros Hi Hk. unfold lands, mbind, P_bind, next in *.
  destruct (k tt (S i)) as [[b j]| |]; [|done..]. intuition lia.
Qed.

(** The position of a node, where a token has been passed. *)
Lemma lands_position {A} (R : A → nat → Prop) (k : nat → P A) i :
  (∀ p, p = i - 1 → lands tokens R (k p) i) →
  lands tokens R (position ≫= k) i.
Proof. intros Hk. by apply (Hk (i - 1)). Qed.

Lemma lands_expect {A} (R : A → nat → Prop) (ok : Token → bool) msg
    (k : Token → P A) i :
  (∀ t, S i ≤ List.length tokens → lands tokens R (k t) (S i)) →
  lands tokens R (expect tokens ok msg ≫= k) i.
Proof.
  intros Hk. unfold expect, lands, mbind, P_bind, tokenAt, next, mret, P_ret in *.
  rewrite Nat.add_0_r.
  destruct (tokens !! i) as [t|] eqn:Ht; [|done].
  apply lookup_lt_Some in Ht. destruct (ok t); [|done].
  specialize (Hk t Ht). destruct (k t (S i)) as [[b j]| |]; [|done..]. intuition lia.
Qed.

Lemma placed_newMulDivTerm i n l op r p e :
  newMulDivTerm l op r p = Ok e →
  placed n l = true → placed n r = true → S p = n → i < n →
  expressionFrom i e n.
Proof.
  unfold newMulDivTerm, getIntValue, expressionFrom. intros He Hl Hr Hn Hi.
  assert ((p <? n) = true) as Hp by (apply Nat.ltb_lt; lia).
  destruct (tok_data op); simpl in He; repeat case_match; simplify_eq;
    simpl; by rewrite Hl, Hr, Hp.
Qed.

Lemma placed_newAritExpr i n l op r p e :
  newAritExpr l op r p = Ok e →
  placed n l = true → placed n r = true → S p = n → i < n →
  expressionFrom i e n.
Proof.
  unfold newAritExpr, getIntValue, expressionFrom. intros He Hl Hr Hn Hi.
  assert ((p <? n) = true) as Hp by (apply Nat.ltb_lt; lia).
  destruct (tok_data op); simpl in He; repeat case_match; simplify_eq;
    simpl; by rewrite Hl, Hr, Hp.
Qed.

Lemma placed_newComparativeRelation i n l op r p e :
  newComparativeRelation l op r p = Ok e →
  placed n l = true → placed n r = true → S p = n → i < n →
  expressionFrom i e n.
Proof.
  unfold newComparativeRelation, getIntValue, expressionFrom. intros He Hl Hr Hn Hi.
  assert ((p <? n) = true) as Hp by (apply Nat.ltb_lt; lia).
  destruct (tok_data op); simpl in He; repeat case_match; simplify_eq;
    simpl; by rewrite Hl, Hr, Hp.
Qed.

Lemma placed_newEqualExpr i n l op r p e :
  newEqualExpr l op r p = Ok e →
  placed n l = true → placed n r = true → S p = n → i < n →
  expressionFrom i e n.
Proof.
  unfold newEqualExpr, getIntValue, expressionFrom. intros He Hl Hr Hn Hi.
  assert ((p <? n) = true) as Hp by (apply Nat.ltb_lt; lia).
  destruct (tok_data op); simpl in He; repeat case_match; simplify_eq;
    simpl; by rewrite Hl, Hr, Hp.
Qed.

(** A node whose parts were placed earlier is placed where it is built. *)
Ltac older :=
  match goal with
  | H : expressionFrom _ ?e ?j |- placed ?n ?e = true =>
      apply (placed_mono j n e); [lia|exact (proj1 H)]
  | H : placed ?j ?e = true |- placed ?n ?e = true =>
      apply (placed_mono j n e); [lia|exact H]
  | H : blockFrom _ ?b ?j |- placedBlock ?n ?b = true =>
      apply (placedBlock_mono j n); [lia|exact (proj1 H)]
  | H : statementsBelow ?l ?j |- forallb (placedStatement ?n) ?l = true =>
      apply (placedStatements_mono j n); [lia|exact H]
  | H : forallb (placedStatement ?j) ?l = true |- forallb (placedStatement ?n) ?l = true =>
      apply (placedStatements_mono j n); [lia|exact H]
  | H : blocksBelow ?l ?j |- forallb (placedBlock ?n) ?l = true =>
      apply (placedBlocks_mono j n); [lia|exact H]
  | H : forallb (placedBlock ?j) ?l = true |- forallb (placedBlock ?n) ?l = true =>
      apply (placedBlocks_mono j n); [lia|exact H]
  end.

Ltac parts :=
  try rewrite placedStatement_compound; try rewrite placedBlock_simple;
  simpl;
  repeat (apply andb_true_iff; split);
  first [ older | apply Nat.ltb_lt; lia | done ].

Ltac built :=
  first
    [ assumption
    | done
    | match goal with
      | H : expressionFrom _ ?e ?j |- expressionFrom _ ?e ?j =>
          destruct H as (? & ? & ?); repeat split; [assumption|assumption|lia]
      end
    | unfold expressionFrom, statementFrom, blockFrom, resultFrom;
      split; [parts|split; [simpl; lia|lia]] ].

(** A function called further on. *)
Ltac later lemma :=
  eapply lands_weaken; [|apply lemma; lia];
  (let H := fresh in
   intros ? ? H; destruct H as (? & ? & ?);
   repeat split; [assumption|assumption|lia]).

Ltac step :=
  first
    [ apply lands_throw
    | apply lands_fuel
    | apply lands_position; intros ? ?
    | apply lands_peek; intros ? ?
    | apply lands_expect; intros ? ?
    | apply lands_next; [lia|]
    | apply lands_ret; [lia|built]
    | apply lands_lift;
      [ lia
      | intros ? ?;
        first
          [ eapply placed_newMulDivTerm; [eassumption|older|older|lia|lia]
          | eapply placed_newAritExpr; [eassumption|older|older|lia|lia]
          | eapply placed_newComparativeRelation; [eassumption|older|older|lia|lia]
          | eapply placed_newEqualExpr; [eassumption|older|older|lia|lia] ] ]
    | match goal with
      | H : ∀ i, i ≤ _ → lands _ (expressionFrom i) ?rec i
        |- lands _ _ (?rec ≫= _) ?j =>
          apply (lands_bind (expressionFrom j)); [apply H; lia|intros ? ? ? ? ?]
      end ].

Section Expressions.
Variables recExpression recTerm recUnary : P Expression.
Hypothesis lands_recExpression :
  ∀ i, i ≤ List.length tokens → lands tokens (expressionFrom i) recExpression i.
Hypothesis lands_recTerm :
  ∀ i, i ≤ List.length tokens → lands tokens (expressionFrom i) recTerm i.
Hypothesis lands_recUnary :
  ∀ i, i ≤ List.length tokens → lands tokens (expressionFrom i) recUnary i.

Lemma lands_parseListElementLocation id i :
  i ≤ List.length tokens →
  lands tokens (expressionFrom i) (parseListElementLocation tokens recExpression id) i.
Proof. intros Hi. unfold parseListElementLocation. repeat step. Qed.

Lemma lands_parseLocation i :
  i ≤ List.length tokens →
  lands tokens (expressionFrom i) (parseLocation tokens recExpression) i.
Proof.
  intros Hi. unfold parseLocation, syntaxErrorAt. step.
  destruct (tok_data t); try apply lands_throw.
  step. step.
  destruct (tokenIs _ _ _); [later lands_parseListElementLocation|].
  repeat step.
Qed.

Lemma lands_parseFactor i :
  i ≤ List.length tokens →
  lands tokens (expressionFrom i) (parseFactor tokens recExpression) i.
Proof.
  intros Hi. unfold parseFactor, syntaxErrorAt. step.
  destruct (tokenIs _ _ _). { unfold parseExpressionFactor. repeat step. }
  destruct (isType NUMBER_TOKEN _).
  { unfold parseNumberFactor, syntaxErrorAt. step.
    destruct (tok_data t0); try apply lands_throw. repeat step. }
  destruct (isType BOOL_TOKEN _).
  { unfold parseBoolFactor, syntaxErrorAt. step.
    destruct (tok_data t0); try apply lands_throw. repeat step. }
  destruct (isType ID_TOKEN _); [by apply lands_parseLocation|].
  apply lands_throw.
Qed.

Lemma lands_parseUnaryBody i :
  i ≤ List.length tokens →
  lands tokens (expressionFrom i) (parseUnaryBody tokens recExpression recUnary) i.
Proof.
  intros Hi. unfold parseUnaryBody. step.
  destruct (tokenIs _ _ _). { unfold parseNotUnary. repeat step. }
  destruct (tokenIs _ _ _). { unfold parseMinusUnary. repeat step. }
  by apply lands_parseFactor.
Qed.

Lemma lands_parseTermBody i :
  i ≤ List.length tokens →
  lands tokens (expressionFrom i) (parseTermBody tokens recTerm recUnary) i.
Proof.
  intros Hi. unfold parseTermBody. step. step.
  destruct (isMulDiv _); [|by step].
  unfold parseMulDivTerm. repeat step.
Qed.

Lemma lands_parseNumExpr i :
  i ≤ List.length tokens →
  lands tokens (expressionFrom i) (parseNumExpr tokens recTerm) i.
Proof.
  intros Hi. unfold parseNumExpr. step. step.
  destruct (isAddSub _); [|by step].
  unfold parseAritExpr. repeat step.
Qed.

Lemma lands_parseRelation i :
  i ≤ List.length tokens →
  lands tokens (expressionFrom i) (parseRelation tokens recTerm) i.
Proof.
  intros Hi. unfold parseRelation.
  eapply lands_bind; [by apply lands_parseNumExpr|intros ? ? ? ? ?].
  step. destruct (isComparison _); [|by step].
  unfold parseComparativeRelation. step.
  eapply lands_bind; [apply lands_parseNumExpr; lia|intros ? ? ? ? ?].
  repeat step.
Qed.

Lemma lands_parseEquality i :
  i ≤ List.length tokens →
  lands tokens (expressionFrom i) (parseEquality tokens recTerm) i.
Proof.
  intros Hi. unfold parseEquality.
  eapply lands_bind; [by apply lands_parseRelation|intros ? ? ? ? ?].
  step. destruct (isEqNeq _); [|by step].
  unfold parseEqualExpr. step.
  eapply lands_bind; [apply lands_parseRelation; lia|intros ? ? ? ? ?].
  repeat step.
Qed.

Lemma lands_parseJoin i :
  i ≤ List.length tokens →
  lands tokens (expressionFrom i) (parseJoin tokens recTerm) i.
Proof.
  intros Hi. unfold parseJoin.
  eapply lands_bind; [by apply lands_parseEquality|intros ? ? ? ? ?].
  step. destruct (tokenIs _ _ _); [|by step].
  unfold parseAndExpr, syntaxErrorAt. step. step.
  destruct (tokenIs _ _ _); [apply lands_throw|].
  eapply lands_bind; [apply lands_parseEquality; lia|intros ? ? ? ? ?].
  repeat step.
Qed.

Lemma lands_parseExpressionBody i :
  i ≤ List.length tokens →
  lands tokens (expressionFrom i) (parseExpressionBody tokens recExpression recTerm) i.
Proof.
  intros Hi. unfold parseExpressionBody.
  eapply lands_bind; [by apply lands_parseJoin|intros ? ? ? ? ?].
  step. destruct (tokenIs _ _ _); [|by step].
  unfold parseOrExpr. repeat step.
Qed.

End Expressions.

Lemma lands_expressions fuel :
  (∀ i, i ≤ List.length tokens → lands tokens (expressionFrom i) (parseExpression tokens fuel) i)
  ∧ (∀ i, i ≤ List.length tokens → lands tokens (expressionFrom i) (parseTerm tokens fuel) i)
  ∧ (∀ i, i ≤ List.length tokens → lands tokens (expressionFrom i) (parseUnary tokens fuel) i).
Proof.
  induction fuel as [|n (IHe & IHt & IHu)]; [by repeat split|].
  repeat split; intros i Hi; simpl.
  - by apply lands_parseExpressionBody.
  - by apply lands_parseTermBody.
  - by apply lands_parseUnaryBody.
Qed.


Ltac expression :=
  eapply lands_bind;
  [apply lands_expressions; lia|intros ? ? ? ? ?].

Lemma lands_raise {A B} (R : B → nat → Prop) e (k : A → P B) i :
  lands tokens R (throw e ≫= k) i.
Proof. done. Qed.

Lemma statementsBelow_snoc statements s j j' :
  j ≤ j' → statementsBelow statements j → placedStatement j' s = true →
  statementsBelow (statements ++ [s]) j'.
Proof.
  intros Hj Hs H. unfold statementsBelow in *. rewrite forallb_app. simpl.
  by rewrite (placedStatements_mono j j' _ Hj Hs), H.
Qed.

Lemma blocksBelow_snoc blocks b j j' :
  j ≤ j' → blocksBelow blocks j → placedBlock j' b = true →
  blocksBelow (blocks ++ [b]) j'.
Proof.
  intros Hj Hs H. unfold blocksBelow in *. rewrite forallb_app. simpl.
  by rewrite (placedBlocks_mono j j' _ Hj Hs), H.
Qed.

Section Statements.
Variable fuel : nat.
Variable recStatement : P (option Statement).
Hypothesis lands_recStatement :
  ∀ i, i ≤ List.length tokens → lands tokens (resultFrom i) recStatement i.

Lemma lands_parsePrintStatement i :
  i ≤ List.length tokens →
  lands tokens (statementFrom i) (parsePrintStatement tokens fuel) i.
Proof. intros Hi. unfold parsePrintStatement. do 2 step. expression. repeat step. Qed.

Lemma lands_parseContinueStatement i :
  i ≤ List.length tokens →
  lands tokens (statementFrom i) (parseContinueStatement tokens) i.
Proof. intros Hi. unfold parseContinueStatement. repeat step. Qed.

Lemma lands_parseBreakStatement i :
  i ≤ List.length tokens →
  lands tokens (statementFrom i) (parseBreakStatement tokens) i.
Proof. intros Hi. unfold parseBreakStatement. repeat step. Qed.

Lemma lands_parseListAppendStatement i :
  i ≤ List.length tokens →
  lands tokens (statementFrom i) (parseListAppendStatement tokens fuel) i.
Proof.
  intros Hi. unfold parseListAppendStatement, syntaxErrorAt. step.
  destruct (tok_data t); try apply lands_throw.
  do 4 step. expression. repeat step.
Qed.

Lemma lands_parseListDeclarationStatement i :
  i ≤ List.length tokens →
  lands tokens (statementFrom i) (parseListDeclarationStatement tokens) i.
Proof.
  intros Hi. unfold parseListDeclarationStatement, syntaxErrorAt. step.
  destruct (tok_data t); try apply lands_throw.
  repeat step.
Qed.

Lemma lands_parseAssignmentStatement i :
  i ≤ List.length tokens →
  lands tokens (statementFrom i) (parseAssignmentStatement tokens fuel) i.
Proof.
  intros Hi. unfold parseAssignmentStatement.
  eapply lands_bind.
  { apply lands_parseLocation; [|done]. apply lands_expressions. }
  intros ? ? ? ? ?. step. expression. repeat step.
Qed.

Lemma lands_blockLoop n : ∀ statements i,
  i ≤ List.length tokens → statementsBelow statements i →
  lands tokens statementsBelow (blockLoop tokens recStatement n statements) i.
Proof.
  induction n as [|n IH]; intros statements i Hi Hs; [done|].
  simpl. apply lands_index.
  destruct (bool_decide _); [|by apply lands_ret].
  step. destruct (_ || _); [|by apply lands_ret].
  eapply lands_bind; [by apply lands_recStatement|].
  intros [s|] j Hij Hj Hres.
  - apply IH; [done|]. apply (statementsBelow_snoc _ _ i); [done..|apply Hres].
  - assert (statementsBelow statements j) as Hs'
      by by apply (placedStatements_mono i j).
    step. destruct (negb _); [|by apply IH].
    step. apply IH; [lia|]. apply (placedStatements_mono j (S j)); [lia|done].
Qed.

Lemma lands_parseBlock i :
  i ≤ List.length tokens →
  lands tokens (blockFrom i) (parseBlock tokens fuel recStatement) i.
Proof.
  intros Hi. unfold parseBlock. step. step.
  destruct (_ || _); [apply lands_raise|]. step.
  apply (lands_bind statementsBelow); [by apply lands_blockLoop|intros ? ? ? ? ?].
  repeat step.
Qed.

Lemma lands_parseElseBlock i :
  i ≤ List.length tokens →
  lands tokens (blockFrom i) (parseElseBlock tokens fuel recStatement) i.
Proof.
  intros Hi. unfold parseElseBlock. do 2 step.
  eapply lands_bind; [apply lands_parseBlock; lia|intros ? ? ? ? ?].
  repeat step.
Qed.

Lemma lands_parseElifBlock i :
  i ≤ List.length tokens →
  lands tokens (blockFrom i) (parseElifBlock tokens fuel recStatement) i.
Proof.
  intros Hi. unfold parseElifBlock. step. expression. step.
  eapply lands_bind; [apply lands_parseBlock; lia|intros ? ? ? ? ?].
  repeat step.
Qed.

Lemma lands_elifLoop n : ∀ blocks i,
  i ≤ List.length tokens → blocksBelow blocks i →
  lands tokens blocksBelow (elifLoop tokens fuel recStatement n blocks) i.
Proof.
  induction n as [|n IH]; intros blocks i Hi Hs; [done|].
  simpl. step. destruct (tokenIs _ _ _); [|by apply lands_ret].
  eapply lands_bind; [by apply lands_parseElifBlock|].
  intros b j Hij Hj Hb. apply IH; [done|]. apply (blocksBelow_snoc _ _ i); [done..|apply Hb].
Qed.

Lemma lands_parseCompoundStatement i :
  i ≤ List.length tokens →
  lands tokens (statementFrom i) (parseCompoundStatement tokens fuel recStatement) i.
Proof.
  intros Hi. unfold parseCompoundStatement, syntaxErrorAt. step.
  apply (lands_bind (λ _ j, j = i)).
  { destruct (tokenIs _ _ _); [by apply lands_ret|].
    destruct (tokenIs _ _ _); [by apply lands_ret|apply lands_throw]. }
  intros stype ? _ _ ->. step. expression. step.
  eapply lands_bind; [apply lands_parseBlock; lia|intros block ? ? ? Hblock].
  apply (lands_bind blocksBelow).
  { destruct (bool_decide _).
    - apply (lands_bind blocksBelow).
      { apply lands_elifLoop; [done|]. unfold blocksBelow. simpl.
        rewrite andb_true_r. apply Hblock. }
      intros blocks j1 ? ? Hblocks. step.
      destruct (tokenIs _ _ _); [|by apply lands_ret].
      eapply lands_bind; [by apply lands_parseElseBlock|].
      intros elseBlock ? ? ? Helse. apply lands_ret; [done|].
      apply (blocksBelow_snoc _ _ j1); [done..|apply Helse].
    - apply lands_ret; [done|]. unfold blocksBelow. simpl. rewrite andb_true_r.
      apply Hblock. }
  intros blocks ? ? ? ?. repeat step.
Qed.

Lemma lands_parseStatementBody i :
  i ≤ List.length tokens →
  lands tokens (resultFrom i) (parseStatementBody tokens fuel recStatement) i.
Proof.
  intros Hi. unfold parseStatementBody. step.
  destruct (tokenIs _ _ _).
  { apply lands_fmap. by apply lands_parsePrintStatement. }
  destruct (tokenIs _ _ _).
  { apply lands_fmap. by apply lands_parseBreakStatement. }
  destruct (tokenIs _ _ _).
  { apply lands_fmap. by apply lands_parseContinueStatement. }
  destruct (isType ID_TOKEN _).
  { apply lands_ahead. intros t1.
    apply (lands_bind (λ _ j, j = i)).
    { destruct (tokenIs _ _ _); [|by apply lands_ret].
      apply lands_ahead. intros t2. by apply lands_ret. }
    intros [] ? _ _ ->.
    { apply lands_fmap. by apply lands_parseListAppendStatement. }
    apply (lands_bind (λ _ j, j = i)).
    { destruct (isType _ _); [|by apply lands_ret].
      apply lands_ahead. intros t2. by apply lands_ret. }
    intros [] ? _ _ ->.
    { apply lands_fmap. by apply lands_parseListDeclarationStatement. }
    apply lands_fmap. by apply lands_parseAssignmentStatement. }
  destruct (tokenIs _ _ _).
  { apply lands_fmap. by apply lands_parseCompoundStatement. }
  destruct (tokenIs _ _ _).
  { apply lands_fmap. by apply lands_parseCompoundStatement. }
  by apply lands_ret.
Qed.

End Statements.

Lemma lands_parseStatement fuel : ∀ i,
  i ≤ List.length tokens → lands tokens (resultFrom i) (parseStatement tokens fuel) i.
Proof.
  induction fuel as [|n IH]; intros i Hi; [done|].
  simpl. by apply lands_parseStatementBody.
Qed.

Lemma lands_programLoop fuel n : ∀ statements i,
  i ≤ List.length tokens → statementsBelow statements i →
  lands tokens statementsBelow (programLoop tokens fuel n statements) i.
Proof.
  induction n as [|n IH]; intros statements i Hi Hs; [done|].
  simpl. apply lands_index.
  destruct (bool_decide _); [|by apply lands_ret].
  eapply lands_bind; [by apply lands_parseStatement|].
  intros [s|] j Hij Hj Hres.
  - apply IH; [done|]. apply (statementsBelow_snoc _ _ i); [done..|apply Hres].
  - assert (statementsBelow statements j) as Hs'
      by by apply (placedStatements_mono i j).
    step. destruct (isType _ _); [by apply lands_ret|].
    step. apply IH; [lia|]. apply (placedStatements_mono j (S j)); [lia|done].
Qed.

End WithTokens.

(** Past the end of the vector nothing is parsed: the first token read
    is not there. *)
Lemma parseUnary_past_end tokens fuel i :
  List.length tokens ≤ i → ∀ r, parseUnary tokens fuel i ≠ Ok r.
Proof.
  intros Hi%(lookup_ge_None_2 tokens) r. destruct fuel as [|n]; [done|].
  simpl. unfold parseUnaryBody, mbind, P_bind, tokenAt.
  by rewrite Nat.add_0_r, Hi.
Qed.

Lemma parseTerm_past_end tokens fuel i :
  List.length tokens ≤ i → ∀ r, parseTerm tokens fuel i ≠ Ok r.
Proof.
  intros Hi r. destruct fuel as [|n]; [done|].
  simpl. unfold parseTermBody, mbind, P_bind.
  pose proof (parseUnary_past_end tokens n i Hi) as Hu.
  destruct (parseUnary tokens n i) as [[a j]| |]; [by destruct (Hu (a, j))|done..].
Qed.

Lemma parseExpression_past_end tokens fuel i :
  List.length tokens ≤ i → ∀ r, parseExpression tokens fuel i ≠ Ok r.
Proof.
  intros Hi r. destruct fuel as [|n]; [done|].
  simpl. unfold parseExpressionBody, parseJoin, parseEquality, parseRelation,
    parseNumExpr, mbind, P_bind.
  pose proof (parseTerm_past_end tokens n i Hi) as Ht.
  destruct (parseTerm tokens n i) as [[a j]| |]; [by destruct (Ht (a, j))|done..].
Qed.

Lemma parseStatement_past_end tokens fuel i :
  List.length tokens ≤ i → ∀ r, parseStatement tokens fuel i ≠ Ok r.
Proof.
  intros Hi%(lookup_ge_None_2 tokens) r. destruct fuel as [|n]; [done|].
  simpl. unfold parseStatementBody, mbind, P_bind, tokenAt.
  by rewrite Nat.add_0_r, Hi.
Qed.

(** X24. Every node of a program that the parser returns has a position
    that is the index of a token of the vector, so that [getLine] and
    [getColumn], which read [tokens_[position_]] unchecked, stay inside
    it for every node of the tree. *)
Theorem positions_are_token_indices tokens program :
  parseProgram tokens = Ok program →
  forallb (placedStatement (List.length tokens)) (getStatements program) = true.
Proof.
  unfold parseProgram, parseProgramWith. intros H.
  pose proof (lands_programLoop tokens (fuelFor tokens) (fuelFor tokens) [] 0) as Hl.
  unfold lands in Hl.
  destruct (programLoop _ _ _ _ _) as [[statements j]| |]; [|done..].
  injection H as <-. simpl.
  destruct Hl as (_ & Hj & Hs); [lia|done|].
  by apply (placedStatements_mono j).
Qed.

Lemma positions_are_token_indices_witness :
  ∃ toks program,
    Lexer.tokenize scenario6 = Ok toks ∧ parseProgram toks = Ok program
    ∧ List.length (getStatements program) = 2
    ∧ forallb (placedStatement (List.length toks)) (getStatements program) = true.
Proof.
  eexists _, _. split; [vm_compute; reflexivity|].
  match goal with
  | |- parseProgram ?toks = Ok ?program ∧ _ =>
      assert (parseProgram toks = Ok program) as Hparse by (vm_compute; reflexivity);
      split; [exact Hparse|]; split; [reflexivity|];
      exact (positions_are_token_indices toks _ Hparse)
  end.
Defined.

(** X25. A statement that [parseStatement] returns has taken at least
    one token, and its position is the index of the last token it took
    - the index before the one the parser stands at -, so that
    [index_ - 1] is never computed at the index 0; the parser stands
    inside the vector or at its end, and the nodes inside the statement
    have positions below the index. *)
Theorem statement_position_is_its_last_token tokens fuel i s j :
  parseStatement tokens fuel i = Ok (Some s, j) →
  i < j ∧ j ≤ List.length tokens
  ∧ S (stmtPosition s) = j ∧ placedStatement j s = true.
Proof.
  intros H. destruct (decide (i ≤ List.length tokens)) as [Hi|Hi].
  - pose proof (lands_parseStatement tokens fuel i Hi) as Hl.
    unfold lands in Hl. rewrite H in Hl.
    destruct Hl as (_ & Hj & Hp & Hs & Hij). done.
  - by destruct (parseStatement_past_end tokens fuel i ltac:(lia) (Some s, j)).
Qed.

Lemma statement_position_is_its_last_token_witness :
  ∃ toks s j,
    Lexer.tokenize scenario6 = Ok toks
    ∧ parseStatement toks 20 0 = Ok (Some s, j)
    ∧ 0 < j ∧ j ≤ List.length toks
    ∧ S (stmtPosition s) = j ∧ placedStatement j s = true.
Proof.
  eexists _, _, _. split; [vm_compute; reflexivity|].
  match goal with
  | |- parseStatement ?toks ?fuel ?i = Ok (Some ?s, ?j) ∧ _ =>
      assert (parseStatement toks fuel i = Ok (Some s, j)) as Hparse
        by (vm_compute; reflexivity);
      split; [exact Hparse|];
      exact (statement_position_is_its_last_token toks fuel i _ _ Hparse)
  end.
Defined.

(** X26. The same for an expression: [parseExpression] returns after
    at least one token, the node it returns has the index of the last
    token of the expression as its position, and the operands have
    positions below the index the parser stands at. *)
Theorem expression_position_is_its_last_token tokens fuel i e j :
  parseExpression tokens fuel i = Ok (e, j) →
  i < j ∧ j ≤ List.length tokens
  ∧ S (exprPosition e) = j ∧ placed j e = true.
Proof.
  intros H. destruct (decide (i ≤ List.length tokens)) as [Hi|Hi].
  - pose proof (proj1 (lands_expressions tokens fuel) i Hi) as Hl.
    unfold lands in Hl. rewrite H in Hl.
    destruct Hl as (_ & Hj & Hp & Hs & Hij). done.
  - by destruct (parseExpression_past_end tokens fuel i ltac:(lia) (e, j)).
Qed.

Lemma expression_position_is_its_last_token_witness :
  ∃ toks e j,
    Lexer.tokenize "1 * 2 * 3 or a" = Ok toks
    ∧ parseExpression toks 20 0 = Ok (e, j)
    ∧ 0 < j ∧ j ≤ List.length toks
    ∧ S (exprPosition e) = j ∧ placed j e = true.
Proof.
  eexists _, _, _. split; [vm_compute; reflexivity|].
  match goal with
  | |- parseExpression ?toks ?fuel ?i = Ok (?e, ?j) ∧ _ =>
      assert (parseExpression toks fuel i = Ok (e, j)) as Hparse
        by (vm_compute; reflexivity);
      split; [exact Hparse|];
      exact (expression_position_is_its_last_token toks fuel i _ _ Hparse)
  end.
Defined.

End PlaceFacts.


(** ** The end of the parse *)

Module DepthFacts.
Import Parser Source Places Nesting Depth.

Section WithTokens.
Variable tokens : list Token.

(** *** The primitives *)

Lemma lasts_bind {A B} (m : P A) (k : A → P B) i :
  lasts m i → (∀ a j, m i = Ok (a, j) → lasts (k a) j) → lasts (m ≫= k) i.
Proof.
  unfold lasts, mbind, P_bind. intros Hm Hk.
  destruct (m i) as [[a j]| |]; [|done..]. by apply Hk.
Qed.

(** A call that returns inside the vector, further on. *)
Lemma lasts_bind_lands {A B} (Q : A → nat → Prop) (m : P A) (k : A → P B) i :
  lands tokens Q m i → lasts m i →
  (∀ a j, i ≤ j → j ≤ List.length tokens → Q a j → lasts (k a) j) →
  lasts (m ≫= k) i.
Proof.
  intros Hl Hm Hk. apply lasts_bind; [done|]. intros a j Heq.
  unfold lands in Hl. rewrite Heq in Hl. destruct Hl as (? & ? & ?). by apply Hk.
Qed.

Lemma lasts_fmap {A B} (f : A → B) (m : P A) i : lasts m i → lasts (f <$> m) i.
Proof. unfold lasts, fmap, P_fmap. by destruct (m i) as [[a j]| |]. Qed.

Lemma lasts_ret {A} (a : A) i : lasts (mret a) i.
Proof. done. Qed.

Lemma lasts_throw {A} e i : lasts (throw e : P A) i.
Proof. done. Qed.

Lemma lasts_raise {A B} e (k : A → P B) i : lasts (throw e ≫= k) i.
Proof. done. Qed.

Lemma lasts_lift {A} (m : Outcome A) i : (∀ f, m ≠ Crash f) → lasts (lift m) i.
Proof. intros Hm. unfold lasts, lift. destruct m as [a|e|f]; [done..|by destruct (Hm f)]. Qed.

Lemma lasts_peek {A} (k : Token → P A) i :
  (∀ t, tokens !! i = Some t → i < List.length tokens → lasts (k t) i) →
  lasts (tokenAt tokens 0 ≫= k) i.
Proof.
  intros Hk. unfold lasts, mbind, P_bind, tokenAt in *. rewrite Nat.add_0_r.
  destruct (tokens !! i) as [t|] eqn:Ht; [|done].
  apply Hk; [done|]. by apply lookup_lt_Some in Ht.
Qed.

Lemma lasts_ahead {A} (k : Token → P A) n i :
  (∀ t, lasts (k t) i) → lasts (tokenAt tokens n ≫= k) i.
Proof.
  intros Hk. unfold lasts, mbind, P_bind, tokenAt in *.
  destruct (tokens !! (i + n)) as [t|]; [|done]. apply Hk.
Qed.

Lemma lasts_index {A} (k : nat → P A) i : lasts (k i) i → lasts (index ≫= k) i.
Proof. done. Qed.

Lemma lasts_next {A} (k : unit → P A) i : lasts (k tt) (S i) → lasts (next ≫= k) i.
Proof. done. Qed.

Lemma lasts_position {A} (k : nat → P A) i :
  lasts (k (i - 1)) i → lasts (position ≫= k) i.
Proof. done. Qed.

Lemma lasts_expect {A} (ok : Token → bool) msg (k : Token → P A) i :
  (∀ t, S i ≤ List.length tokens → lasts (k t) (S i)) →
  lasts (expect tokens ok msg ≫= k) i.
Proof.
  intros Hk. unfold expect, lasts, mbind, P_bind, tokenAt, next, mret, P_ret in *.
  rewrite Nat.add_0_r.
  destruct (tokens !! i) as [t|] eqn:Ht; [|done].
  destruct (ok t); [|done]. apply Hk. by apply lookup_lt_Some in Ht.
Qed.

Ltac step :=
  first
    [ apply lasts_throw
    | apply lasts_raise
    | apply lasts_ret
    | apply lasts_position
    | apply lasts_next
    | apply lasts_lift; intros ?;
      first [ apply NestingFacts.built_newMulDivTerm
            | apply NestingFacts.built_newAritExpr
            | apply NestingFacts.built_newComparativeRelation
            | apply NestingFacts.built_newEqualExpr ]
    | apply lasts_peek; intros ? ? ?
    | apply lasts_expect; intros ? ?
    | match goal with
      | H : ∀ i, i ≤ _ → _ → lasts ?rec i,
        L : ∀ i, i ≤ _ → lands _ (expressionFrom i) ?rec i
        |- lasts (?rec ≫= _) ?j =>
          apply (lasts_bind_lands (expressionFrom j));
          [apply L; lia|apply H; lia|intros ? ? ? ? ?]
      end ].

(** The depth to which the functions of the expressions call one
    another is at most three calls for a token. *)
Section Expressions.
Variable depth : nat.
Variables recExpression recTerm recUnary : P Expression.
Hypothesis lands_recExpression :
  ∀ i, i ≤ List.length tokens → lands tokens (expressionFrom i) recExpression i.
Hypothesis lands_recTerm :
  ∀ i, i ≤ List.length tokens → lands tokens (expressionFrom i) recTerm i.
Hypothesis lands_recUnary :
  ∀ i, i ≤ List.length tokens → lands tokens (expressionFrom i) recUnary i.
Hypothesis lasts_recExpression :
  ∀ i, i ≤ List.length tokens → 3 * (List.length tokens - i) + 3 ≤ depth →
       lasts recExpression i.
Hypothesis lasts_recTerm :
  ∀ i, i ≤ List.length tokens → 3 * (List.length tokens - i) + 2 ≤ depth →
       lasts recTerm i.
Hypothesis lasts_recUnary :
  ∀ i, i ≤ List.length tokens → 3 * (List.length tokens - i) + 1 ≤ depth →
       lasts recUnary i.

Lemma lasts_parseListElementLocation id i :
  i ≤ List.length tokens → 3 * (List.length tokens - i) ≤ depth →
  lasts (parseListElementLocation tokens recExpression id) i.
Proof. intros Hi Hd. unfold parseListElementLocation. repeat step. Qed.

Lemma lasts_parseLocation i :
  i ≤ List.length tokens → 3 * (List.length tokens - i) ≤ depth →
  lasts (parseLocation tokens recExpression) i.
Proof.
  intros Hi Hd. unfold parseLocation, syntaxErrorAt. step.
  destruct (tok_data t); try apply lasts_throw.
  step. step.
  destruct (tokenIs _ _ _); [apply lasts_parseListElementLocation; lia|].
  repeat step.
Qed.

Lemma lasts_parseFactor i :
  i ≤ List.length tokens → 3 * (List.length tokens - i) ≤ depth →
  lasts (parseFactor tokens recExpression) i.
Proof.
  intros Hi Hd. unfold parseFactor, syntaxErrorAt. step.
  destruct (tokenIs _ _ _). { unfold parseExpressionFactor. repeat step. }
  destruct (isType NUMBER_TOKEN _).
  { unfold parseNumberFactor, syntaxErrorAt. step.
    destruct (tok_data t0); try apply lasts_throw. repeat step. }
  destruct (isType BOOL_TOKEN _).
  { unfold parseBoolFactor, syntaxErrorAt. step.
    destruct (tok_data t0); try apply lasts_throw. repeat step. }
  destruct (isType ID_TOKEN _); [by apply lasts_parseLocation|].
  apply lasts_throw.
Qed.

Lemma lasts_parseUnaryBody i :
  i ≤ List.length tokens → 3 * (List.length tokens - i) ≤ depth →
  lasts (parseUnaryBody tokens recExpression recUnary) i.
Proof.
  intros Hi Hd. unfold parseUnaryBody. step.
  destruct (tokenIs _ _ _). { unfold parseNotUnary. repeat step. }
  destruct (tokenIs _ _ _). { unfold parseMinusUnary. repeat step. }
  by apply lasts_parseFactor.
Qed.

Lemma lasts_parseTermBody i :
  i ≤ List.length tokens → 3 * (List.length tokens - i) + 1 ≤ depth →
  lasts (parseTermBody tokens recTerm recUnary) i.
Proof.
  intros Hi Hd. unfold parseTermBody. step. step.
  destruct (isMulDiv _); [|by step].
  unfold parseMulDivTerm. repeat step.
Qed.

Lemma lasts_parseNumExpr i :
  i ≤ List.length tokens → 3 * (List.length tokens - i) + 2 ≤ depth →
  lasts (parseNumExpr tokens recTerm) i.
Proof.
  intros Hi Hd. unfold parseNumExpr. step. step.
  destruct (isAddSub _); [|by step].
  unfold parseAritExpr. repeat step.
Qed.

Ltac call L H :=
  match goal with
  | |- lasts (_ ≫= _) ?j =>
      apply (lasts_bind_lands (expressionFrom j));
      [apply L; [assumption|lia]|apply H; lia|intros ? ? ? ? ?]
  end.

Lemma lasts_parseRelation i :
  i ≤ List.length tokens → 3 * (List.length tokens - i) + 2 ≤ depth →
  lasts (parseRelation tokens recTerm) i.
Proof.
  intros Hi Hd. unfold parseRelation.
  call PlaceFacts.lands_parseNumExpr lasts_parseNumExpr.
  step. destruct (isComparison _); [|by step].
  unfold parseComparativeRelation. step.
  call PlaceFacts.lands_parseNumExpr lasts_parseNumExpr.
  repeat step.
Qed.

Lemma lasts_parseEquality i :
  i ≤ List.length tokens → 3 * (List.length tokens - i) + 2 ≤ depth →
  lasts (parseEquality tokens recTerm) i.
Proof.
  intros Hi Hd. unfold parseEquality.
  call PlaceFacts.lands_parseRelation lasts_parseRelation.
  step. destruct (isEqNeq _); [|by step].
  unfold parseEqualExpr. step.
  call PlaceFacts.lands_parseRelation lasts_parseRelation.
  repeat step.
Qed.

Lemma lasts_parseJoin i :
  i ≤ List.length tokens → 3 * (List.length tokens - i) + 2 ≤ depth →
  lasts (parseJoin tokens recTerm) i.
Proof.
  intros Hi Hd. unfold parseJoin.
  call PlaceFacts.lands_parseEquality lasts_parseEquality.
  step. destruct (tokenIs _ _ _); [|by step].
  unfold parseAndExpr, syntaxErrorAt. step. step.
  destruct (tokenIs _ _ _); [apply lasts_throw|].
  call PlaceFacts.lands_parseEquality lasts_parseEquality.
  repeat step.
Qed.

Lemma lasts_parseExpressionBody i :
  i ≤ List.length tokens → 3 * (List.length tokens - i) + 2 ≤ depth →
  lasts (parseExpressionBody tokens recExpression recTerm) i.
Proof.
  intros Hi Hd. unfold parseExpressionBody.
  call PlaceFacts.lands_parseJoin lasts_parseJoin.
  step. destruct (tokenIs _ _ _); [|by step].
  unfold parseOrExpr. repeat step.
Qed.

End Expressions.

Lemma lasts_expressions fuel :
  (∀ i, i ≤ List.length tokens → 3 * (List.length tokens - i) + 3 ≤ fuel →
        lasts (parseExpression tokens fuel) i)
  ∧ (∀ i, i ≤ List.length tokens → 3 * (List.length tokens - i) + 2 ≤ fuel →
          lasts (parseTerm tokens fuel) i)
  ∧ (∀ i, i ≤ List.length tokens → 3 * (List.length tokens - i) + 1 ≤ fuel →
          lasts (parseUnary tokens fuel) i).
Proof.
  induction fuel as [|n (IHe & IHt & IHu)]; [repeat split; intros; lia|].
  pose proof (PlaceFacts.lands_expressions tokens n) as (Le & Lt & Lu).
  repeat split; intros i Hi Hd; simpl.
  - apply (lasts_parseExpressionBody n); try done. lia.
  - apply (lasts_parseTermBody n); try done. lia.
  - apply (lasts_parseUnaryBody n); try done. lia.
Qed.


Lemma lasts_ret_bind {A B} (a : A) (k : A → P B) i :
  lasts (k a) i → lasts (mret a ≫= k) i.
Proof. done. Qed.

Lemma lasts_parseExpression fuel i :
  i ≤ List.length tokens → 3 * (List.length tokens - i) + 3 ≤ fuel →
  lasts (parseExpression tokens fuel) i.
Proof. apply lasts_expressions. Qed.

Lemma lands_parseExpression fuel i :
  i ≤ List.length tokens →
  lands tokens (expressionFrom i) (parseExpression tokens fuel) i.
Proof. apply PlaceFacts.lands_expressions. Qed.

Ltac expression :=
  match goal with
  | |- lasts (_ ≫= _) ?j =>
      apply (lasts_bind_lands (expressionFrom j));
      [apply lands_parseExpression; lia
      |apply lasts_parseExpression; lia
      |intros ? ? ? ? ?]
  end.

(** *** The statements, on the tokens of the lexer *)

Section Levelled.
Hypothesis tokens_levelled : levelled tokens.

Section Statements.
Variable fuel : nat.
Variable recStatement : P (option Statement).
Hypothesis fair_recStatement :
  ∀ i, i < List.length tokens → ends (statementAt tokens i) recStatement i.
Hypothesis lands_recStatement :
  ∀ i, i ≤ List.length tokens → lands tokens (resultFrom i) recStatement i.
Hypothesis lasts_recStatement :
  ∀ i, i ≤ List.length tokens → 3 * (List.length tokens - i) + 1 ≤ fuel →
       lasts recStatement i.

Lemma lasts_parsePrintStatement i :
  i ≤ List.length tokens → 3 * (List.length tokens - i) ≤ fuel →
  lasts (parsePrintStatement tokens fuel) i.
Proof. intros Hi Hd. unfold parsePrintStatement. do 2 step. expression. repeat step. Qed.

Lemma lasts_parseContinueStatement i : lasts (parseContinueStatement tokens) i.
Proof. unfold parseContinueStatement. repeat step. Qed.

Lemma lasts_parseBreakStatement i : lasts (parseBreakStatement tokens) i.
Proof. unfold parseBreakStatement. repeat step. Qed.

Lemma lasts_parseListAppendStatement i :
  i ≤ List.length tokens → 3 * (List.length tokens - i) ≤ fuel →
  lasts (parseListAppendStatement tokens fuel) i.
Proof.
  intros Hi Hd. unfold parseListAppendStatement, syntaxErrorAt. step.
  destruct (tok_data t); try apply lasts_throw.
  do 4 step. expression. repeat step.
Qed.

Lemma lasts_parseListDeclarationStatement i :
  lasts (parseListDeclarationStatement tokens) i.
Proof.
  unfold parseListDeclarationStatement, syntaxErrorAt. step.
  destruct (tok_data t); try apply lasts_throw.
  repeat step.
Qed.

Lemma lasts_parseAssignmentStatement i :
  i ≤ List.length tokens → 3 * (List.length tokens - i) ≤ fuel →
  lasts (parseAssignmentStatement tokens fuel) i.
Proof.
  intros Hi Hd. unfold parseAssignmentStatement.
  apply (lasts_bind_lands (expressionFrom i)).
  { apply PlaceFacts.lands_parseLocation; [|done]. apply lands_parseExpression. }
  { apply (lasts_parseLocation fuel); try done.
    - apply lands_parseExpression.
    - apply lasts_parseExpression. }
  intros ? ? ? ? ?. step. expression. repeat step.
Qed.

(** The loop of [parseBlock], entered with a dedentation token still to
    come, goes round at most once for a token. *)
Lemma lasts_blockLoop n : ∀ statements i,
  (1 ≤ surplus tokens i)%Z → List.length tokens - i < n →
  3 * (List.length tokens - i) + 1 ≤ fuel →
  lasts (blockLoop tokens recStatement n statements) i.
Proof.
  induction n as [|n IH]; intros statements i Hs Hn Hd; [lia|].
  destruct (NestingFacts.surplus_inside tokens tokens_levelled i Hs) as (t & Ht & Heof).
  pose proof (lookup_lt_Some _ _ _ Ht) as Hlt.
  cbn [blockLoop]. apply lasts_index. rewrite bool_decide_eq_true_2 by done.
  apply lasts_peek. intros t' Ht' _. simplify_eq.
  destruct (negb (isType INDENTATION_TOKEN t) || indentationIs true t) eqn:Hcond;
    [|apply lasts_ret].
  apply lasts_bind; [apply lasts_recStatement; lia|]. intros stmt j Heq.
  pose proof (fair_recStatement i Hlt) as He. unfold ends in He. rewrite Heq in He.
  destruct He as (Hj & Hsj & Hnone).
  pose proof (lands_recStatement i ltac:(lia)) as Hl. unfold lands in Hl.
  rewrite Heq in Hl. destruct Hl as (Hij & _ & Hres).
  destruct stmt as [s|].
  - destruct Hres as (_ & _ & Hlt'). apply IH; lia.
  - rewrite (Hnone eq_refl). apply lasts_peek. intros t' Ht' _. simplify_eq.
    destruct (negb (isType EOF_TOKEN t)) eqn:Hend.
    + apply lasts_next. apply IH; [|lia..].
      rewrite (NestingFacts.surplus_step tokens i t Ht) in Hs.
      rewrite (proj1 (NestingFacts.loop_condition t) Hcond) in Hs.
      destruct (isIndent t); lia.
    + apply negb_false_iff, NestingFacts.isType_true in Hend. done.
Qed.

Lemma lasts_parseBlock i :
  i ≤ List.length tokens → 3 * (List.length tokens - i) ≤ fuel →
  lasts (parseBlock tokens fuel recStatement) i.
Proof.
  intros Hi Hd. unfold parseBlock. step.
  apply lasts_peek. intros t' Ht' Hlt'.
  destruct (negb (isType INDENTATION_TOKEN t') || negb (indentationIs true t')) eqn:Hcond;
    [apply lasts_raise|].
  apply orb_false_iff in Hcond
    as [_ Hind%negb_false_iff%NestingFacts.indentationIs_true].
  assert (surplus tokens (S (S i)) = surplus tokens (S i) + 1)%Z as Hs.
  { rewrite (NestingFacts.surplus_step tokens (S i) t' Ht').
    unfold isDedent, isIndent. rewrite Hind. lia. }
  pose proof (proj2 tokens_levelled (S i)) as Hpos.
  step. apply lasts_bind; [apply lasts_blockLoop; lia|]. intros. repeat step.
Qed.

Lemma lasts_parseElseBlock i :
  i ≤ List.length tokens → 3 * (List.length tokens - i) ≤ fuel →
  lasts (parseElseBlock tokens fuel recStatement) i.
Proof.
  intros Hi Hd. unfold parseElseBlock. do 2 step.
  apply lasts_bind; [apply lasts_parseBlock; lia|]. intros. repeat step.
Qed.

Lemma lasts_parseElifBlock i :
  i ≤ List.length tokens → 3 * (List.length tokens - i) ≤ fuel →
  lasts (parseElifBlock tokens fuel recStatement) i.
Proof.
  intros Hi Hd. unfold parseElifBlock. step. expression. step.
  apply lasts_bind; [apply lasts_parseBlock; lia|]. intros. repeat step.
Qed.

(** The loop of the [elif] blocks goes round at most once for a token. *)
Lemma lasts_elifLoop n : ∀ blocks i,
  i ≤ List.length tokens → List.length tokens - i < n →
  3 * (List.length tokens - i) ≤ fuel →
  lasts (elifLoop tokens fuel recStatement n blocks) i.
Proof.
  induction n as [|n IH]; intros blocks i Hi Hn Hd; [lia|].
  cbn [elifLoop]. step. destruct (tokenIs _ _ _); [|apply lasts_ret].
  apply (lasts_bind_lands (blockFrom i)).
  { by apply PlaceFacts.lands_parseElifBlock. }
  { by apply lasts_parseElifBlock. }
  intros b j Hij Hj (_ & _ & Hlt). apply IH; lia.
Qed.

Lemma lasts_parseCompoundStatement i :
  i ≤ List.length tokens → 3 * (List.length tokens - i) ≤ fuel →
  lasts (parseCompoundStatement tokens fuel recStatement) i.
Proof.
  intros Hi Hd. unfold parseCompoundStatement, syntaxErrorAt. step.
  assert (∀ stype,
    lasts (mret stype ≫= λ stype : StatementType,
       next ≫= λ _, parseExpression tokens fuel ≫= λ expr,
       expect tokens (tokenIs PUNCTUATION_TOKEN PunctuationToken.COL)
         "Expected ':' in compound statement" ≫= λ _,
       parseBlock tokens fuel recStatement ≫= λ block,
       (if bool_decide (stype = IF_STMT)
        then elifLoop tokens fuel recStatement fuel [block] ≫= λ blocks,
             tokenAt tokens 0 ≫= λ t',
             if tokenIs RESERVEDKEYWORD_TOKEN ReservedKeywordToken.ELSE t'
             then parseElseBlock tokens fuel recStatement ≫= λ elseBlock,
                  mret (blocks ++ [elseBlock])
             else mret blocks
        else mret [block]) ≫= λ blocks,
       position ≫= λ pos, mret (CompoundStatement stype expr blocks pos)) i) as Hrest.
  { intros stype. apply lasts_ret_bind. step. expression. step.
    apply (lasts_bind_lands (blockFrom (S j))).
    { apply PlaceFacts.lands_parseBlock; [done|lia]. }
    { apply lasts_parseBlock; lia. }
    intros block j1 ? ? Hblock.
    apply lasts_bind; [|intros; repeat step].
    destruct (bool_decide _); [|apply lasts_ret].
    apply (lasts_bind_lands (λ _ _, True)).
    { eapply PlaceFacts.lands_weaken; [|apply (PlaceFacts.lands_elifLoop tokens fuel recStatement lands_recStatement fuel [block] j1)]; [done|lia|].
      unfold blocksBelow. simpl. rewrite andb_true_r. apply Hblock. }
    { apply lasts_elifLoop; lia. }
    intros blocks j2 ? ? _. step.
    destruct (tokenIs _ _ _); [|apply lasts_ret].
    apply lasts_bind; [apply lasts_parseElseBlock; lia|]. intros. apply lasts_ret. }
  destruct (tokenIs _ _ _); [apply Hrest|].
  destruct (tokenIs _ _ _); [apply Hrest|]. apply lasts_raise.
Qed.

Lemma lasts_parseStatementBody i :
  i ≤ List.length tokens → 3 * (List.length tokens - i) ≤ fuel →
  lasts (parseStatementBody tokens fuel recStatement) i.
Proof.
  intros Hi Hd. unfold parseStatementBody. step.
  destruct (tokenIs _ _ _); [by apply lasts_fmap, lasts_parsePrintStatement|].
  destruct (tokenIs _ _ _); [by apply lasts_fmap, lasts_parseBreakStatement|].
  destruct (tokenIs _ _ _); [by apply lasts_fmap, lasts_parseContinueStatement|].
  destruct (isType ID_TOKEN _).
  { apply lasts_ahead. intros t1.
    assert (∀ isAppend : bool,
      lasts (mret isAppend ≫= λ isAppend : bool,
        if isAppend then Some <$> parseListAppendStatement tokens fuel
        else
          (if isType ASSIGNMENT_TOKEN t1
           then tokenAt tokens 2 ≫= λ t2,
                mret (tokenIs RESERVEDKEYWORD_TOKEN ReservedKeywordToken.LIST t2)
           else mret false) ≫= λ isDeclaration : bool,
          if isDeclaration then Some <$> parseListDeclarationStatement tokens
          else Some <$> parseAssignmentStatement tokens fuel) i) as Hrest.
    { intros isAppend. apply lasts_ret_bind.
      destruct isAppend; [by apply lasts_fmap, lasts_parseListAppendStatement|].
      assert (∀ isDeclaration : bool,
        lasts (mret isDeclaration ≫= λ isDeclaration : bool,
          if isDeclaration then Some <$> parseListDeclarationStatement tokens
          else Some <$> parseAssignmentStatement tokens fuel) i) as Hrest.
      { intros isDeclaration. apply lasts_ret_bind.
        destruct isDeclaration;
          [by apply lasts_fmap, lasts_parseListDeclarationStatement|].
        by apply lasts_fmap, lasts_parseAssignmentStatement. }
      destruct (isType _ _); [|apply Hrest].
      unfold lasts, mbind, P_bind, tokenAt.
      destruct (tokens !! (i + 2)); [apply Hrest|done]. }
    destruct (tokenIs _ _ _); [|apply Hrest].
    unfold lasts, mbind, P_bind, tokenAt.
    destruct (tokens !! (i + 2)); [apply Hrest|done]. }
  destruct (tokenIs _ _ _); [by apply lasts_fmap, lasts_parseCompoundStatement|].
  destruct (tokenIs _ _ _); [by apply lasts_fmap, lasts_parseCompoundStatement|].
  apply lasts_ret.
Qed.

End Statements.

Lemma lasts_parseStatement fuel : ∀ i,
  i ≤ List.length tokens → 3 * (List.length tokens - i) + 1 ≤ fuel →
  lasts (parseStatement tokens fuel) i.
Proof.
  induction fuel as [|n IH]; intros i Hi Hd; [lia|].
  cbn [parseStatement]. apply lasts_parseStatementBody; [| | |done|lia].
  - intros. by apply NestingFacts.ends_parseStatement.
  - intros. by apply PlaceFacts.lands_parseStatement.
  - apply IH.
Qed.

(** The loop of [parseProgram] goes round at most once for a token. *)
Lemma lasts_programLoop fuel n : ∀ statements i,
  i ≤ List.length tokens → List.length tokens - i < n →
  3 * List.length tokens + 1 ≤ fuel →
  lasts (programLoop tokens fuel n statements) i.
Proof.
  induction n as [|n IH]; intros statements i Hi Hn Hd; [lia|].
  cbn [programLoop]. apply lasts_index.
  case_bool_decide as Hlt; [|apply lasts_ret].
  apply lasts_bind; [apply lasts_parseStatement; lia|]. intros stmt j Heq.
  pose proof (NestingFacts.ends_parseStatement tokens tokens_levelled fuel i Hlt) as He.
  unfold ends in He. rewrite Heq in He. destruct He as (Hj & _ & Hnone).
  pose proof (PlaceFacts.lands_parseStatement tokens fuel i Hi) as Hl.
  unfold lands in Hl. rewrite Heq in Hl. destruct Hl as (Hij & _ & Hres).
  destruct stmt as [s|].
  - destruct Hres as (_ & _ & Hlt'). apply IH; lia.
  - rewrite (Hnone eq_refl). step.
    destruct (isType _ _); [apply lasts_ret|]. step. apply IH; lia.
Qed.

(** On the tokens of the lexer the parser returns a program or throws. *)
Lemma total_parseProgram f : parseProgram tokens ≠ Crash f.
Proof.
  intros H. assert (f = UncheckedAccess) as ->.
  { unfold parseProgram, parseProgramWith in H.
    pose proof (lasts_programLoop (fuelFor tokens) (fuelFor tokens) [] 0) as Hl.
    unfold lasts in Hl.
    destruct (programLoop _ _ _ _ _) as [[statements j]| |f']; [done..|].
    injection H as ->. apply Hl; unfold fuelFor; lia. }
  by apply (NestingFacts.checked_parseProgram tokens tokens_levelled).
Qed.

End Levelled.
End WithTokens.

(** X27. On the tokens that the lexer makes of any source text the
    parser comes to an end inside the vector: it returns a program or
    throws an exception.  The loop of [parseBlock] that goes round for
    ever at the end-of-file token is not reached, and no nesting of the
    source takes the functions deeper than the tokens allow. *)
Theorem parser_returns_or_throws src toks :
  Lexer.tokenizeInputFile src = Ok toks →
  (∃ program, parseProgram toks = Ok program) ∨ (∃ e, parseProgram toks = Throw e).
Proof.
  intros Hlev%LevelFacts.tokenize_levelled.
  destruct (parseProgram toks) as [program|e|f] eqn:Hparse; [by left; eexists|by right; eexists|].
  by destruct (total_parseProgram toks Hlev f).
Qed.

Lemma parser_returns_or_throws_witness :
  ∃ toks, Lexer.tokenize "if x:" = Ok toks
          ∧ List.length toks = 4
          ∧ ((∃ program, parseProgram toks = Ok program)
             ∨ (∃ e, parseProgram toks = Throw e)).
Proof.
  eexists. split; [vm_compute; reflexivity|]. split; [reflexivity|].
  apply (parser_returns_or_throws (list_ascii_of_string "if x:")).
  vm_compute. reflexivity.
Defined.

(** Past the end of the vector the first token that an expression reads
    is not there. *)
Lemma parseExpression_outside tokens fuel i :
  List.length tokens ≤ i → 3 ≤ fuel →
  parseExpression tokens fuel i = Crash UncheckedAccess.
Proof.
  intros Hi%(lookup_ge_None_2 tokens) Hfuel.
  do 3 (destruct fuel as [|fuel]; [lia|]).
  cbn [parseExpression parseTerm parseUnary].
  unfold parseExpressionBody, parseJoin, parseEquality, parseRelation,
    parseNumExpr, mbind, P_bind.
  cbn [parseTerm]. unfold parseTermBody, mbind, P_bind.
  cbn [parseUnary]. unfold parseUnaryBody, mbind, P_bind, tokenAt.
  by rewrite Nat.add_0_r, Hi.
Qed.

(** X28. On any token vector the functions of the expressions call one
    another at most three deep for a token that is left, and three
    more: the parse of an expression comes to an end, with a result, an
    exception or a read outside the vector. *)
Theorem expressions_nest_three_calls_a_token tokens fuel i :
  3 * (List.length tokens - i) + 3 ≤ fuel →
  parseExpression tokens fuel i ≠ Crash OutOfFuel.
Proof.
  intros Hd H. destruct (decide (i ≤ List.length tokens)) as [Hi|Hi].
  - pose proof (lasts_parseExpression tokens fuel i Hi Hd) as Hl.
    unfold lasts in Hl. by rewrite H in Hl.
  - rewrite parseExpression_outside in H by lia. done.
Qed.

Lemma expressions_nest_three_calls_a_token_witness :
  ∃ toks, Lexer.tokenize "((- not 1))" = Ok toks
          ∧ List.length toks = 8
          ∧ parseExpression toks 30 0 ≠ Crash OutOfFuel.
Proof.
  eexists. split; [vm_compute; reflexivity|]. split; [reflexivity|].
  apply expressions_nest_three_calls_a_token; simpl; lia.
Defined.

End DepthFacts.
